(** * Catalog aggregation and rating normalisation: a shallow embedding

    The development follows the two utility modules of the add-on:
    the rating normaliser ([normalizeDirectRating], [normalizeViewCount],
    [normalizeRating], [calculateWeightedAverage]) and the catalog
    aggregator ([normalizeName], [similarity], [isDuplicate],
    [calculateAverageRating], [calculateMetadataScore], [mergeSeries],
    [aggregateCatalogs]).

    Conventions of the embedding.
    - A JavaScript number is [NaN], an infinity, or a finite value; finite
      doubles are idealised to exact rationals ([Q]), so binary rounding
      error is not modelled: where a double falls just below a half-way
      case that the exact value meets, [Math.round] of the platform gives
      the next lower step.  Results of arithmetic are kept in lowest
      terms; [Math.min] and [Math.max] return one of their arguments.
    - Strings are strings of 8-bit characters; case mapping and the regular
      expression classes [\w], [\s], [\d] are the ASCII ones.  On the
      platform [\s], [trim] and [toLowerCase] also act on characters
      outside ASCII (U+00A0 is white space there); the embedding follows
      the code on ASCII text.
    - A read [obj[key]] of a plain object finds the members inherited from
      [Object.prototype] where the object has no own property of that
      name; the reads of the weights and of the breakdowns follow this
      ([inherited]).
    - Objects that the code mutates or shares (series records, [providers]
      arrays, [providerSlugs] and [ratingBreakdown] objects) live in a heap
      and are handled through references. *)

From Stdlib Require Import ZArith QArith Qround Qminmax Lqa Ascii.
From stdpp Require Import gmap strings list fin_maps sorting.

Local Open Scope Q_scope.

(** ** Numbers and values *)

Inductive num : Type :=
| NaN
| NegInf
| Fin (q : Q)
| PosInf.

(** The JavaScript values that reach the engine's scalar fields. *)
Inductive value : Type :=
| VUndef
| VNull
| VBool (b : bool)
| VNum (n : num)
| VStr (s : string).

(** Finite result of an arithmetic operation, in lowest terms. *)
Definition fin (q : Q) : num := Fin (Qred q).

Definition isNaN (n : num) : bool :=
  match n with NaN => true | _ => false end.

(** Sign of an extended number that is not [NaN]. *)
Definition num_sgn (n : num) : Z :=
  match n with
  | NaN => 0
  | NegInf => -1
  | Fin q => Z.sgn (Qnum q)
  | PosInf => 1
  end.

Definition inf_of_sign (s : Z) : num :=
  match s with
  | Z0 => NaN
  | Zpos _ => PosInf
  | Zneg _ => NegInf
  end.

(** [a < b] *)
Definition num_ltb (a b : num) : bool :=
  match a, b with
  | NaN, _ | _, NaN => false
  | NegInf, NegInf => false
  | NegInf, _ => true
  | _, NegInf => false
  | PosInf, _ => false
  | Fin _, PosInf => true
  | Fin x, Fin y => negb (Qle_bool y x)
  end.

(** [a === b] on numbers *)
Definition num_eqb (a b : num) : bool :=
  match a, b with
  | NegInf, NegInf | PosInf, PosInf => true
  | Fin x, Fin y => Qeq_bool x y
  | _, _ => false
  end.

(** [a + b] *)
Definition num_add (a b : num) : num :=
  match a, b with
  | NaN, _ | _, NaN => NaN
  | Fin x, Fin y => fin (x + y)
  | PosInf, NegInf | NegInf, PosInf => NaN
  | PosInf, _ | _, PosInf => PosInf
  | NegInf, _ | _, NegInf => NegInf
  end.

(** [a * b] *)
Definition num_mul (a b : num) : num :=
  match a, b with
  | NaN, _ | _, NaN => NaN
  | Fin x, Fin y => fin (x * y)
  | _, _ => inf_of_sign (num_sgn a * num_sgn b)
  end.

(** [a / b] (the sign of a zero divisor is taken as positive) *)
Definition num_div (a b : num) : num :=
  match a, b with
  | NaN, _ | _, NaN => NaN
  | Fin x, Fin y =>
      if Qeq_bool y 0 then inf_of_sign (num_sgn a) else fin (x / y)
  | Fin _, _ => Fin 0
  | _, Fin y => inf_of_sign (num_sgn a * (if Qle_bool 0 y then 1 else -1))
  | _, _ => NaN
  end.

(** [Math.min(a, b)] and [Math.max(a, b)] *)
Definition Math_min (a b : num) : num :=
  match a, b with
  | NaN, _ | _, NaN => NaN
  | _, _ => if num_ltb b a then b else a
  end.

Definition Math_max (a b : num) : num :=
  match a, b with
  | NaN, _ | _, NaN => NaN
  | _, _ => if num_ltb a b then b else a
  end.

(** [Math.round(a)]: the integer nearest to [a], ties towards [+Infinity]. *)
Definition Math_round (a : num) : num :=
  match a with
  | Fin x => Fin (inject_Z (Qfloor (x + (1 # 2))))
  | _ => a
  end.

(** A result of type [number | null] used as an operand: [null] is
    converted to [0]. *)
Definition ToNumber (r : option num) : num := default (Fin 0) r.

(** [typeof v === 'number' && !isNaN(v)] *)
Definition numeric (v : value) : option num :=
  match v with
  | VNum n => if isNaN n then None else Some n
  | _ => None
  end.

(** ** Rating normaliser *)

Module CONFIG.
Definition VIEW_THRESHOLD : num := Fin 1000.
Definition DEFAULT_RATING : num := Fin 6.
Definition PROVIDER_WEIGHTS : gmap string num :=
  {[ "hmm"%string := Fin 5; "htv"%string := Fin 1; "hse"%string := Fin 1 ]}.
Definition VIEWS_multiplier : num := Fin (3 # 2).
Definition VIEWS_maxValue : num := Fin 7.
End CONFIG.

Definition normalizeDirectRating (rating : value) : option num :=
  match numeric rating with
  | None => None
  | Some r => Some (Math_max (Fin 0) (Math_min (Fin 10) r))
  end.

(** One entry of a [ratingBreakdown]: [{ raw, normalized, type }].  An
    absent, [undefined] or [null] [normalized] or [type] is [None]. *)
Record RatingInfo : Type := mkRatingInfo {
  raw : value;
  normalized : option num;
  type : option string
}.

(** What a [ratingBreakdown] holds under a provider key: [null], a bare
    number (the old format) or an entry object. *)
Inductive bdval : Type :=
| BNull
| BNum (n : num)
| BInfo (ri : RatingInfo).

(** [x || 'direct'] on a type tag: the empty string is falsy. *)
Definition or_direct (t : option string) : string :=
  match t with
  | Some s => if String.eqb s "" then "direct"%string else s
  | None => "direct"%string
  end.

Section RatingNormalizer.

(** [Math.log10] on a finite positive argument; a builtin of the
    platform, taken as a parameter. *)
Variable log10 : Q -> Q.

Definition Math_log10 (a : num) : num :=
  match a with
  | NaN | NegInf => NaN
  | PosInf => PosInf
  | Fin x =>
      if Qeq_bool x 0 then NegInf
      else if Qle_bool x 0 then NaN
      else fin (log10 x)
  end.

Definition normalizeViewCount (views : value) : option num :=
  match numeric views with
  | None => None
  | Some v =>
      if num_ltb v (Fin 0) then None
      else if num_ltb v CONFIG.VIEW_THRESHOLD then None
      else
        let normalized :=
          Math_min CONFIG.VIEWS_maxValue
            (num_mul (Math_log10 (num_add v (Fin 1))) CONFIG.VIEWS_multiplier) in
        Some (num_div (Math_round (num_mul normalized (Fin 10))) (Fin 10))
  end.

(** [normalizeRating(value, type = 'direct')]: an omitted or [undefined]
    [type] takes the default; the [switch] compares with [===], case
    after case. *)
Definition normalizeRating (value0 : value) (type0 : value) : option num :=
  let type0 := match type0 with VUndef => VStr "direct" | t => t end in
  match type0 with
  | VStr t =>
      if String.eqb t "direct" then normalizeDirectRating value0
      else if String.eqb t "views" then normalizeViewCount value0
      else if String.eqb t "trending" then
        match numeric value0 with
        | None => None
        | Some _ =>
            Some (Math_min (Fin (15 # 2)) (ToNumber (normalizeDirectRating value0)))
        end
      else if String.eqb t "percentage" then
        match numeric value0 with
        | None => None
        | Some v => Some (Math_max (Fin 0) (Math_min (Fin 10) (num_div v (Fin 10))))
        end
      else if String.eqb t "stars" then
        match numeric value0 with
        | None => None
        | Some v =>
            Some (Math_max (Fin 0)
                    (Math_min (Fin 10) (num_mul (num_div v (Fin 5)) (Fin 10))))
        end
      else normalizeDirectRating value0
  | _ => normalizeDirectRating value0
  end.

(** [!ratingInfo] fails for an entry object and for a non-zero number. *)
Definition bd_truthy (d : bdval) : bool :=
  match d with
  | BNull => false
  | BNum n => negb (isNaN n || num_eqb n (Fin 0))
  | BInfo _ => true
  end.

(** The body of the loop of [calculateWeightedAverage] up to the second
    [continue]: the normalised value an entry contributes, [None] when the
    entry is skipped.  A bare number has neither [normalized] nor [raw]. *)
Definition resolveNormalized (ratingInfo : bdval) : option num :=
  match ratingInfo with
  | BNull | BNum _ => None
  | BInfo ri =>
      match normalized ri with
      | Some n => Some n
      | None =>
          let type0 := or_direct (type ri) in
          match raw ri with
          | VNull | VUndef => None
          | r =>
              if String.eqb type0 "views" then normalizeViewCount r
              else if String.eqb type0 "trending" then
                Some (Math_min (Fin (15 # 2)) (ToNumber (normalizeDirectRating r)))
              else normalizeDirectRating r
          end
      end
  end.

(** The property names that every plain object inherits from
    [Object.prototype].  A read [obj[key]] of a key that is not the
    object's own finds under such a name the inherited function (under
    ["__proto__"] the prototype itself): a truthy value that is [NaN] in
    arithmetic. *)
Definition Object_prototype : list string :=
  [ "constructor"; "hasOwnProperty"; "isPrototypeOf"; "propertyIsEnumerable";
    "toLocaleString"; "toString"; "valueOf"; "__defineGetter__";
    "__defineSetter__"; "__lookupGetter__"; "__lookupSetter__"; "__proto__" ].

Definition inherited (key : string) : bool :=
  bool_decide (key ∈ Object_prototype).

(** [CONFIG.PROVIDER_WEIGHTS[provider] || 1.0].  Under an inherited name
    the read finds the inherited function, which [||] keeps: [weight] is
    not a number then, [normalized * weight] is [NaN], and
    [totalWeight += weight] turns the total into a string, which is not
    [=== 0] and under which the division stays [NaN].  The weight is [NaN]
    here for such a provider, with the same result. *)
Definition weightOf (provider : string) : num :=
  match CONFIG.PROVIDER_WEIGHTS !! provider with
  | Some w => w
  | None => if inherited provider then NaN else Fin 1
  end.

(** One iteration of the loop on the pair [(totalWeight, weightedSum)]. *)
Definition weighStep (acc : num * num) (e : string * bdval) : num * num :=
  match resolveNormalized e.2 with
  | None => acc
  | Some n =>
      let weight := weightOf e.1 in
      (num_add acc.1 weight, num_add acc.2 (num_mul n weight))
  end.

Definition calculateWeightedAverage
    (ratingBreakdown : option (gmap string bdval)) : num :=
  match ratingBreakdown with
  | None => CONFIG.DEFAULT_RATING
  | Some bd =>
      let '(totalWeight, weightedSum) :=
        foldl weighStep (Fin 0, Fin 0) (map_to_list bd) in
      if num_eqb totalWeight (Fin 0) then CONFIG.DEFAULT_RATING
      else
        let average := num_div weightedSum totalWeight in
        num_div (Math_round (num_mul average (Fin 10))) (Fin 10)
  end.

(** The entry [calculateAverageRating] writes into [normalizedBreakdown]
    for one provider, [None] when it writes none. *)
Definition renormalize (data : bdval) : option bdval :=
  match data with
  | BNull => None
  | BNum n =>
      match normalizeDirectRating (VNum n) with
      | Some nz => Some (BInfo (mkRatingInfo (VNum n) (Some nz) (Some "direct"%string)))
      | None => None
      end
  | BInfo d =>
      let type0 := or_direct (type d) in
      let nz :=
        if String.eqb type0 "views" then normalizeViewCount (raw d)
        else normalizeDirectRating (raw d) in
      match nz with
      | Some nz => Some (BInfo (mkRatingInfo (raw d) (Some nz) (Some type0)))
      | None => None
      end
  end.

Definition calculateAverageRating
    (ratingBreakdown : option (gmap string bdval)) : num :=
  match ratingBreakdown with
  | None => CONFIG.DEFAULT_RATING
  | Some bd =>
      let normalizedBreakdown := omap renormalize bd in
      calculateWeightedAverage (Some normalizedBreakdown)
  end.

End RatingNormalizer.


(** ** Strings *)

Local Open Scope char_scope.

Definition code (c : ascii) : N := N_of_ascii c.

Definition is_upper (c : ascii) : bool := ((65 <=? code c) && (code c <=? 90))%N.
Definition is_lower (c : ascii) : bool := ((97 <=? code c) && (code c <=? 122))%N.
Definition is_digit (c : ascii) : bool := ((48 <=? code c) && (code c <=? 57))%N.

(** The classes [\w] and [\s]. *)
Definition is_word (c : ascii) : bool :=
  is_upper c || is_lower c || is_digit c || (code c =? 95)%N.
Definition is_space (c : ascii) : bool :=
  ((9 <=? code c) && (code c <=? 13))%N || (code c =? 32)%N.

Definition lower (c : ascii) : ascii :=
  if is_upper c then ascii_of_N (code c + 32) else c.
Definition upper (c : ascii) : ascii :=
  if is_lower c then ascii_of_N (code c - 32) else c.

Definition chars (s : string) : list ascii := String.list_ascii_of_string s.
Definition str (l : list ascii) : string := String.string_of_list_ascii l.

Definition toLowerCase (s : string) : string := str (lower <$> chars s).
Definition toUpperCase (s : string) : string := str (upper <$> chars s).

Fixpoint trimStart (l : list ascii) : list ascii :=
  match l with
  | c :: t => if is_space c then trimStart t else l
  | [] => []
  end.

Definition trim (l : list ascii) : list ascii :=
  reverse (trimStart (reverse (trimStart l))).

(** [.replace(/\s+/g, ' ')]: [in_run] tells that the previous character
    was white space, already replaced. *)
Fixpoint collapse (in_run : bool) (l : list ascii) : list ascii :=
  match l with
  | [] => []
  | c :: t =>
      if is_space c then (if in_run then collapse true t else " " :: collapse true t)
      else c :: collapse false t
  end.

(** [kw] is a prefix of [l], letter case ignored; the rest of [l]. *)
Fixpoint after_keyword (kw l : list ascii) : option (list ascii) :=
  match kw, l with
  | [], _ => Some l
  | k :: kw', c :: l' =>
      if Ascii.eqb (lower k) (lower c) then after_keyword kw' l' else None
  | _ :: _, [] => None
  end.

(** The first alternative of [kws] after which [rest] accepts the
    remainder; the result of [rest] for it. *)
Fixpoint alternatives {A} (kws : list string) (rest : list ascii -> option A)
    (l : list ascii) : option A :=
  match kws with
  | [] => None
  | kw :: kws' =>
      match after_keyword (chars kw) l with
      | Some r =>
          match rest r with
          | Some x => Some x
          | None => alternatives kws' rest l
          end
      | None => alternatives kws' rest l
      end
  end.

(** [\s+] at the head of [l]: what follows the run. *)
Definition spaces1 (l : list ascii) : option (list ascii) :=
  match l with
  | c :: t => if is_space c then Some (trimStart t) else None
  | [] => None
  end.

(** [.replace(/^(the|a|an)\s+/i, '')] *)
Definition stripArticle (l : list ascii) : list ascii :=
  default l (alternatives ["the"; "a"; "an"]%string spaces1 l).

(** [\s*\d*$] accepts [l]. *)
Definition spacesDigitsEnd (l : list ascii) : option unit :=
  if forallb is_digit (trimStart l) then Some tt else None.

(** [\s+(episode|ep|series|season|s)\s*\d*$] matches at the head of [l]. *)
Definition markerHere (l : list ascii) : bool :=
  match spaces1 l with
  | Some r =>
      bool_decide (is_Some (alternatives
        ["episode"; "ep"; "series"; "season"; "s"]%string spacesDigitsEnd r))
  | None => false
  end.

(** [.replace(/\s+(episode|ep|series|season|s)\s*\d*$/i, '')]: the
    leftmost match runs to the end of the string. *)
Fixpoint stripMarker (l : list ascii) : list ascii :=
  if markerHere l then []
  else match l with
       | [] => []
       | c :: t => c :: stripMarker t
       end.

(** ** Name normalisation and similarity *)

Definition normalizeName (name : option string) : string :=
  match name with
  | None => ""
  | Some n =>
      if String.eqb n "" then ""%string
      else
        let l := trim (lower <$> chars n) in
        let l := filter (λ c, is_word c || is_space c || Ascii.eqb c "-") l in
        let l := collapse false l in
        str (stripMarker (stripArticle l))
  end.

(** Row [j] of the matrix after its first cell, from row [j-1] ([prev],
    whose head is the diagonal neighbour) and the cell to the left. *)
Fixpoint levenshteinRow (bj : ascii) (a : list ascii) (prev : list nat)
    (left : nat) : list nat :=
  match a, prev with
  | ai :: a', diag :: ((up :: _) as prev') =>
      let indicator := if Ascii.eqb ai bj then 0%nat else 1%nat in
      let cell := ((left + 1) `min` ((up + 1) `min` (diag + indicator)))%nat in
      cell :: levenshteinRow bj a' prev' cell
  | _, _ => []
  end.

(** The matrix row by row: row [0] is [0..a.length]; row [j] starts with
    [j]; the result is the last cell of the last row. *)
Definition levenshteinDistance (a b : string) : nat :=
  let row0 := seq 0 (S (String.length a)) in
  let step (row : list nat) (bj : ascii) :=
    let j := S (hd 0%nat row) in
    j :: levenshteinRow bj (chars a) row j in
  List.last (foldl step row0 (chars b)) 0%nat.

Definition similarity (a b : string) : Q :=
  let longer := if (String.length b <? String.length a)%nat then a else b in
  let shorter := if (String.length b <? String.length a)%nat then b else a in
  if (String.length longer =? 0)%nat then 1
  else
    let editDistance := levenshteinDistance longer shorter in
    (inject_Z (Z.of_nat (String.length longer)) - inject_Z (Z.of_nat editDistance))
    / inject_Z (Z.of_nat (String.length longer)).

(** ** Series records and the heap *)

Local Open Scope string_scope.
Local Open Scope nat_scope.

(** References are indices into the stores of the heap. *)
Abbreviation loc := nat (only parsing).

(** A series record.  Absent, [undefined] and [null] fields are [None];
    [providers], [providerSlugs] and [ratingBreakdown] hold references. *)
Record Series : Type := mkSeries {
  id : string;
  name : option string;
  poster : option string;
  description : option string;
  studio : option string;
  genres : option (list string);
  year : option num;
  rating : option num;
  ratingType : option string;
  viewCount : option num;
  providers : option loc;
  providerSlugs : option loc;
  ratingBreakdown : option loc;
  metadataScore : option nat;
  lastUpdated : option string
}.

Definition set_poster (v : option string) (s : Series) : Series :=
  mkSeries (id s) (name s) v (description s) (studio s) (genres s) (year s)
    (rating s) (ratingType s) (viewCount s) (providers s) (providerSlugs s)
    (ratingBreakdown s) (metadataScore s) (lastUpdated s).
Definition set_description (v : option string) (s : Series) : Series :=
  mkSeries (id s) (name s) (poster s) v (studio s) (genres s) (year s)
    (rating s) (ratingType s) (viewCount s) (providers s) (providerSlugs s)
    (ratingBreakdown s) (metadataScore s) (lastUpdated s).
Definition set_studio (v : option string) (s : Series) : Series :=
  mkSeries (id s) (name s) (poster s) (description s) v (genres s) (year s)
    (rating s) (ratingType s) (viewCount s) (providers s) (providerSlugs s)
    (ratingBreakdown s) (metadataScore s) (lastUpdated s).
Definition set_genres (v : option (list string)) (s : Series) : Series :=
  mkSeries (id s) (name s) (poster s) (description s) (studio s) v (year s)
    (rating s) (ratingType s) (viewCount s) (providers s) (providerSlugs s)
    (ratingBreakdown s) (metadataScore s) (lastUpdated s).
Definition set_rating (v : option num) (s : Series) : Series :=
  mkSeries (id s) (name s) (poster s) (description s) (studio s) (genres s)
    (year s) v (ratingType s) (viewCount s) (providers s) (providerSlugs s)
    (ratingBreakdown s) (metadataScore s) (lastUpdated s).
Definition set_providers (v : option loc) (s : Series) : Series :=
  mkSeries (id s) (name s) (poster s) (description s) (studio s) (genres s)
    (year s) (rating s) (ratingType s) (viewCount s) v (providerSlugs s)
    (ratingBreakdown s) (metadataScore s) (lastUpdated s).
Definition set_providerSlugs (v : option loc) (s : Series) : Series :=
  mkSeries (id s) (name s) (poster s) (description s) (studio s) (genres s)
    (year s) (rating s) (ratingType s) (viewCount s) (providers s) v
    (ratingBreakdown s) (metadataScore s) (lastUpdated s).
Definition set_ratingBreakdown (v : option loc) (s : Series) : Series :=
  mkSeries (id s) (name s) (poster s) (description s) (studio s) (genres s)
    (year s) (rating s) (ratingType s) (viewCount s) (providers s)
    (providerSlugs s) v (metadataScore s) (lastUpdated s).
Definition set_metadataScore (v : option nat) (s : Series) : Series :=
  mkSeries (id s) (name s) (poster s) (description s) (studio s) (genres s)
    (year s) (rating s) (ratingType s) (viewCount s) (providers s)
    (providerSlugs s) (ratingBreakdown s) v (lastUpdated s).
Definition set_lastUpdated (v : option string) (s : Series) : Series :=
  mkSeries (id s) (name s) (poster s) (description s) (studio s) (genres s)
    (year s) (rating s) (ratingType s) (viewCount s) (providers s)
    (providerSlugs s) (ratingBreakdown s) (metadataScore s) v.

(** The heap: one store per kind of object, a reference being an index. *)
Record heap : Type := mkHeap {
  objects : list Series;
  arrays : list (list string);
  slugMaps : list (gmap string string);
  breakdowns : list (gmap string bdval)
}.

Definition emptyHeap : heap := mkHeap [] [] [] [].

(** Computations on the heap; [None] is a reference to no object. *)
Definition M (A : Type) : Type := heap -> option (A * heap).

#[global] Instance M_ret : MRet M := λ A x h, Some (x, h).
#[global] Instance M_bind : MBind M := λ A B f m h,
  match m h with
  | Some (x, h') => f x h'
  | None => None
  end.

Definition getSeries (l : loc) : M Series :=
  λ h, (λ s, (s, h)) <$> objects h !! l.
Definition modSeries (l : loc) (f : Series -> Series) : M unit :=
  λ h, (λ s, (tt, mkHeap (<[l := f s]> (objects h)) (arrays h) (slugMaps h)
                    (breakdowns h))) <$> objects h !! l.
Definition newObject (s : Series) : M loc :=
  λ h, Some (length (objects h),
             mkHeap (objects h ++ [s]) (arrays h) (slugMaps h) (breakdowns h)).

Definition getArray (l : loc) : M (list string) :=
  λ h, (λ a, (a, h)) <$> arrays h !! l.
Definition setArray (l : loc) (a : list string) : M unit :=
  λ h, (λ _, (tt, mkHeap (objects h) (<[l := a]> (arrays h)) (slugMaps h)
                    (breakdowns h))) <$> arrays h !! l.
Definition newArray (a : list string) : M loc :=
  λ h, Some (length (arrays h),
             mkHeap (objects h) (arrays h ++ [a]) (slugMaps h) (breakdowns h)).

Definition getSlugs (l : loc) : M (gmap string string) :=
  λ h, (λ a, (a, h)) <$> slugMaps h !! l.
Definition setSlugs (l : loc) (a : gmap string string) : M unit :=
  λ h, (λ _, (tt, mkHeap (objects h) (arrays h) (<[l := a]> (slugMaps h))
                    (breakdowns h))) <$> slugMaps h !! l.
Definition newSlugs (a : gmap string string) : M loc :=
  λ h, Some (length (slugMaps h),
             mkHeap (objects h) (arrays h) (slugMaps h ++ [a]) (breakdowns h)).

Definition getBreakdown (l : loc) : M (gmap string bdval) :=
  λ h, (λ a, (a, h)) <$> breakdowns h !! l.
Definition setBreakdown (l : loc) (a : gmap string bdval) : M unit :=
  λ h, (λ _, (tt, mkHeap (objects h) (arrays h) (slugMaps h)
                    (<[l := a]> (breakdowns h)))) <$> breakdowns h !! l.
Definition newBreakdown (a : gmap string bdval) : M loc :=
  λ h, Some (length (breakdowns h),
             mkHeap (objects h) (arrays h) (slugMaps h) (breakdowns h ++ [a])).

(** A field that must hold a reference. *)
Definition deref {A} (get : loc -> M A) (r : option loc) : M A :=
  match r with
  | Some l => get l
  | None => λ _, None
  end.

Definition when (b : bool) (m : M unit) : M unit :=
  if b then m else mret tt.

(** Truthiness of optional strings and numbers. *)
Definition truthy (o : option string) : bool :=
  match o with
  | Some s => negb (String.eqb s "")
  | None => false
  end.

Definition truthyNum (o : option num) : bool :=
  match o with
  | Some n => negb (isNaN n || num_eqb n (Fin 0))
  | None => false
  end.

Definition strlen (o : option string) : nat :=
  match o with
  | Some s => String.length s
  | None => 0
  end.

(** [a || b] on optional strings. *)
Definition orElse (a b : option string) : option string :=
  if truthy a then a else b.

(** ** Metadata score *)

Definition calculateMetadataScore (series : Series) : nat :=
  let score := 0 in
  let score :=
    if truthy (description series) && (20 <? strlen (description series)) then
      score + 3
      + (if 100 <? strlen (description series) then 1 else 0)
      + (if 200 <? strlen (description series) then 1 else 0)
    else score in
  let score :=
    match genres series with
    | Some g => score + (length g `min` 5)
    | None => score
    end in
  let score :=
    if truthy (poster series) && (10 <? strlen (poster series)) then score + 2
    else score in
  let score := if truthyNum (year series) then score + 1 else score in
  let score :=
    if truthyNum (rating series) && num_ltb (Fin 0) (default NaN (rating series))
    then score + 1 else score in
  score.

Definition isDuplicate (series1 series2 : Series) : bool :=
  let name1 := normalizeName (name series1) in
  let name2 := normalizeName (name series2) in
  if String.eqb name1 name2 then true
  else
    let score := similarity name1 name2 in
    Qle_bool (9 # 10) score.

(** ** Helpers of the merge *)

(** [id.match(/^([a-z]+)-/)]: the longest run of lower-case letters at the
    head of [l], when it is not empty and a hyphen follows. *)
Fixpoint lowerRun (l : list ascii) : list ascii * list ascii :=
  match l with
  | c :: t => if is_lower c then let '(r, rest) := lowerRun t in (c :: r, rest)
              else ([], l)
  | [] => ([], [])
  end.

Definition getPrefixFromId (id0 : string) : string :=
  match lowerRun (chars id0) with
  | ((_ :: _) as r, c :: _) => if Ascii.eqb c "-" then str r else "unknown"
  | _ => "unknown"
  end.

(** [pat] is a prefix of [s]; the rest of [s]. *)
Fixpoint afterPrefix (pat s : list ascii) : option (list ascii) :=
  match pat, s with
  | [], _ => Some s
  | k :: pat', c :: s' => if Ascii.eqb k c then afterPrefix pat' s' else None
  | _ :: _, [] => None
  end.

(** [s.replace(pat, '')] for a string pattern: the first occurrence goes. *)
Fixpoint removeFirst (pat s : list ascii) : list ascii :=
  match s with
  | [] => default [] (afterPrefix pat [])
  | c :: t =>
      match afterPrefix pat s with
      | Some r => r
      | None => c :: removeFirst pat t
      end
  end.

(** [id.replace(`${prefix}-`, '')] *)
Definition slugOf (prefix id0 : string) : string :=
  str (removeFirst (chars prefix ++ ["-"%char])%list (chars id0)).

(** [[...new Set(l)]]: first occurrences, in order. *)
Definition dedupe (l : list string) : list string :=
  foldl (λ acc g, if bool_decide (g ∈ acc) then acc else (acc ++ [g])%list) [] l.

(** [g.toLowerCase() !== studioName.toLowerCase()] *)
Definition notStudio (studioName g : string) : bool :=
  negb (String.eqb (toLowerCase g) (toLowerCase studioName)).

Definition isAllCaps (s : string) : bool := String.eqb s (toUpperCase s).

(** [for (const x of l) body(x)] *)
Fixpoint forEach {A} (l : list A) (body : A -> M unit) : M unit :=
  match l with
  | [] => mret tt
  | x :: t => body x;; forEach t body
  end.

(** [obj.ratingBreakdown[key] = v] *)
Definition putEntry (obj : loc) (key : string) (v : bdval) : M unit :=
  o ← getSeries obj;
  match ratingBreakdown o with
  | Some l => bd ← getBreakdown l; setBreakdown l (<[key := v]> bd)
  | None => λ _, None
  end.

(** [!bd[key]]: where [key] is not the object's own, the read goes on to
    [Object.prototype], and an inherited name finds a function there, which
    is truthy. *)
Definition noEntry (bd : gmap string bdval) (key : string) : bool :=
  match bd !! key with
  | Some d => negb (bd_truthy d)
  | None => negb (inherited key)
  end.

(** [{ raw: r, type: t || 'direct' }] *)
Definition ratingEntry (r : num) (t : option string) : bdval :=
  BInfo (mkRatingInfo (VNum r) None (Some (or_direct t))).

(** [{ raw: v, type: 'views' }] *)
Definition viewsEntry (v : num) : bdval :=
  BInfo (mkRatingInfo (VNum v) None (Some "views")).

Section Aggregator.

Variable log10 : Q -> Q.

(** [new Date(s).getTime()], [NaN] for an invalid date; a builtin. *)
Variable getTime : string -> num.

(** [a.localeCompare(b)]; a builtin. *)
Variable localeCompare : string -> string -> Z.

Definition getMostRecentDate (dateA dateB : option string) : option string :=
  if negb (truthy dateA) && negb (truthy dateB) then None
  else if negb (truthy dateA) then dateB
  else if negb (truthy dateB) then dateA
  else
    let timeA := getTime (default "" dateA) in
    let timeB := getTime (default "" dateB) in
    if isNaN timeA then dateB
    else if isNaN timeB then dateA
    else if num_ltb timeB timeA then dateA else dateB.

(** The body of [mergeSeries], one definition for each of its commented
    blocks; [primaryPrefix] and [secondaryPrefix] are its constants. *)

(** [if (!primary.providers) primary.providers = [primaryPrefix]] *)
Definition ensureProviders (primary : loc) (primaryPrefix : string) : M unit :=
  p ← getSeries primary;
  when (bool_decide (providers p = None))
    (a ← newArray [primaryPrefix]; modSeries primary (set_providers (Some a))).

(** [if (!primary.providerSlugs) primary.providerSlugs = {...}] *)
Definition ensureSlugs (primary : loc) (primaryPrefix : string) : M unit :=
  p ← getSeries primary;
  when (bool_decide (providerSlugs p = None))
    (a ← newSlugs {[ primaryPrefix := slugOf primaryPrefix (id p) ]};
     modSeries primary (set_providerSlugs (Some a))).

(** [if (!obj.ratingBreakdown) obj.ratingBreakdown = {}], which is also
    [obj.ratingBreakdown = obj.ratingBreakdown || {}] *)
Definition ensureBreakdown (obj : loc) : M unit :=
  s ← getSeries obj;
  when (bool_decide (ratingBreakdown s = None))
    (a ← newBreakdown ∅; modSeries obj (set_ratingBreakdown (Some a))).

(** Initialize arrays and objects if they don't exist *)
Definition initPrimary (primary : loc) (primaryPrefix : string) : M unit :=
  ensureProviders primary primaryPrefix;;
  ensureSlugs primary primaryPrefix;;
  ensureBreakdown primary.

(** [if (!primary.providers.includes(x)) primary.providers.push(x)] *)
Definition pushProvider (primary : loc) (x : string) : M unit :=
  p ← getSeries primary;
  match providers p with
  | Some lp =>
      cur ← getArray lp;
      when (negb (bool_decide (x ∈ cur))) (setArray lp (cur ++ [x])%list)
  | None => λ _, None
  end.

(** [Object.assign(primary.providerSlugs, src)] *)
Definition assignSlugs (primary : loc) (src : gmap string string) : M unit :=
  p ← getSeries primary;
  match providerSlugs p with
  | Some lp => tgt ← getSlugs lp; setSlugs lp (src ∪ tgt)
  | None => λ _, None
  end.

(** [Object.assign(primary.ratingBreakdown, src)] *)
Definition assignBreakdown (primary : loc) (src : gmap string bdval) : M unit :=
  p ← getSeries primary;
  match ratingBreakdown p with
  | Some lp => tgt ← getBreakdown lp; setBreakdown lp (src ∪ tgt)
  | None => λ _, None
  end.

(** [obj.providerSlugs[key] = v] *)
Definition putSlug (obj : loc) (key v : string) : M unit :=
  o ← getSeries obj;
  match providerSlugs o with
  | Some l => cur ← getSlugs l; setSlugs l (<[key := v]> cur)
  | None => λ _, None
  end.

(** [existing.providers.forEach(...)] *)
Definition copyProviders (existing primary : loc) : M unit :=
  e ← getSeries existing;
  match providers e with
  | Some la => ps ← getArray la; forEach ps (pushProvider primary)
  | None => mret tt
  end.

(** [Object.assign(primary.providerSlugs, existing.providerSlugs)] *)
Definition copySlugs (existing primary : loc) : M unit :=
  e ← getSeries existing;
  match providerSlugs e with
  | Some le => src ← getSlugs le; assignSlugs primary src
  | None => mret tt
  end.

(** [Object.assign(primary.ratingBreakdown, src.ratingBreakdown)] *)
Definition copyBreakdown (src primary : loc) : M unit :=
  e ← getSeries src;
  match ratingBreakdown e with
  | Some le => src ← getBreakdown le; assignBreakdown primary src
  | None => mret tt
  end.

(** Copy over existing provider data if swapping primary *)
Definition copyExistingData (existing primary : loc) : M unit :=
  copyProviders existing primary;;
  copySlugs existing primary;;
  copyBreakdown existing primary.

(** Add ratings from both: the primary's rating, then its view count,
    each only when its prefix has no entry yet. *)
Definition addPrimaryRatings (primary : loc) (primaryPrefix : string) : M unit :=
  p ← getSeries primary;
  bd ← deref getBreakdown (ratingBreakdown p);
  match rating p with
  | Some r =>
      when (noEntry bd primaryPrefix)
        (putEntry primary primaryPrefix (ratingEntry r (ratingType p)))
  | None => mret tt
  end;;
  p ← getSeries primary;
  bd ← deref getBreakdown (ratingBreakdown p);
  match viewCount p with
  | Some v =>
      when (noEntry bd primaryPrefix)
        (putEntry primary primaryPrefix (viewsEntry v))
  | None => mret tt
  end.

(** The secondary's rating, then its view count, written into its own
    breakdown unconditionally. *)
Definition addSecondaryRatings (secondary : loc) (secondaryPrefix : string)
    : M unit :=
  s ← getSeries secondary;
  match rating s with
  | Some r =>
      ensureBreakdown secondary;;
      s ← getSeries secondary;
      putEntry secondary secondaryPrefix (ratingEntry r (ratingType s))
  | None => mret tt
  end;;
  s ← getSeries secondary;
  match viewCount s with
  | Some v =>
      ensureBreakdown secondary;;
      putEntry secondary secondaryPrefix (viewsEntry v)
  | None => mret tt
  end.

(** Merge rating breakdowns *)
Definition mergeRatingBreakdowns (primary secondary : loc) : M unit :=
  copyBreakdown secondary primary.

(** Merge secondary provider data *)
Definition mergeProviderData (primary secondary : loc)
    (secondaryPrefix : string) : M unit :=
  pushProvider primary secondaryPrefix;;
  s ← getSeries secondary;
  putSlug primary secondaryPrefix (slugOf secondaryPrefix (id s)).

(** Recalculate average rating *)
Definition recalculateRating (primary : loc) : M unit :=
  p ← getSeries primary;
  bd ← deref getBreakdown (ratingBreakdown p);
  modSeries primary (set_rating (Some (calculateAverageRating log10 (Some bd)))).

(** Keep best poster *)
Definition mergePoster (primary secondary : loc) : M unit :=
  p ← getSeries primary;
  s ← getSeries secondary;
  when (negb (truthy (poster p)) && truthy (poster s))
    (modSeries primary (set_poster (poster s))).

(** Keep longest description *)
Definition mergeDescription (primary secondary : loc) : M unit :=
  p ← getSeries primary;
  s ← getSeries secondary;
  when (negb (truthy (description p))
        || (truthy (description s)
            && (strlen (description p) <? strlen (description s))))
    (modSeries primary (set_description (description s))).

(** [studioName ? allGenres.filter(...) : allGenres] *)
Definition filterStudio (studioName : option string) (allGenres : list string)
    : list string :=
  match studioName with
  | Some st =>
      if truthy studioName then filter (λ g, notStudio st g) allGenres
      else allGenres
  | None => allGenres
  end.

(** Merge genres (deduplicate and filter out studio name) *)
Definition mergeGenres (primary secondary : loc) : M unit :=
  s ← getSeries secondary;
  match genres s with
  | Some _ =>
      p ← getSeries primary;
      when (bool_decide (genres p = None)) (modSeries primary (set_genres (Some [])));;
      p ← getSeries primary;
      s ← getSeries secondary;
      let allGenres := (default [] (genres p) ++ default [] (genres s))%list in
      let studioName := orElse (studio p) (studio s) in
      let filteredGenres := filterStudio studioName allGenres in
      modSeries primary (set_genres (Some (dedupe filteredGenres)))
  | None => mret tt
  end.

(** Merge studio (prefer non-null, prefer properly capitalized) *)
Definition mergeStudio (primary secondary : loc) : M unit :=
  p ← getSeries primary;
  s ← getSeries secondary;
  if negb (truthy (studio p)) && truthy (studio s) then
    modSeries primary (set_studio (studio s))
  else if truthy (studio p) && truthy (studio s) then
    let primaryAllCaps := isAllCaps (default "" (studio p)) in
    let secondaryAllCaps := isAllCaps (default "" (studio s)) in
    when (primaryAllCaps && negb secondaryAllCaps)
      (modSeries primary (set_studio (studio s)))
  else mret tt.

(** Merge lastUpdated dates (keep most recent) *)
Definition mergeLastUpdated (primary secondary : loc) : M unit :=
  p ← getSeries primary;
  s ← getSeries secondary;
  modSeries primary
    (set_lastUpdated (getMostRecentDate (lastUpdated p) (lastUpdated s))).

(** Store metadata score for sorting *)
Definition storeMetadataScore (primary : loc) : M unit :=
  p ← getSeries primary;
  modSeries primary (set_metadataScore (Some (calculateMetadataScore p))).

(** Determine primary (higher score wins); a new primary is a shallow
    copy of [newSeries]. *)
Definition choosePrimary (existing newSeries : loc) : M (loc * loc) :=
  e ← getSeries existing;
  n ← getSeries newSeries;
  let existingScore := calculateMetadataScore e in
  let newScore := calculateMetadataScore n in
  if existingScore <? newScore then
    primary ← newObject n; mret (primary, existing)
  else mret (existing, newSeries).

Definition mergeSeries (existing newSeries : loc) : M loc :=
  '(primary, secondary) ← choosePrimary existing newSeries;
  p ← getSeries primary;
  s ← getSeries secondary;
  let primaryPrefix := getPrefixFromId (id p) in
  let secondaryPrefix := getPrefixFromId (id s) in
  initPrimary primary primaryPrefix;;
  copyExistingData existing primary;;
  addPrimaryRatings primary primaryPrefix;;
  addSecondaryRatings secondary secondaryPrefix;;
  mergeRatingBreakdowns primary secondary;;
  mergeProviderData primary secondary secondaryPrefix;;
  recalculateRating primary;;
  mergePoster primary secondary;;
  mergeDescription primary secondary;;
  mergeGenres primary secondary;;
  mergeStudio primary secondary;;
  mergeLastUpdated primary secondary;;
  storeMetadataScore primary;;
  mret primary.

(** [aggregated.findIndex(s => isDuplicate(s, series))], counting from [i]. *)
Fixpoint findIndex (i : nat) (aggregated : list loc) (series : Series)
    : M (option nat) :=
  match aggregated with
  | [] => mret None
  | l :: rest =>
      s ← getSeries l;
      if isDuplicate s series then mret (Some i)
      else findIndex (S i) rest series
  end.

(** The [else] branch of the inner loop: a new accumulator entry. *)
Definition addNewSeries (series : loc) : M loc :=
  sr ← getSeries series;
  let prefix := getPrefixFromId (id sr) in
  (* Build rating breakdown with proper type info *)
  let ratingBreakdown0 : gmap string bdval :=
    match rating sr, viewCount sr with
    | Some r, _ => {[ prefix := ratingEntry r (ratingType sr) ]}
    | None, Some v => {[ prefix := viewsEntry v ]}
    | None, None => ∅
    end in
  (* Filter out studio from genres *)
  let filteredGenres :=
    match studio sr, genres sr with
    | Some st, Some g =>
        if truthy (studio sr) then Some (filter (λ x, notStudio st x) g)
        else genres sr
    | _, _ => genres sr
    end in
  a ← newArray [prefix];
  sl ← newSlugs {[ prefix := slugOf prefix (id sr) ]};
  bd ← newBreakdown ratingBreakdown0;
  newSeries ← newObject
    (mkSeries (id sr) (name sr) (poster sr) (description sr) (studio sr)
       filteredGenres (year sr) (rating sr) (ratingType sr) (viewCount sr)
       (Some a) (Some sl) (Some bd) (Some (calculateMetadataScore sr))
       (lastUpdated sr));
  (* Calculate initial rating *)
  n ← getSeries newSeries;
  b ← deref getBreakdown (ratingBreakdown n);
  modSeries newSeries (set_rating (Some (calculateAverageRating log10 (Some b))));;
  mret newSeries.

(** The body of the inner loop for one series of a catalog. *)
Definition addSeries (aggregated : list loc) (series : loc) : M (list loc) :=
  sr ← getSeries series;
  existingIndex ← findIndex 0 aggregated sr;
  match existingIndex with
  | Some i =>
      match aggregated !! i with
      | Some ex => m ← mergeSeries ex series; mret (<[i := m]> aggregated)
      | None => λ _, None
      end
  | None => n ← addNewSeries series; mret (aggregated ++ [n])%list
  end.

Fixpoint addCatalog (aggregated : list loc) (catalog : list loc)
    : M (list loc) :=
  match catalog with
  | [] => mret aggregated
  | series :: rest =>
      aggregated' ← addSeries aggregated series; addCatalog aggregated' rest
  end.

Fixpoint addCatalogs (aggregated : list loc)
    (providerCatalogs : list (string * list loc)) : M (list loc) :=
  match providerCatalogs with
  | [] => mret aggregated
  | (provider, catalog) :: rest =>
      aggregated' ← addCatalog aggregated catalog; addCatalogs aggregated' rest
  end.

(** What the comparator of the final sort reads of a record:
    [metadataScore || 0], [providers?.length || 1] and [name || '']. *)
Record SortKey : Type := mkSortKey {
  keyScore : nat;
  keyProviders : nat;
  keyName : string
}.

Definition sortKey (l : loc) : M SortKey :=
  s ← getSeries l;
  count ← match providers s with
          | Some la => a ← getArray la; mret (length a)
          | None => mret 0
          end;
  mret (mkSortKey (default 0 (metadataScore s))
          (if count =? 0 then 1 else count)
          (default "" (orElse (name s) None))).

(** The comparator [(a, b) => ...] of the final sort. *)
Definition compareSeries (a b : SortKey) : Z :=
  let scoreDiff := (Z.of_nat (keyScore b) - Z.of_nat (keyScore a))%Z in
  if negb (scoreDiff =? 0)%Z then scoreDiff
  else
    let providerDiff :=
      (Z.of_nat (keyProviders b) - Z.of_nat (keyProviders a))%Z in
    if negb (providerDiff =? 0)%Z then providerDiff
    else localeCompare (keyName a) (keyName b).

(** [Array.prototype.sort] is a stable sort: an element goes before the
    first element it does not have to follow. *)
Fixpoint insertSorted {A} (cmp : A -> A -> Z) (x : A) (l : list A) : list A :=
  match l with
  | [] => [x]
  | y :: t => if (cmp x y <=? 0)%Z then x :: l else y :: insertSorted cmp x t
  end.

Definition stableSort {A} (cmp : A -> A -> Z) (l : list A) : list A :=
  foldr (insertSorted cmp) [] l.

Fixpoint mapM {A B} (f : A -> M B) (l : list A) : M (list B) :=
  match l with
  | [] => mret []
  | x :: t => y ← f x; ys ← mapM f t; mret (y :: ys)
  end.

Definition sortAggregated (aggregated : list loc) : M (list loc) :=
  keyed ← mapM (λ l, k ← sortKey l; mret (l, k)) aggregated;
  mret (fst <$> stableSort (λ a b, compareSeries a.2 b.2) keyed).

Definition aggregateCatalogs (providerCatalogs : list (string * list loc))
    : M (list loc) :=
  aggregated ← addCatalogs [] providerCatalogs;
  sortAggregated aggregated.

End Aggregator.

(** ** Rating normaliser: building a breakdown *)

(** What [createRatingBreakdown] reads under a provider key: an object
    [{ value, type }]; an absent, [undefined] or [null] [type] is [None]. *)
Record RatingData : Type := mkRatingData {
  data_value : value;
  data_type : option string
}.

Section CreateRatingBreakdown.

Variable log10 : Q -> Q.

(** The body of the loop of [createRatingBreakdown]: the entry written for
    one provider, [None] standing for a falsy [data]. *)
Definition createEntry (data : option RatingData) : bdval :=
  match data with
  | None => BNull
  | Some d =>
      match data_value d with
      | VNull | VUndef => BNull
      | v =>
          let normalized :=
            normalizeRating log10 v (VStr (or_direct (data_type d))) in
          BInfo (mkRatingInfo v normalized (Some (or_direct (data_type d))))
      end
  end.

Definition createRatingBreakdown (ratings : gmap string (option RatingData))
    : gmap string bdval :=
  createEntry <$> ratings.

End CreateRatingBreakdown.

(** ** Date parser: comparisons of dates *)

(** [a - b] *)
Definition num_sub (a b : num) : num :=
  match a, b with
  | NaN, _ | _, NaN => NaN
  | Fin x, Fin y => fin (x - y)
  | PosInf, PosInf | NegInf, NegInf => NaN
  | PosInf, _ | _, NegInf => PosInf
  | NegInf, _ | _, PosInf => NegInf
  end.

(** [a <= b]; [a >= b] is [num_leb b a]. *)
Definition num_leb (a b : num) : bool :=
  match a, b with
  | NaN, _ | _, NaN => false
  | _, _ => negb (num_ltb b a)
  end.

Section DateParser.

(** [new Date(s).getTime()], [NaN] for an invalid date; a builtin. *)
Variable getTime : string -> num.

(** [new Date().getTime()], the time of the call; a builtin. *)
Variable now : num.

Definition isWithinDays (isoDate : option string) (days : num) : bool :=
  if negb (truthy isoDate) then false
  else
    let date := getTime (default "" isoDate) in
    if isNaN date then false
    else
      let diffMs := num_sub now date in
      let diffDays :=
        num_div diffMs
          (num_mul (num_mul (num_mul (Fin 1000) (Fin 60)) (Fin 60)) (Fin 24)) in
      num_leb (Fin 0) diffDays && num_leb diffDays days.

Definition isWithinWeek (isoDate : option string) : bool :=
  isWithinDays isoDate (Fin 7).

Definition isWithinMonth (isoDate : option string) : bool :=
  isWithinDays isoDate (Fin 30).

Definition compareDatesNewestFirst (dateA dateB : option string) : num :=
  if negb (truthy dateA) && negb (truthy dateB) then Fin 0
  else if negb (truthy dateA) then Fin 1
  else if negb (truthy dateB) then Fin (-1 # 1)
  else
    let timeA := getTime (default "" dateA) in
    let timeB := getTime (default "" dateB) in
    if isNaN timeA && isNaN timeB then Fin 0
    else if isNaN timeA then Fin 1
    else if isNaN timeB then Fin (-1 # 1)
    else num_sub timeB timeA.

End DateParser.

(** ** Stream handler: provider prefixes of a slug *)

(** [.replace(/^kw/i, '')] for a keyword [kw] *)
Definition stripPrefix (kw : string) (l : list ascii) : list ascii :=
  default l (after_keyword (chars kw) l).

Definition cleanProviderSlug (slug : string) : string :=
  let l := chars slug in
  let l := stripPrefix "hmm-" l in
  let l := stripPrefix "hse-" l in
  let l := stripPrefix "htv-" l in
  let l := stripPrefix "hentaimama-" l in
  let l := stripPrefix "hentaisea-" l in
  let l := stripPrefix "hentaitv-" l in
  let l := stripPrefix "hentai-" l in
  str l.

(** ** Series matcher: names in the form of a slug *)

Module SeriesMatcher.

(** [.replace(/\s+/g, '-')]: [in_run] tells that the previous character
    was white space, already replaced. *)
Fixpoint hyphenate (in_run : bool) (l : list ascii) : list ascii :=
  match l with
  | [] => []
  | c :: t =>
      if is_space c then
        (if in_run then hyphenate true t else "-"%char :: hyphenate true t)
      else c :: hyphenate false t
  end.

(** [.replace(/-+/g, '-')]: [in_run] tells that the previous character
    was a hyphen. *)
Fixpoint squeeze (in_run : bool) (l : list ascii) : list ascii :=
  match l with
  | [] => []
  | c :: t =>
      if Ascii.eqb c "-" then
        (if in_run then squeeze true t else "-"%char :: squeeze true t)
      else c :: squeeze false t
  end.

Definition normalizeName (name : string) : string :=
  let l := lower <$> chars name in
  let l := filter (λ c, is_word c || is_space c || Ascii.eqb c "-") l in
  let l := hyphenate false l in
  let l := squeeze false l in
  str (trim l).

End SeriesMatcher.

(** * Properties *)

(** ** Vocabulary of the statements *)

(** Two numbers denote the same value (finite ones as rationals). *)
Definition sameNum (a b : num) : Prop :=
  match a, b with
  | NaN, NaN | NegInf, NegInf | PosInf, PosInf => True
  | Fin x, Fin y => (x == y)%Q
  | _, _ => False
  end.

(** [n] clamped to the interval [[0, 10]]. *)
Definition clampTo10 (n : num) : num :=
  if num_ltb n (Fin 0) then Fin 0
  else if num_ltb (Fin 10) n then Fin 10
  else n.

Definition knownTypes : list string :=
  ["direct"; "views"; "percentage"; "stars"; "trending"].

(** [r] is [x] rounded to one decimal: the multiple of [1/10] nearest to
    [x], the upper one when two are equally near. *)
Definition roundedTo1Decimal (x r : Q) : Prop :=
  (∃ k : Z, r == inject_Z k / 10)%Q ∧ (x - (1 # 20) < r)%Q ∧ (r <= x + (1 # 20))%Q.

(** [min(7.0, log10(v + 1) * 1.5)] for a view count [v >= 1000]. *)
Definition viewScore (log10 : Q -> Q) (v : num) : Q :=
  match v with
  | Fin q => Qmin 7 (log10 (q + 1) * (3 # 2))%Q
  | _ => 7%Q
  end.

(** A sample [log10] for evaluating examples: the binary logarithm of the
    integer part, scaled by [log10 2]. *)
Definition log10_sample (x : Q) : Q :=
  (inject_Z (Z.log2 (Qfloor x)) * (30103 # 100000))%Q.


(** The sort key of the record at [l], read in the heap [h]. *)
Definition keyAt (h : heap) (l : loc) : option SortKey := fst <$> sortKey l h.

(** The order of the final sort: [metadataScore] descending, then the
    provider count descending, then [name] ascending under the locale's
    comparison. *)
Definition precedes (localeCompare : string -> string -> Z) (a b : SortKey) : Prop :=
  keyScore b < keyScore a
  ∨ (keyScore a = keyScore b
     ∧ (keyProviders b < keyProviders a
        ∨ (keyProviders a = keyProviders b
           ∧ (localeCompare (keyName a) (keyName b) <= 0)%Z))).

(** [x] and [y] compare as equal: neither has to follow the other. *)
Definition tie {A} (cmp : A -> A -> Z) (x y : A) : bool :=
  (cmp x y <=? 0)%Z && (cmp y x <=? 0)%Z.

(** The record at [l] compares as equal to the key [k]. *)
Definition tiesWith (localeCompare : string -> string -> Z) (h : heap)
    (k : SortKey) (l : loc) : bool :=
  match keyAt h l with
  | Some kl => tie (compareSeries localeCompare) k kl
  | None => false
  end.

(** A sample comparison of names for evaluating examples: by length. *)
Definition localeCompare_sample (a b : string) : Z :=
  (Z.of_nat (String.length a) - Z.of_nat (String.length b))%Z.

(** A sample clock for evaluating examples: no string is a date. *)
Definition getTime_sample (s : string) : num := NaN.

(** A record with an id, a name and genres, nothing else. *)
Definition bareSeries (id0 name0 : string) (genres0 : option (list string)) : Series :=
  mkSeries id0 (Some name0) None None None genres0 None None None None
    None None None None None.

(** A heap with three scraped records: ["Beta"] and ["Alpha"] of one
    provider and ["alpha"] of another. *)
Definition sortHeap : heap :=
  mkHeap [ bareSeries "hmm-beta" "Beta" (Some ["Drama"; "Comedy"]);
           bareSeries "hmm-alpha" "Alpha" (Some ["Drama"]);
           bareSeries "hse-alpha" "alpha" None ] [] [] [].

(** ** Relations between the heap before and after a computation *)

(** Every computation that ends, ends in a heap related to the first. *)
Definition preserves {A} (R : relation heap) (m : M A) : Prop :=
  ∀ h x h', m h = Some (x, h') → R h h'.

(** The objects of [h] are still there in [h'], with their [id] and [name]. *)
Definition identityKept (h h' : heap) : Prop :=
  ∀ l s, objects h !! l = Some s →
         ∃ s', objects h' !! l = Some s' ∧ id s' = id s ∧ name s' = name s.

(** [f] changes neither [id] nor [name]. *)
Definition keepsIdentity (f : Series -> Series) : Prop :=
  ∀ s, id (f s) = id s ∧ name (f s) = name s.

(** The name of the record at [l] normalises to the empty string. *)
Definition emptyName (h : heap) (l : loc) : bool :=
  match objects h !! l with
  | Some s => String.eqb (normalizeName (name s)) ""
  | None => false
  end.

(** Every computation that ends, ends with a result that satisfies [P]. *)
Definition yields {A} (m : M A) (P : A -> Prop) : Prop :=
  ∀ h x h', m h = Some (x, h') → P x.

(** The number of accumulated records whose name normalises to the empty
    string. *)
Definition countEmpty (h : heap) (aggregated : list loc) : nat :=
  length (filter (λ l, emptyName h l) aggregated).

(** [f] changes none of the three references of a record. *)
Definition keepsRefs (f : Series -> Series) : Prop :=
  ∀ s, providers (f s) = providers s
       ∧ providerSlugs (f s) = providerSlugs s
       ∧ ratingBreakdown (f s) = ratingBreakdown s.

(** No [providerSlugs] object of [h] is written, and no record of [h]
    gets another one. *)
Definition slugsStable (h h' : heap) : Prop :=
  (∀ l m, slugMaps h !! l = Some m → slugMaps h' !! l = Some m)
  ∧ (∀ l s le, objects h !! l = Some s → providerSlugs s = Some le →
               ∃ s', objects h' !! l = Some s' ∧ providerSlugs s' = Some le).

(** No [ratingBreakdown] object of [h] is written, and no record of [h]
    gets another one. *)
Definition breakdownsStable (h h' : heap) : Prop :=
  (∀ l m, breakdowns h !! l = Some m → breakdowns h' !! l = Some m)
  ∧ (∀ l s le, objects h !! l = Some s → ratingBreakdown s = Some le →
               ∃ s', objects h' !! l = Some s' ∧ ratingBreakdown s' = Some le).


(** The [ratingBreakdown] of the record at [l] holds [v] under [k]. *)
Definition hasEntry (l : loc) (k : string) (v : bdval) (h : heap) : Prop :=
  ∃ s lb m, objects h !! l = Some s ∧ ratingBreakdown s = Some lb
            ∧ breakdowns h !! lb = Some m ∧ m !! k = Some v.

(** The blocks of [mergeSeries] that follow the merge of the provider
    data; they write scalar fields of the primary only. *)
Definition mergeMetadata (log10 : Q -> Q) (getTime : string -> num)
    (primary secondary : loc) : M unit :=
  recalculateRating log10 primary;;
  mergePoster primary secondary;;
  mergeDescription primary secondary;;
  mergeGenres primary secondary;;
  mergeStudio primary secondary;;
  mergeLastUpdated getTime primary secondary;;
  storeMetadataScore primary.





(** The secondary's [ratingBreakdown] is the object [ls], which is not
    the primary's, and its content satisfies [P]. *)
Definition tracksEntry (primary secondary ls : loc)
    (P : gmap string bdval -> Prop) (h : heap) : Prop :=
  (∃ s, objects h !! secondary = Some s ∧ ratingBreakdown s = Some ls)
  ∧ (∀ p, objects h !! primary = Some p → ratingBreakdown p ≠ Some ls)
  ∧ (∃ m, breakdowns h !! ls = Some m ∧ P m).

(** A computation keeps [tracksEntry]. *)
Definition tracked (primary secondary ls : loc) (P : gmap string bdval -> Prop)
    (h h' : heap) : Prop :=
  tracksEntry primary secondary ls P h → tracksEntry primary secondary ls P h'.

(** The objects of [h] are still there in [h'], with their [id], [rating],
    [ratingType] and [viewCount]. *)
Definition inputsKept (h h' : heap) : Prop :=
  ∀ l s, objects h !! l = Some s →
         ∃ s', objects h' !! l = Some s' ∧ id s' = id s ∧ rating s' = rating s
               ∧ ratingType s' = ratingType s ∧ viewCount s' = viewCount s.

(** C1 as the claim has it, for one call: where the [ratingBreakdown] maps
    of the two records both hold an entry under a prefix, the merged
    [ratingBreakdown] holds the primary's. *)
Definition keepsPrimaryEntries (log10 : Q -> Q) (getTime : string -> num)
    (h : heap) (existing newSeries : loc) : Prop :=
  ∀ e n m h' lp mp ls ms k vp vs,
    objects h !! existing = Some e → objects h !! newSeries = Some n →
    mergeSeries log10 getTime existing newSeries h = Some (m, h') →
    ratingBreakdown (if calculateMetadataScore e <? calculateMetadataScore n
                     then n else e) = Some lp →
    ratingBreakdown (if calculateMetadataScore e <? calculateMetadataScore n
                     then e else n) = Some ls →
    breakdowns h !! lp = Some mp → breakdowns h !! ls = Some ms →
    mp !! k = Some vp → ms !! k = Some vs →
    hasEntry m k vp h'.

(** An accumulated record of provider [htv] with its view count in its
    breakdown, and an incoming record with the same name that carries a
    breakdown with another entry for [htv]. *)
Definition accumulatedBar : Series :=
  mkSeries "htv-bar" (Some "Bar") None None None None None (Some (Fin (28 # 5)))
    None (Some (Fin 5000)) (Some 0) (Some 0) (Some 0) (Some 0) None.

Definition incomingBar : Series :=
  mkSeries "hse-bar" (Some "Bar") None None None None None None
    None None None None (Some 1) None None.

Definition collisionHeap : heap :=
  mkHeap [ accumulatedBar; incomingBar ] [ ["htv"] ] [ {[ "htv" := "bar" ]} ]
    [ {[ "htv" := viewsEntry (Fin 5000) ]}; {[ "htv" := viewsEntry (Fin 9000) ]} ].

(** The record at [l] is not written. *)
Definition objectKept (l : loc) (h h' : heap) : Prop :=
  ∀ s, objects h !! l = Some s → objects h' !! l = Some s.





(** The record without its three references: its scalar fields. *)
Definition scalars (s : Series) : Series :=
  set_providers None (set_providerSlugs None (set_ratingBreakdown None s)).

(** The records of [h] are still there in [h'], with their scalar fields. *)
Definition scalarsKept (h h' : heap) : Prop :=
  ∀ l s, objects h !! l = Some s →
         ∃ s', objects h' !! l = Some s' ∧ scalars s' = scalars s.

(** [h] with the record at [a] replaced. *)
Definition setObject (a : loc) (p : Series) (h : heap) : heap :=
  mkHeap (<[a := p]> (objects h)) (arrays h) (slugMaps h) (breakdowns h).

(** The state in which [b] has been merged into [a]: the provider list and
    the slugs of [a] hold those of [b], every entry of [b]'s
    [ratingBreakdown] is in [a]'s, and [b]'s own holds the entry made from
    its view count or rating. *)
Definition incorporated (a b : loc) (h : heap) : Prop :=
  ∃ p n la A lsl S lp B,
    objects h !! a = Some p ∧ objects h !! b = Some n
    ∧ providers p = Some la ∧ arrays h !! la = Some A
    ∧ getPrefixFromId (id n) ∈ A
    ∧ providerSlugs p = Some lsl ∧ slugMaps h !! lsl = Some S
    ∧ S !! getPrefixFromId (id n)
      = Some (slugOf (getPrefixFromId (id n)) (id n))
    ∧ ratingBreakdown p = Some lp ∧ breakdowns h !! lp = Some B
    ∧ match ratingBreakdown n with
      | Some ls =>
          ∃ Bs, breakdowns h !! ls = Some Bs ∧ Bs ∪ B = B
            ∧ (∀ vc, viewCount n = Some vc →
                     Bs !! getPrefixFromId (id n) = Some (viewsEntry vc))
            ∧ (∀ r, rating n = Some r → viewCount n = None →
                    Bs !! getPrefixFromId (id n)
                    = Some (ratingEntry r (ratingType n)))
      | None => rating n = None ∧ viewCount n = None
      end.

(** Two optional studio names that filter the same genres: both absent or
    empty, or equal ignoring case. *)
Definition sameStudio (x y : option string) : Prop :=
  truthy x = truthy y
  ∧ toLowerCase (default "" x) = toLowerCase (default "" y).

(** The genres that [mergeGenres] leaves in a primary [p] merged with a
    secondary [s]. *)
Definition mergedGenres (p s : Series) : option (list string) :=
  match genres s with
  | Some gs =>
      Some (dedupe (filterStudio (orElse (studio p) (studio s))
                      (default [] (genres p) ++ gs)%list))
  | None => genres p
  end.

(** C5 as the claim has it: merging [b] into the result of [merge a b]
    gives the rating and the set of genres of [merge a b]. *)
Definition remergeIdempotent (log10 : Q -> Q) (getTime : string -> num)
    (h : heap) (a b : loc) : Prop :=
  ∀ m h1 p1 m2 h2 p2,
    mergeSeries log10 getTime a b h = Some (m, h1) →
    objects h1 !! m = Some p1 →
    mergeSeries log10 getTime m b h1 = Some (m2, h2) →
    objects h2 !! m2 = Some p2 →
    rating p2 = rating p1
    ∧ ∀ g, g ∈ default [] (genres p2) ↔ g ∈ default [] (genres p1).

(** An accumulated record of provider [hmm] whose studio is in capitals,
    and an incoming record of provider [hse] of another studio, which its
    scraper also lists among the genres. *)
Definition accumulatedQux : Series :=
  mkSeries "hmm-qux" (Some "Qux") None None (Some "ABC") (Some ["Romance"])
    (Some (Fin 2020)) (Some (Fin (43 # 5))) (Some "direct") None (Some 0)
    (Some 0) (Some 0) (Some 3) None.

Definition incomingQux : Series :=
  mkSeries "hse-qux" (Some "qux") None None (Some "Xyz") (Some ["Xyz"; "Drama"])
    None None None None None None None None None.

Definition studioHeap : heap :=
  mkHeap [ accumulatedQux; incomingQux ] [ ["hmm"] ] [ {[ "hmm" := "qux" ]} ]
    [ {[ "hmm" := ratingEntry (Fin (43 # 5)) (Some "direct") ]} ].

(** Two scraped records of one title: one of provider [hmm] without a
    rating, whose studio is in capitals, and one of provider [hse] with a
    view count and the same studio in another case, which its scraper also
    lists among the genres. *)
Definition unratedQux : Series :=
  mkSeries "hmm-qux" (Some "Qux") None None (Some "ABC") (Some ["Romance"])
    (Some (Fin 2020)) None None None None None None None None.

Definition viewedQux : Series :=
  mkSeries "hse-qux" (Some "qux") None None (Some "Abc") (Some ["Abc"; "Drama"])
    None None None (Some (Fin 5000)) None None None None None.

Definition unratedHeap : heap := mkHeap [ unratedQux; viewedQux ] [] [] [].

(** A record whose [ratingBreakdown] holds, in the old format, the bare
    number [0] under its own prefix, and a record with a rating. *)
Definition legacyQux : Series :=
  mkSeries "hmm-qux" (Some "Qux") None None None (Some ["Romance"])
    (Some (Fin 2020)) None None None None None (Some 0) None None.

Definition ratedQux : Series :=
  mkSeries "hse-qux" (Some "qux") None None None None None (Some (Fin 9)) None
    None None None None None None.

Definition legacyHeap : heap :=
  mkHeap [ legacyQux; ratedQux ] [] [] [ {[ "hmm" := BNum (Fin 0) ]} ].

(** The identity of a record and its three references. *)
Definition refs (s : Series) : string * option loc * option loc * option loc :=
  (id s, providers s, providerSlugs s, ratingBreakdown s).

(** ** Well-formed heaps *)

(** An optional reference points into a store. *)
Definition inStore {A} (store : list A) (r : option loc) : bool :=
  match r with
  | Some l => bool_decide (l < length store)
  | None => true
  end.

(** The references of a record point into the stores of [h]. *)
Definition refsValid (h : heap) (s : Series) : bool :=
  inStore (arrays h) (providers s) && inStore (slugMaps h) (providerSlugs s)
  && inStore (breakdowns h) (ratingBreakdown s).

(** No record of [h] holds a reference to nothing: the heaps of a running
    program. *)
Definition wellFormed (h : heap) : Prop :=
  Forall (λ s, refsValid h s = true) (objects h).

(** The stores of [h'] are those of [h] or longer, and its records keep
    the references they have. *)
Definition extends (h h' : heap) : Prop :=
  length (objects h) <= length (objects h')
  ∧ length (arrays h) <= length (arrays h')
  ∧ length (slugMaps h) <= length (slugMaps h')
  ∧ length (breakdowns h) <= length (breakdowns h')
  ∧ ∀ l s, objects h !! l = Some s →
      ∃ s', objects h' !! l = Some s'
        ∧ (is_Some (providers s) → is_Some (providers s'))
        ∧ (is_Some (providerSlugs s) → is_Some (providerSlugs s'))
        ∧ (is_Some (ratingBreakdown s) → is_Some (ratingBreakdown s')).

(** A step from a well-formed heap to a well-formed heap that extends it. *)
Definition safeStep (h h' : heap) : Prop :=
  (wellFormed h → wellFormed h') ∧ extends h h'.

(** The record at [a] has its provider list, its slugs and its rating
    breakdown. *)
Definition ready (a : loc) (h : heap) : Prop :=
  ∃ p, objects h !! a = Some p ∧ is_Some (providers p)
       ∧ is_Some (providerSlugs p) ∧ is_Some (ratingBreakdown p).

(** The computation [m] returns from [h], by a safe step, a value and a
    heap that satisfy [Q]. *)
Definition returns {A} (h : heap) (m : M A) (Q : A -> heap -> Prop) : Prop :=
  ∃ x h', m h = Some (x, h') ∧ safeStep h h' ∧ Q x h'.

(** ** Averages *)

(** The end of [calculateWeightedAverage], on the totals of the loop. *)
Definition averageOf (totals : num * num) : num :=
  if num_eqb totals.1 (Fin 0) then CONFIG.DEFAULT_RATING
  else
    num_div (Math_round (num_mul (num_div totals.2 totals.1) (Fin 10))) (Fin 10).

(** An entry with a cached normalised value between [0] and [10], as
    [calculateAverageRating] writes them. *)
Definition graded (d : bdval) : Prop :=
  ∃ r q t, d = BInfo (mkRatingInfo r (Some (Fin q)) t) ∧ (0 <= q)%Q ∧ (q <= 10)%Q.

(** Totals of the loop that are finite, with a sum between [0] and ten
    times the weight, and a weight that is [0] or at least [1]. *)
Definition bounded (totals : num * num) : Prop :=
  ∃ w s, totals = (Fin w, Fin s)
         ∧ (0 <= s)%Q ∧ (s <= 10 * w)%Q ∧ ((w == 0)%Q ∨ (1 <= w)%Q).

(** [h] with the [ratingBreakdown] object at [l] replaced. *)
Definition setCell (l : loc) (bd : gmap string bdval) (h : heap) : heap :=
  mkHeap (objects h) (arrays h) (slugMaps h) (<[l := bd]> (breakdowns h)).

(** What the incoming record [n] and its [ratingBreakdown] hold once its
    rating or view count has been written there. *)
Definition rated (n : Series) (h : heap) : Prop :=
  match ratingBreakdown n with
  | Some ls =>
      ∃ Bs, breakdowns h !! ls = Some Bs
        ∧ (∀ vc, viewCount n = Some vc →
                 Bs !! getPrefixFromId (id n) = Some (viewsEntry vc))
        ∧ (∀ r, rating n = Some r → viewCount n = None →
                Bs !! getPrefixFromId (id n)
                = Some (ratingEntry r (ratingType n)))
  | None => rating n = None ∧ viewCount n = None
  end.

(** No key of the map is a name inherited from [Object.prototype]: under
    every key of the map, a read finds what the map holds, and under every
    other key that is not inherited, nothing. *)
Definition plainKeys {A} (m : gmap string A) : Prop :=
  ∀ k, is_Some (m !! k) → inherited k = false.

(** ** Ranges of ratings *)

(** The value an entry contributes to the weighted average, when it
    contributes one, is a finite number between [0] and [10]. *)
Definition ranged (log10 : Q -> Q) (d : bdval) : Prop :=
  ∀ n, resolveNormalized log10 d = Some n →
       ∃ q, n = Fin q ∧ (0 <= q)%Q ∧ (q <= 10)%Q.

(** A number of the rating scale with one decimal: [k / 10] for an integer
    [k] from [0] to [100]. *)
Definition onScale (n : num) : Prop :=
  ∃ k : Z, (0 <= k <= 100)%Z ∧ n = fin (inject_Z k / 10).

(** The cached [normalized] values of a breakdown are finite numbers
    between [0] and [10]. *)
Definition cacheInRange (bd : gmap string bdval) : Prop :=
  ∀ p ri n, bd !! p = Some (BInfo ri) → normalized ri = Some n →
            ∃ q, n = Fin q ∧ (0 <= q)%Q ∧ (q <= 10)%Q.

(** ** Dates *)

(** The clock gives a finite time or [NaN], as [Date.prototype.getTime]
    does. *)
Definition finiteTimes (getTime : string -> num) : Prop :=
  ∀ s, getTime s = NaN ∨ ∃ q, getTime s = Fin q.

(** A sample clock for evaluating examples: the length of the string, in
    days, for a string that starts with a digit. *)
Definition getTime_days (s : string) : num :=
  match chars s with
  | c :: _ =>
      if is_digit c then
        Fin (inject_Z (Z.of_nat (String.length s) * 86400000))
      else NaN
  | [] => NaN
  end.

(** ** Slugs *)

(** The prefixes that [cleanProviderSlug] removes, in its order. *)
Definition providerPrefixes : list string :=
  ["hmm-"; "hse-"; "htv-"; "hentaimama-"; "hentaisea-"; "hentaitv-"; "hentai-"].

(** [s] begins with [kw], letter case ignored. *)
Definition startsWith (kw s : string) : Prop :=
  is_Some (after_keyword (chars kw) (chars s)).

(** A character of a slug: a lower-case letter, a digit, an underscore or
    a hyphen. *)
Definition slugChar (c : ascii) : bool :=
  is_lower c || is_digit c || (code c =? 95)%N || Ascii.eqb c "-".

(** ** Edit distance *)

(** The edit distance of two strings by its recurrence: the least number
    of insertions, deletions and substitutions of a character, one
    character of each string at a time. *)
Fixpoint editDistance (a : list ascii) : list ascii -> nat :=
  fix editDistance_a (b : list ascii) : nat :=
    match a, b with
    | [], _ => length b
    | _, [] => length a
    | x :: a', y :: b' =>
        (editDistance a' b + 1)
        `min` ((editDistance_a b' + 1)
               `min` (editDistance a' b' + (if Ascii.eqb x y then 0 else 1)))
    end.

(** The cell of the matrix of [levenshteinDistance] for the beginnings [x]
    of the first string and [y] of the second. *)
Definition cellOf (x y : list ascii) : nat :=
  editDistance (reverse x) (reverse y).

(** Row [y] of the matrix for the first string [a], after its beginning
    [a1]. *)
Definition rowOf (a1 a2 y : list ascii) (start len : nat) : list nat :=
  (λ i, cellOf (a1 ++ take i a2) y) <$> seq start len.

(** ** The record that a merge leaves *)

(** The blocks of [mergeSeries] for the poster, the description, the
    genres and the studio, as functions of the secondary [s] and the
    primary [p]. *)
Definition withPoster (s p : Series) : Series :=
  if negb (truthy (poster p)) && truthy (poster s)
  then set_poster (poster s) p else p.

Definition withDescription (s p : Series) : Series :=
  if negb (truthy (description p))
     || (truthy (description s)
         && (strlen (description p) <? strlen (description s)))
  then set_description (description s) p else p.

Definition withGenres (s p : Series) : Series :=
  match genres s with
  | Some _ => set_genres (mergedGenres p s) p
  | None => p
  end.

Definition withStudio (s p : Series) : Series :=
  if negb (truthy (studio p)) && truthy (studio s)
  then set_studio (studio s) p
  else if truthy (studio p) && truthy (studio s)
          && (isAllCaps (default "" (studio p))
              && negb (isAllCaps (default "" (studio s))))
  then set_studio (studio s) p else p.

(** The primary [p] after the blocks that follow the merge of the
    provider data, for the secondary [s] and the average [r] over the
    merged breakdown. *)
Definition mergedRecord (getTime : string -> num) (r : num) (s p : Series)
    : Series :=
  let p := set_rating (Some r) p in
  let p := withPoster s p in
  let p := withDescription s p in
  let p := withGenres s p in
  let p := withStudio s p in
  let p :=
    set_lastUpdated (getMostRecentDate getTime (lastUpdated p) (lastUpdated s))
      p in
  set_metadataScore (Some (calculateMetadataScore p)) p.

(** The record of the heap that a merge of [existing] with [newSeries]
    makes its primary, and the one left as the secondary. *)
Definition primaryOf (e n : Series) : Series :=
  if calculateMetadataScore e <? calculateMetadataScore n then n else e.

Definition secondaryOf (e n : Series) : Series :=
  if calculateMetadataScore e <? calculateMetadataScore n then e else n.

(** [g] is the studio name [sn], letter case ignored. *)
Definition isStudioName (sn : option string) (g : string) : Prop :=
  truthy sn = true ∧ toLowerCase g = toLowerCase (default "" sn).

(** ** The records of the aggregated catalog *)

(** The rating breakdown that a series is seeded with: its rating, or
    else its view count, under its provider prefix. *)
Definition seedBreakdown (sr : Series) : gmap string bdval :=
  match rating sr, viewCount sr with
  | Some r, _ => {[ getPrefixFromId (id sr) := ratingEntry r (ratingType sr) ]}
  | None, Some v => {[ getPrefixFromId (id sr) := viewsEntry v ]}
  | None, None => ∅
  end.

(** The genres that a series is seeded with: its genres other than its
    studio. *)
Definition seedGenres (sr : Series) : option (list string) :=
  match studio sr, genres sr with
  | Some st, Some g =>
      if truthy (studio sr) then Some (filter (λ x, notStudio st x) g)
      else genres sr
  | _, _ => genres sr
  end.

(** The record that a series [sr] is seeded with, its provider list, slugs
    and breakdown being at [a], [sl] and [bd]. *)
Definition seedRecord (log10 : Q -> Q) (sr : Series) (a sl bd : loc) : Series :=
  mkSeries (id sr) (name sr) (poster sr) (description sr) (studio sr)
    (seedGenres sr) (year sr)
    (Some (calculateAverageRating log10 (Some (seedBreakdown sr))))
    (ratingType sr) (viewCount sr) (Some a) (Some sl) (Some bd)
    (Some (calculateMetadataScore sr)) (lastUpdated sr).

(** The heap after a series [sr] has been seeded. *)
Definition seeded (log10 : Q -> Q) (sr : Series) (h : heap) : heap :=
  mkHeap
    (objects h
     ++ [seedRecord log10 sr (length (arrays h)) (length (slugMaps h))
           (length (breakdowns h))])
    (arrays h ++ [[getPrefixFromId (id sr)]])
    (slugMaps h
     ++ [{[ getPrefixFromId (id sr)
            := slugOf (getPrefixFromId (id sr)) (id sr) ]}])
    (breakdowns h ++ [seedBreakdown sr]).

(** A record as the aggregation leaves it: with a rating of the scale, a
    stored score, a provider list, slugs and a breakdown. *)
Definition complete (s : Series) : Prop :=
  (∃ r, rating s = Some r ∧ onScale r) ∧ is_Some (metadataScore s)
  ∧ is_Some (providers s) ∧ is_Some (providerSlugs s)
  ∧ is_Some (ratingBreakdown s).

(** The accumulated records are objects that the aggregation has made,
    from the reference [first] on, and are complete. *)
Definition accumulated (first : nat) (h : heap) (aggregated : list loc) : Prop :=
  Forall (λ l, first <= l ∧ ∃ s, objects h !! l = Some s ∧ complete s)
    aggregated.

(** The records of the catalogs are objects of the heap [h]. *)
Definition scraped (h : heap) (providerCatalogs : list (string * list loc))
    : Prop :=
  Forall (λ pc, Forall (λ l, is_Some (objects h !! l)) pc.2) providerCatalogs.

(** A record with every kind of metadata: a description of 201
    characters, five genres, a poster, a year and a rating. *)
Definition fullSeries : Series :=
  mkSeries "hmm-full" (Some "Full") (Some "https://x/p.jpg")
    (Some (str (replicate 201 "a"%char))) (Some "Studio")
    (Some ["A"; "B"; "C"; "D"; "E"]) (Some (Fin 2020)) (Some (Fin 8))
    None None None None None None None.

(** ** Provider lists *)

(** No provider list of [h] loses a provider, and no record of [h] gets
    another list. *)
Definition providersGrow (h h' : heap) : Prop :=
  (∀ l A, arrays h !! l = Some A → ∃ A', arrays h' !! l = Some A' ∧ A ⊆ A')
  ∧ (∀ l s la, objects h !! l = Some s → providers s = Some la →
               ∃ s', objects h' !! l = Some s' ∧ providers s' = Some la).

(** The provider list of the record at [l] holds [x]. *)
Definition hasProvider (l : loc) (x : string) (h : heap) : Prop :=
  ∃ s la A, objects h !! l = Some s ∧ providers s = Some la
            ∧ arrays h !! la = Some A ∧ x ∈ A.

(** ** Samples *)

(** A breakdown with one cached entry, and ratings of one provider given
    in per cent. *)
Definition cachedBreakdown : gmap string bdval :=
  {[ "hmm" := BInfo (mkRatingInfo (VNum (Fin 8)) (Some (Fin 8)) (Some "direct")) ]}.

Definition percentRatings : gmap string (option RatingData) :=
  {[ "hmm" := Some (mkRatingData (VNum (Fin 85)) (Some "percentage")) ]}.

(** A breakdown with an entry under a key that every object inherits. *)
Definition inheritedBreakdown : gmap string bdval :=
  {[ "constructor"
     := BInfo (mkRatingInfo (VNum (Fin 8)) (Some (Fin 8)) (Some "direct")) ]}.

(** A breakdown in the old format, with a bare number out of the scale, and
    an entry whose cached value is out of the scale. *)
Definition legacyBreakdown : gmap string bdval :=
  {[ "hmm" := BNum (Fin 12);
     "htv" := BInfo (mkRatingInfo (VNum (Fin 5000)) (Some (Fin 99))
                       (Some "views")) ]}.

(** ** Keys inherited from [Object.prototype] *)

(** No [ratingBreakdown] object of the heap has a key that is a name
    inherited from [Object.prototype]. *)
Definition plainBreakdowns (h : heap) : Prop :=
  ∀ l B, breakdowns h !! l = Some B → plainKeys B.

(** A computation leaves the breakdowns without inherited keys. *)
Definition staysPlain (h h' : heap) : Prop :=
  plainBreakdowns h → plainBreakdowns h'.

(** The provider prefix of the record at [l] is no inherited name: the id
    does not begin with [constructor-]. *)
Definition plainPrefix (h : heap) (l : loc) : Prop :=
  ∀ s, objects h !! l = Some s → inherited (getPrefixFromId (id s)) = false.

(** The accumulated records are objects that the aggregation has made,
    from the reference [first] on, complete, and with ids whose provider
    prefix is no inherited name. *)
Definition settled (first : nat) (h : heap) (aggregated : list loc) : Prop :=
  Forall (λ l, first <= l
               ∧ ∃ s, objects h !! l = Some s ∧ complete s
                      ∧ inherited (getPrefixFromId (id s)) = false)
    aggregated.

(** The records of the catalogs have ids whose provider prefix is no
    inherited name: no id begins with [constructor-]. *)
Definition plainIds (h : heap) (providerCatalogs : list (string * list loc))
    : Prop :=
  Forall (λ pc, Forall (plainPrefix h) pc.2) providerCatalogs.

(** ** The records with an empty normalised name *)

(** The record at [l] keeps its id, its name and its provider list. *)
Definition scrapedKept (l : loc) (h h' : heap) : Prop :=
  ∀ s, objects h !! l = Some s →
       ∃ s', objects h' !! l = Some s' ∧ id s' = id s ∧ name s' = name s
             ∧ providers s' = providers s.

(** The records of the catalogs come from the scrapers without a provider
    list. *)
Definition unlisted (h : heap) (providerCatalogs : list (string * list loc))
    : Prop :=
  Forall (λ pc, Forall (λ l, ∀ s, objects h !! l = Some s → providers s = None)
                  pc.2)
    providerCatalogs.

(** Every accumulated record whose name normalises to the empty string
    lists the provider of every record of [seen] whose name, in the heap
    [h0] of the scrapers, normalises to the empty string. *)
Definition emptyListed (h0 h : heap) (aggregated seen : list loc) : Prop :=
  ∀ m l s, m ∈ aggregated → emptyName h m = true →
           l ∈ seen → objects h0 !! l = Some s → normalizeName (name s) = "" →
           hasProvider m (getPrefixFromId (id s)) h.

(** A heap with two scraped records, one named by an article only and one
    by an episode marker only. *)
Definition articleHeap : heap :=
  mkHeap [ bareSeries "hmm-a" "The" None;
           bareSeries "hse-b" "Episode 1" None ] [] [] [].

(** A heap with three scraped records of three providers: two with a name
    made of stripped characters only, the second with more metadata than
    the first, and one without a name. *)
Definition namelessHeap : heap :=
  mkHeap [ bareSeries "hmm-x" "!!!" None;
           bareSeries "hse-y" "???" (Some ["Drama"]);
           mkSeries "htv-z" None None None None None None None None None
             None None None None None ] [] [] [].

(** What the loop of the aggregation keeps about the records whose name
    normalises to the empty string.  The heap [h0] is the heap of the
    scrapers, whose records lie below [first]; [seen] are the records
    that the loop has taken.  The accumulated records are objects made by
    the aggregation, at most one of them has such a name, and one has
    once such a record has been seen; the records of the scrapers keep
    their id, their name and their provider list. *)
Definition collapsing (first : nat) (h0 h : heap) (aggregated seen : list loc)
    : Prop :=
  wellFormed h
  ∧ first <= length (objects h)
  ∧ Forall (λ l, first <= l ∧ is_Some (objects h !! l)) aggregated
  ∧ countEmpty h aggregated <= 1
  ∧ (∀ l s0, l < first → objects h0 !! l = Some s0 →
             ∃ s, objects h !! l = Some s ∧ id s = id s0 ∧ name s = name s0
                  ∧ providers s = providers s0)
  ∧ (∀ l s, l ∈ seen → objects h0 !! l = Some s →
            normalizeName (name s) = "" → 0 < countEmpty h aggregated)
  ∧ emptyListed h0 h aggregated seen.

(** An ASCII character that [.replace(/[^\w\s-]/g, '')] removes. *)
Definition stripped (c : ascii) : bool :=
  (code c <? 128)%N && negb (is_word c || is_space c || Ascii.eqb c "-").

(** A name that is missing, empty, or made of such characters only. *)
Definition nameless (name : option string) : Prop :=
  match name with
  | None => True
  | Some n => Forall (λ c, stripped c = true) (chars n)
  end.

(** Ratings of one provider with a trending position that is no number. *)
Definition trendingRatings : gmap string (option RatingData) :=
  {[ "hse" := Some (mkRatingData (VNum NaN) (Some "trending")) ]}.

(** ** Arithmetic lemmas *)

Lemma Qle_bool_false (x y : Q) : Qle_bool x y = false ↔ (y < x)%Q.
Proof.
  split; intros H.
  - apply Qnot_le_lt. intros Hle. apply Qle_bool_iff in Hle. congruence.
  - destruct (Qle_bool x y) eqn:E; [|done].
    apply Qle_bool_iff in E. exfalso. eapply Qlt_not_le; eauto.
Qed.

Ltac case_Qle :=
  repeat match goal with
  | |- context [Qle_bool ?x ?y] =>
      let E := fresh "E" in
      destruct (Qle_bool x y) eqn:E;
      [apply Qle_bool_iff in E | apply Qle_bool_false in E]
  | |- context [Qeq_bool ?x ?y] =>
      let E := fresh "E" in
      destruct (Qeq_bool x y) eqn:E;
      [apply Qeq_bool_iff in E | apply Qeq_bool_neq in E]
  end.

(** [lra] on goals with a division by the constant [10]. *)
Ltac lra10 :=
  unfold Qdiv in *; change (/ 10)%Q with (1 # 10)%Q in *; lra.

Lemma sameNum_refl (a : num) : sameNum a a.
Proof. destruct a; simpl; auto. reflexivity. Qed.

Lemma clamp_direct (n : num) :
  isNaN n = false →
  sameNum (Math_max (Fin 0) (Math_min (Fin 10) n)) (clampTo10 n).
Proof.
  destruct n as [| |q|]; intros Hn; try discriminate.
  - cbv. reflexivity.
  - unfold clampTo10, Math_max, Math_min, num_ltb; simpl.
    case_Qle; simpl; case_Qle; simpl; try reflexivity; try lra.
  - cbv. reflexivity.
Qed.

Lemma numeric_Some (v : value) (n : num) :
  numeric v = Some n → v = VNum n ∧ isNaN n = false.
Proof.
  destruct v as [| | |m|]; simpl; try discriminate.
  destruct (isNaN m) eqn:E; [discriminate|]. intros [= ->]. done.
Qed.

(** C10: for a type tag outside the five known ones, and for an omitted
    one, [normalizeRating] applies the rule of ['direct']: a numeric value
    is returned clamped to [[0, 10]], any other value (and [NaN]) gives
    [null]; the result is never [null] for a numeric value. *)
Theorem normalizeRating_unknown_type (log10 : Q -> Q) (v ty : value) :
  (∀ s, s ∈ knownTypes → ty ≠ VStr s) →
  normalizeRating log10 v ty = normalizeDirectRating v
  ∧ option_Forall2 sameNum (normalizeRating log10 v ty) (clampTo10 <$> numeric v).
Proof.
  intros Hty.
  assert (Heq : normalizeRating log10 v ty = normalizeDirectRating v).
  { unfold normalizeRating. destruct ty as [| | | |t]; try reflexivity.
    assert (Hne : ∀ s, s ∈ knownTypes → String.eqb t s = false).
    { intros s Hs. apply String.eqb_neq. intros ->. by apply (Hty s). }
    rewrite !Hne; [reflexivity| unfold knownTypes; set_solver ..]. }
  split; [exact Heq|]. rewrite Heq. unfold normalizeDirectRating.
  destruct (numeric v) as [n|] eqn:E; simpl; constructor.
  apply clamp_direct. by apply numeric_Some in E as [_ ?].
Qed.

Lemma normalizeRating_unknown_type_witness :
  (∀ s, s ∈ knownTypes → VStr "score" ≠ VStr s)
  ∧ normalizeRating log10_sample (VNum (Fin 11)) (VStr "score")
    = normalizeDirectRating (VNum (Fin 11))
  ∧ option_Forall2 sameNum
      (normalizeRating log10_sample (VNum (Fin 11)) (VStr "score"))
      (clampTo10 <$> numeric (VNum (Fin 11))).
Proof.
  assert (H : ∀ s, s ∈ knownTypes → VStr "score" ≠ VStr s).
  { intros s Hs [= <-]. unfold knownTypes in Hs.
    repeat (apply elem_of_cons in Hs as [Hs|Hs]; [discriminate|]).
    by apply elem_of_nil in Hs. }
  split; [exact H|].
  exact (normalizeRating_unknown_type log10_sample (VNum (Fin 11)) (VStr "score") H).
Defined.

(** Rounding to one decimal as the code does it. *)
Lemma round1_spec (a : Q) :
  ∃ r, num_div (Math_round (num_mul (Fin a) (Fin 10))) (Fin 10) = Fin r
       ∧ roundedTo1Decimal a r
       ∧ ((a <= 7)%Q → (r <= 7)%Q).
Proof.
  unfold num_mul, Math_round, num_div, fin. simpl.
  set (k := Qfloor (Qred (a * 10) + (1 # 2))).
  exists (Qred (inject_Z k / 10)). split; [reflexivity|].
  pose proof (Qfloor_le (Qred (a * 10) + (1 # 2))) as Hlo.
  pose proof (Qlt_floor (Qred (a * 10) + (1 # 2))) as Hhi.
  fold k in Hlo, Hhi. rewrite inject_Z_plus in Hhi.
  assert (Hkdef : k = Qfloor (Qred (a * 10) + (1 # 2))) by reflexivity.
  clearbody k.
  rewrite Qred_correct in Hlo, Hhi.
  split; [split; [|split]|].
  - exists k. apply Qred_correct.
  - rewrite Qred_correct. change (inject_Z 1) with 1%Q in Hhi. lra10.
  - rewrite Qred_correct. lra10.
  - intros Hb. rewrite Qred_correct.
    assert (Hk : (k <= 70)%Z).
    { apply Z.lt_succ_r. rewrite Zlt_Qlt.
      change (inject_Z (Z.succ 70)) with 71%Q. lra10. }
    rewrite Zle_Qle in Hk. change (inject_Z 70) with 70%Q in Hk. lra10.
Qed.

Lemma roundedTo1Decimal_eq (x y r : Q) :
  (x == y)%Q → roundedTo1Decimal x r → roundedTo1Decimal y r.
Proof.
  intros E (Hk & Hlo & Hhi). split; [exact Hk|]. split; lra.
Qed.

Lemma numeric_not_NaN (v : value) (n : num) : numeric v = Some n → n ≠ NaN.
Proof. intros H ->. by apply numeric_Some in H as [_ ?]. Qed.

Lemma normalizeViewCount_num (log10 : Q -> Q) (v : num) :
  (∀ x y, (x == y)%Q → (log10 x == log10 y)%Q) →
  isNaN v = false → num_ltb v (Fin 0) = false → num_ltb v (Fin 1000) = false →
  ∃ r, normalizeViewCount log10 (VNum v) = Some (Fin r)
       ∧ roundedTo1Decimal (viewScore log10 v) r ∧ (r <= 7)%Q.
Proof.
  intros Hlog Hnan Hneg Hthr.
  unfold normalizeViewCount, numeric. rewrite Hnan.
  unfold CONFIG.VIEW_THRESHOLD, CONFIG.VIEWS_maxValue, CONFIG.VIEWS_multiplier.
  rewrite Hneg, Hthr.
  destruct v as [| |q|]; try discriminate.
  - apply negb_false_iff, Qle_bool_iff in Hthr.
    assert (Hq1 : (1001 <= Qred (q + 1))%Q) by (rewrite Qred_correct; lra).
    unfold num_add, Math_log10, fin.
    destruct (Qeq_bool (Qred (q + 1)) 0) eqn:E0;
      [apply Qeq_bool_iff in E0; lra|].
    destruct (Qle_bool (Qred (q + 1)) 0) eqn:E1;
      [apply Qle_bool_iff in E1; lra|].
    unfold num_mul, fin.
    set (m := Qred (Qred (log10 (Qred (q + 1))) * (3 # 2))).
    assert (Hm : (m == log10 (q + 1) * (3 # 2))%Q).
    { unfold m. rewrite !Qred_correct.
      rewrite (Hlog (Qred (q + 1)) (q + 1)%Q (Qred_correct _)). reflexivity. }
    unfold Math_min, num_ltb.
    destruct (Qle_bool 7 m) eqn:E7; simpl negb; cbv iota.
    + apply Qle_bool_iff in E7.
      destruct (round1_spec 7) as (r & Hr & Hround & Hle).
      exists r. split; [by rewrite <- Hr|]. split.
      * eapply roundedTo1Decimal_eq; [|exact Hround]. unfold viewScore.
        symmetry. apply Q.min_l. lra.
      * apply Hle. lra.
    + apply Qle_bool_false in E7.
      destruct (round1_spec m) as (r & Hr & Hround & Hle).
      exists r. split; [by rewrite <- Hr|]. split.
      * eapply roundedTo1Decimal_eq; [|exact Hround]. unfold viewScore.
        rewrite Q.min_r by lra. exact Hm.
      * apply Hle. lra.
  - simpl. destruct (round1_spec 7) as (r & Hr & Hround & Hle).
    exists r. split; [exact (f_equal Some Hr)|]. split; [exact Hround|].
    apply Hle. lra.
Qed.

(** C7: [normalizeViewCount] gives [null] for a value that is not a
    number, is [NaN], is negative or is below the threshold [1000]; for any
    other value it gives [min(7.0, log10(v + 1) * 1.5)] rounded to one
    decimal, a number that does not exceed [7.0].  So [999] gives [null]
    and [1000] gives a number that is at most [7.0]. *)
Theorem normalizeViewCount_spec (log10 : Q -> Q) (views : value) :
  (∀ x y, (x == y)%Q → (log10 x == log10 y)%Q) →
  match numeric views with
  | None => normalizeViewCount log10 views = None
  | Some v =>
      if num_ltb v (Fin 0) || num_ltb v (Fin 1000) then
        normalizeViewCount log10 views = None
      else
        ∃ r, normalizeViewCount log10 views = Some (Fin r)
             ∧ roundedTo1Decimal (viewScore log10 v) r
             ∧ (r <= 7)%Q
  end
  ∧ normalizeViewCount log10 (VNum (Fin 999)) = None
  ∧ ∃ r, normalizeViewCount log10 (VNum (Fin 1000)) = Some (Fin r) ∧ (r <= 7)%Q.
Proof.
  intros Hlog. split; [|split].
  - destruct (numeric views) as [v|] eqn:Hv.
    + apply numeric_Some in Hv as [-> Hnan].
      destruct (num_ltb v (Fin 0) || num_ltb v (Fin 1000)) eqn:Hlt.
      * unfold normalizeViewCount, numeric, CONFIG.VIEW_THRESHOLD.
        rewrite Hnan. destruct (num_ltb v (Fin 0)); [reflexivity|].
        simpl in Hlt. by rewrite Hlt.
      * apply orb_false_elim in Hlt as [Hneg Hthr].
        by apply normalizeViewCount_num.
    + unfold normalizeViewCount. by rewrite Hv.
  - reflexivity.
  - destruct (normalizeViewCount_num log10 (Fin 1000) Hlog) as (r & Hr & _ & Hle);
      [reflexivity..|].
    by exists r.
Qed.

Lemma log10_sample_proper (x y : Q) :
  (x == y)%Q → (log10_sample x == log10_sample y)%Q.
Proof. intros E. unfold log10_sample. by rewrite E. Qed.

Lemma normalizeViewCount_spec_witness :
  (∀ x y, (x == y)%Q → (log10_sample x == log10_sample y)%Q)
  ∧ (∃ r, normalizeViewCount log10_sample (VNum (Fin 5000)) = Some (Fin r)
          ∧ roundedTo1Decimal (viewScore log10_sample (Fin 5000)) r
          ∧ (r <= 7)%Q).
Proof.
  split; [exact log10_sample_proper|].
  exact (proj1 (normalizeViewCount_spec log10_sample (VNum (Fin 5000))
                  log10_sample_proper)).
Defined.

(** [calculateWeightedAverage] returns the default [6.0] when no entry of
    the breakdown contributes a weight: every entry is [null] or is
    resolved by the function to a [null] normalised value.  So does it for
    the empty breakdown, for [{p: null}] and for no breakdown at all; the
    default is not [0]. *)
Lemma calculateWeightedAverage_default (log10 : Q -> Q)
    (bd : gmap string bdval) :
  map_Forall (λ _ d, resolveNormalized log10 d = None) bd →
  calculateWeightedAverage log10 (Some bd) = Fin 6
  ∧ calculateWeightedAverage log10 (Some ∅) = Fin 6
  ∧ (∀ p, calculateWeightedAverage log10 (Some {[ p := BNull ]}) = Fin 6)
  ∧ calculateWeightedAverage log10 None = Fin 6
  ∧ num_eqb (Fin 6) (Fin 0) = false.
Proof.
  assert (Hall : ∀ m : gmap string bdval,
            map_Forall (λ _ d, resolveNormalized log10 d = None) m →
            calculateWeightedAverage log10 (Some m) = Fin 6).
  { intros m Hm. unfold calculateWeightedAverage.
    apply map_Forall_to_list in Hm.
    assert (Hfold : ∀ acc, foldl (weighStep log10) acc (map_to_list m) = acc).
    { induction Hm as [|[p d] l Hd _ IH]; intros acc; [reflexivity|].
      simpl. unfold weighStep at 2. simpl in Hd |- *. rewrite Hd. apply IH. }
    rewrite Hfold. reflexivity. }
  intros Hbd. split; [by apply Hall|]. split; [|split; [|split]].
  - apply Hall, map_Forall_empty.
  - intros p. apply Hall, map_Forall_singleton. reflexivity.
  - reflexivity.
  - reflexivity.
Qed.

Lemma calculateWeightedAverage_default_witness :
  let bd : gmap string bdval :=
    {[ "hse" := BNull;
       "htv" := BInfo (mkRatingInfo (VNum (Fin 500)) None (Some "views")) ]} in
  map_Forall (λ _ d, resolveNormalized log10_sample d = None) bd
  ∧ calculateWeightedAverage log10_sample (Some bd) = Fin 6.
Proof.
  intros bd.
  assert (H : map_Forall (λ _ d, resolveNormalized log10_sample d = None) bd).
  { unfold bd. apply map_Forall_insert_2; [reflexivity|].
    apply map_Forall_singleton. reflexivity. }
  split; [exact H|].
  exact (proj1 (calculateWeightedAverage_default log10_sample bd H)).
Defined.

(** C2 (the code departs from the claim): the weighted average used by the
    merge and by the seeding treats a ['percentage'], ['stars'] or
    ['trending'] entry as a direct rating.  For
    [{hmm: {raw: 85, type: 'percentage'}}] the entry counts as [10], where
    [normalizeRating(85, 'percentage')] is [8.5]; for
    [{hmm: {raw: 4, type: 'stars'}}] it counts as [4], not [8]; the same
    holds for [calculateWeightedAverage] on these entries without a cached
    value.  For [{hse: {raw: 9, type: 'trending'}}] the average of the merge
    is [9], where [normalizeRating(9, 'trending')], and
    [calculateWeightedAverage] on the entry, give [7.5]. *)
Theorem calculateAverageRating_ignores_percentage :
  let percentage := BInfo (mkRatingInfo (VNum (Fin 85)) None (Some "percentage")) in
  let stars := BInfo (mkRatingInfo (VNum (Fin 4)) None (Some "stars")) in
  let trending := BInfo (mkRatingInfo (VNum (Fin 9)) None (Some "trending")) in
  (renormalize log10_sample percentage
     = Some (BInfo (mkRatingInfo (VNum (Fin 85)) (Some (Fin 10))
                      (Some "percentage")))
   ∧ calculateAverageRating log10_sample (Some {[ "hmm" := percentage ]}) = Fin 10
   ∧ resolveNormalized log10_sample percentage = Some (Fin 10)
   ∧ calculateWeightedAverage log10_sample (Some {[ "hmm" := percentage ]}) = Fin 10
   ∧ normalizeRating log10_sample (VNum (Fin 85)) (VStr "percentage")
     = Some (Fin (17 # 2)))
  ∧ (calculateAverageRating log10_sample (Some {[ "hmm" := stars ]}) = Fin 4
     ∧ calculateWeightedAverage log10_sample (Some {[ "hmm" := stars ]}) = Fin 4
     ∧ normalizeRating log10_sample (VNum (Fin 4)) (VStr "stars") = Some (Fin 8))
  ∧ (calculateAverageRating log10_sample (Some {[ "hse" := trending ]}) = Fin 9
     ∧ calculateWeightedAverage log10_sample (Some {[ "hse" := trending ]})
       = Fin (15 # 2)
     ∧ normalizeRating log10_sample (VNum (Fin 9)) (VStr "trending")
       = Some (Fin (15 # 2))).
Proof. vm_compute. repeat split; reflexivity. Qed.

(** ** The stable sort *)

Section SortProperties.
Context {A : Type} (cmp : A -> A -> Z).

(** [x] may stay before [y]. *)
Let le (x y : A) : Prop := (cmp x y <= 0)%Z.

Hypothesis cmp_total : ∀ x y, le x y ∨ le y x.
Hypothesis cmp_trans : ∀ x y z, le x y → le y z → le x z.

Lemma insertSorted_perm (x : A) (l : list A) : insertSorted cmp x l ≡ₚ x :: l.
Proof.
  induction l as [|y t IH]; simpl; [done|].
  destruct (cmp x y <=? 0)%Z; [done|].
  rewrite IH. apply Permutation_swap.
Qed.

Lemma stableSort_perm (l : list A) : stableSort cmp l ≡ₚ l.
Proof.
  induction l as [|x t IH]; simpl; [done|].
  unfold stableSort in *. simpl. rewrite insertSorted_perm. by rewrite IH.
Qed.

Lemma insertSorted_sorted (x : A) (l : list A) :
  StronglySorted le l → StronglySorted le (insertSorted cmp x l).
Proof.
  induction 1 as [|y t Hs IH Hy]; simpl.
  - constructor; [constructor|constructor].
  - destruct (cmp x y <=? 0)%Z eqn:E.
    + apply Z.leb_le in E. constructor; [by constructor|].
      constructor; [exact E|].
      eapply Forall_impl; [exact Hy|]. intros z Hz. by eapply cmp_trans.
    + apply Z.leb_gt in E. constructor; [exact IH|].
      rewrite insertSorted_perm. constructor; [|exact Hy].
      destruct (cmp_total x y) as [H|H]; [unfold le in H; lia|exact H].
Qed.

Lemma stableSort_sorted (l : list A) : StronglySorted le (stableSort cmp l).
Proof.
  induction l as [|x t IH]; [constructor|].
  by apply insertSorted_sorted.
Qed.

Lemma tie_trans (x y z : A) : tie cmp x y → tie cmp y z → tie cmp x z.
Proof.
  unfold tie. rewrite !andb_True, !Is_true_true, !Z.leb_le.
  intros [??] [??]. split; eapply cmp_trans; eauto.
Qed.

Lemma tie_sym (x y : A) : tie cmp x y = tie cmp y x.
Proof. unfold tie. apply andb_comm. Qed.

(** Elements that compare as equal keep their relative order. *)
Lemma insertSorted_stable (a x : A) (l : list A) :
  filter (λ y, tie cmp a y) (insertSorted cmp x l) = filter (λ y, tie cmp a y) (x :: l).
Proof.
  induction l as [|y t IH]; simpl; [done|].
  destruct (cmp x y <=? 0)%Z eqn:E; [done|].
  rewrite filter_cons, IH, !filter_cons.
  destruct (decide (tie cmp a y)) as [Hy|Hy], (decide (tie cmp a x)) as [Hx|Hx]; try done.
  exfalso. rewrite tie_sym in Hx.
  pose proof (tie_trans _ _ _ Hx Hy) as Hxy.
  unfold tie in Hxy. apply andb_True in Hxy as [Hxy _].
  apply Is_true_true, Z.leb_le in Hxy. apply Z.leb_gt in E. lia.
Qed.

Lemma stableSort_stable (a : A) (l : list A) :
  filter (λ y, tie cmp a y) (stableSort cmp l) = filter (λ y, tie cmp a y) l.
Proof.
  induction l as [|x t IH]; [done|].
  unfold stableSort in *. simpl. rewrite insertSorted_stable.
  by rewrite !filter_cons, IH.
Qed.

End SortProperties.

(** ** Running computations on the heap *)

Lemma bind_Some {A B} (m : M A) (f : A -> M B) (h : heap) (y : B) (h' : heap) :
  (m ≫= f) h = Some (y, h') ↔ ∃ x h1, m h = Some (x, h1) ∧ f x h1 = Some (y, h').
Proof.
  unfold mbind, M_bind. destruct (m h) as [[x h1]|]; [|naive_solver].
  split; [eauto|]. by intros (? & ? & [= -> ->] & ?).
Qed.

Lemma ret_Some {A} (x y : A) (h h' : heap) :
  (mret x : M A) h = Some (y, h') ↔ y = x ∧ h' = h.
Proof. unfold mret, M_ret. naive_solver. Qed.

Lemma getSeries_Some (l : loc) (h : heap) (s : Series) (h' : heap) :
  getSeries l h = Some (s, h') ↔ objects h !! l = Some s ∧ h' = h.
Proof. unfold getSeries. destruct (objects h !! l); naive_solver. Qed.

Lemma getArray_Some (l : loc) (h : heap) (a : list string) (h' : heap) :
  getArray l h = Some (a, h') ↔ arrays h !! l = Some a ∧ h' = h.
Proof. unfold getArray. destruct (arrays h !! l); naive_solver. Qed.

Lemma getSlugs_Some (l : loc) (h : heap) (a : gmap string string) (h' : heap) :
  getSlugs l h = Some (a, h') ↔ slugMaps h !! l = Some a ∧ h' = h.
Proof. unfold getSlugs. destruct (slugMaps h !! l); naive_solver. Qed.

Lemma getBreakdown_Some (l : loc) (h : heap) (a : gmap string bdval) (h' : heap) :
  getBreakdown l h = Some (a, h') ↔ breakdowns h !! l = Some a ∧ h' = h.
Proof. unfold getBreakdown. destruct (breakdowns h !! l); naive_solver. Qed.

(** ** The final sort *)

Lemma StronglySorted_lookup {A} (R : relation A) (l : list A) (i j : nat) (x y : A) :
  StronglySorted R l → i < j → l !! i = Some x → l !! j = Some y → R x y.
Proof.
  intros Hs. revert i j. induction Hs as [|z t Hs IH Hz]; intros i j Hij Hi Hj.
  - by rewrite lookup_nil in Hi.
  - destruct j as [|j]; [lia|]. destruct i as [|i]; simpl in *.
    + injection Hi as ->. rewrite Forall_forall in Hz. apply Hz.
      by eapply list_elem_of_lookup_2.
    + eapply (IH i j); [lia|done..].
Qed.

Lemma StronglySorted_mono {A} (R R' : relation A) (l : list A) :
  (∀ x y, R x y → R' x y) → StronglySorted R l → StronglySorted R' l.
Proof.
  intros HR. induction 1 as [|x t Hs IH Hx]; constructor; [done|].
  eapply Forall_impl; [exact Hx|]. intros y. apply HR.
Qed.

Lemma sortKey_Some (l : loc) (h : heap) (k : SortKey) (h' : heap) :
  sortKey l h = Some (k, h') → h' = h ∧ keyAt h l = Some k.
Proof.
  intros H. assert (h' = h) as ->; [|split; [done|unfold keyAt; by rewrite H]].
  unfold sortKey in H. apply bind_Some in H as (s & h1 & Hs & H).
  apply getSeries_Some in Hs as [_ ->].
  apply bind_Some in H as (c & h2 & Hc & H). apply ret_Some in H as [_ ->].
  destruct (providers s).
  - apply bind_Some in Hc as (a & h3 & Ha & Hc). apply ret_Some in Hc as [_ ->].
    by apply getArray_Some in Ha as [_ ->].
  - by apply ret_Some in Hc as [_ ->].
Qed.

Lemma keyed_Some (agg : list loc) (h : heap) (keyed : list (loc * SortKey))
    (h' : heap) :
  mapM (λ l, k ← sortKey l; mret (l, k)) agg h = Some (keyed, h') →
  h' = h ∧ keyed.*1 = agg ∧ Forall (λ lk, keyAt h lk.1 = Some lk.2) keyed.
Proof.
  revert keyed. induction agg as [|l t IH]; intros keyed H; simpl in H.
  - apply ret_Some in H as [-> ->]. by repeat split.
  - apply bind_Some in H as ([l' k] & h1 & Hk & H).
    apply bind_Some in Hk as (k' & h2 & Hk & Hr).
    apply ret_Some in Hr as [[= -> ->] ->].
    apply sortKey_Some in Hk as [-> Hk].
    apply bind_Some in H as (ys & h3 & Hys & H).
    apply ret_Some in H as [-> ->].
    apply IH in Hys as (-> & <- & Hall).
    split; [done|]. split; [done|]. by constructor.
Qed.

Section FinalSort.
Variable localeCompare : string -> string -> Z.
Hypothesis localeCompare_total :
  ∀ a b, (localeCompare a b <= 0)%Z ∨ (localeCompare b a <= 0)%Z.
Hypothesis localeCompare_trans :
  ∀ a b c, (localeCompare a b <= 0)%Z → (localeCompare b c <= 0)%Z →
           (localeCompare a c <= 0)%Z.

Lemma compareSeries_precedes (a b : SortKey) :
  (compareSeries localeCompare a b <= 0)%Z ↔ precedes localeCompare a b.
Proof.
  unfold compareSeries, precedes.
  destruct (Z.eqb_spec (Z.of_nat (keyScore b) - Z.of_nat (keyScore a)) 0);
    simpl; [|lia].
  destruct (Z.eqb_spec (Z.of_nat (keyProviders b) - Z.of_nat (keyProviders a)) 0);
    simpl; [|lia].
  split; [intros; right; split; [lia|]; right; split; [lia|done]|].
  intros [?|[_ [?|[_ ?]]]]; [lia|lia|done].
Qed.

Lemma compareSeries_total (a b : SortKey) :
  (compareSeries localeCompare a b <= 0)%Z ∨ (compareSeries localeCompare b a <= 0)%Z.
Proof.
  rewrite !compareSeries_precedes. unfold precedes.
  destruct (localeCompare_total (keyName a) (keyName b)); lia.
Qed.

Lemma compareSeries_trans (a b c : SortKey) :
  (compareSeries localeCompare a b <= 0)%Z →
  (compareSeries localeCompare b c <= 0)%Z →
  (compareSeries localeCompare a c <= 0)%Z.
Proof.
  rewrite !compareSeries_precedes. unfold precedes.
  intros [?|[? [?|[? ?]]]] [?|[? [?|[? ?]]]]; try lia.
  right. split; [lia|]. right. split; [lia|].
  by eapply localeCompare_trans.
Qed.

Lemma tiesWith_keyed (h : heap) (k : SortKey) (keyed : list (loc * SortKey)) :
  Forall (λ lk, keyAt h lk.1 = Some lk.2) keyed →
  filter (λ l, tiesWith localeCompare h k l) keyed.*1
  = (filter (λ lk, tie (compareSeries localeCompare) k lk.2) keyed).*1.
Proof.
  induction 1 as [|[l kl] t Hl _ IH]; [done|].
  simpl in Hl.
  assert (E : tiesWith localeCompare h k l = tie (compareSeries localeCompare) k kl)
    by (unfold tiesWith; by rewrite Hl).
  rewrite fmap_cons, !filter_cons, IH. simpl.
  repeat case_decide; try done; exfalso; rewrite E in *; done.
Qed.

End FinalSort.

(** A sequence returned by [aggregateCatalogs] is the accumulator in
    the order of [metadataScore] descending, then provider count descending,
    then name ascending under the locale's comparison (taken to be a total
    and transitive comparison); records that compare as equal keep the
    order they had in the accumulator.  In particular, of two records with
    the same [metadataScore], one with two providers and one with one, the
    one with two providers comes first. *)
Lemma sorted_of_run (log10 : Q -> Q) (getTime : string -> num)
    (localeCompare : string -> string -> Z)
    (providerCatalogs : list (string * list loc)) (h : heap)
    (out : list loc) (h' : heap) :
  (∀ a b, (localeCompare a b <= 0)%Z ∨ (localeCompare b a <= 0)%Z) →
  (∀ a b c, (localeCompare a b <= 0)%Z → (localeCompare b c <= 0)%Z →
            (localeCompare a c <= 0)%Z) →
  aggregateCatalogs log10 getTime localeCompare providerCatalogs h = Some (out, h') →
  ∃ (aggregated : list loc) (keyed : list (loc * SortKey)),
    addCatalogs log10 getTime [] providerCatalogs h = Some (aggregated, h')
    ∧ out = keyed.*1
    ∧ Forall (λ lk, keyAt h' lk.1 = Some lk.2) keyed
    ∧ StronglySorted (λ a b, precedes localeCompare a.2 b.2) keyed
    ∧ out ≡ₚ aggregated
    ∧ (∀ k, filter (λ l, tiesWith localeCompare h' k l) out
            = filter (λ l, tiesWith localeCompare h' k l) aggregated)
    ∧ (∀ i j a b ka kb,
         out !! i = Some a → out !! j = Some b →
         keyAt h' a = Some ka → keyAt h' b = Some kb →
         keyScore ka = keyScore kb → keyProviders ka = 2 → keyProviders kb = 1 →
         i < j).
Proof.
  intros Htotal Htrans Hrun. unfold aggregateCatalogs in Hrun.
  apply bind_Some in Hrun as (aggregated & h1 & Hacc & Hsort).
  unfold sortAggregated in Hsort.
  apply bind_Some in Hsort as (keyed & h2 & Hkeyed & Hret).
  apply ret_Some in Hret as [-> ->].
  apply keyed_Some in Hkeyed as (-> & <- & Hkeys).
  set (cmp := λ a b : loc * SortKey, compareSeries localeCompare a.2 b.2).
  assert (Hcmp_total : ∀ x y, (cmp x y <= 0)%Z ∨ (cmp y x <= 0)%Z)
    by (intros; apply compareSeries_total; done).
  assert (Hcmp_trans : ∀ x y z, (cmp x y <= 0)%Z → (cmp y z <= 0)%Z → (cmp x z <= 0)%Z)
    by (intros ???; apply compareSeries_trans; done).
  pose proof (stableSort_perm cmp keyed) as Hperm.
  assert (Hkeys' : Forall (λ lk, keyAt h1 lk.1 = Some lk.2) (stableSort cmp keyed))
    by (by rewrite Hperm).
  assert (Hsorted : StronglySorted (λ a b, precedes localeCompare a.2 b.2)
                      (stableSort cmp keyed)).
  { eapply StronglySorted_mono; [|apply (stableSort_sorted cmp Hcmp_total Hcmp_trans)].
    intros a b Hab. by apply compareSeries_precedes. }
  exists (keyed.*1), (stableSort cmp keyed).
  split; [done|]. split; [done|]. split; [done|]. split; [done|].
  split; [by rewrite Hperm|]. split.
  - intros k. rewrite !tiesWith_keyed by done. f_equal.
    apply (stableSort_stable cmp Hcmp_trans (0, k)).
  - intros i j a b ka kb Hi Hj Ha Hb Hscore Hpa Hpb.
    rewrite list_lookup_fmap in Hi, Hj.
    destruct (stableSort cmp keyed !! i) as [[a' ka']|] eqn:Ei; [|done].
    destruct (stableSort cmp keyed !! j) as [[b' kb']|] eqn:Ej; [|done].
    simpl in Hi, Hj. injection Hi as ->. injection Hj as ->.
    rewrite Forall_forall in Hkeys'.
    pose proof (Hkeys' _ (list_elem_of_lookup_2 _ _ _ Ei)) as Eka.
    pose proof (Hkeys' _ (list_elem_of_lookup_2 _ _ _ Ej)) as Ekb.
    simpl in Eka, Ekb. rewrite Ha in Eka. rewrite Hb in Ekb.
    injection Eka as <-. injection Ekb as <-.
    destruct (lt_eq_lt_dec i j) as [[Hlt|Heq]|Hgt]; [done| |].
    + subst j. rewrite Ei in Ej. injection Ej as -> ->. lia.
    + pose proof (StronglySorted_lookup _ _ _ _ _ _ Hsorted Hgt Ej Ei) as Hp.
      unfold precedes in Hp. simpl in Hp. lia.
Qed.

Lemma localeCompare_sample_total (a b : string) :
  (localeCompare_sample a b <= 0)%Z ∨ (localeCompare_sample b a <= 0)%Z.
Proof. unfold localeCompare_sample. lia. Qed.

Lemma localeCompare_sample_trans (a b c : string) :
  (localeCompare_sample a b <= 0)%Z → (localeCompare_sample b c <= 0)%Z →
  (localeCompare_sample a c <= 0)%Z.
Proof. unfold localeCompare_sample. lia. Qed.

(** ** Frame rules *)

Section Preserves.
Context (R : relation heap) `{!PreOrder R}.

Lemma preserves_ret {A} (x : A) : preserves R (mret x).
Proof. intros h y h' [_ ->]%ret_Some. reflexivity. Qed.

Lemma preserves_bind {A B} (m : M A) (f : A -> M B) :
  preserves R m → (∀ x, preserves R (f x)) → preserves R (m ≫= f).
Proof.
  intros Hm Hf h y h' (x & h1 & H1 & H2)%bind_Some.
  transitivity h1; [by eapply Hm|by eapply Hf].
Qed.

Lemma preserves_fail {A} : preserves R (λ _, None : option (A * heap)).
Proof. intros h y h' [=]. Qed.

Lemma preserves_when (b : bool) (m : M unit) :
  preserves R m → preserves R (when b m).
Proof. intros Hm. destruct b; [exact Hm|apply preserves_ret]. Qed.

Lemma preserves_forEach {A} (l : list A) (body : A -> M unit) :
  (∀ x, preserves R (body x)) → preserves R (forEach l body).
Proof.
  intros Hb. induction l as [|x t IH]; simpl; [apply preserves_ret|].
  apply preserves_bind; [apply Hb|intros _; exact IH].
Qed.

Lemma preserves_deref {A} (get : loc -> M A) (r : option loc) :
  (∀ l, preserves R (get l)) → preserves R (deref get r).
Proof. intros Hg. destruct r; [apply Hg|apply preserves_fail]. Qed.

Lemma preserves_getSeries (l : loc) : preserves R (getSeries l).
Proof. intros h x h' [_ ->]%getSeries_Some. reflexivity. Qed.

Lemma preserves_getArray (l : loc) : preserves R (getArray l).
Proof. intros h x h' [_ ->]%getArray_Some. reflexivity. Qed.

Lemma preserves_getSlugs (l : loc) : preserves R (getSlugs l).
Proof. intros h x h' [_ ->]%getSlugs_Some. reflexivity. Qed.

Lemma preserves_getBreakdown (l : loc) : preserves R (getBreakdown l).
Proof. intros h x h' [_ ->]%getBreakdown_Some. reflexivity. Qed.

End Preserves.

(** Syntax-directed proof of a [preserves] goal; [prim] closes the goals
    on the primitives that write. *)
Ltac preserves_step prim :=
  lazymatch goal with
  | |- preserves _ (_ ≫= _) => refine (preserves_bind _ _ _ _ _); [|intros ?]
  | |- preserves _ (mret _) => refine (preserves_ret _ _)
  | |- preserves _ (when _ _) => refine (preserves_when _ _ _ _)
  | |- preserves _ (forEach _ _) => refine (preserves_forEach _ _ _ _); intros ?
  | |- preserves _ (deref _ _) => refine (preserves_deref _ _ _ _); intros ?
  | |- preserves _ (getSeries _) => refine (preserves_getSeries _ _)
  | |- preserves _ (getArray _) => refine (preserves_getArray _ _)
  | |- preserves _ (getSlugs _) => refine (preserves_getSlugs _ _)
  | |- preserves _ (getBreakdown _) => refine (preserves_getBreakdown _ _)
  | |- preserves _ (λ _, None) => refine (preserves_fail _)
  | |- preserves _ (match ?x with _ => _ end) => destruct x
  | |- _ => prim
  end.

Ltac preserves_with prim := repeat (preserves_step prim).

(** ** Identity of the records *)

#[local] Instance identityKept_preorder : PreOrder identityKept.
Proof.
  split.
  - intros h l s Hs. eauto.
  - intros h1 h2 h3 H12 H23 l s Hs.
    destruct (H12 l s Hs) as (s2 & Hs2 & Hid2 & Hn2).
    destruct (H23 l s2 Hs2) as (s3 & Hs3 & Hid3 & Hn3).
    exists s3. split; [done|]. split; congruence.
Qed.

Lemma identityKept_objects (h h' : heap) :
  objects h' = objects h → identityKept h h'.
Proof. intros E l s Hs. rewrite E. eauto. Qed.

Lemma identityKept_modSeries (l : loc) (f : Series -> Series) :
  keepsIdentity f → preserves identityKept (modSeries l f).
Proof.
  intros Hf h x h' H. unfold modSeries in H.
  destruct (objects h !! l) as [s|] eqn:Hl; [|done]. injection H as _ <-.
  intros l' s' Hs'. simpl. destruct (decide (l = l')) as [E|Hne].
  - rewrite <- E in Hs' |- *. rewrite Hl in Hs'. injection Hs' as <-.
    rewrite list_lookup_insert_eq by (by eapply lookup_lt_Some).
    exists (f s). split; [done|]. apply Hf.
  - rewrite list_lookup_insert_ne by done. eauto.
Qed.

Lemma identityKept_newObject (s : Series) : preserves identityKept (newObject s).
Proof.
  intros h x h' [= _ <-] l s' Hs'. simpl.
  exists s'. split; [by apply lookup_app_l_Some|done].
Qed.

Ltac identity_prim :=
  idtac;
  lazymatch goal with
  | |- preserves _ (modSeries _ _) =>
      apply identityKept_modSeries; intros ?; split; reflexivity
  | |- preserves _ (newObject _) => apply identityKept_newObject
  | |- preserves _ (_ _) =>
      let H := fresh in
      intros ? ? ? H; apply identityKept_objects;
      cbv beta delta [newArray newSlugs newBreakdown setArray setSlugs
                      setBreakdown] in H;
      first [ injection H as _ <-; reflexivity
            | match type of H with
              | context [?l !! ?i] => destruct (l !! i)
              end; simpl in H; [injection H as _ <-; reflexivity|discriminate] ]
  end.

Lemma identityKept_putEntry (l : loc) (k : string) (v : bdval) :
  preserves identityKept (putEntry l k v).
Proof. unfold putEntry. preserves_with identity_prim. Qed.

Ltac unfold_merge :=
  unfold mergeSeries, choosePrimary, initPrimary, copyExistingData,
    copyProviders, copySlugs, addPrimaryRatings, addSecondaryRatings,
    mergeRatingBreakdowns, copyBreakdown, mergeProviderData, recalculateRating,
    mergePoster, mergeDescription, mergeGenres, mergeStudio, mergeLastUpdated,
    storeMetadataScore, ensureProviders, ensureSlugs, ensureBreakdown,
    pushProvider, assignSlugs, assignBreakdown, putEntry, putSlug.

Lemma identityKept_mergeSeries (log10 : Q -> Q) (getTime : string -> num)
    (existing newSeries : loc) :
  preserves identityKept (mergeSeries log10 getTime existing newSeries).
Proof. unfold_merge. preserves_with identity_prim. Qed.

Lemma identityKept_addNewSeries (log10 : Q -> Q) (series : loc) :
  preserves identityKept (addNewSeries log10 series).
Proof. unfold addNewSeries. preserves_with identity_prim. Qed.

Lemma yields_bind {A B} (m : M A) (f : A -> M B) (P : B -> Prop) :
  (∀ x, yields (f x) P) → yields (m ≫= f) P.
Proof. intros Hf h y h' (x & h1 & _ & H2)%bind_Some. by eapply Hf. Qed.

Lemma yields_ret {A} (x : A) (P : A -> Prop) : P x → yields (mret x) P.
Proof. by intros HP h y h' [-> _]%ret_Some. Qed.

Lemma choosePrimary_Some (existing newSeries : loc) (h : heap)
    (primary secondary : loc) (h1 : heap) :
  choosePrimary existing newSeries h = Some ((primary, secondary), h1) →
  ∃ e n, objects h !! existing = Some e ∧ objects h !! newSeries = Some n
    ∧ (((calculateMetadataScore e <? calculateMetadataScore n) = true
        ∧ primary = length (objects h) ∧ secondary = existing
        ∧ h1 = mkHeap (objects h ++ [n]) (arrays h) (slugMaps h) (breakdowns h))
       ∨ ((calculateMetadataScore e <? calculateMetadataScore n) = false
          ∧ primary = existing ∧ secondary = newSeries ∧ h1 = h)).
Proof.
  unfold choosePrimary. intros H.
  apply bind_Some in H as (e & h2 & [He ->]%getSeries_Some & H).
  apply bind_Some in H as (n & h2 & [Hn ->]%getSeries_Some & H).
  exists e, n. split; [done|]. split; [done|].
  destruct (calculateMetadataScore e <? calculateMetadataScore n).
  - left. apply bind_Some in H as (p & h2 & [= <- <-] & [[= -> ->] ->]%ret_Some).
    done.
  - right. by apply ret_Some in H as [[= -> ->] ->].
Qed.

Lemma mergeSeries_Some (log10 : Q -> Q) (getTime : string -> num)
    (existing newSeries : loc) (h : heap) (m : loc) (h' : heap) :
  mergeSeries log10 getTime existing newSeries h = Some (m, h') →
  ∃ secondary h1,
    choosePrimary existing newSeries h = Some ((m, secondary), h1)
    ∧ identityKept h1 h'.
Proof.
  unfold mergeSeries. intros H.
  apply bind_Some in H as ([primary secondary] & h1 & Hc & H).
  exists secondary, h1.
  match type of H with
  | ?rest h1 = _ =>
      assert (Hy : yields rest (λ x, x = primary))
        by (repeat (apply yields_bind; intros ?); by apply yields_ret);
      assert (Hp : preserves identityKept rest)
        by (unfold_merge; preserves_with identity_prim)
  end.
  rewrite (Hy _ _ _ H). split; [done|]. by eapply Hp.
Qed.

(** The name of the merged record is that of one of the two records. *)
Lemma mergeSeries_name (log10 : Q -> Q) (getTime : string -> num)
    (existing newSeries : loc) (h : heap) (m : loc) (h' : heap) :
  mergeSeries log10 getTime existing newSeries h = Some (m, h') →
  identityKept h h'
  ∧ ∃ e n sm, objects h !! existing = Some e ∧ objects h !! newSeries = Some n
      ∧ objects h' !! m = Some sm ∧ (name sm = name e ∨ name sm = name n).
Proof.
  intros H. split; [by eapply identityKept_mergeSeries|].
  apply mergeSeries_Some in H as (secondary & h1 & Hc & Hk).
  apply choosePrimary_Some in Hc as (e & n & He & Hn & Hcase).
  exists e, n.
  destruct Hcase as [(_ & -> & -> & ->)|(_ & -> & -> & ->)].
  - destruct (Hk (length (objects h)) n) as (sm & Hsm & _ & Hname).
    { simpl. by apply list_lookup_middle. }
    exists sm. split; [done|]. split; [done|]. split; [done|]. by right.
  - destruct (Hk existing e He) as (sm & Hsm & _ & Hname).
    exists sm. split; [done|]. split; [done|]. split; [done|]. by left.
Qed.

Lemma addNewSeries_name (log10 : Q -> Q) (series : loc) (h : heap)
    (n : loc) (h' : heap) :
  addNewSeries log10 series h = Some (n, h') →
  identityKept h h'
  ∧ ∃ sr sn, objects h !! series = Some sr ∧ objects h' !! n = Some sn
      ∧ name sn = name sr.
Proof.
  intros H. split; [by eapply identityKept_addNewSeries|].
  unfold addNewSeries in H.
  apply bind_Some in H as (sr & h1 & [Hsr ->]%getSeries_Some & H).
  apply bind_Some in H as (a & h1 & [= <- <-] & H).
  apply bind_Some in H as (sl & h2 & [= <- <-] & H).
  apply bind_Some in H as (bd & h3 & [= <- <-] & H).
  apply bind_Some in H as (n' & h4 & [= <- <-] & H).
  match type of H with
  | ?rest ?h4 = _ =>
      assert (Hy : yields rest (λ x, x = length (objects h)))
        by (repeat (apply yields_bind; intros ?); by apply yields_ret);
      assert (Hp : preserves identityKept rest)
        by (preserves_with identity_prim);
      pose proof (Hy _ _ _ H) as ->; pose proof (Hp _ _ _ H) as Hk
  end.
  edestruct (Hk (length (objects h))) as (sn & Hsn & _ & Hname).
  { simpl. by apply list_lookup_middle. }
  exists sr, sn. split; [done|]. split; [done|]. by rewrite Hname.
Qed.

(** ** Duplicates among names that normalise to the empty string *)

Lemma levenshteinDistance_empty_r (a : string) :
  levenshteinDistance a "" = String.length a.
Proof.
  assert (Hlast : ∀ n, List.last (seq 0 (S n)) 0 = n)
    by (intros n; rewrite seq_S; apply last_last).
  exact (Hlast _).
Qed.

Lemma zero_similarity (n : nat) :
  n ≠ 0 →
  Qle_bool (9 # 10)
    ((inject_Z (Z.of_nat n) - inject_Z (Z.of_nat n)) / inject_Z (Z.of_nat n)) = false.
Proof.
  intros Hn. apply Qle_bool_false.
  assert (E : ((inject_Z (Z.of_nat n) - inject_Z (Z.of_nat n))
               / inject_Z (Z.of_nat n) == 0)%Q).
  { unfold Qdiv. ring. }
  rewrite E. reflexivity.
Qed.

Lemma length_zero_empty (s : string) : String.length s = 0 → s = "".
Proof. by destruct s. Qed.

Lemma similarity_empty_r (n : string) :
  n ≠ "" → Qle_bool (9 # 10) (similarity n "") = false.
Proof.
  intros Hn. unfold similarity. simpl String.length.
  assert (Hlen : String.length n ≠ 0) by (intros E; by apply length_zero_empty in E).
  destruct (0 <? String.length n) eqn:E; [|apply Nat.ltb_ge in E; lia].
  destruct (String.length n =? 0) eqn:E0; [apply Nat.eqb_eq in E0; lia|].
  rewrite levenshteinDistance_empty_r. by apply zero_similarity.
Qed.

Lemma similarity_empty_l (n : string) :
  n ≠ "" → Qle_bool (9 # 10) (similarity "" n) = false.
Proof.
  intros Hn. unfold similarity. simpl String.length.
  assert (Hlen : String.length n ≠ 0) by (intros E; by apply length_zero_empty in E).
  replace (String.length n <? 0) with false by (symmetry; apply Nat.ltb_ge; lia).
  destruct (String.length n =? 0) eqn:E0; [apply Nat.eqb_eq in E0; lia|].
  rewrite levenshteinDistance_empty_r. by apply zero_similarity.
Qed.

Lemma isDuplicate_empty (x y : Series) :
  normalizeName (name x) = "" → normalizeName (name y) = "" →
  isDuplicate x y = true.
Proof. intros Hx Hy. unfold isDuplicate. by rewrite Hx, Hy. Qed.

Lemma isDuplicate_empty_iff (x y : Series) :
  isDuplicate x y = true →
  (normalizeName (name x) = "" ↔ normalizeName (name y) = "").
Proof.
  unfold isDuplicate.
  destruct (String.eqb_spec (normalizeName (name x)) (normalizeName (name y)))
    as [E|Hne]; [by rewrite E|].
  intros Hs. split; intros E; rewrite E in Hs, Hne.
  - destruct (decide (normalizeName (name y) = "")) as [|Hy]; [done|].
    by rewrite similarity_empty_l in Hs.
  - destruct (decide (normalizeName (name x) = "")) as [|Hx]; [done|].
    by rewrite similarity_empty_r in Hs.
Qed.

Lemma findIndex_Some (i : nat) (aggregated : list loc) (series : Series)
    (h : heap) (r : option nat) (h' : heap) :
  findIndex i aggregated series h = Some (r, h') →
  h' = h
  ∧ match r with
    | Some j =>
        ∃ ex s, i <= j ∧ aggregated !! (j - i) = Some ex
                ∧ objects h !! ex = Some s ∧ isDuplicate s series = true
    | None =>
        Forall (λ l, ∃ s, objects h !! l = Some s ∧ isDuplicate s series = false)
          aggregated
    end.
Proof.
  revert i. induction aggregated as [|l t IH]; intros i H; simpl in H.
  - apply ret_Some in H as [-> ->]. done.
  - apply bind_Some in H as (s & h1 & [Hs ->]%getSeries_Some & H).
    destruct (isDuplicate s series) eqn:Hd.
    + apply ret_Some in H as [-> ->]. split; [done|].
      exists l, s. rewrite Nat.sub_diag. done.
    + apply IH in H as [-> H]. split; [done|]. destruct r as [j|].
      * destruct H as (ex & s' & Hij & Hl & Hs' & Hd').
        exists ex, s'. split; [lia|]. split; [|done].
        replace (j - i) with (S (j - S i)) by lia. done.
      * constructor; [eauto|done].
Qed.

Lemma emptyName_kept (h h' : heap) (l : loc) :
  identityKept h h' → is_Some (objects h !! l) → emptyName h' l = emptyName h l.
Proof.
  intros Hk [s Hs]. destruct (Hk l s Hs) as (s' & Hs' & _ & Hn).
  unfold emptyName. by rewrite Hs, Hs', Hn.
Qed.

Lemma countEmpty_fmap (h h' : heap) (agg agg' : list loc) :
  emptyName h' <$> agg' = emptyName h <$> agg →
  countEmpty h' agg' = countEmpty h agg.
Proof.
  unfold countEmpty. revert agg'.
  induction agg as [|l t IH]; intros [|l' t'] E; try done.
  rewrite !fmap_cons in E. injection E as E1 E2.
  rewrite !filter_cons. specialize (IH _ E2).
  repeat case_decide; simpl; try (by rewrite IH); exfalso; rewrite E1 in *; done.
Qed.

Lemma valid_kept (h h' : heap) (agg : list loc) :
  identityKept h h' →
  Forall (λ l, is_Some (objects h !! l)) agg →
  Forall (λ l, is_Some (objects h' !! l)) agg.
Proof.
  intros Hk Hv. eapply Forall_impl; [exact Hv|]. intros l [s Hs].
  destruct (Hk l s Hs) as (s' & Hs' & _). eauto.
Qed.

Lemma emptyName_fmap_kept (h h' : heap) (agg : list loc) :
  identityKept h h' →
  Forall (λ l, is_Some (objects h !! l)) agg →
  emptyName h' <$> agg = emptyName h <$> agg.
Proof.
  intros Hk Hv. apply list_eq. intros i. rewrite !list_lookup_fmap.
  destruct (agg !! i) as [l|] eqn:El; [simpl|done].
  f_equal. apply emptyName_kept; [done|].
  rewrite Forall_forall in Hv. apply Hv. by eapply list_elem_of_lookup_2.
Qed.

(** One step of the accumulation: the records whose name normalises to the
    empty string stay one record at most, and become one when the incoming
    record is such a record. *)
Lemma addSeries_countEmpty (log10 : Q -> Q) (getTime : string -> num)
    (aggregated : list loc) (series : loc) (h : heap)
    (aggregated' : list loc) (h' : heap) :
  addSeries log10 getTime aggregated series h = Some (aggregated', h') →
  Forall (λ l, is_Some (objects h !! l)) aggregated →
  countEmpty h aggregated <= 1 →
  identityKept h h'
  ∧ Forall (λ l, is_Some (objects h' !! l)) aggregated'
  ∧ countEmpty h' aggregated'
    = if emptyName h series then 1 else countEmpty h aggregated.
Proof.
  intros H Hvalid Hcount. unfold addSeries in H.
  apply bind_Some in H as (sr & h1 & [Hsr ->]%getSeries_Some & H).
  apply bind_Some in H as (r & h1 & Hfind & H).
  apply findIndex_Some in Hfind as [-> Hfind].
  assert (Esr : emptyName h series = String.eqb (normalizeName (name sr)) "")
    by (unfold emptyName; by rewrite Hsr).
  destruct r as [i|].
  - destruct Hfind as (ex & s & _ & Hex & Hs & Hdup). rewrite Nat.sub_0_r in Hex.
    rewrite Hex in H.
    apply bind_Some in H as (m & h2 & Hmerge & [Eagg Eh]%ret_Some).
    subst aggregated' h2.
    apply mergeSeries_name in Hmerge
      as (Hk & e & n & sm & He & Hn & Hsm & Hname).
    rewrite Hs in He. injection He as <-. rewrite Hsr in Hn. injection Hn as <-.
    assert (Eex : emptyName h ex = String.eqb (normalizeName (name s)) "")
      by (unfold emptyName; by rewrite Hs).
    assert (Em : emptyName h' m = emptyName h ex).
    { unfold emptyName at 1. rewrite Hsm, Eex.
      destruct Hname as [->| ->]; [done|].
      apply isDuplicate_empty_iff in Hdup.
      destruct (String.eqb_spec (normalizeName (name sr)) ""),
               (String.eqb_spec (normalizeName (name s)) ""); naive_solver. }
    assert (Hfm : emptyName h' <$> <[i:=m]> aggregated = emptyName h <$> aggregated).
    { rewrite list_fmap_insert, Em, (emptyName_fmap_kept h h') by done.
      apply list_insert_id. by rewrite list_lookup_fmap, Hex. }
    split; [done|]. split.
    + apply valid_kept with (h' := h') in Hvalid; [|done].
      rewrite Forall_forall in Hvalid |- *. intros l Hl.
      apply list_elem_of_lookup in Hl as [j Hj].
      destruct (decide (i = j)) as [<-|Hne].
      * rewrite list_lookup_insert_eq in Hj by (by eapply lookup_lt_Some).
        injection Hj as <-. eauto.
      * rewrite list_lookup_insert_ne in Hj by done.
        apply Hvalid. by eapply list_elem_of_lookup_2.
    + rewrite (countEmpty_fmap h h' aggregated) by done.
      destruct (emptyName h series) eqn:Eempty; [|done].
      assert (Hexempty : emptyName h ex = true).
      { rewrite Eex. symmetry in Esr. apply String.eqb_eq in Esr.
        apply String.eqb_eq. by apply (isDuplicate_empty_iff _ _ Hdup). }
      assert (1 <= countEmpty h aggregated); [|lia].
      unfold countEmpty.
      assert (Hin : ex ∈ filter (λ l, emptyName h l) aggregated).
      { apply list_elem_of_filter. split; [by rewrite Hexempty|].
        by eapply list_elem_of_lookup_2. }
      destruct (filter (λ l, emptyName h l) aggregated); [|simpl; lia].
      by apply elem_of_nil in Hin.
  - apply bind_Some in H as (n & h2 & Hnew & [Eagg Eh]%ret_Some).
    subst aggregated' h2.
    apply addNewSeries_name in Hnew as (Hk & sr' & sn & Hsr' & Hsn & Hname).
    rewrite Hsr in Hsr'. injection Hsr' as <-.
    assert (En : emptyName h' n = emptyName h series)
      by (unfold emptyName; by rewrite Hsn, Hsr, Hname).
    split; [done|]. split.
    + apply Forall_app. split; [by eapply valid_kept|].
      constructor; [eauto|constructor].
    + unfold countEmpty. rewrite filter_app, length_app.
      fold (countEmpty h' aggregated).
      rewrite (countEmpty_fmap h h' aggregated aggregated)
        by (by apply emptyName_fmap_kept).
      rewrite filter_cons, filter_nil, En.
      destruct (emptyName h series) eqn:Eempty; simpl.
      * assert (countEmpty h aggregated = 0) as ->; [|done].
        unfold countEmpty.
        destruct (filter (λ l, emptyName h l) aggregated) as [|l t] eqn:Ef; [done|].
        exfalso.
        assert (Hl : l ∈ filter (λ l, emptyName h l) aggregated)
          by (rewrite Ef; left).
        apply list_elem_of_filter in Hl as [Hle Hl].
        rewrite Forall_forall in Hfind.
        destruct (Hfind l Hl) as (s & Hs & Hdup).
        unfold emptyName in Hle. rewrite Hs in Hle.
        symmetry in Esr. apply String.eqb_eq in Esr.
        apply Is_true_true, String.eqb_eq in Hle.
        by rewrite isDuplicate_empty in Hdup.
      * unfold countEmpty. lia.
Qed.

Lemma addCatalog_countEmpty (log10 : Q -> Q) (getTime : string -> num)
    (catalog : list loc) (aggregated : list loc) (h : heap)
    (aggregated' : list loc) (h' : heap) :
  addCatalog log10 getTime aggregated catalog h = Some (aggregated', h') →
  Forall (λ l, is_Some (objects h !! l)) aggregated →
  countEmpty h aggregated <= 1 →
  identityKept h h'
  ∧ Forall (λ l, is_Some (objects h' !! l)) aggregated'
  ∧ countEmpty h' aggregated' <= 1
  ∧ (countEmpty h aggregated = 1 ∨ Exists (λ l, emptyName h l) catalog →
     countEmpty h' aggregated' = 1).
Proof.
  revert aggregated h. induction catalog as [|series rest IH];
    intros aggregated h H Hvalid Hcount; simpl in H.
  - apply ret_Some in H as [-> ->]. split; [reflexivity|].
    split; [done|]. split; [done|]. intros [?|Hex]; [done|]. by inversion Hex.
  - apply bind_Some in H as (agg1 & h1 & Hstep & H).
    apply addSeries_countEmpty in Hstep as (Hk1 & Hvalid1 & Hcount1); [|done..].
    assert (Hle1 : countEmpty h1 agg1 <= 1)
      by (rewrite Hcount1; destruct (emptyName h series); lia).
    apply IH in H as (Hk2 & Hvalid2 & Hcount2 & Hone); [|done..].
    split; [by transitivity h1|]. split; [done|]. split; [done|].
    intros Hcase. apply Hone.
    destruct Hcase as [Hc|Hex].
    + left. rewrite Hcount1. by destruct (emptyName h series).
    + apply Exists_cons in Hex as [Hs|Hrest].
      * left. rewrite Hcount1. by destruct (emptyName h series).
      * right. eapply Exists_impl; [exact Hrest|]. intros l Hl. simpl in Hl.
        rewrite (emptyName_kept h h1); [done..|].
        unfold emptyName in Hl. destruct (objects h !! l); [eauto|done].
Qed.

Lemma addCatalogs_countEmpty (log10 : Q -> Q) (getTime : string -> num)
    (providerCatalogs : list (string * list loc)) (aggregated : list loc)
    (h : heap) (aggregated' : list loc) (h' : heap) :
  addCatalogs log10 getTime aggregated providerCatalogs h = Some (aggregated', h') →
  Forall (λ l, is_Some (objects h !! l)) aggregated →
  countEmpty h aggregated <= 1 →
  identityKept h h'
  ∧ Forall (λ l, is_Some (objects h' !! l)) aggregated'
  ∧ countEmpty h' aggregated' <= 1
  ∧ (countEmpty h aggregated = 1
     ∨ Exists (λ pc, Exists (λ l, emptyName h l) pc.2) providerCatalogs →
     countEmpty h' aggregated' = 1).
Proof.
  revert aggregated h. induction providerCatalogs as [|[provider catalog] rest IH];
    intros aggregated h H Hvalid Hcount; simpl in H.
  - apply ret_Some in H as [-> ->]. split; [reflexivity|].
    split; [done|]. split; [done|]. intros [?|Hex]; [done|]. by inversion Hex.
  - apply bind_Some in H as (agg1 & h1 & Hstep & H).
    apply addCatalog_countEmpty in Hstep as (Hk1 & Hvalid1 & Hle1 & Hone1); [|done..].
    apply IH in H as (Hk2 & Hvalid2 & Hcount2 & Hone); [|done..].
    split; [by transitivity h1|]. split; [done|]. split; [done|].
    intros Hcase. apply Hone.
    destruct Hcase as [Hc|Hex]; [left; apply Hone1; by left|].
    apply Exists_cons in Hex as [Hs|Hrest]; [left; apply Hone1; by right|].
    right. eapply Exists_impl; [exact Hrest|]. intros [p c] Hc. simpl in *.
    eapply Exists_impl; [exact Hc|]. intros l Hl. simpl in Hl.
    rewrite (emptyName_kept h h1); [done..|].
    unfold emptyName in Hl. destruct (objects h !! l); [eauto|done].
Qed.

Lemma sortAggregated_Some (localeCompare : string -> string -> Z)
    (aggregated : list loc) (h : heap) (out : list loc) (h' : heap) :
  sortAggregated localeCompare aggregated h = Some (out, h') →
  h' = h ∧ out ≡ₚ aggregated.
Proof.
  unfold sortAggregated. intros H.
  apply bind_Some in H as (keyed & h2 & Hkeyed & [-> ->]%ret_Some).
  apply keyed_Some in Hkeyed as (-> & <- & _). split; [done|].
  apply fmap_Permutation, stableSort_perm.
Qed.

(** Two records whose names both normalise to the empty string are
    duplicates of each other (the two normalised names are equal; the
    similarity of two empty strings is [1.0]), so the aggregator keeps all
    such records of all providers in one entry: its result holds at most
    one record with such a name, and holds one when a catalog has any. *)
Lemma empty_names_of_run (log10 : Q -> Q) (getTime : string -> num)
    (localeCompare : string -> string -> Z) (x y : Series)
    (providerCatalogs : list (string * list loc)) (h : heap)
    (out : list loc) (h' : heap) :
  normalizeName (name x) = "" → normalizeName (name y) = "" →
  aggregateCatalogs log10 getTime localeCompare providerCatalogs h = Some (out, h') →
  isDuplicate x y = true
  ∧ similarity "" "" = 1%Q
  ∧ countEmpty h' out <= 1
  ∧ (Exists (λ pc, Exists (λ l, emptyName h l) pc.2) providerCatalogs →
     countEmpty h' out = 1).
Proof.
  intros Hx Hy Hrun. split; [by apply isDuplicate_empty|]. split; [reflexivity|].
  unfold aggregateCatalogs in Hrun.
  apply bind_Some in Hrun as (aggregated & h1 & Hacc & Hsort).
  apply sortAggregated_Some in Hsort as [-> Hperm].
  apply addCatalogs_countEmpty in Hacc as (_ & _ & Hle & Hone);
    [|constructor|unfold countEmpty; simpl; lia].
  assert (E : countEmpty h1 out = countEmpty h1 aggregated)
    by (unfold countEmpty; by rewrite Hperm).
  rewrite E. split; [done|]. intros Hex. apply Hone. by right.
Qed.

(** ** Running the primitives that write *)

Lemma modSeries_Some (l : loc) (f : Series -> Series) (h : heap) (x : unit)
    (h' : heap) :
  modSeries l f h = Some (x, h') ↔
  ∃ s, objects h !! l = Some s
       ∧ h' = mkHeap (<[l := f s]> (objects h)) (arrays h) (slugMaps h) (breakdowns h).
Proof.
  unfold modSeries. destruct (objects h !! l) as [s|]; simpl; [|naive_solver].
  destruct x. split; [intros [= <-]; eauto|by intros (? & [= <-] & ->)].
Qed.

Lemma setArray_Some (l : loc) (a : list string) (h : heap) (x : unit) (h' : heap) :
  setArray l a h = Some (x, h') ↔
  is_Some (arrays h !! l)
  ∧ h' = mkHeap (objects h) (<[l := a]> (arrays h)) (slugMaps h) (breakdowns h).
Proof.
  unfold setArray. destruct (arrays h !! l) as [s|]; simpl.
  - destruct x. split; [intros [= <-]; eauto|by intros (? & ->)].
  - split; [done|]. by intros [[? [=]] _].
Qed.

Lemma setSlugs_Some (l : loc) (a : gmap string string) (h : heap) (x : unit)
    (h' : heap) :
  setSlugs l a h = Some (x, h') ↔
  is_Some (slugMaps h !! l)
  ∧ h' = mkHeap (objects h) (arrays h) (<[l := a]> (slugMaps h)) (breakdowns h).
Proof.
  unfold setSlugs. destruct (slugMaps h !! l) as [s|]; simpl.
  - destruct x. split; [intros [= <-]; eauto|by intros (? & ->)].
  - split; [done|]. by intros [[? [=]] _].
Qed.

Lemma setBreakdown_Some (l : loc) (a : gmap string bdval) (h : heap) (x : unit)
    (h' : heap) :
  setBreakdown l a h = Some (x, h') ↔
  is_Some (breakdowns h !! l)
  ∧ h' = mkHeap (objects h) (arrays h) (slugMaps h) (<[l := a]> (breakdowns h)).
Proof.
  unfold setBreakdown. destruct (breakdowns h !! l) as [s|]; simpl.
  - destruct x. split; [intros [= <-]; eauto|by intros (? & ->)].
  - split; [done|]. by intros [[? [=]] _].
Qed.

Lemma newObject_Some (s : Series) (h : heap) (l : loc) (h' : heap) :
  newObject s h = Some (l, h') ↔
  l = length (objects h)
  ∧ h' = mkHeap (objects h ++ [s]) (arrays h) (slugMaps h) (breakdowns h).
Proof. unfold newObject. naive_solver. Qed.

Lemma newArray_Some (a : list string) (h : heap) (l : loc) (h' : heap) :
  newArray a h = Some (l, h') ↔
  l = length (arrays h)
  ∧ h' = mkHeap (objects h) (arrays h ++ [a]) (slugMaps h) (breakdowns h).
Proof. unfold newArray. naive_solver. Qed.

Lemma newSlugs_Some (a : gmap string string) (h : heap) (l : loc) (h' : heap) :
  newSlugs a h = Some (l, h') ↔
  l = length (slugMaps h)
  ∧ h' = mkHeap (objects h) (arrays h) (slugMaps h ++ [a]) (breakdowns h).
Proof. unfold newSlugs. naive_solver. Qed.

Lemma newBreakdown_Some (a : gmap string bdval) (h : heap) (l : loc) (h' : heap) :
  newBreakdown a h = Some (l, h') ↔
  l = length (breakdowns h)
  ∧ h' = mkHeap (objects h) (arrays h) (slugMaps h) (breakdowns h ++ [a]).
Proof. unfold newBreakdown. naive_solver. Qed.

(** One step of the inversion of a run [m h = Some (x, h')]. *)
Ltac run_step :=
  match goal with
  | H : (_ ≫= _) _ = Some _ |- _ =>
      let x := fresh "x" in let h := fresh "h" in let H1 := fresh "Hrun" in
      apply bind_Some in H as (x & h & H1 & H)
  | H : mret _ _ = Some _ |- _ => apply ret_Some in H as [? ?]
  | H : getSeries _ _ = Some _ |- _ => apply getSeries_Some in H as [? ?]
  | H : getArray _ _ = Some _ |- _ => apply getArray_Some in H as [? ?]
  | H : getSlugs _ _ = Some _ |- _ => apply getSlugs_Some in H as [? ?]
  | H : getBreakdown _ _ = Some _ |- _ => apply getBreakdown_Some in H as [? ?]
  | H : modSeries _ _ _ = Some _ |- _ => apply modSeries_Some in H as (? & ? & ?)
  | H : setArray _ _ _ = Some _ |- _ => apply setArray_Some in H as [[? ?] ?]
  | H : setSlugs _ _ _ = Some _ |- _ => apply setSlugs_Some in H as [[? ?] ?]
  | H : setBreakdown _ _ _ = Some _ |- _ => apply setBreakdown_Some in H as [[? ?] ?]
  | H : newObject _ _ = Some _ |- _ => apply newObject_Some in H as [? ?]
  | H : newArray _ _ = Some _ |- _ => apply newArray_Some in H as [? ?]
  | H : newSlugs _ _ = Some _ |- _ => apply newSlugs_Some in H as [? ?]
  | H : newBreakdown _ _ = Some _ |- _ => apply newBreakdown_Some in H as [? ?]
  | H : when ?b _ _ = Some _ |- _ =>
      let E := fresh "Eb" in destruct b eqn:E; unfold when in H
  | H : deref _ ?r _ = Some _ |- _ =>
      let E := fresh "Er" in destruct r eqn:E; unfold deref in H
  | H : (λ _, None) _ = Some _ |- _ => discriminate H
  | H : None = Some _ |- _ => discriminate H
  | H : match ?x with _ => _ end _ = Some _ |- _ =>
      let E := fresh "Em" in destruct x eqn:E
  end.

(** Two reads of one place give one value. *)
Ltac unify_lookups :=
  repeat match goal with
  | H1 : ?l !! ?i = Some ?a, H2 : ?l !! ?i = Some ?b |- _ =>
      first [ is_var b; assert (b = a) by congruence; subst b; clear H2
            | is_var a; assert (a = b) by congruence; subst a; clear H1 ]
  end.

Ltac run_inv :=
  repeat (run_step; subst; cbn [objects arrays slugMaps breakdowns] in *;
          unify_lookups).

(** ** Running the units of the merge *)

Lemma ensureProviders_Some (obj : loc) (prefix : string) (h : heap) (x : unit)
    (h' : heap) :
  ensureProviders obj prefix h = Some (x, h') →
  ∃ s, objects h !! obj = Some s
    ∧ ((is_Some (providers s) ∧ h' = h)
       ∨ (providers s = None
          ∧ h' = mkHeap (<[obj := set_providers (Some (length (arrays h))) s]> (objects h))
                   (arrays h ++ [[prefix]]) (slugMaps h) (breakdowns h))).
Proof.
  unfold ensureProviders. intros H. run_inv.
  - eexists. split; [done|]. right. by apply bool_decide_eq_true in Eb.
  - eexists. split; [done|]. left. apply bool_decide_eq_false in Eb.
    split; [|done]. by destruct (providers _).
Qed.

Lemma ensureSlugs_Some (obj : loc) (prefix : string) (h : heap) (x : unit)
    (h' : heap) :
  ensureSlugs obj prefix h = Some (x, h') →
  ∃ s, objects h !! obj = Some s
    ∧ ((is_Some (providerSlugs s) ∧ h' = h)
       ∨ (providerSlugs s = None
          ∧ h' = mkHeap (<[obj := set_providerSlugs (Some (length (slugMaps h))) s]> (objects h))
                   (arrays h) (slugMaps h ++ [{[ prefix := slugOf prefix (id s) ]}])
                   (breakdowns h))).
Proof.
  unfold ensureSlugs. intros H. run_inv.
  - eexists. split; [done|]. right. by apply bool_decide_eq_true in Eb.
  - eexists. split; [done|]. left. apply bool_decide_eq_false in Eb.
    split; [|done]. by destruct (providerSlugs _).
Qed.

Lemma ensureBreakdown_Some (obj : loc) (h : heap) (x : unit) (h' : heap) :
  ensureBreakdown obj h = Some (x, h') →
  ∃ s, objects h !! obj = Some s
    ∧ ((is_Some (ratingBreakdown s) ∧ h' = h)
       ∨ (ratingBreakdown s = None
          ∧ h' = mkHeap (<[obj := set_ratingBreakdown (Some (length (breakdowns h))) s]> (objects h))
                   (arrays h) (slugMaps h) (breakdowns h ++ [∅]))).
Proof.
  unfold ensureBreakdown. intros H. run_inv.
  - eexists. split; [done|]. right. by apply bool_decide_eq_true in Eb.
  - eexists. split; [done|]. left. apply bool_decide_eq_false in Eb.
    split; [|done]. by destruct (ratingBreakdown _).
Qed.

Lemma pushProvider_Some (obj : loc) (p : string) (h : heap) (x : unit) (h' : heap) :
  pushProvider obj p h = Some (x, h') →
  ∃ s lp cur, objects h !! obj = Some s ∧ providers s = Some lp
    ∧ arrays h !! lp = Some cur
    ∧ ((p ∈ cur ∧ h' = h)
       ∨ (p ∉ cur
          ∧ h' = mkHeap (objects h) (<[lp := (cur ++ [p])%list]> (arrays h))
                   (slugMaps h) (breakdowns h))).
Proof.
  unfold pushProvider. intros H. run_inv.
  - do 3 eexists. split; [done|]. split; [done|]. split; [done|]. right.
    apply negb_true_iff, bool_decide_eq_false in Eb. done.
  - do 3 eexists. split; [done|]. split; [done|]. split; [done|]. left.
    apply negb_false_iff, bool_decide_eq_true in Eb. done.
Qed.

Lemma assignSlugs_Some (obj : loc) (src : gmap string string) (h : heap)
    (x : unit) (h' : heap) :
  assignSlugs obj src h = Some (x, h') →
  ∃ s lp tgt, objects h !! obj = Some s ∧ providerSlugs s = Some lp
    ∧ slugMaps h !! lp = Some tgt
    ∧ h' = mkHeap (objects h) (arrays h) (<[lp := src ∪ tgt]> (slugMaps h))
             (breakdowns h).
Proof. unfold assignSlugs. intros H. run_inv. eauto 10. Qed.

Lemma putSlug_Some (obj : loc) (key v : string) (h : heap) (x : unit) (h' : heap) :
  putSlug obj key v h = Some (x, h') →
  ∃ s lp cur, objects h !! obj = Some s ∧ providerSlugs s = Some lp
    ∧ slugMaps h !! lp = Some cur
    ∧ h' = mkHeap (objects h) (arrays h) (<[lp := <[key := v]> cur]> (slugMaps h))
             (breakdowns h).
Proof. unfold putSlug. intros H. run_inv. eauto 10. Qed.

Lemma assignBreakdown_Some (obj : loc) (src : gmap string bdval) (h : heap)
    (x : unit) (h' : heap) :
  assignBreakdown obj src h = Some (x, h') →
  ∃ s lp tgt, objects h !! obj = Some s ∧ ratingBreakdown s = Some lp
    ∧ breakdowns h !! lp = Some tgt
    ∧ h' = mkHeap (objects h) (arrays h) (slugMaps h)
             (<[lp := src ∪ tgt]> (breakdowns h)).
Proof. unfold assignBreakdown. intros H. run_inv. eauto 10. Qed.

Lemma putEntry_Some (obj : loc) (key : string) (v : bdval) (h : heap) (x : unit)
    (h' : heap) :
  putEntry obj key v h = Some (x, h') →
  ∃ s lp cur, objects h !! obj = Some s ∧ ratingBreakdown s = Some lp
    ∧ breakdowns h !! lp = Some cur
    ∧ h' = mkHeap (objects h) (arrays h) (slugMaps h)
             (<[lp := <[key := v]> cur]> (breakdowns h)).
Proof. unfold putEntry. intros H. run_inv. eauto 10. Qed.

(** ** Stability of the [providerSlugs] and [ratingBreakdown] objects *)

Lemma lookup_modified (os : list Series) (obj : loc) (s : Series)
    (f : Series -> Series) (l : loc) (s0 : Series) :
  os !! obj = Some s → os !! l = Some s0 →
  ∃ s', <[obj := f s]> os !! l = Some s'
        ∧ ((l = obj ∧ s0 = s ∧ s' = f s) ∨ (l ≠ obj ∧ s' = s0)).
Proof.
  intros Hobj Hl. destruct (decide (l = obj)) as [->|Hne].
  - rewrite list_lookup_insert_eq by (by eapply lookup_lt_Some).
    exists (f s). split; [done|]. left. split; [done|]. split; [congruence|done].
  - rewrite list_lookup_insert_ne by done. exists s0. split; [done|]. by right.
Qed.

Lemma lookup_written {A} (xs : list A) (l : loc) (x x0 : A) (l' : loc) :
  l' ≠ l → xs !! l' = Some x0 → <[l := x]> xs !! l' = Some x0.
Proof. intros Hne Hl. by rewrite list_lookup_insert_ne. Qed.

#[local] Instance slugsStable_preorder : PreOrder slugsStable.
Proof.
  split.
  - intros h. split; eauto.
  - intros h1 h2 h3 [Hm12 Ho12] [Hm23 Ho23]. split; [eauto|].
    intros l s le Hs Hle. destruct (Ho12 l s le Hs Hle) as (s2 & Hs2 & Hle2). eauto.
Qed.

#[local] Instance breakdownsStable_preorder : PreOrder breakdownsStable.
Proof.
  split.
  - intros h. split; eauto.
  - intros h1 h2 h3 [Hm12 Ho12] [Hm23 Ho23]. split; [eauto|].
    intros l s le Hs Hle. destruct (Ho12 l s le Hs Hle) as (s2 & Hs2 & Hle2). eauto.
Qed.

(** The state after a write to the record store only. *)
Lemma slugsStable_objects (h : heap) (obj : loc) (s : Series) (f : Series -> Series)
    (arrays' : list (list string)) (slugs' : list (gmap string string))
    (breakdowns' : list (gmap string bdval)) :
  objects h !! obj = Some s →
  (∀ le, providerSlugs s = Some le → providerSlugs (f s) = Some le) →
  (∀ l m, slugMaps h !! l = Some m → slugs' !! l = Some m) →
  slugsStable h (mkHeap (<[obj := f s]> (objects h)) arrays' slugs' breakdowns').
Proof.
  intros Hobj Hf Hm. split; [done|]. intros l s0 le Hs0 Hle. simpl.
  destruct (lookup_modified _ _ _ f _ _ Hobj Hs0) as (s' & Hs' & [(-> & -> & ->)|[_ ->]]);
    eauto.
Qed.

Lemma slugsStable_stores (h : heap) (arrays' : list (list string))
    (slugs' : list (gmap string string)) (breakdowns' : list (gmap string bdval)) :
  (∀ l m, slugMaps h !! l = Some m → slugs' !! l = Some m) →
  slugsStable h (mkHeap (objects h) arrays' slugs' breakdowns').
Proof. intros Hm. split; [done|]. simpl. eauto. Qed.

Lemma breakdownsStable_objects (h : heap) (obj : loc) (s : Series)
    (f : Series -> Series) (arrays' : list (list string))
    (slugs' : list (gmap string string)) (breakdowns' : list (gmap string bdval)) :
  objects h !! obj = Some s →
  (∀ le, ratingBreakdown s = Some le → ratingBreakdown (f s) = Some le) →
  (∀ l m, breakdowns h !! l = Some m → breakdowns' !! l = Some m) →
  breakdownsStable h (mkHeap (<[obj := f s]> (objects h)) arrays' slugs' breakdowns').
Proof.
  intros Hobj Hf Hm. split; [done|]. intros l s0 le Hs0 Hle. simpl.
  destruct (lookup_modified _ _ _ f _ _ Hobj Hs0) as (s' & Hs' & [(-> & -> & ->)|[_ ->]]);
    eauto.
Qed.

Lemma breakdownsStable_stores (h : heap) (arrays' : list (list string))
    (slugs' : list (gmap string string)) (breakdowns' : list (gmap string bdval)) :
  (∀ l m, breakdowns h !! l = Some m → breakdowns' !! l = Some m) →
  breakdownsStable h (mkHeap (objects h) arrays' slugs' breakdowns').
Proof. intros Hm. split; [done|]. simpl. eauto. Qed.

(** Closing a stability goal after the inversion of a unit. *)
Ltac stable_close :=
  first
    [ reflexivity
    | apply slugsStable_objects;
        [eassumption | cbn; congruence | eauto using lookup_app_l_Some]
    | apply slugsStable_stores; eauto using lookup_app_l_Some
    | apply breakdownsStable_objects;
        [eassumption | cbn; congruence | eauto using lookup_app_l_Some]
    | apply breakdownsStable_stores; eauto using lookup_app_l_Some ].

Ltac stable_unit lem :=
  let H := fresh "H" in
  intros ? ? ? H; apply lem in H; destruct_and?; destruct_or?;
  repeat match goal with H : ∃ _, _ |- _ => destruct H end;
  destruct_and?; destruct_or?; destruct_and?; subst; stable_close.

Lemma stable_modSeries (R : relation heap) (l : loc) (f : Series -> Series) :
  (∀ h s, objects h !! l = Some s →
          R h (mkHeap (<[l := f s]> (objects h)) (arrays h) (slugMaps h) (breakdowns h))) →
  preserves R (modSeries l f).
Proof. intros HR h x h' (s & Hs & ->)%modSeries_Some. by apply HR. Qed.

Ltac stable_prim :=
  idtac;
  lazymatch goal with
  | |- preserves _ (ensureProviders _ _) => stable_unit ensureProviders_Some
  | |- preserves _ (ensureSlugs _ _) => stable_unit ensureSlugs_Some
  | |- preserves _ (ensureBreakdown _) => stable_unit ensureBreakdown_Some
  | |- preserves _ (pushProvider _ _) => stable_unit pushProvider_Some
  | |- preserves _ (assignSlugs _ _) => stable_unit assignSlugs_Some
  | |- preserves _ (putSlug _ _ _) => stable_unit putSlug_Some
  | |- preserves _ (assignBreakdown _ _) => stable_unit assignBreakdown_Some
  | |- preserves _ (putEntry _ _ _) => stable_unit putEntry_Some
  | |- preserves _ (newObject _) =>
      intros ? ? ? [_ ->]%newObject_Some; split;
        [done|intros ? ? ? ? ?; eexists; split; [by apply lookup_app_l_Some|done]]
  | |- preserves _ (modSeries _ _) =>
      apply stable_modSeries; intros ? ? ?; stable_close
  end.

Ltac unfold_phases :=
  unfold mergeSeries, choosePrimary, initPrimary, copyExistingData,
    copyProviders, copySlugs, addPrimaryRatings, addSecondaryRatings,
    mergeRatingBreakdowns, copyBreakdown, mergeProviderData, recalculateRating,
    mergePoster, mergeDescription, mergeGenres, mergeStudio, mergeLastUpdated,
    storeMetadataScore.

Section Stable.
Variable log10 : Q -> Q.
Variable getTime : string -> num.








Lemma breakdownsStable_mergeMetadata (primary secondary : loc) :
preserves breakdownsStable (mergeMetadata log10 getTime primary secondary).
Proof. unfold mergeMetadata. unfold_phases. preserves_with stable_prim. Qed.

Lemma breakdownsStable_mergeProviderData (primary secondary : loc) (prefix : string) :
preserves breakdownsStable (mergeProviderData primary secondary prefix).
Proof. unfold_phases. preserves_with stable_prim. Qed.

End Stable.

(** ** The blocks of a merge, one after the other *)

Lemma mergeSeries_phases (log10 : Q -> Q) (getTime : string -> num)
    (existing newSeries : loc) (h : heap) (m : loc) (h' : heap) :
  mergeSeries log10 getTime existing newSeries h = Some (m, h') →
  ∃ secondary p s h1 h2 h3 h4 h5 h6 h7 h8 h9,
    choosePrimary existing newSeries h = Some ((m, secondary), h1)
    ∧ objects h1 !! m = Some p ∧ objects h1 !! secondary = Some s
    ∧ initPrimary m (getPrefixFromId (id p)) h1 = Some (tt, h2)
    ∧ copyProviders existing m h2 = Some (tt, h3)
    ∧ copySlugs existing m h3 = Some (tt, h4)
    ∧ copyBreakdown existing m h4 = Some (tt, h5)
    ∧ addPrimaryRatings m (getPrefixFromId (id p)) h5 = Some (tt, h6)
    ∧ addSecondaryRatings secondary (getPrefixFromId (id s)) h6 = Some (tt, h7)
    ∧ mergeRatingBreakdowns m secondary h7 = Some (tt, h8)
    ∧ mergeProviderData m secondary (getPrefixFromId (id s)) h8 = Some (tt, h9)
    ∧ mergeMetadata log10 getTime m secondary h9 = Some (tt, h').
Proof.
  unfold mergeSeries, copyExistingData. intros H.
  apply bind_Some in H as ([primary secondary] & h1 & Hc & H).
  apply bind_Some in H as (p & ? & [Hp ->]%getSeries_Some & H).
  apply bind_Some in H as (s & ? & [Hs ->]%getSeries_Some & H).
  apply bind_Some in H as ([] & h2 & H2 & H).
  apply bind_Some in H as ([] & h5 & H5 & H).
  apply bind_Some in H5 as ([] & h3 & H3 & H5).
  apply bind_Some in H5 as ([] & h4 & H4 & H5).
  apply bind_Some in H as ([] & h6 & H6 & H).
  apply bind_Some in H as ([] & h7 & H7 & H).
  apply bind_Some in H as ([] & h8 & H8 & H).
  apply bind_Some in H as ([] & h9 & H9 & H).
  apply bind_Some in H as ([] & h10 & H10 & H).
  apply bind_Some in H as ([] & h11 & H11 & H).
  apply bind_Some in H as ([] & h12 & H12 & H).
  apply bind_Some in H as ([] & h13 & H13 & H).
  apply bind_Some in H as ([] & h14 & H14 & H).
  apply bind_Some in H as ([] & h15 & H15 & H).
  apply bind_Some in H as ([] & h16 & H16 & [-> ->]%ret_Some).
  exists secondary, p, s, h1, h2, h3, h4, h5, h6, h7, h8, h9.
  repeat (split; [done|]).
  unfold mergeMetadata.
  apply bind_Some. exists tt, h10. split; [done|].
  apply bind_Some. exists tt, h11. split; [done|].
  apply bind_Some. exists tt, h12. split; [done|].
  apply bind_Some. exists tt, h13. split; [done|].
  apply bind_Some. exists tt, h14. split; [done|].
  apply bind_Some. exists tt, h15. split; [done|]. done.
Qed.

Section IdentityOfPhases.
Variable log10 : Q -> Q.
Variable getTime : string -> num.







Lemma identityKept_mergeProviderData (primary secondary : loc) (prefix : string) :
preserves identityKept (mergeProviderData primary secondary prefix).
Proof. unfold_merge. preserves_with identity_prim. Qed.

Lemma identityKept_mergeMetadata (primary secondary : loc) :
preserves identityKept (mergeMetadata log10 getTime primary secondary).
Proof. unfold mergeMetadata. unfold_merge. preserves_with identity_prim. Qed.

End IdentityOfPhases.

(** ** The merged [providerSlugs] *)








(** ** The secondary's breakdown up to the merge of the breakdowns *)

#[local] Instance tracked_preorder (primary secondary ls : loc)
    (P : gmap string bdval -> Prop) : PreOrder (tracked primary secondary ls P).
Proof.
  split; [intros h H; exact H|].
  intros h1 h2 h3 H12 H23 H. by apply H23, H12.
Qed.

Lemma tracksEntry_facts (primary secondary ls : loc)
    (P : gmap string bdval -> Prop) (h : heap) :
  tracksEntry primary secondary ls P h →
  primary ≠ secondary ∧ ls < length (breakdowns h).
Proof.
  intros ((s & Hs & Hls) & Hp & (m & Hm & _)). split.
  - intros ->. by eapply Hp.
  - by eapply lookup_lt_Some.
Qed.

(** A write to the record of the primary that keeps its breakdown or gives
    it a new one, with new objects in the stores. *)
Lemma tracked_primary_object (primary secondary ls : loc)
    (P : gmap string bdval -> Prop) (h : heap) (p : Series)
    (f : Series -> Series) (arrays' : list (list string))
    (slugs' : list (gmap string string)) (new : list (gmap string bdval)) :
  objects h !! primary = Some p →
  (ratingBreakdown (f p) = ratingBreakdown p
   ∨ ratingBreakdown (f p) = Some (length (breakdowns h))) →
  tracked primary secondary ls P h
    (mkHeap (<[primary := f p]> (objects h)) arrays' slugs' (breakdowns h ++ new)).
Proof.
  intros Hp Hf Htr. destruct (tracksEntry_facts _ _ _ _ _ Htr) as [Hne Hlt].
  destruct Htr as ((s & Hs & Hls) & Hprim & (m & Hm & HP)).
  split; [|split]; simpl.
  - exists s. by rewrite list_lookup_insert_ne.
  - intros p'. rewrite list_lookup_insert_eq by (by eapply lookup_lt_Some).
    intros [= <-]. destruct Hf as [-> | ->]; [by apply Hprim|]. intros [= E]. lia.
  - exists m. split; [by apply lookup_app_l_Some|done].
Qed.

(** A write to another store than the breakdowns. *)
Lemma tracked_other_store (primary secondary ls : loc)
    (P : gmap string bdval -> Prop) (h : heap) (arrays' : list (list string))
    (slugs' : list (gmap string string)) :
  tracked primary secondary ls P h
    (mkHeap (objects h) arrays' slugs' (breakdowns h)).
Proof. intros Htr. exact Htr. Qed.

(** A write to the breakdown of the primary. *)
Lemma tracked_primary_breakdown (primary secondary ls : loc)
    (P : gmap string bdval -> Prop) (h : heap) (p : Series) (lp : loc)
    (new : gmap string bdval) :
  objects h !! primary = Some p → ratingBreakdown p = Some lp →
  tracked primary secondary ls P h
    (mkHeap (objects h) (arrays h) (slugMaps h) (<[lp := new]> (breakdowns h))).
Proof.
  intros Hp Hlp ((s & Hs & Hls) & Hprim & (m & Hm & HP)).
  split; [|split]; simpl; [eauto|done|].
  exists m. split; [|done]. rewrite list_lookup_insert_ne; [done|].
  intros ->. by eapply Hprim.
Qed.

(** A write to the breakdown of the secondary that keeps [P]. *)
Lemma tracked_secondary_breakdown (primary secondary ls : loc)
    (P : gmap string bdval -> Prop) (h : heap) (s : Series) (l : loc)
    (cur new : gmap string bdval) :
  objects h !! secondary = Some s → ratingBreakdown s = Some l →
  breakdowns h !! l = Some cur → (P cur → P new) →
  tracked primary secondary ls P h
    (mkHeap (objects h) (arrays h) (slugMaps h) (<[l := new]> (breakdowns h))).
Proof.
  intros Hs Hl Hcur HP ((s' & Hs' & Hls) & Hprim & (m & Hm & HPm)).
  assert (s' = s) as -> by congruence. assert (l = ls) as -> by congruence.
  assert (m = cur) as -> by congruence.
  split; [|split]; simpl; [eauto|done|].
  exists new. split; [|by apply HP].
  apply list_lookup_insert_eq. by eapply lookup_lt_Some.
Qed.

Section Tracked.
Context (primary secondary ls : loc) (P : gmap string bdval -> Prop).
Local Abbreviation R := (tracked primary secondary ls P).

Lemma tracked_ensureProviders (prefix : string) :
preserves R (ensureProviders primary prefix).
Proof.
intros h x h' (p & Hp & [[_ ->]|[_ ->]])%ensureProviders_Some; [reflexivity|].
rewrite <- (app_nil_r (breakdowns h)). apply tracked_primary_object; [done|by left].
Qed.

Lemma tracked_ensureSlugs (prefix : string) :
preserves R (ensureSlugs primary prefix).
Proof.
intros h x h' (p & Hp & [[_ ->]|[_ ->]])%ensureSlugs_Some; [reflexivity|].
rewrite <- (app_nil_r (breakdowns h)). apply tracked_primary_object; [done|by left].
Qed.

Lemma tracked_ensureBreakdown_primary :
preserves R (ensureBreakdown primary).
Proof.
intros h x h' (p & Hp & [[_ ->]|[_ ->]])%ensureBreakdown_Some; [reflexivity|].
apply tracked_primary_object; [done|by right].
Qed.

Lemma tracked_ensureBreakdown_secondary :
preserves R (ensureBreakdown secondary).
Proof.
intros h x h' (s & Hs & [[_ ->]|[Hnone ->]])%ensureBreakdown_Some; [reflexivity|].
intros ((s' & Hs' & Hls) & _). congruence.
Qed.

Lemma tracked_pushProvider (x : string) : preserves R (pushProvider primary x).
Proof.
intros h ? h' (p & lp & cur & _ & _ & _ & [[_ ->]|[_ ->]])%pushProvider_Some;
  [reflexivity|apply tracked_other_store].
Qed.

Lemma tracked_assignSlugs (src : gmap string string) :
preserves R (assignSlugs primary src).
Proof.
intros h ? h' (p & lp & cur & _ & _ & _ & ->)%assignSlugs_Some.
apply tracked_other_store.
Qed.

Lemma tracked_putSlug (k v : string) : preserves R (putSlug primary k v).
Proof.
intros h ? h' (p & lp & cur & _ & _ & _ & ->)%putSlug_Some.
apply tracked_other_store.
Qed.

Lemma tracked_assignBreakdown (src : gmap string bdval) :
preserves R (assignBreakdown primary src).
Proof.
intros h ? h' (p & lp & cur & Hp & Hlp & _ & ->)%assignBreakdown_Some.
by eapply tracked_primary_breakdown.
Qed.

Lemma tracked_putEntry_primary (k : string) (v : bdval) :
preserves R (putEntry primary k v).
Proof.
intros h ? h' (p & lp & cur & Hp & Hlp & _ & ->)%putEntry_Some.
by eapply tracked_primary_breakdown.
Qed.

Lemma tracked_putEntry_secondary (k : string) (v : bdval) :
(∀ m, P m → P (<[k := v]> m)) → preserves R (putEntry secondary k v).
Proof.
intros HP h ? h' (s & l & cur & Hs & Hl & Hcur & ->)%putEntry_Some.
eapply tracked_secondary_breakdown; eauto.
Qed.

End Tracked.

Ltac tracked_prim :=
  idtac;
  lazymatch goal with
  | |- preserves _ (ensureProviders _ _) => apply tracked_ensureProviders
  | |- preserves _ (ensureSlugs _ _) => apply tracked_ensureSlugs
  | |- preserves _ (ensureBreakdown _) =>
      first [apply tracked_ensureBreakdown_primary
            |apply tracked_ensureBreakdown_secondary]
  | |- preserves _ (pushProvider _ _) => apply tracked_pushProvider
  | |- preserves _ (assignSlugs _ _) => apply tracked_assignSlugs
  | |- preserves _ (putSlug _ _ _) => apply tracked_putSlug
  | |- preserves _ (assignBreakdown _ _) => apply tracked_assignBreakdown
  | |- preserves _ (putEntry _ _ _) =>
      first [apply tracked_putEntry_primary
            |apply tracked_putEntry_secondary; assumption]
  end.

Section TrackedPhases.
Context (primary secondary ls : loc) (P : gmap string bdval -> Prop).
Local Abbreviation R := (tracked primary secondary ls P).

Lemma tracked_initPrimary (prefix : string) :
preserves R (initPrimary primary prefix).
Proof. unfold_phases. preserves_with tracked_prim. Qed.

Lemma tracked_copyProviders (existing : loc) :
preserves R (copyProviders existing primary).
Proof. unfold_phases. preserves_with tracked_prim. Qed.

Lemma tracked_copySlugs (existing : loc) :
preserves R (copySlugs existing primary).
Proof. unfold_phases. preserves_with tracked_prim. Qed.

Lemma tracked_copyBreakdown (src : loc) :
preserves R (copyBreakdown src primary).
Proof. unfold_phases. preserves_with tracked_prim. Qed.

Lemma tracked_addPrimaryRatings (prefix : string) :
preserves R (addPrimaryRatings primary prefix).
Proof. unfold_phases. preserves_with tracked_prim. Qed.

Lemma tracked_addSecondaryRatings (prefix : string) :
(∀ v m, P m → P (<[prefix := v]> m)) →
preserves R (addSecondaryRatings secondary prefix).
Proof.
intros HP. unfold_phases.
preserves_with ltac:(first [tracked_prim | apply tracked_putEntry_secondary; apply HP]).
Qed.

End TrackedPhases.

(** ** The merged [ratingBreakdown] *)

Lemma hasEntry_stable (l : loc) (k : string) (v : bdval) (h h' : heap) :
  breakdownsStable h h' → hasEntry l k v h → hasEntry l k v h'.
Proof.
  intros [Hm Ho] (s & ls & m & Hs & Hls & Hmap & Hk).
  destruct (Ho l s ls Hs Hls) as (s' & Hs' & Hls').
  exists s', ls, m. eauto.
Qed.

Lemma copyBreakdown_hasEntry (src primary : loc) (h h' : heap) (k : string)
    (v : bdval) :
  copyBreakdown src primary h = Some (tt, h') →
  hasEntry src k v h → hasEntry primary k v h'.
Proof.
  unfold copyBreakdown. intros H (s & ls & m & Hs & Hls & Hm & Hk).
  apply bind_Some in H as (e' & ? & [He' ->]%getSeries_Some & H).
  assert (e' = s) as -> by congruence. rewrite Hls in H.
  apply bind_Some in H as (src' & ? & [Hsrc ->]%getBreakdown_Some & H).
  assert (src' = m) as -> by congruence.
  apply assignBreakdown_Some in H as (p & lp & tgt & Hp & Hlp & Htgt & ->).
  exists p, lp, (m ∪ tgt). simpl. split; [done|]. split; [done|]. split.
  - apply list_lookup_insert_eq. by eapply lookup_lt_Some.
  - by apply lookup_union_Some_l.
Qed.

Lemma tracksEntry_hasEntry (primary secondary ls : loc) (k : string) (v : bdval)
    (h : heap) :
  tracksEntry primary secondary ls (λ m, m !! k = Some v) h →
  hasEntry secondary k v h.
Proof. intros ((s & Hs & Hls) & _ & (m & Hm & Hk)). by exists s, ls, m. Qed.

Lemma putEntry_hasEntry (obj : loc) (k : string) (v : bdval) (h h' : heap) :
  putEntry obj k v h = Some (tt, h') →
  hasEntry obj k v h' ∧ objects h' = objects h.
Proof.
  intros (s & l & cur & Hs & Hl & Hcur & ->)%putEntry_Some. split; [|done].
  exists s, l, (<[k := v]> cur). simpl. split; [done|]. split; [done|].
  split; [apply list_lookup_insert_eq; by eapply lookup_lt_Some|].
  apply lookup_insert_eq.
Qed.

Lemma ensureBreakdown_inputs (obj : loc) (h h' : heap) (s : Series) :
  ensureBreakdown obj h = Some (tt, h') → objects h !! obj = Some s →
  ∃ s', objects h' !! obj = Some s' ∧ rating s' = rating s
        ∧ ratingType s' = ratingType s ∧ viewCount s' = viewCount s.
Proof.
  intros (s0 & Hs0 & [[_ ->]|[_ ->]])%ensureBreakdown_Some Hs; [eauto|].
  assert (s0 = s) as -> by congruence. simpl.
  rewrite list_lookup_insert_eq by (by eapply lookup_lt_Some). eauto.
Qed.

(** What the secondary's own rating and view count leave in its breakdown. *)
Lemma addSecondaryRatings_entry (secondary : loc) (sp : string) (h h' : heap)
    (s : Series) :
  addSecondaryRatings secondary sp h = Some (tt, h') →
  objects h !! secondary = Some s →
  (∀ vc, viewCount s = Some vc → hasEntry secondary sp (viewsEntry vc) h')
  ∧ (∀ r, rating s = Some r → viewCount s = None →
          hasEntry secondary sp (ratingEntry r (ratingType s)) h')
  ∧ (rating s = None → viewCount s = None → h' = h).
Proof.
  unfold addSecondaryRatings. intros H Hs.
  apply bind_Some in H as (s0 & ? & [Hs0 ->]%getSeries_Some & H).
  assert (s0 = s) as -> by congruence.
  apply bind_Some in H as ([] & h1 & H1 & H2).
  apply bind_Some in H2 as (s1 & ? & [Hs1 ->]%getSeries_Some & H2).
  assert (Hfirst : ∃ s1', objects h1 !! secondary = Some s1'
            ∧ rating s1' = rating s ∧ ratingType s1' = ratingType s
            ∧ viewCount s1' = viewCount s
            ∧ (∀ r, rating s = Some r →
                    hasEntry secondary sp (ratingEntry r (ratingType s)) h1)
            ∧ (rating s = None → h1 = h)).
  { destruct (rating s) as [r|] eqn:Er.
    - apply bind_Some in H1 as ([] & h0 & He & H1).
      apply bind_Some in H1 as (s0 & ? & [Hs0' ->]%getSeries_Some & H1).
      destruct (ensureBreakdown_inputs _ _ _ _ He Hs) as (s0' & Hs0'' & E1 & E2 & E3).
      assert (s0' = s0) as -> by congruence.
      apply putEntry_hasEntry in H1 as [Hentry Hobj].
      exists s0. rewrite Hobj. split; [done|]. split; [congruence|].
      split; [done|]. split; [done|]. split; [|done].
      intros r' [= <-]. by rewrite <- E2.
    - apply ret_Some in H1 as [_ ->]. exists s. by repeat split. }
  destruct Hfirst as (s1' & Hs1' & E1 & E2 & E3 & Hr & Hnone).
  assert (s1' = s1) as -> by congruence.
  destruct (viewCount s1) as [vc|] eqn:Ev.
  - apply bind_Some in H2 as ([] & h0 & He & H2).
    apply putEntry_hasEntry in H2 as [Hentry _].
    split; [|split]; [|congruence..]. intros vc' Hvc'.
    assert (vc' = vc) as -> by congruence. done.
  - apply ret_Some in H2 as [_ ->]. split; [congruence|]. split; [|auto].
    intros r Hr' _. by apply Hr.
Qed.

#[local] Instance inputsKept_preorder : PreOrder inputsKept.
Proof.
  split.
  - intros h l s Hs. eauto 10.
  - intros h1 h2 h3 H12 H23 l s Hs.
    destruct (H12 l s Hs) as (s2 & Hs2 & ? & ? & ? & ?).
    destruct (H23 l s2 Hs2) as (s3 & Hs3 & ? & ? & ? & ?).
    exists s3. repeat split; congruence.
Qed.

Lemma inputsKept_objects (h h' : heap) :
  objects h' = objects h → inputsKept h h'.
Proof. intros E l s Hs. rewrite E. eauto 10. Qed.

Lemma inputsKept_modSeries (l : loc) (f : Series -> Series) :
  (∀ s, id (f s) = id s ∧ rating (f s) = rating s
        ∧ ratingType (f s) = ratingType s ∧ viewCount (f s) = viewCount s) →
  preserves inputsKept (modSeries l f).
Proof.
  intros Hf h x h' (s & Hs & ->)%modSeries_Some l' s' Hs'. simpl.
  destruct (lookup_modified _ _ _ f _ _ Hs Hs') as (s'' & Hs'' & [(-> & -> & ->)|[_ ->]]).
  - exists (f s). split; [done|]. apply Hf.
  - eauto 10.
Qed.

Ltac inputs_prim :=
  idtac;
  lazymatch goal with
  | |- preserves _ (modSeries _ _) =>
      apply inputsKept_modSeries; intros ?; repeat split; reflexivity
  | |- preserves _ (newObject _) =>
      intros ? ? ? [_ ->]%newObject_Some ? ? ?; simpl;
      eexists; split; [by apply lookup_app_l_Some|done]
  | |- preserves _ (_ _) =>
      let H := fresh in
      intros ? ? ? H; apply inputsKept_objects;
      cbv beta delta [newArray newSlugs newBreakdown setArray setSlugs
                      setBreakdown] in H;
      first [ injection H as _ <-; reflexivity
            | match type of H with
              | context [?l !! ?i] => destruct (l !! i)
              end; simpl in H; [injection H as _ <-; reflexivity|discriminate] ]
  end.

Lemma inputsKept_initPrimary (primary : loc) (prefix : string) :
  preserves inputsKept (initPrimary primary prefix).
Proof. unfold_merge. preserves_with inputs_prim. Qed.

Lemma inputsKept_copyExistingData (existing primary : loc) :
  preserves inputsKept (copyExistingData existing primary).
Proof. unfold_merge. preserves_with inputs_prim. Qed.

Lemma inputsKept_addPrimaryRatings (primary : loc) (prefix : string) :
  preserves inputsKept (addPrimaryRatings primary prefix).
Proof. unfold_merge. preserves_with inputs_prim. Qed.

Lemma inputsKept_copyProviders (existing primary : loc) :
  preserves inputsKept (copyProviders existing primary).
Proof. unfold_merge. preserves_with inputs_prim. Qed.

Lemma inputsKept_copySlugs (existing primary : loc) :
  preserves inputsKept (copySlugs existing primary).
Proof. unfold_merge. preserves_with inputs_prim. Qed.

Lemma inputsKept_copyBreakdown (src primary : loc) :
  preserves inputsKept (copyBreakdown src primary).
Proof. unfold_merge. preserves_with inputs_prim. Qed.

(** The two records as [choosePrimary] leaves them. *)
Lemma choosePrimary_records (existing newSeries : loc) (h : heap)
    (primary secondary : loc) (h1 : heap) (e n : Series) :
  choosePrimary existing newSeries h = Some ((primary, secondary), h1) →
  objects h !! existing = Some e → objects h !! newSeries = Some n →
  objects h1 !! primary
    = Some (if calculateMetadataScore e <? calculateMetadataScore n then n else e)
  ∧ objects h1 !! secondary
    = Some (if calculateMetadataScore e <? calculateMetadataScore n then e else n)
  ∧ arrays h1 = arrays h ∧ slugMaps h1 = slugMaps h ∧ breakdowns h1 = breakdowns h
  ∧ secondary = (if calculateMetadataScore e <? calculateMetadataScore n
                 then existing else newSeries)
  ∧ (∀ l o, objects h !! l = Some o → objects h1 !! l = Some o).
Proof.
  intros Hc He Hn.
  apply choosePrimary_Some in Hc as (e' & n' & He' & Hn' & Hcase).
  assert (e' = e) as -> by congruence. assert (n' = n) as -> by congruence.
  destruct Hcase as [(-> & -> & -> & ->)|(-> & -> & -> & ->)]; simpl.
  - split; [by apply list_lookup_middle|]. split; [by apply lookup_app_l_Some|].
    repeat split; try done. intros l o Hl. by apply lookup_app_l_Some.
  - by repeat split.
Qed.

(** After a merge that returns: on a key that both breakdowns hold, the merged
    [ratingBreakdown] holds the entry of the secondary, not the primary's.
    Every entry of the secondary's [ratingBreakdown] is in the merged one
    (the two records not sharing one breakdown object), except that under
    the secondary's own prefix the merged entry is the one made from the
    secondary's view count, or else from its rating, when it has one. *)
Lemma ratingBreakdown_of_run (log10 : Q -> Q) (getTime : string -> num)
    (existing newSeries : loc) (h : heap) (m : loc) (h' : heap) (e n : Series) :
  mergeSeries log10 getTime existing newSeries h = Some (m, h') →
  objects h !! existing = Some e → objects h !! newSeries = Some n →
  let p := if calculateMetadataScore e <? calculateMetadataScore n then n else e in
  let s := if calculateMetadataScore e <? calculateMetadataScore n then e else n in
  let sp := getPrefixFromId (id s) in
  (∀ ls ms k v,
     ratingBreakdown s = Some ls → breakdowns h !! ls = Some ms →
     ms !! k = Some v → ratingBreakdown p ≠ Some ls →
     k ≠ sp ∨ (rating s = None ∧ viewCount s = None) →
     hasEntry m k v h')
  ∧ (∀ vc, viewCount s = Some vc → hasEntry m sp (viewsEntry vc) h')
  ∧ (∀ r, rating s = Some r → viewCount s = None →
          hasEntry m sp (ratingEntry r (ratingType s)) h').
Proof.
  intros H He Hn p s sp.
  apply mergeSeries_phases in H
    as (secondary & p1 & s1 & h1 & h2 & h3 & h4 & h5 & h6 & h7 & h8 & h9
        & Hc & Hp & Hs1 & H2 & H3 & H4 & H5 & H6 & H7 & H8 & H9 & H10).
  destruct (choosePrimary_records _ _ _ _ _ _ _ _ Hc He Hn)
    as (Hp' & Hs' & _ & _ & Hbd1 & _ & _).
  fold p in Hp'. fold s in Hs'.
  assert (p1 = p) as -> by congruence. assert (s1 = s) as -> by congruence.
  fold sp in H7, H9.
  assert (K16 : inputsKept h1 h6).
  { transitivity h2; [by eapply inputsKept_initPrimary|].
    transitivity h3; [by eapply inputsKept_copyProviders|].
    transitivity h4; [by eapply inputsKept_copySlugs|].
    transitivity h5; [by eapply inputsKept_copyBreakdown|].
    by eapply inputsKept_addPrimaryRatings. }
  destruct (K16 _ _ Hs1) as (s6 & Hs6 & _ & Er & Et & Ev).
  destruct (addSecondaryRatings_entry _ _ _ _ _ H7 Hs6) as (Hviews & Hrating & Hnone).
  assert (Hfinal : ∀ k v, hasEntry secondary k v h7 → hasEntry m k v h').
  { intros k v Hk.
    eapply hasEntry_stable; [by eapply breakdownsStable_mergeMetadata|].
    eapply hasEntry_stable; [by eapply breakdownsStable_mergeProviderData|].
    by eapply copyBreakdown_hasEntry. }
  split; [|split].
  - intros ls ms k v Hls Hms Hk Hpls Hcase. apply Hfinal.
    apply (tracksEntry_hasEntry m secondary ls).
    assert (T1 : tracksEntry m secondary ls (λ mm, mm !! k = Some v) h1).
    { split; [eauto|]. split; [intros p0 Hp0; congruence|].
      exists ms. by rewrite Hbd1. }
    assert (T6 : tracksEntry m secondary ls (λ mm, mm !! k = Some v) h6).
    { eapply tracked_addPrimaryRatings; [exact H6|].
      eapply tracked_copyBreakdown; [exact H5|].
      eapply tracked_copySlugs; [exact H4|].
      eapply tracked_copyProviders; [exact H3|].
      eapply tracked_initPrimary; [exact H2|]. exact T1. }
    destruct Hcase as [Hne|[Hr Hv]].
    + eapply tracked_addSecondaryRatings; [|exact H7|exact T6].
      intros v' mm Hmm. by rewrite lookup_insert_ne.
    + rewrite Hnone; [done|congruence..].
  - intros vc Hvc. apply Hfinal, Hviews. congruence.
  - intros r Hr Hv. apply Hfinal. rewrite <- Et. apply Hrating; congruence.
Qed.

(** The claim fails: where both breakdowns hold an entry for [htv], the
    merged breakdown holds the one of the secondary. *)
Lemma ratingBreakdown_counterexample :
  ¬ keepsPrimaryEntries log10_sample getTime_sample collisionHeap 0 1.
Proof.
  intros Hclaim.
  assert (Hrun : ∃ m h',
    mergeSeries log10_sample getTime_sample 0 1 collisionHeap = Some (m, h')
    ∧ hasEntry m "htv" (viewsEntry (Fin 9000)) h').
  { eexists _, _. split; [vm_compute; reflexivity|].
    eexists _, _, _. repeat split; vm_compute; reflexivity. }
  destruct Hrun as (m & h' & Hrun & (s & ls & mp & Hs & Hls & Hmp & Hk)).
  destruct (Hclaim _ _ m h' 0 {[ "htv" := viewsEntry (Fin 5000) ]}
              1 {[ "htv" := viewsEntry (Fin 9000) ]} "htv"
              (viewsEntry (Fin 5000)) (viewsEntry (Fin 9000))
              eq_refl eq_refl Hrun eq_refl eq_refl eq_refl eq_refl eq_refl eq_refl)
    as (s' & ls' & mp' & Hs' & Hls' & Hmp' & Hk').
  assert (s' = s) as -> by congruence. assert (ls' = ls) as -> by congruence.
  assert (mp' = mp) as -> by congruence. rewrite Hk in Hk'. discriminate.
Qed.

(** ** The incoming record *)

#[local] Instance objectKept_preorder (l : loc) : PreOrder (objectKept l).
Proof.
  split; [intros h s Hs; exact Hs|].
  intros h1 h2 h3 H12 H23 s Hs. by apply H23, H12.
Qed.

Ltac kept_unit lem :=
  let H := fresh "H" in
  intros ? ? ? H; apply lem in H;
  repeat match goal with
         | H : ∃ _, _ |- _ => destruct H
         | H : _ ∧ _ |- _ => destruct H
         | H : _ ∨ _ |- _ => destruct H
         end;
  subst; intros ? ?; simpl; rewrite ?list_lookup_insert_ne by done; done.

Section ObjectKept.
Context (primary l : loc) (Hne : primary ≠ l).

Lemma objectKept_ensureProviders (prefix : string) :
  preserves (objectKept l) (ensureProviders primary prefix).
Proof. kept_unit ensureProviders_Some. Qed.

Lemma objectKept_ensureSlugs (prefix : string) :
  preserves (objectKept l) (ensureSlugs primary prefix).
Proof. kept_unit ensureSlugs_Some. Qed.

Lemma objectKept_ensureBreakdown :
  preserves (objectKept l) (ensureBreakdown primary).
Proof. kept_unit ensureBreakdown_Some. Qed.

Lemma objectKept_modSeries (f : Series -> Series) :
  preserves (objectKept l) (modSeries primary f).
Proof. kept_unit modSeries_Some. Qed.

End ObjectKept.

Lemma objectKept_pushProvider (obj l : loc) (x : string) :
  preserves (objectKept l) (pushProvider obj x).
Proof. kept_unit pushProvider_Some. Qed.

Lemma objectKept_assignSlugs (obj l : loc) (src : gmap string string) :
  preserves (objectKept l) (assignSlugs obj src).
Proof. kept_unit assignSlugs_Some. Qed.

Lemma objectKept_putSlug (obj l : loc) (k v : string) :
  preserves (objectKept l) (putSlug obj k v).
Proof. kept_unit putSlug_Some. Qed.

Lemma objectKept_assignBreakdown (obj l : loc) (src : gmap string bdval) :
  preserves (objectKept l) (assignBreakdown obj src).
Proof. kept_unit assignBreakdown_Some. Qed.

Lemma objectKept_putEntry (obj l : loc) (k : string) (v : bdval) :
  preserves (objectKept l) (putEntry obj k v).
Proof. kept_unit putEntry_Some. Qed.

Ltac kept_prim :=
  idtac;
  lazymatch goal with
  | |- preserves _ (ensureProviders _ _) => apply objectKept_ensureProviders; assumption
  | |- preserves _ (ensureSlugs _ _) => apply objectKept_ensureSlugs; assumption
  | |- preserves _ (ensureBreakdown _) => apply objectKept_ensureBreakdown; assumption
  | |- preserves _ (modSeries _ _) => apply objectKept_modSeries; assumption
  | |- preserves _ (pushProvider _ _) => apply objectKept_pushProvider
  | |- preserves _ (assignSlugs _ _) => apply objectKept_assignSlugs
  | |- preserves _ (putSlug _ _ _) => apply objectKept_putSlug
  | |- preserves _ (assignBreakdown _ _) => apply objectKept_assignBreakdown
  | |- preserves _ (putEntry _ _ _) => apply objectKept_putEntry
  end.

Section ObjectKeptPhases.
Context (log10 : Q -> Q) (getTime : string -> num).
Context (primary l : loc) (Hne : primary ≠ l).

Lemma objectKept_initPrimary (prefix : string) :
  preserves (objectKept l) (initPrimary primary prefix).
Proof. unfold_phases. preserves_with kept_prim. Qed.

Lemma objectKept_copyProviders (existing : loc) :
  preserves (objectKept l) (copyProviders existing primary).
Proof. unfold_phases. preserves_with kept_prim. Qed.

Lemma objectKept_copySlugs (existing : loc) :
  preserves (objectKept l) (copySlugs existing primary).
Proof. unfold_phases. preserves_with kept_prim. Qed.

Lemma objectKept_copyBreakdown (src : loc) :
  preserves (objectKept l) (copyBreakdown src primary).
Proof. unfold_phases. preserves_with kept_prim. Qed.

Lemma objectKept_addPrimaryRatings (prefix : string) :
  preserves (objectKept l) (addPrimaryRatings primary prefix).
Proof. unfold_phases. preserves_with kept_prim. Qed.

Lemma objectKept_mergeProviderData (secondary : loc) (prefix : string) :
  preserves (objectKept l) (mergeProviderData primary secondary prefix).
Proof. unfold_phases. preserves_with kept_prim. Qed.

Lemma objectKept_mergeMetadata (secondary : loc) :
  preserves (objectKept l) (mergeMetadata log10 getTime primary secondary).
Proof. unfold mergeMetadata. unfold_phases. preserves_with kept_prim. Qed.

End ObjectKeptPhases.

(** What [addSecondaryRatings] does to the record of the secondary: it may
    give it a [ratingBreakdown]; no other field changes. *)
Lemma ensureBreakdown_object (obj : loc) (h h' : heap) (s : Series) :
  ensureBreakdown obj h = Some (tt, h') → objects h !! obj = Some s →
  ∃ s', objects h' !! obj = Some s'
        ∧ s' = set_ratingBreakdown (ratingBreakdown s') s
        ∧ is_Some (ratingBreakdown s').
Proof.
  intros (s0 & Hs0 & [[Hsome ->]|[_ ->]])%ensureBreakdown_Some Hs;
    assert (s0 = s) as -> by congruence.
  - exists s. split; [done|]. split; [by destruct s|done].
  - simpl. rewrite list_lookup_insert_eq by (by eapply lookup_lt_Some).
    eexists. split; [done|]. split; [done|]. simpl. eauto.
Qed.

Lemma addSecondaryRatings_object (secondary : loc) (sp : string) (h h' : heap)
    (s : Series) :
  addSecondaryRatings secondary sp h = Some (tt, h') →
  objects h !! secondary = Some s →
  ∃ s', objects h' !! secondary = Some s'
        ∧ s' = set_ratingBreakdown (ratingBreakdown s') s
        ∧ (is_Some (rating s) ∨ is_Some (viewCount s) → is_Some (ratingBreakdown s')).
Proof.
  unfold addSecondaryRatings. intros H Hs.
  apply bind_Some in H as (s0 & ? & [Hs0 ->]%getSeries_Some & H).
  assert (s0 = s) as -> by congruence.
  apply bind_Some in H as ([] & h1 & H1 & H2).
  apply bind_Some in H2 as (s1 & ? & [Hs1 ->]%getSeries_Some & H2).
  assert (Hfirst : s1 = set_ratingBreakdown (ratingBreakdown s1) s
                   ∧ (is_Some (rating s) → is_Some (ratingBreakdown s1))).
  { destruct (rating s) as [r|] eqn:Er.
    - apply bind_Some in H1 as ([] & h0 & He & H1).
      apply bind_Some in H1 as (s0 & ? & [Hs0' ->]%getSeries_Some & H1).
      destruct (ensureBreakdown_object _ _ _ _ He Hs) as (s0' & Hs0'' & E & Hsome).
      assert (s0' = s0) as -> by congruence.
      apply putEntry_hasEntry in H1 as [_ Hobj]. rewrite Hobj in Hs1.
      assert (s1 = s0) as -> by congruence. done.
    - apply ret_Some in H1 as [_ ->]. assert (s1 = s) as -> by congruence.
      split; [by destruct s|]. by intros [? [=]]. }
  destruct Hfirst as [E1 Hsome1].
  destruct (viewCount s1) as [vc|] eqn:Ev.
  - apply bind_Some in H2 as ([] & h0 & He & H2).
    destruct (ensureBreakdown_object _ _ _ _ He Hs1) as (s2 & Hs2 & E2 & Hsome2).
    apply putEntry_hasEntry in H2 as [_ Hobj]. rewrite Hobj.
    exists s2. split; [done|]. split; [|done].
    rewrite E2, E1. reflexivity.
  - apply ret_Some in H2 as [_ ->]. exists s1. split; [done|]. split; [done|].
    intros [Hr|Hv]; [by apply Hsome1|].
    rewrite E1 in Ev. simpl in Ev. rewrite Ev in Hv. by destruct Hv.
Qed.




(** ** Scalar fields *)

#[local] Instance scalarsKept_preorder : PreOrder scalarsKept.
Proof.
  split.
  - intros h l s Hs. eauto.
  - intros h1 h2 h3 H12 H23 l s Hs.
    destruct (H12 l s Hs) as (s2 & Hs2 & E2).
    destruct (H23 l s2 Hs2) as (s3 & Hs3 & E3).
    exists s3. split; [done|]. congruence.
Qed.

Lemma scalarsKept_objects (h h' : heap) :
  objects h' = objects h → scalarsKept h h'.
Proof. intros E l s Hs. rewrite E. eauto. Qed.

Lemma scalarsKept_modSeries (l : loc) (f : Series -> Series) :
  (∀ s, scalars (f s) = scalars s) → preserves scalarsKept (modSeries l f).
Proof.
  intros Hf h x h' (s & Hs & ->)%modSeries_Some l' s' Hs'. simpl.
  destruct (decide (l = l')) as [<-|Hne].
  - assert (s' = s) as -> by congruence.
    rewrite list_lookup_insert_eq by (by eapply lookup_lt_Some). eauto.
  - rewrite list_lookup_insert_ne by done. eauto.
Qed.

Ltac scalars_prim :=
  idtac;
  lazymatch goal with
  | |- preserves _ (modSeries _ _) =>
      apply scalarsKept_modSeries; intros ?; reflexivity
  | |- preserves _ (_ _) =>
      let H := fresh in
      intros ? ? ? H; apply scalarsKept_objects;
      cbv beta delta [newArray newSlugs newBreakdown setArray setSlugs
                      setBreakdown] in H;
      first [ injection H as _ <-; reflexivity
            | match type of H with
              | context [?l !! ?i] => destruct (l !! i)
              end; simpl in H; [injection H as _ <-; reflexivity|discriminate] ]
  end.

Section ScalarsOfPhases.
Context (primary other : loc) (prefix : string).

Lemma scalarsKept_initPrimary : preserves scalarsKept (initPrimary primary prefix).
Proof. unfold_merge. preserves_with scalars_prim. Qed.

Lemma scalarsKept_copyProviders :
  preserves scalarsKept (copyProviders other primary).
Proof. unfold_merge. preserves_with scalars_prim. Qed.

Lemma scalarsKept_copySlugs :
  preserves scalarsKept (copySlugs other primary).
Proof. unfold_merge. preserves_with scalars_prim. Qed.

Lemma scalarsKept_addPrimaryRatings :
  preserves scalarsKept (addPrimaryRatings primary prefix).
Proof. unfold_merge. preserves_with scalars_prim. Qed.

Lemma scalarsKept_addSecondaryRatings :
  preserves scalarsKept (addSecondaryRatings primary prefix).
Proof. unfold_merge. preserves_with scalars_prim. Qed.

Lemma scalarsKept_copyBreakdown :
  preserves scalarsKept (copyBreakdown other primary).
Proof. unfold_merge. preserves_with scalars_prim. Qed.

Lemma scalarsKept_mergeProviderData :
  preserves scalarsKept (mergeProviderData primary other prefix).
Proof. unfold_merge. preserves_with scalars_prim. Qed.

End ScalarsOfPhases.

(** ** Running the merge forward *)

Lemma run_bind {A B} (m : M A) (f : A -> M B) (h : heap) (x : A) (h1 : heap) :
  m h = Some (x, h1) → (m ≫= f) h = f x h1.
Proof. intros H. unfold mbind, M_bind. by rewrite H. Qed.

Lemma run_getSeries (l : loc) (h : heap) (s : Series) :
  objects h !! l = Some s → getSeries l h = Some (s, h).
Proof. intros H. unfold getSeries. by rewrite H. Qed.

Lemma run_getArray (l : loc) (h : heap) (a : list string) :
  arrays h !! l = Some a → getArray l h = Some (a, h).
Proof. intros H. unfold getArray. by rewrite H. Qed.

Lemma run_getSlugs (l : loc) (h : heap) (a : gmap string string) :
  slugMaps h !! l = Some a → getSlugs l h = Some (a, h).
Proof. intros H. unfold getSlugs. by rewrite H. Qed.

Lemma run_getBreakdown (l : loc) (h : heap) (a : gmap string bdval) :
  breakdowns h !! l = Some a → getBreakdown l h = Some (a, h).
Proof. intros H. unfold getBreakdown. by rewrite H. Qed.

Lemma run_modSeries (l : loc) (f : Series -> Series) (h : heap) (s : Series) :
  objects h !! l = Some s → modSeries l f h = Some (tt, setObject l (f s) h).
Proof. intros H. unfold modSeries. by rewrite H. Qed.

Lemma heap_eta (h : heap) :
  mkHeap (objects h) (arrays h) (slugMaps h) (breakdowns h) = h.
Proof. by destruct h. Qed.

Lemma setObject_id (l : loc) (s : Series) (h : heap) :
  objects h !! l = Some s → setObject l s h = h.
Proof.
  intros H. unfold setObject. rewrite list_insert_id by done. apply heap_eta.
Qed.

(** One step forward: the head of the computation is a read whose value
    is among the hypotheses. *)
Ltac run_read :=
  first
    [ erewrite run_bind by (apply run_getSeries; eassumption)
    | erewrite run_bind by (apply run_getArray; eassumption)
    | erewrite run_bind by (apply run_getSlugs; eassumption)
    | erewrite run_bind by (apply run_getBreakdown; eassumption) ].

Lemma ensureProviders_noop (a : loc) (prefix : string) (h : heap) (p : Series) :
  objects h !! a = Some p → is_Some (providers p) →
  ensureProviders a prefix h = Some (tt, h).
Proof.
  intros Hp [l Hl]. unfold ensureProviders. run_read.
  rewrite Hl. by rewrite bool_decide_false.
Qed.

Lemma ensureSlugs_noop (a : loc) (prefix : string) (h : heap) (p : Series) :
  objects h !! a = Some p → is_Some (providerSlugs p) →
  ensureSlugs a prefix h = Some (tt, h).
Proof.
  intros Hp [l Hl]. unfold ensureSlugs. run_read.
  rewrite Hl. by rewrite bool_decide_false.
Qed.

Lemma ensureBreakdown_noop (a : loc) (h : heap) (p : Series) :
  objects h !! a = Some p → is_Some (ratingBreakdown p) →
  ensureBreakdown a h = Some (tt, h).
Proof.
  intros Hp [l Hl]. unfold ensureBreakdown. run_read.
  rewrite Hl. by rewrite bool_decide_false.
Qed.

Lemma pushProvider_noop (a : loc) (x : string) (h : heap) (p : Series)
    (la : loc) (A : list string) :
  objects h !! a = Some p → providers p = Some la → arrays h !! la = Some A →
  x ∈ A → pushProvider a x h = Some (tt, h).
Proof.
  intros Hp Hla HA Hx. unfold pushProvider. run_read. rewrite Hla. run_read.
  by rewrite bool_decide_true.
Qed.

Lemma assignSlugs_noop (a : loc) (src : gmap string string) (h : heap)
    (p : Series) (l : loc) (S : gmap string string) :
  objects h !! a = Some p → providerSlugs p = Some l → slugMaps h !! l = Some S →
  src ∪ S = S → assignSlugs a src h = Some (tt, h).
Proof.
  intros Hp Hl HS E. unfold assignSlugs. run_read. rewrite Hl. run_read.
  unfold setSlugs. rewrite HS, E. simpl. rewrite list_insert_id by done.
  by rewrite heap_eta.
Qed.

Lemma putSlug_noop (a : loc) (k v : string) (h : heap)
    (p : Series) (l : loc) (S : gmap string string) :
  objects h !! a = Some p → providerSlugs p = Some l → slugMaps h !! l = Some S →
  S !! k = Some v → putSlug a k v h = Some (tt, h).
Proof.
  intros Hp Hl HS E. unfold putSlug. run_read. rewrite Hl. run_read.
  unfold setSlugs. rewrite HS, insert_id by done. simpl.
  rewrite list_insert_id by done. by rewrite heap_eta.
Qed.

Lemma assignBreakdown_noop (a : loc) (src : gmap string bdval) (h : heap)
    (p : Series) (l : loc) (B : gmap string bdval) :
  objects h !! a = Some p → ratingBreakdown p = Some l →
  breakdowns h !! l = Some B →
  src ∪ B = B → assignBreakdown a src h = Some (tt, h).
Proof.
  intros Hp Hl HS E. unfold assignBreakdown. run_read. rewrite Hl. run_read.
  unfold setBreakdown. rewrite HS, E. simpl. rewrite list_insert_id by done.
  by rewrite heap_eta.
Qed.

Lemma run_putEntry (a : loc) (k : string) (v : bdval) (h : heap)
    (p : Series) (l : loc) (B : gmap string bdval) :
  objects h !! a = Some p → ratingBreakdown p = Some l →
  breakdowns h !! l = Some B →
  putEntry a k v h
  = Some (tt, mkHeap (objects h) (arrays h) (slugMaps h)
                (<[l := <[k := v]> B]> (breakdowns h))).
Proof.
  intros Hp Hl HS. unfold putEntry. run_read. rewrite Hl. run_read.
  unfold setBreakdown. by rewrite HS.
Qed.

Lemma putEntry_noop (a : loc) (k : string) (v : bdval) (h : heap)
    (p : Series) (l : loc) (B : gmap string bdval) :
  objects h !! a = Some p → ratingBreakdown p = Some l →
  breakdowns h !! l = Some B →
  B !! k = Some v → putEntry a k v h = Some (tt, h).
Proof.
  intros Hp Hl HS E. erewrite run_putEntry by done.
  rewrite insert_id by done. rewrite list_insert_id by done.
  by rewrite heap_eta.
Qed.

Lemma setObject_lookup (a : loc) (p p' : Series) (h : heap) :
  objects h !! a = Some p → objects (setObject a p' h) !! a = Some p'.
Proof.
  intros Hp. simpl. apply list_lookup_insert_eq. by eapply lookup_lt_Some.
Qed.

Lemma setObject_lookup_ne (a b : loc) (p' : Series) (h : heap) :
  a ≠ b → objects (setObject a p' h) !! b = objects h !! b.
Proof. intros Hne. simpl. by apply list_lookup_insert_ne. Qed.

Lemma setObject_setObject (a : loc) (p p' : Series) (h : heap) :
  setObject a p' (setObject a p h) = setObject a p' h.
Proof. unfold setObject. simpl. by rewrite list_insert_insert_eq. Qed.

Lemma run_ret {A} (x : A) (h : heap) : (mret x : M A) h = Some (x, h).
Proof. reflexivity. Qed.

(** The blocks that write scalar fields, run forward: each returns, and
    gives the record of the primary a new value. *)
Section MetadataForward.
Context (log10 : Q -> Q) (getTime : string -> num).
Context (a b : loc) (Hab : a ≠ b).

Lemma run_recalculateRating (h : heap) (p : Series) (lp : loc)
    (B : gmap string bdval) :
  objects h !! a = Some p → ratingBreakdown p = Some lp →
  breakdowns h !! lp = Some B →
  recalculateRating log10 a h
  = Some (tt, setObject a (set_rating (Some (calculateAverageRating log10 (Some B))) p) h).
Proof.
  intros Hp Hlp HB. unfold recalculateRating. run_read. rewrite Hlp. simpl.
  run_read. by apply run_modSeries.
Qed.

Lemma run_mergePoster (h : heap) (p n : Series) :
  objects h !! a = Some p → objects h !! b = Some n →
  ∃ p', mergePoster a b h = Some (tt, setObject a p' h)
        ∧ refs p' = refs p ∧ rating p' = rating p ∧ genres p' = genres p
        ∧ studio p' = studio p.
Proof.
  intros Hp Hn. unfold mergePoster. do 2 run_read.
  destruct (negb (truthy (poster p)) && truthy (poster n)); simpl.
  - eexists. split; [by apply run_modSeries|done].
  - exists p. rewrite setObject_id by done. done.
Qed.

Lemma run_mergeDescription (h : heap) (p n : Series) :
  objects h !! a = Some p → objects h !! b = Some n →
  ∃ p', mergeDescription a b h = Some (tt, setObject a p' h)
        ∧ refs p' = refs p ∧ rating p' = rating p ∧ genres p' = genres p
        ∧ studio p' = studio p.
Proof.
  intros Hp Hn. unfold mergeDescription. do 2 run_read.
  match goal with |- context [when ?c _] => destruct c end; simpl.
  - eexists. split; [by apply run_modSeries|done].
  - exists p. rewrite setObject_id by done. done.
Qed.

Lemma run_mergeGenres (h : heap) (p n : Series) :
  objects h !! a = Some p → objects h !! b = Some n →
  ∃ p', mergeGenres a b h = Some (tt, setObject a p' h)
        ∧ refs p' = refs p ∧ rating p' = rating p
        ∧ genres p' = mergedGenres p n.
Proof.
  intros Hp Hn. unfold mergeGenres, mergedGenres. run_read.
  destruct (genres n) as [gs|] eqn:Egs.
  - run_read. destruct (genres p) as [gp|] eqn:Egp.
    + rewrite bool_decide_false by done. simpl.
      erewrite run_bind by apply run_ret. do 2 run_read.
      rewrite Egp, Egs. simpl.
      eexists. split; [by apply run_modSeries|]. done.
    + rewrite bool_decide_true by done. simpl.
      erewrite run_bind by (by apply run_modSeries).
      erewrite run_bind
        by (apply run_getSeries; by eapply setObject_lookup).
      erewrite run_bind
        by (apply run_getSeries; rewrite setObject_lookup_ne by done; eassumption).
      simpl. rewrite Egs. simpl.
      eexists. split.
      { erewrite run_modSeries by (by eapply setObject_lookup).
        by rewrite setObject_setObject. }
      done.
  - exists p. rewrite setObject_id by done. done.
Qed.

Lemma run_mergeStudio (h : heap) (p n : Series) :
  objects h !! a = Some p → objects h !! b = Some n →
  ∃ p', mergeStudio a b h = Some (tt, setObject a p' h)
        ∧ refs p' = refs p ∧ rating p' = rating p ∧ genres p' = genres p.
Proof.
  intros Hp Hn. unfold mergeStudio. do 2 run_read.
  destruct (negb (truthy (studio p)) && truthy (studio n)).
  { eexists. split; [by apply run_modSeries|done]. }
  destruct (truthy (studio p) && truthy (studio n)).
  - match goal with |- context [when ?c _] => destruct c end; simpl.
    + eexists. split; [by apply run_modSeries|done].
    + exists p. rewrite setObject_id by done. done.
  - exists p. rewrite setObject_id by done. done.
Qed.

Lemma run_mergeLastUpdated (h : heap) (p n : Series) :
  objects h !! a = Some p → objects h !! b = Some n →
  ∃ p', mergeLastUpdated getTime a b h = Some (tt, setObject a p' h)
        ∧ refs p' = refs p ∧ rating p' = rating p ∧ genres p' = genres p.
Proof.
  intros Hp Hn. unfold mergeLastUpdated. do 2 run_read.
  eexists. split; [by apply run_modSeries|done].
Qed.

Lemma run_storeMetadataScore (h : heap) (p : Series) :
  objects h !! a = Some p →
  ∃ p', storeMetadataScore a h = Some (tt, setObject a p' h)
        ∧ refs p' = refs p ∧ rating p' = rating p ∧ genres p' = genres p.
Proof.
  intros Hp. unfold storeMetadataScore. run_read.
  eexists. split; [by apply run_modSeries|done].
Qed.

(** The whole of them: the primary keeps its identity and references, its
    rating is the average over its breakdown, its genres the merged ones. *)
Lemma run_mergeMetadata (h : heap) (p n : Series) (lp : loc)
    (B : gmap string bdval) :
  objects h !! a = Some p → objects h !! b = Some n →
  ratingBreakdown p = Some lp → breakdowns h !! lp = Some B →
  ∃ p', mergeMetadata log10 getTime a b h = Some (tt, setObject a p' h)
        ∧ refs p' = refs p
        ∧ rating p' = Some (calculateAverageRating log10 (Some B))
        ∧ genres p' = mergedGenres p n.
Proof.
  intros Hp Hn Hlp HB. unfold mergeMetadata.
  erewrite run_bind by (by eapply run_recalculateRating).
  set (p1 := set_rating _ p).
  assert (Hp1 : objects (setObject a p1 h) !! a = Some p1)
    by (by eapply setObject_lookup).
  assert (Hn1 : objects (setObject a p1 h) !! b = Some n)
    by (by rewrite setObject_lookup_ne).
  destruct (run_mergePoster _ _ _ Hp1 Hn1) as (p2 & R2 & Er2 & Ea2 & Eg2 & Es2).
  rewrite setObject_setObject in R2.
  erewrite run_bind by exact R2.
  assert (Hp2 : objects (setObject a p2 h) !! a = Some p2)
    by (by eapply setObject_lookup).
  assert (Hn2 : objects (setObject a p2 h) !! b = Some n)
    by (by rewrite setObject_lookup_ne).
  destruct (run_mergeDescription _ _ _ Hp2 Hn2) as (p3 & R3 & Er3 & Ea3 & Eg3 & Es3).
  rewrite setObject_setObject in R3.
  erewrite run_bind by exact R3.
  assert (Hp3 : objects (setObject a p3 h) !! a = Some p3)
    by (by eapply setObject_lookup).
  assert (Hn3 : objects (setObject a p3 h) !! b = Some n)
    by (by rewrite setObject_lookup_ne).
  destruct (run_mergeGenres _ _ _ Hp3 Hn3) as (p4 & R4 & Er4 & Ea4 & Eg4).
  rewrite setObject_setObject in R4.
  erewrite run_bind by exact R4.
  assert (Hp4 : objects (setObject a p4 h) !! a = Some p4)
    by (by eapply setObject_lookup).
  assert (Hn4 : objects (setObject a p4 h) !! b = Some n)
    by (by rewrite setObject_lookup_ne).
  destruct (run_mergeStudio _ _ _ Hp4 Hn4) as (p5 & R5 & Er5 & Ea5 & Eg5).
  rewrite setObject_setObject in R5.
  erewrite run_bind by exact R5.
  assert (Hp5 : objects (setObject a p5 h) !! a = Some p5)
    by (by eapply setObject_lookup).
  assert (Hn5 : objects (setObject a p5 h) !! b = Some n)
    by (by rewrite setObject_lookup_ne).
  destruct (run_mergeLastUpdated _ _ _ Hp5 Hn5) as (p6 & R6 & Er6 & Ea6 & Eg6).
  rewrite setObject_setObject in R6.
  erewrite run_bind by exact R6.
  assert (Hp6 : objects (setObject a p6 h) !! a = Some p6)
    by (by eapply setObject_lookup).
  destruct (run_storeMetadataScore _ _ Hp6) as (p7 & R7 & Er7 & Ea7 & Eg7).
  rewrite setObject_setObject in R7.
  exists p7. split; [exact R7|].
  assert (Em : mergedGenres p3 n = mergedGenres p n).
  { unfold mergedGenres. rewrite Eg3, Es3, Eg2, Es2. reflexivity. }
  split; [|split].
  - rewrite Er7, Er6, Er5, Er4, Er3, Er2. reflexivity.
  - rewrite Ea7, Ea6, Ea5, Ea4, Ea3, Ea2. reflexivity.
  - rewrite Eg7, Eg6, Eg5, Eg4. exact Em.
Qed.

End MetadataForward.

(** ** Merging again what is incorporated *)

Lemma forEach_pushProvider_noop (a : loc) (h : heap) (p : Series) (la : loc)
    (A xs : list string) :
  objects h !! a = Some p → providers p = Some la → arrays h !! la = Some A →
  (∀ x, x ∈ xs → x ∈ A) → forEach xs (pushProvider a) h = Some (tt, h).
Proof.
  intros Hp Hla HA. induction xs as [|x t IH]; intros Hin; simpl; [done|].
  erewrite run_bind
    by (eapply pushProvider_noop; eauto; apply Hin; by left).
  apply IH. intros y Hy. apply Hin. by right.
Qed.

Lemma run_copyBreakdown (src a : loc) (h : heap) (s p : Series) (ls lp : loc)
    (C T : gmap string bdval) :
  objects h !! src = Some s → ratingBreakdown s = Some ls →
  breakdowns h !! ls = Some C →
  objects h !! a = Some p → ratingBreakdown p = Some lp →
  breakdowns h !! lp = Some T →
  copyBreakdown src a h = Some (tt, setCell lp (C ∪ T) h).
Proof.
  intros Hs Hls HC Hp Hlp HT. unfold copyBreakdown. run_read. rewrite Hls.
  run_read. unfold assignBreakdown. run_read. rewrite Hlp. run_read.
  unfold setBreakdown. by rewrite HT.
Qed.

Lemma setCell_id (l : loc) (bd : gmap string bdval) (h : heap) :
  breakdowns h !! l = Some bd → setCell l bd h = h.
Proof.
  intros H. unfold setCell. rewrite list_insert_id by done. apply heap_eta.
Qed.

Lemma setCell_setCell (l : loc) (bd bd' : gmap string bdval) (h : heap) :
  setCell l bd' (setCell l bd h) = setCell l bd' h.
Proof. unfold setCell. simpl. by rewrite list_insert_insert_eq. Qed.

Lemma setCell_lookup (l : loc) (bd bd' : gmap string bdval) (h : heap) :
  breakdowns h !! l = Some bd → breakdowns (setCell l bd' h) !! l = Some bd'.
Proof.
  intros H. simpl. apply list_lookup_insert_eq. by eapply lookup_lt_Some.
Qed.

Lemma copyBreakdown_noop (src a : loc) (h : heap) (s p : Series) (lp : loc)
    (B : gmap string bdval) :
  objects h !! src = Some s → objects h !! a = Some p →
  ratingBreakdown p = Some lp → breakdowns h !! lp = Some B →
  (∀ ls, ratingBreakdown s = Some ls →
         ∃ Bs, breakdowns h !! ls = Some Bs ∧ Bs ∪ B = B) →
  copyBreakdown src a h = Some (tt, h).
Proof.
  intros Hs Hp Hlp HB Hsub.
  destruct (ratingBreakdown s) as [ls|] eqn:Hls.
  - destruct (Hsub ls eq_refl) as (Bs & HBs & E).
    erewrite run_copyBreakdown by done. rewrite E. by rewrite setCell_id.
  - unfold copyBreakdown. run_read. by rewrite Hls.
Qed.

Section Again.
Context (a b : loc) (h : heap) (p n : Series).
Context (la lsl lp : loc) (A : list string) (S : gmap string string)
  (B : gmap string bdval).
Context (Hp : objects h !! a = Some p) (Hn : objects h !! b = Some n).
Context (Hla : providers p = Some la) (HA : arrays h !! la = Some A).
Context (Hlsl : providerSlugs p = Some lsl) (HS : slugMaps h !! lsl = Some S).
Context (Hlp : ratingBreakdown p = Some lp) (HB : breakdowns h !! lp = Some B).

Lemma initPrimary_noop (prefix : string) :
  initPrimary a prefix h = Some (tt, h).
Proof.
  unfold initPrimary.
  erewrite run_bind by (eapply ensureProviders_noop; eauto).
  erewrite run_bind by (eapply ensureSlugs_noop; eauto).
  eapply ensureBreakdown_noop; eauto.
Qed.

Lemma copyExistingData_noop : copyExistingData a a h = Some (tt, h).
Proof.
  unfold copyExistingData.
  assert (R1 : copyProviders a a h = Some (tt, h)).
  { unfold copyProviders. run_read. rewrite Hla. run_read.
    by eapply forEach_pushProvider_noop. }
  assert (R2 : copySlugs a a h = Some (tt, h)).
  { unfold copySlugs. run_read. rewrite Hlsl. run_read.
    eapply assignSlugs_noop; eauto. apply (idemp_L (∪)). }
  erewrite run_bind by exact R1. erewrite run_bind by exact R2.
  eapply copyBreakdown_noop; eauto.
  intros ls Hls. assert (ls = lp) as -> by congruence.
  exists B. split; [done|]. apply (idemp_L (∪)).
Qed.

(** The primary has an entry under its prefix: nothing is added. *)
Lemma addPrimaryRatings_noop (prefix : string) :
  noEntry B prefix = false →
  addPrimaryRatings a prefix h = Some (tt, h).
Proof.
  intros Hno. unfold addPrimaryRatings. run_read. rewrite Hlp. simpl. run_read.
  assert (R1 : match rating p with
               | Some r =>
                   when (noEntry B prefix)
                     (putEntry a prefix (ratingEntry r (ratingType p)))
               | None => mret tt
               end h = Some (tt, h)).
  { rewrite Hno. by destruct (rating p). }
  erewrite run_bind by exact R1. run_read. rewrite Hlp. simpl. run_read.
  rewrite Hno. by destruct (viewCount p).
Qed.

(** It has none, and has a rating: the rating is added as its entry. *)
Lemma run_addPrimaryRatings (prefix : string) (r : num) :
  noEntry B prefix = true → rating p = Some r →
  addPrimaryRatings a prefix h
  = Some (tt, setCell lp (<[prefix := ratingEntry r (ratingType p)]> B) h).
Proof.
  intros Hno Hr. unfold addPrimaryRatings. run_read. rewrite Hlp. simpl.
  run_read. rewrite Hr, Hno. simpl.
  erewrite run_bind by (by eapply run_putEntry).
  fold (setCell lp (<[prefix := ratingEntry r (ratingType p)]> B) h).
  erewrite run_bind by (apply run_getSeries; exact Hp).
  rewrite Hlp. simpl.
  erewrite run_bind by (apply run_getBreakdown; by eapply setCell_lookup).
  destruct (viewCount p); [|done].
  unfold noEntry. by rewrite lookup_insert_eq.
Qed.

Lemma addSecondaryRatings_noop :
  rated n h →
  addSecondaryRatings b (getPrefixFromId (id n)) h = Some (tt, h).
Proof.
  unfold rated. intros Hsec. unfold addSecondaryRatings. run_read.
  destruct (ratingBreakdown n) as [ls|] eqn:Hls.
  - destruct Hsec as (Bs & HBs & Hv & Hr).
    assert (Hens : ensureBreakdown b h = Some (tt, h))
      by (eapply ensureBreakdown_noop; eauto).
    destruct (viewCount n) as [vc|] eqn:Evc.
    + specialize (Hv vc eq_refl).
      destruct (rating n) as [r|] eqn:Er.
      * erewrite run_bind; cycle 1.
        { erewrite run_bind by exact Hens. run_read.
          by eapply run_putEntry. }
        set (h1 := mkHeap _ _ _ _).
        assert (Hn1 : objects h1 !! b = Some n) by done.
        assert (HBs1 : breakdowns h1 !! ls
                       = Some (<[getPrefixFromId (id n)
                                 := ratingEntry r (ratingType n)]> Bs)).
        { simpl. apply list_lookup_insert_eq. by eapply lookup_lt_Some. }
        run_read. rewrite Evc.
        erewrite run_bind by (eapply ensureBreakdown_noop; eauto).
        erewrite run_putEntry by eauto. subst h1. simpl.
        rewrite list_insert_insert_eq, insert_insert_eq.
        rewrite insert_id by done. rewrite list_insert_id by done.
        by rewrite heap_eta.
      * erewrite run_bind by apply run_ret. run_read. rewrite Evc.
        erewrite run_bind by exact Hens. by eapply putEntry_noop.
    + destruct (rating n) as [r|] eqn:Er.
      * specialize (Hr r eq_refl eq_refl).
        erewrite run_bind; cycle 1.
        { erewrite run_bind by exact Hens. run_read.
          by eapply putEntry_noop. }
        run_read. by rewrite Evc.
      * erewrite run_bind by apply run_ret. run_read. by rewrite Evc.
  - destruct Hsec as [-> Hv].
    erewrite run_bind by apply run_ret. run_read. by rewrite Hv.
Qed.

Lemma mergeProviderData_noop :
  getPrefixFromId (id n) ∈ A →
  S !! getPrefixFromId (id n)
  = Some (slugOf (getPrefixFromId (id n)) (id n)) →
  mergeProviderData a b (getPrefixFromId (id n)) h = Some (tt, h).
Proof.
  intros Hin Hslug. unfold mergeProviderData.
  erewrite run_bind by (by eapply pushProvider_noop).
  run_read. by eapply putSlug_noop.
Qed.

End Again.

(** ** What the first merge leaves *)

Lemma copyBreakdown_subsumes (src a : loc) (h h' : heap) (s : Series) :
  copyBreakdown src a h = Some (tt, h') → objects h !! src = Some s →
  objects h' = objects h
  ∧ ∀ ls, ratingBreakdown s = Some ls →
      ∃ Bs Bs' p lp B,
        breakdowns h !! ls = Some Bs ∧ breakdowns h' !! ls = Some Bs'
        ∧ Bs ⊆ Bs'
        ∧ objects h !! a = Some p ∧ ratingBreakdown p = Some lp
        ∧ breakdowns h' !! lp = Some B ∧ Bs' ∪ B = B.
Proof.
  unfold copyBreakdown. intros H Hs.
  apply bind_Some in H as (s' & ? & [Hs' ->]%getSeries_Some & H).
  assert (s' = s) as -> by congruence.
  destruct (ratingBreakdown s) as [ls|] eqn:Hls.
  - apply bind_Some in H as (Bs & ? & [HBs ->]%getBreakdown_Some & H).
    apply assignBreakdown_Some in H as (p & lp & tgt & Hp & Hlp & Htgt & ->).
    split; [done|]. intros ls' [= <-]. simpl.
    assert (Hlt : lp < length (breakdowns h)) by (by eapply lookup_lt_Some).
    destruct (decide (ls = lp)) as [->|Hne].
    + assert (tgt = Bs) as -> by congruence.
      exists Bs, (Bs ∪ Bs), p, lp, (Bs ∪ Bs).
      rewrite list_lookup_insert_eq by done.
      repeat (split; [done|]). split; [apply map_union_subseteq_l|].
      repeat (split; [done|]). apply (idemp_L (∪)).
    + exists Bs, Bs, p, lp, (Bs ∪ tgt).
      rewrite list_lookup_insert_ne by done.
      rewrite list_lookup_insert_eq by done.
      repeat (split; [done|]).
      by rewrite (assoc_L (∪)), (idemp_L (∪)).
  - apply ret_Some in H as [_ ->]. split; [done|]. intros ls [=].
Qed.

Lemma mergeProviderData_state (a b : loc) (sp : string) (h h' : heap)
    (n : Series) :
  mergeProviderData a b sp h = Some (tt, h') → objects h !! b = Some n →
  objects h' = objects h ∧ breakdowns h' = breakdowns h
  ∧ ∃ p la A lsl S,
      objects h !! a = Some p
      ∧ providers p = Some la ∧ arrays h' !! la = Some A ∧ sp ∈ A
      ∧ providerSlugs p = Some lsl ∧ slugMaps h' !! lsl = Some S
      ∧ S !! sp = Some (slugOf sp (id n)).
Proof.
  unfold mergeProviderData. intros H Hn.
  apply bind_Some in H as ([] & h1 & Hpush & H).
  apply bind_Some in H as (n' & ? & [Hn' ->]%getSeries_Some & H).
  apply pushProvider_Some in Hpush as (p & la & cur & Hp & Hla & Hcur & Hcase).
  assert (Hobj : objects h1 = objects h)
    by (destruct Hcase as [[_ ->]|[_ ->]]; done).
  rewrite Hobj in Hn'. assert (n' = n) as -> by congruence.
  apply putSlug_Some in H as (p' & lsl & S & Hp' & Hlsl & HS & ->).
  rewrite Hobj in Hp'. assert (p' = p) as -> by congruence. simpl.
  split; [done|]. split; [by destruct Hcase as [[_ ->]|[_ ->]]|].
  assert (Hlt : lsl < length (slugMaps h1)) by (by eapply lookup_lt_Some).
  destruct Hcase as [[Hin ->]|[Hnin ->]].
  - exists p, la, cur, lsl, (<[sp := slugOf sp (id n)]> S).
    rewrite list_lookup_insert_eq by done. rewrite lookup_insert_eq. done.
  - exists p, la, (cur ++ [sp])%list, lsl, (<[sp := slugOf sp (id n)]> S).
    simpl in *. rewrite !list_lookup_insert_eq by (done || by eapply lookup_lt_Some).
    rewrite lookup_insert_eq. repeat (split; [done|]).
    split; [set_solver|done].
Qed.

Lemma mergeMetadata_reads (log10 : Q -> Q) (getTime : string -> num)
    (a b : loc) (h h' : heap) :
  mergeMetadata log10 getTime a b h = Some (tt, h') →
  ∃ p lp B, objects h !! a = Some p ∧ ratingBreakdown p = Some lp
            ∧ breakdowns h !! lp = Some B.
Proof.
  unfold mergeMetadata, recalculateRating. intros H.
  apply bind_Some in H as ([] & h1 & H & _).
  apply bind_Some in H as (p & ? & [Hp ->]%getSeries_Some & H).
  apply bind_Some in H as (B & h2 & HB & _).
  destruct (ratingBreakdown p) as [lp|] eqn:Hlp; simpl in HB; [|discriminate].
  apply getBreakdown_Some in HB as [HB _]. by exists p, lp, B.
Qed.

(** After the blocks up to the merge of the provider data, with the
    existing record as the primary, the incoming one is incorporated. *)
Lemma first_merge_incorporates (log10 : Q -> Q) (getTime : string -> num)
    (a b : loc) (h6 h7 h8 h9 h' : heap) (n : Series) :
  objects h6 !! b = Some n →
  addSecondaryRatings b (getPrefixFromId (id n)) h6 = Some (tt, h7) →
  mergeRatingBreakdowns a b h7 = Some (tt, h8) →
  mergeProviderData a b (getPrefixFromId (id n)) h8 = Some (tt, h9) →
  mergeMetadata log10 getTime a b h9 = Some (tt, h') →
  ∃ n9, objects h9 !! b = Some n9
        ∧ n9 = set_ratingBreakdown (ratingBreakdown n9) n
        ∧ objects h9 = objects h7
        ∧ incorporated a b h9.
Proof.
  intros Hn6 H7 H8 H9 H10.
  destruct (addSecondaryRatings_object _ _ _ _ _ H7 Hn6) as (n7 & Hn7 & En7 & Hsome).
  destruct (addSecondaryRatings_entry _ _ _ _ _ H7 Hn6) as (Hviews & Hrating & _).
  destruct (copyBreakdown_subsumes _ _ _ _ _ H8 Hn7) as (Ho8 & Hsub).
  assert (Hn8 : objects h8 !! b = Some n7) by (by rewrite Ho8).
  assert (Eid : id n7 = id n) by (by rewrite En7).
  destruct (mergeProviderData_state _ _ _ _ _ _ H9 Hn8)
    as (Ho9 & Hb9 & p & la & A & lsl & S & Hp & Hla & HA & Hin & Hlsl & HS & Hslug).
  destruct (mergeMetadata_reads _ _ _ _ _ _ H10) as (p9 & lp & B & Hp9 & Hlp & HB).
  rewrite Ho9 in Hp9. assert (p9 = p) as -> by congruence.
  rewrite Eid in Hslug. rewrite Hb9 in HB.
  exists n7. split; [by rewrite Ho9|]. split; [done|].
  split; [by rewrite Ho9, Ho8|].
  exists p, n7, la, A, lsl, S, lp, B. rewrite Eid, Ho9, Hb9.
  repeat (split; [done|]).
  destruct (ratingBreakdown n7) as [ls|] eqn:Hls.
  - destruct (Hsub ls eq_refl)
      as (Bs & Bs' & p' & lp' & B' & HBs & HBs' & Hincl & Hp' & Hlp' & HB' & E).
    rewrite Ho8 in Hp. assert (p' = p) as -> by congruence.
    assert (lp' = lp) as -> by congruence.
    assert (B' = B) as -> by congruence.
    exists Bs'. split; [done|]. split; [done|].
    assert (Hent : ∀ v, hasEntry b (getPrefixFromId (id n)) v h7 →
                        Bs' !! getPrefixFromId (id n) = Some v).
    { intros v (s0 & ls0 & m0 & Hs0 & Hls0 & Hm0 & Hk).
      assert (s0 = n7) as -> by congruence.
      assert (ls0 = ls) as -> by congruence.
      assert (m0 = Bs) as -> by congruence.
      by eapply lookup_weaken. }
    split.
    + intros vc Hvc. apply Hent, Hviews. by rewrite En7 in Hvc.
    + intros r Hr Hvc. rewrite En7 in Hr, Hvc. simpl in Hr, Hvc.
      rewrite En7. simpl. by apply Hent, Hrating.
  - assert (Hnone : ¬ (is_Some (rating n) ∨ is_Some (viewCount n))).
    { intros Hc. destruct (Hsome Hc) as [? [=]]. }
    rewrite En7. simpl.
    split; [destruct (rating n)|destruct (viewCount n)]; try done;
      exfalso; apply Hnone; eauto.
Qed.

Lemma incorporated_setObject (a b : loc) (h : heap) (p p' : Series) :
  a ≠ b → objects h !! a = Some p → refs p' = refs p →
  incorporated a b h → incorporated a b (setObject a p' h).
Proof.
  intros Hab Hp Hrefs
    (p0 & n & la & A & lsl & S & lp & B & Hp0 & Hn & Hla & HA & Hin
     & Hlsl & HS & Hslug & Hlp & HB & Hsec).
  assert (p0 = p) as -> by congruence.
  injection Hrefs as Eid Epr Esl Ebd.
  exists p', n, la, A, lsl, S, lp, B.
  split; [by eapply setObject_lookup|].
  split; [by rewrite setObject_lookup_ne|].
  split; [congruence|]. split; [done|]. split; [done|].
  split; [congruence|]. split; [done|]. split; [done|].
  split; [congruence|]. split; [done|]. exact Hsec.
Qed.

Lemma scalars_fields (s s' : Series) :
  scalars s' = scalars s →
  id s' = id s ∧ studio s' = studio s ∧ genres s' = genres s.
Proof.
  intros E. split; [exact (f_equal id E)|].
  split; [exact (f_equal studio E)|exact (f_equal genres E)].
Qed.

(** The blocks after the merge of the provider data, as [mergeSeries]
    has them, are [mergeMetadata]. *)
Lemma run_mergeSeries_tail (log10 : Q -> Q) (getTime : string -> num)
    (a b : loc) (h hf : heap) :
  mergeMetadata log10 getTime a b h = Some (tt, hf) →
  (recalculateRating log10 a;; mergePoster a b;; mergeDescription a b;;
   mergeGenres a b;; mergeStudio a b;; mergeLastUpdated getTime a b;;
   storeMetadataScore a;; mret a) h = Some (a, hf).
Proof.
  unfold mergeMetadata. intros H.
  apply bind_Some in H as ([] & h1 & H1 & H).
  apply bind_Some in H as ([] & h2 & H2 & H).
  apply bind_Some in H as ([] & h3 & H3 & H).
  apply bind_Some in H as ([] & h4 & H4 & H).
  apply bind_Some in H as ([] & h5 & H5 & H).
  apply bind_Some in H as ([] & h6 & H6 & H).
  erewrite run_bind by exact H1. erewrite run_bind by exact H2.
  erewrite run_bind by exact H3. erewrite run_bind by exact H4.
  erewrite run_bind by exact H5. erewrite run_bind by exact H6.
  erewrite run_bind by exact H. reflexivity.
Qed.

(** ** Genres merged twice *)

Lemma dedupe_step_in (acc l : list string) (x : string) :
  x ∈ foldl (λ acc g, if bool_decide (g ∈ acc) then acc else (acc ++ [g])%list)
        acc l
  ↔ x ∈ acc ∨ x ∈ l.
Proof.
  revert acc. induction l as [|y t IH]; intros acc; simpl.
  - set_solver.
  - rewrite IH. case_bool_decide; set_solver.
Qed.

Lemma dedupe_step_NoDup (acc l : list string) :
  NoDup acc →
  NoDup (foldl (λ acc g, if bool_decide (g ∈ acc) then acc else (acc ++ [g])%list)
           acc l).
Proof.
  revert acc. induction l as [|y t IH]; intros acc Hnd; simpl; [done|].
  apply IH. case_bool_decide; [done|].
  apply NoDup_app. split; [done|]. split; [set_solver|].
  apply NoDup_singleton.
Qed.

Lemma dedupe_step_known (acc l : list string) :
  (∀ x, x ∈ l → x ∈ acc) →
  foldl (λ acc g, if bool_decide (g ∈ acc) then acc else (acc ++ [g])%list) acc l
  = acc.
Proof.
  induction l as [|y t IH]; intros Hin; simpl; [done|].
  rewrite bool_decide_true by (apply Hin; by left).
  apply IH. intros x Hx. apply Hin. by right.
Qed.

Lemma dedupe_step_fresh (acc l : list string) :
  NoDup (acc ++ l) →
  foldl (λ acc g, if bool_decide (g ∈ acc) then acc else (acc ++ [g])%list) acc l
  = (acc ++ l)%list.
Proof.
  revert acc. induction l as [|y t IH]; intros acc Hnd; simpl.
  - by rewrite app_nil_r.
  - apply NoDup_app in Hnd as (Hacc & Hdisj & Ht).
    rewrite bool_decide_false by (intros Hy; eapply Hdisj; [exact Hy|by left]).
    rewrite IH; [by rewrite <- app_assoc|].
    apply NoDup_cons in Ht as [Hy Ht].
    apply NoDup_app. split; [|split; [|done]].
    + apply NoDup_app. split; [done|]. split; [|apply NoDup_singleton].
      intros x Hx ->%list_elem_of_singleton. eapply Hdisj; [exact Hx|by left].
    + intros x [Hx| ->%list_elem_of_singleton]%elem_of_app Hxt.
      * eapply Hdisj; [exact Hx|by right].
      * done.
Qed.

Lemma dedupe_in (l : list string) (x : string) : x ∈ dedupe l ↔ x ∈ l.
Proof. unfold dedupe. rewrite dedupe_step_in. set_solver. Qed.

Lemma dedupe_NoDup (l : list string) : NoDup (dedupe l).
Proof. apply dedupe_step_NoDup, NoDup_nil_2. Qed.

(** A list without duplicates followed by elements of it. *)
Lemma dedupe_again (l extra : list string) :
  NoDup l → (∀ x, x ∈ extra → x ∈ l) → dedupe (l ++ extra) = l.
Proof.
  intros Hnd Hin. unfold dedupe. rewrite foldl_app.
  rewrite (dedupe_step_fresh [] l) by done. simpl.
  by apply dedupe_step_known.
Qed.

Lemma filter_all (P : string -> bool) (l : list string) :
  (∀ x, x ∈ l → P x = true) → filter (λ g, P g) l = l.
Proof.
  induction l as [|y t IH]; intros H; [done|].
  rewrite filter_cons_True by (apply Is_true_true, H; by left).
  f_equal. apply IH. intros x Hx. apply H. by right.
Qed.

Lemma filterStudio_app (sn : option string) (l1 l2 : list string) :
  filterStudio sn (l1 ++ l2) = (filterStudio sn l1 ++ filterStudio sn l2)%list.
Proof.
  unfold filterStudio. destruct sn as [st|]; [|done].
  destruct (truthy (Some st)); [apply filter_app|done].
Qed.

Lemma filterStudio_in (sn : option string) (l : list string) (x : string) :
  x ∈ filterStudio sn l → x ∈ l.
Proof.
  unfold filterStudio. destruct sn as [st|]; [|done].
  destruct (truthy (Some st)); [|done]. by intros [_ ?]%list_elem_of_filter.
Qed.

Lemma filterStudio_filtered (sn : option string) (l l' : list string) :
  (∀ x, x ∈ l → x ∈ filterStudio sn l') → filterStudio sn l = l.
Proof.
  unfold filterStudio. destruct sn as [st|]; [|done].
  destruct (truthy (Some st)); [|done]. intros H.
  apply (filter_all (notStudio st)). intros x Hx.
  apply H, list_elem_of_filter in Hx as [Hx _]. by apply Is_true_true.
Qed.

Lemma filterStudio_sameStudio (x y : option string) (l : list string) :
  sameStudio x y → filterStudio x l = filterStudio y l.
Proof.
  intros [Ht El]. unfold filterStudio.
  destruct x as [sx|], y as [sy|]; simpl in *.
  - rewrite <- Ht. destruct (negb _); [|done].
    unfold notStudio. by rewrite El.
  - by rewrite Ht.
  - by rewrite <- Ht.
  - done.
Qed.

(** Merging the genres of [s] into genres that hold them already. *)
Lemma mergedGenres_again (p p1 s : Series) :
  genres p1 = mergedGenres p s →
  sameStudio (orElse (studio p1) (studio s)) (orElse (studio p) (studio s)) →
  mergedGenres p1 s = genres p1.
Proof.
  intros Hg Hst. unfold mergedGenres in *.
  destruct (genres s) as [gs|]; [|done].
  rewrite (filterStudio_sameStudio _ _ _ Hst). rewrite Hg. simpl.
  set (sn := orElse (studio p) (studio s)).
  set (X := (default [] (genres p) ++ gs)%list).
  f_equal. rewrite filterStudio_app.
  rewrite (filterStudio_filtered sn (dedupe (filterStudio sn X)) X)
    by (intros x; apply dedupe_in).
  apply dedupe_again; [apply dedupe_NoDup|].
  intros x Hx. apply dedupe_in. subst X. rewrite filterStudio_app.
  apply elem_of_app. by right.
Qed.

(** ** The average of a breakdown that holds its own average *)

Lemma num_add_comm (a b : num) : num_add a b = num_add b a.
Proof.
  destruct a, b; simpl; try reflexivity.
  unfold fin. f_equal. apply Qred_complete. ring.
Qed.

Lemma num_add_assoc (a b c : num) :
  num_add (num_add a b) c = num_add a (num_add b c).
Proof.
  destruct a, b, c; simpl; try reflexivity.
  unfold fin. f_equal. apply Qred_complete. rewrite !Qred_correct. ring.
Qed.

Lemma weighStep_comm (log10 : Q -> Q) (acc : num * num)
    (e1 e2 : string * bdval) :
  weighStep log10 (weighStep log10 acc e1) e2
  = weighStep log10 (weighStep log10 acc e2) e1.
Proof.
  unfold weighStep.
  destruct (resolveNormalized log10 e1.2), (resolveNormalized log10 e2.2);
    simpl; try reflexivity.
  f_equal; rewrite !num_add_assoc; f_equal; apply num_add_comm.
Qed.

Lemma foldl_last_comm {A B} (f : A -> B -> A) (l : list B) (a : A) (x : B) :
  (∀ a x y, f (f a x) y = f (f a y) x) →
  foldl f (f a x) l = f (foldl f a l) x.
Proof.
  intros Hc. revert a. induction l as [|y t IH]; intros a; simpl; [done|].
  rewrite <- IH. f_equal. apply Hc.
Qed.

Lemma foldl_Permutation {A B} (f : A -> B -> A) (l l' : list B) (a : A) :
  (∀ a x y, f (f a x) y = f (f a y) x) →
  l ≡ₚ l' → foldl f a l = foldl f a l'.
Proof.
  intros Hc Hp. revert a.
  induction Hp as [|x l l' _ IH|x y l|l1 l2 l3 _ IH1 _ IH2]; intros a; simpl.
  - done.
  - apply IH.
  - by rewrite Hc.
  - by rewrite IH1.
Qed.

Lemma calculateWeightedAverage_averageOf (log10 : Q -> Q)
    (bd : gmap string bdval) :
  calculateWeightedAverage log10 (Some bd)
  = averageOf (foldl (weighStep log10) (Fin 0, Fin 0) (map_to_list bd)).
Proof.
  unfold calculateWeightedAverage, averageOf.
  by destruct (foldl _ _ _) as [w s].
Qed.

(** The totals of a breakdown with one more entry. *)
Lemma totals_insert (log10 : Q -> Q) (bd : gmap string bdval) (k : string)
    (d : bdval) :
  bd !! k = None →
  foldl (weighStep log10) (Fin 0, Fin 0) (map_to_list (<[k := d]> bd))
  = weighStep log10
      (foldl (weighStep log10) (Fin 0, Fin 0) (map_to_list bd)) (k, d).
Proof.
  intros Hk.
  rewrite (foldl_Permutation _ _ ((k, d) :: map_to_list bd));
    [|apply weighStep_comm|by apply map_to_list_insert].
  simpl. apply foldl_last_comm, weighStep_comm.
Qed.

Lemma weightOf_cases (k : string) :
  inherited k = false → weightOf k = Fin 5 ∨ weightOf k = Fin 1.
Proof.
  intros Hk. unfold weightOf, CONFIG.PROVIDER_WEIGHTS.
  destruct (decide (k = "hmm")) as [->|H1]; [by left|].
  rewrite lookup_insert_ne by done.
  destruct (decide (k = "htv")) as [->|H2]; [by right|].
  rewrite lookup_insert_ne by done.
  destruct (decide (k = "hse")) as [->|H3]; [by right|].
  rewrite lookup_singleton_ne by done. rewrite Hk. by right.
Qed.

Lemma weightOf_inherited (k : string) : inherited k = true → weightOf k = NaN.
Proof.
  intros Hk. unfold weightOf, CONFIG.PROVIDER_WEIGHTS.
  destruct (decide (k = "hmm")) as [->|H1]; [done|].
  rewrite lookup_insert_ne by done.
  destruct (decide (k = "htv")) as [->|H2]; [done|].
  rewrite lookup_insert_ne by done.
  destruct (decide (k = "hse")) as [->|H3]; [done|].
  rewrite lookup_singleton_ne by done. by rewrite Hk.
Qed.

Lemma Qfloor_unique (x : Q) (k : Z) :
  (inject_Z k <= x)%Q → (x < inject_Z (k + 1))%Q → Qfloor x = k.
Proof.
  intros Hlo Hhi.
  pose proof (Qfloor_le x) as Flo. pose proof (Qlt_floor x) as Fhi.
  assert (H1 : (Qfloor x < k + 1)%Z) by (rewrite Zlt_Qlt; lra).
  assert (H2 : (k < Qfloor x + 1)%Z) by (rewrite Zlt_Qlt; lra).
  lia.
Qed.

(** A value rounded to a tenth stays the rounded value of a weighted mean
    of itself and what it was rounded from. *)
Lemma round_convex (x y t : Q) (k : Z) :
  (0 < t)%Q → (t <= 1)%Q →
  (inject_Z k <= x + (1 # 2))%Q → (x + (1 # 2) < inject_Z (k + 1))%Q →
  (y == x * t + inject_Z k * (1 - t))%Q →
  Qfloor (y + (1 # 2)) = k.
Proof.
  intros Ht0 Ht1 Hlo Hhi Hy. apply Qfloor_unique.
  - rewrite Hy. rewrite inject_Z_plus in Hhi.
    change (inject_Z 1) with 1%Q in Hhi. nra.
  - rewrite Hy. rewrite inject_Z_plus in Hhi |- *.
    change (inject_Z 1) with 1%Q in Hhi |- *. nra.
Qed.

Lemma averageOf_Fin (w s : Q) :
  ¬ (w == 0)%Q →
  averageOf (Fin w, Fin s)
  = Fin (Qred (inject_Z (Qfloor (Qred (Qred (s / w) * 10) + (1 # 2))) / 10)).
Proof.
  intros Hw. unfold averageOf. simpl.
  destruct (Qeq_bool w 0) eqn:E; [by apply Qeq_bool_iff in E|].
  reflexivity.
Qed.

(** The average over totals to which the average itself is added with a
    positive weight. *)
Lemma averageOf_step (w s w0 r : Q) (w' s' : Q) :
  (0 <= s)%Q → (s <= 10 * w)%Q → ((w == 0)%Q ∨ (1 <= w)%Q) → (1 <= w0)%Q →
  averageOf (Fin w, Fin s) = Fin r →
  (w' == w + w0)%Q → (s' == s + r * w0)%Q →
  averageOf (Fin w', Fin s') = Fin r
  ∧ (0 <= r)%Q ∧ (r <= 10)%Q ∧ r = Qred r.
Proof.
  intros Hs0 Hs10 Hw Hw0 Havg Ew Es.
  destruct Hw as [Hw|Hw].
  - assert (Hr : r = 6%Q).
    { unfold averageOf in Havg. simpl in Havg.
      destruct (Qeq_bool w 0) eqn:E;
        [|apply Qeq_bool_neq in E; contradiction].
      by injection Havg as <-. }
    subst r. split; [|split; [lra|split; [lra|reflexivity]]].
    assert (Hs : (s == 0)%Q) by lra.
    assert (Hw' : ¬ (w' == 0)%Q) by lra.
    rewrite averageOf_Fin by done.
    assert (Hq : (Qred (Qred (s' / w') * 10) + (1 # 2) == 60 + (1 # 2))%Q).
    { rewrite !Qred_correct.
      assert (Hdiv : (s' / w' == 6)%Q).
      { assert (E6 : (s' == 6 * w')%Q) by (rewrite Es, Ew, Hs, Hw; ring).
        rewrite E6. field. exact Hw'. }
      rewrite Hdiv. reflexivity. }
    rewrite Hq. reflexivity.
  - assert (Hwne : ¬ (w == 0)%Q) by lra.
    assert (Hw' : ¬ (w' == 0)%Q) by lra.
    rewrite averageOf_Fin in Havg by done.
    set (X := (Qred (Qred (s / w) * 10))%Q) in Havg.
    set (k := Qfloor (X + (1 # 2))) in Havg.
    assert (Hr : Qred (inject_Z k / 10) = r) by congruence. clear Havg.
    assert (HX : (X == s / w * 10)%Q) by (unfold X; by rewrite !Qred_correct).
    pose proof (Qfloor_le (X + (1 # 2))) as Hlo.
    pose proof (Qlt_floor (X + (1 # 2))) as Hhi.
    fold k in Hlo, Hhi.
    assert (Hrk : (r == inject_Z k / 10)%Q) by (rewrite <- Hr; apply Qred_correct).
    assert (HXw : (X * w == s * 10)%Q).
    { rewrite HX. field. exact Hwne. }
    assert (HX0 : (0 <= X)%Q) by nra.
    assert (HX10 : (X <= 100)%Q) by nra.
    rewrite inject_Z_plus in Hhi. change (inject_Z 1) with 1%Q in Hhi.
    assert (Hk0 : (0 <= k)%Z).
    { assert (H0 : (-1 < k)%Z); [|lia].
      rewrite Zlt_Qlt. change (inject_Z (-1)) with (-1)%Q. lra. }
    assert (Hk100 : (k <= 100)%Z).
    { assert (H1 : (k < 101)%Z); [|lia].
      rewrite Zlt_Qlt. change (inject_Z 101) with 101%Q. lra. }
    rewrite Zle_Qle in Hk0, Hk100.
    change (inject_Z 0) with 0%Q in Hk0. change (inject_Z 100) with 100%Q in Hk100.
    split; [|split; [|split]].
    + rewrite averageOf_Fin by done. rewrite <- Hr.
      assert (Hk' : Qfloor (Qred (Qred (s' / w') * 10) + (1 # 2)) = k);
        [|by rewrite Hk'].
      set (t := (w / w')%Q).
      assert (Ht : (t * w' == w)%Q) by (unfold t; field; exact Hw').
      assert (Ht0 : (0 < t)%Q) by nra.
      assert (Ht1 : (t <= 1)%Q) by nra.
      apply (round_convex X _ t k Ht0 Ht1 Hlo).
      { rewrite inject_Z_plus. change (inject_Z 1) with 1%Q. exact Hhi. }
      rewrite !Qred_correct.
      assert (Hdiv : (s' / w' == (X * t + inject_Z k * (1 - t)) / 10)%Q).
      { assert (E1 : (s' == (X * (t * w') + inject_Z k * (w' - t * w')) / 10)%Q).
        { rewrite Ht, Es, Ew, Hrk.
          assert (E2 : (X * w / 10 == s)%Q) by (rewrite HXw; field).
          rewrite <- E2 at 1. field. }
        rewrite E1. field. exact Hw'. }
      rewrite Hdiv. field.
    + rewrite Hrk. lra10.
    + rewrite Hrk. lra10.
    + rewrite <- Hr. symmetry. apply Qred_complete, Qred_correct.
Qed.

Lemma weighStep_graded (log10 : Q -> Q) (acc : num * num) (k : string)
    (d : bdval) :
  inherited k = false →
  graded d → bounded acc → bounded (weighStep log10 acc (k, d)).
Proof.
  intros Hk (r & q & t & -> & Hq0 & Hq10) (w & s & -> & Hs0 & Hs10 & Hw).
  unfold weighStep. simpl.
  destruct (weightOf_cases k Hk) as [-> | ->]; simpl; unfold fin;
    eexists _, _; (split; [reflexivity|]); rewrite !Qred_correct;
    (split; [nra|]); (split; [nra|]); right; destruct Hw; lra.
Qed.

Lemma totals_graded (log10 : Q -> Q) (l : list (string * bdval))
    (acc : num * num) :
  Forall (λ e, inherited e.1 = false ∧ graded e.2) l → bounded acc →
  bounded (foldl (weighStep log10) acc l).
Proof.
  intros Hl. revert acc.
  induction Hl as [|[k d] l [Hk Hd] _ IH]; intros acc Hacc; simpl; [done|].
  apply IH. by apply weighStep_graded.
Qed.

(** The totals of a breakdown of graded entries under keys that are not
    inherited. *)
Lemma totals_bounded (log10 : Q -> Q) (bd : gmap string bdval) :
  plainKeys bd → map_Forall (λ _ d, graded d) bd →
  bounded (foldl (weighStep log10) (Fin 0, Fin 0) (map_to_list bd)).
Proof.
  intros Hp Hg. apply totals_graded.
  - apply Forall_forall. intros [k d] Hkd. apply elem_of_map_to_list in Hkd.
    split; [apply Hp; by exists d|by apply (Hg k)].
  - exists 0%Q, 0%Q. split; [done|]. split; [lra|]. split; [lra|]. by left.
Qed.

Lemma averageOf_bounded (acc : num * num) :
  bounded acc →
  ∃ r, averageOf acc = Fin r ∧ (0 <= r)%Q ∧ (r <= 10)%Q ∧ r = Qred r.
Proof.
  intros (w & s & -> & Hs0 & Hs10 & Hw).
  assert (Hex : ∃ r, averageOf (Fin w, Fin s) = Fin r).
  { destruct Hw as [Hw|Hw].
    - exists 6%Q. unfold averageOf. simpl.
      destruct (Qeq_bool w 0) eqn:E; [done|].
      by apply Qeq_bool_neq in E.
    - eexists. apply averageOf_Fin. lra. }
  destruct Hex as [r Hr]. exists r. split; [exact Hr|].
  eapply (averageOf_step w s 1 r (w + 1) (s + r * 1)); eauto; lra.
Qed.

(** The weighted average of graded entries to which an entry graded with
    the average itself is added. *)
Lemma average_with_itself (log10 : Q -> Q) (bd : gmap string bdval)
    (k : string) (v : value) (t : option string) (r : Q) :
  plainKeys bd → inherited k = false →
  map_Forall (λ _ d, graded d) bd → bd !! k = None →
  calculateWeightedAverage log10 (Some bd) = Fin r →
  calculateWeightedAverage log10
    (Some (<[k := BInfo (mkRatingInfo v (Some (Fin r)) t)]> bd))
  = Fin r.
Proof.
  intros Hp Hin Hg Hk Havg.
  rewrite calculateWeightedAverage_averageOf in Havg |- *.
  rewrite totals_insert by done.
  destruct (totals_bounded log10 bd Hp Hg) as (w & s & Hacc & Hs0 & Hs10 & Hw).
  rewrite Hacc in Havg |- *.
  unfold weighStep. simpl.
  destruct (weightOf_cases k Hin) as [-> | ->]; simpl; unfold fin.
  - eapply (averageOf_step w s 5 r); eauto; [lra| |];
      rewrite !Qred_correct; reflexivity.
  - eapply (averageOf_step w s 1 r); eauto; [lra| |];
      rewrite !Qred_correct; reflexivity.
Qed.

(** What [calculateAverageRating] writes is graded. *)
Lemma normalizeDirectRating_range (v : value) (nz : num) :
  normalizeDirectRating v = Some nz →
  ∃ q, nz = Fin q ∧ (0 <= q)%Q ∧ (q <= 10)%Q.
Proof.
  unfold normalizeDirectRating.
  destruct (numeric v) as [n|] eqn:Hn; [|done]. intros [= <-].
  apply numeric_Some in Hn as [_ Hnan].
  destruct n as [| |q|]; try discriminate.
  - exists 0%Q. split; [reflexivity|lra].
  - unfold Math_max, Math_min, num_ltb.
    case_Qle; simpl; case_Qle; simpl; eexists; (split; [reflexivity|lra]).
  - exists 10%Q. split; [reflexivity|lra].
Qed.

Lemma normalizeViewCount_range (log10 : Q -> Q) (v : value) (nz : num) :
  (∀ x, (1 <= x)%Q → (0 <= log10 x)%Q) →
  normalizeViewCount log10 v = Some nz →
  ∃ q, nz = Fin q ∧ (0 <= q)%Q ∧ (q <= 10)%Q.
Proof.
  intros Hpos. unfold normalizeViewCount.
  destruct (numeric v) as [n|] eqn:Hn; [|done].
  apply numeric_Some in Hn as [_ Hnan].
  destruct (num_ltb n (Fin 0)) eqn:Hneg; [done|].
  unfold CONFIG.VIEW_THRESHOLD, CONFIG.VIEWS_maxValue, CONFIG.VIEWS_multiplier.
  destruct (num_ltb n (Fin 1000)) eqn:Hthr; [done|]. intros [= <-].
  assert (Hround : ∀ m, (0 <= m)%Q → (m <= 7)%Q →
            ∃ q, num_div (Math_round (num_mul (Fin m) (Fin 10))) (Fin 10) = Fin q
                 ∧ (0 <= q)%Q ∧ (q <= 10)%Q).
  { intros m Hm0 Hm7.
    destruct (round1_spec m) as (q & Hq & ((k & Hk) & Hlo & _) & Hle).
    exists q. split; [exact Hq|]. split; [|specialize (Hle Hm7); lra].
    assert (Hk0 : (0 <= k)%Z).
    { assert (H0 : (-1 < k)%Z); [|lia].
      rewrite Zlt_Qlt. change (inject_Z (-1)) with (-1)%Q.
      rewrite Hk in Hlo. lra10. }
    rewrite Zle_Qle in Hk0. change (inject_Z 0) with 0%Q in Hk0.
    rewrite Hk. lra10. }
  destruct n as [| |q|]; try discriminate.
  - apply negb_false_iff, Qle_bool_iff in Hthr.
    assert (Hq1 : (1001 <= Qred (q + 1))%Q) by (rewrite Qred_correct; lra).
    unfold num_add, Math_log10, fin.
    destruct (Qeq_bool (Qred (q + 1)) 0) eqn:E0;
      [apply Qeq_bool_iff in E0; lra|].
    destruct (Qle_bool (Qred (q + 1)) 0) eqn:E1;
      [apply Qle_bool_iff in E1; lra|].
    unfold num_mul, fin.
    set (m := Qred (Qred (log10 (Qred (q + 1))) * (3 # 2))).
    assert (Hm : (0 <= m)%Q).
    { unfold m. rewrite !Qred_correct.
      assert (H0 : (0 <= log10 (Qred (q + 1)))%Q) by (apply Hpos; lra). lra. }
    unfold Math_min, num_ltb.
    destruct (Qle_bool 7 m) eqn:E7; simpl negb; cbv iota.
    + apply Hround; lra.
    + apply Qle_bool_false in E7. apply Hround; lra.
  - destruct (Hround 7%Q) as (q & Hq & Hb); [lra..|].
    exists q. split; [exact Hq|exact Hb].
Qed.

Lemma renormalize_graded (log10 : Q -> Q) (d v : bdval) :
  (∀ x, (1 <= x)%Q → (0 <= log10 x)%Q) →
  renormalize log10 d = Some v → graded v.
Proof.
  intros Hpos. destruct d as [|n|ri]; simpl; [done| |].
  - destruct (normalizeDirectRating (VNum n)) as [nz|] eqn:E; [|done].
    intros [= <-].
    apply normalizeDirectRating_range in E as (q & -> & Hq). by eexists _, q, _.
  - destruct (String.eqb _ "views").
    + destruct (normalizeViewCount log10 (raw ri)) as [nz|] eqn:E; [|done].
      intros [= <-].
      apply normalizeViewCount_range in E as (q & -> & Hq); [|done].
      by eexists _, q, _.
    + destruct (normalizeDirectRating (raw ri)) as [nz|] eqn:E; [|done].
      intros [= <-].
      apply normalizeDirectRating_range in E as (q & -> & Hq).
      by eexists _, q, _.
Qed.

Lemma or_direct_idemp (t : option string) :
  or_direct (Some (or_direct t)) = or_direct t.
Proof.
  unfold or_direct at 1.
  destruct (String.eqb (or_direct t) "") eqn:E; [|done].
  apply String.eqb_eq in E. unfold or_direct in E.
  destruct t as [s|]; [|done].
  destruct (String.eqb s "") eqn:E'; [done|].
  apply String.eqb_neq in E'. done.
Qed.

(** The average of the merge, of a breakdown to which the average itself
    is added as a rating under a key that contributed nothing. *)
Lemma calculateAverageRating_with_itself (log10 : Q -> Q)
    (bd : gmap string bdval) (k : string) (t : option string) :
  (∀ x, (1 <= x)%Q → (0 <= log10 x)%Q) →
  plainKeys bd → inherited k = false →
  (∀ d, bd !! k = Some d → renormalize log10 d = None) →
  calculateAverageRating log10
    (Some (<[k := ratingEntry (calculateAverageRating log10 (Some bd)) t]> bd))
  = calculateAverageRating log10 (Some bd).
Proof.
  intros Hpos Hplain Hin Hk. unfold calculateAverageRating.
  set (M := omap (renormalize log10) bd).
  assert (HM : M !! k = None).
  { unfold M. rewrite lookup_omap. destruct (bd !! k) as [d|] eqn:E; [|done].
    simpl. by apply Hk. }
  assert (Hg : map_Forall (λ _ d, graded d) M).
  { intros i v Hv. apply lookup_omap_Some in Hv as (d & Hd & _).
    by eapply renormalize_graded. }
  assert (HpM : plainKeys M).
  { intros i [v Hv]. apply lookup_omap_Some in Hv as (d & _ & Hd).
    apply Hplain. by exists d. }
  destruct (averageOf_bounded
              (foldl (weighStep log10) (Fin 0, Fin 0) (map_to_list M)))
    as (r & Hr & Hr0 & Hr10 & Hcan).
  { by apply totals_bounded. }
  rewrite <- calculateWeightedAverage_averageOf in Hr. rewrite Hr.
  rewrite omap_insert. fold M.
  unfold ratingEntry, renormalize. cbn [type raw].
  rewrite or_direct_idemp.
  destruct (String.eqb (or_direct t) "views").
  - assert (Hv : normalizeViewCount log10 (VNum (Fin r)) = None).
    { unfold normalizeViewCount. simpl.
      destruct (Qle_bool 0 r) eqn:E0; simpl; [|done].
      unfold CONFIG.VIEW_THRESHOLD. simpl.
      destruct (Qle_bool 1000 r) eqn:E1; simpl; [|done].
      apply Qle_bool_iff in E1. lra. }
    rewrite Hv. by rewrite delete_id.
  - assert (Hd : normalizeDirectRating (VNum (Fin r)) = Some (Fin r)).
    { unfold normalizeDirectRating. simpl. f_equal.
      unfold Math_min, Math_max, num_ltb.
      destruct (Qle_bool 10 r) eqn:E10; simpl.
      - apply Qle_bool_iff in E10.
        assert (E : r = 10%Q).
        { rewrite Hcan. change 10%Q with (Qred 10). apply Qred_complete. lra. }
        subst r. reflexivity.
      - destruct (Qle_bool r 0) eqn:E0; simpl; [|done].
        apply Qle_bool_iff in E0.
        assert (E : r = 0%Q).
        { rewrite Hcan. change 0%Q with (Qred 0). apply Qred_complete. lra. }
        by subst r. }
    rewrite Hd. by apply average_with_itself.
Qed.

(** ** Merging twice *)

Lemma score_without_breakdown (x : option loc) (s : Series) :
  calculateMetadataScore (set_ratingBreakdown x s) = calculateMetadataScore s.
Proof. reflexivity. Qed.

Lemma mergedGenres_fields (p p' s s' : Series) :
  genres p' = genres p → studio p' = studio p →
  genres s' = genres s → studio s' = studio s →
  mergedGenres p' s' = mergedGenres p s.
Proof. unfold mergedGenres. by intros -> -> -> ->. Qed.

(** What a merge that keeps the existing record as the primary leaves. *)
Lemma first_merge_leaves (log10 : Q -> Q) (getTime : string -> num)
    (a b : loc) (h h1 : heap) (m : loc) (e n p1 : Series) :
  mergeSeries log10 getTime a b h = Some (m, h1) →
  objects h !! a = Some e → objects h !! b = Some n → a ≠ b →
  (calculateMetadataScore e <? calculateMetadataScore n) = false →
  objects h1 !! m = Some p1 →
  m = a ∧ incorporated a b h1
  ∧ (∃ n1, objects h1 !! b = Some n1
           ∧ n1 = set_ratingBreakdown (ratingBreakdown n1) n)
  ∧ id p1 = id e
  ∧ (∃ lp B, ratingBreakdown p1 = Some lp ∧ breakdowns h1 !! lp = Some B
             ∧ rating p1 = Some (calculateAverageRating log10 (Some B)))
  ∧ genres p1 = mergedGenres e n.
Proof.
  intros H He Hn Hab Hscore Hp1.
  apply mergeSeries_phases in H
    as (secondary & p0 & s0 & h0 & h2 & h3 & h4 & h5 & h6 & h7 & h8 & h9
        & Hc & Hp0 & Hs0 & H2 & H3 & H4 & H5 & H6 & H7 & H8 & H9 & H10).
  apply choosePrimary_Some in Hc
    as (e0 & n0 & He0 & Hn0 & [(Hlt & _)|(_ & -> & -> & ->)]).
  { assert (e0 = e) as -> by congruence. assert (n0 = n) as -> by congruence.
    congruence. }
  assert (p0 = e) as -> by congruence. assert (s0 = n) as -> by congruence.
  clear e0 n0 He0 Hn0 Hp0 Hs0.
  assert (K16 : objectKept b h h6).
  { transitivity h2; [by eapply objectKept_initPrimary|].
    transitivity h3; [by eapply objectKept_copyProviders|].
    transitivity h4; [by eapply objectKept_copySlugs|].
    transitivity h5; [by eapply objectKept_copyBreakdown|].
    by eapply objectKept_addPrimaryRatings. }
  assert (S19 : scalarsKept h h9).
  { transitivity h2; [by eapply scalarsKept_initPrimary|].
    transitivity h3; [by eapply scalarsKept_copyProviders|].
    transitivity h4; [by eapply scalarsKept_copySlugs|].
    transitivity h5; [by eapply scalarsKept_copyBreakdown|].
    transitivity h6; [by eapply scalarsKept_addPrimaryRatings|].
    transitivity h7; [by eapply scalarsKept_addSecondaryRatings|].
    transitivity h8; [by eapply scalarsKept_copyBreakdown|].
    by eapply scalarsKept_mergeProviderData. }
  destruct (first_merge_incorporates log10 getTime a b h6 h7 h8 h9 h1 n
              (K16 _ Hn) H7 H8 H9 H10)
    as (n9 & Hn9 & En9 & _ & Hinc).
  destruct (S19 _ _ He) as (p9 & Hp9 & (Eid & Estudio & Egenres)%scalars_fields).
  pose proof Hinc as (p9' & n9' & _ & _ & _ & _ & lp & B & Hp9' & Hn9' & _ & _ & _
                      & _ & _ & _ & Hlp & HB & _).
  assert (p9' = p9) as -> by congruence. assert (n9' = n9) as -> by congruence.
  clear Hp9' Hn9'.
  destruct (run_mergeMetadata log10 getTime a b Hab h9 p9 n9 lp B Hp9 Hn9 Hlp HB)
    as (p1' & Hrun1 & Erefs1 & Erating1 & Egenres1).
  assert (h1 = setObject a p1' h9) as -> by congruence.
  assert (p1' = p1) as ->.
  { erewrite setObject_lookup in Hp1 by exact Hp9. congruence. }
  split; [done|].
  split; [by eapply incorporated_setObject|].
  split; [exists n9; split; [by rewrite setObject_lookup_ne|done]|].
  injection Erefs1 as Eid1 _ _ Elp1.
  split; [congruence|].
  split; [exists lp, B; split; [congruence|done]|].
  rewrite Egenres1. apply mergedGenres_fields; [done..| |]; by rewrite En9.
Qed.

Lemma union_insert_present {V} (m1 m2 : gmap string V) (k : string) (d x : V) :
  m1 !! k = Some d → m1 ∪ <[k := x]> m2 = m1 ∪ m2.
Proof.
  intros Hk. apply map_eq. intros i. rewrite !lookup_union.
  destruct (decide (i = k)) as [->|Hne].
  - rewrite Hk. by destruct (<[k:=x]> m2 !! k), (m2 !! k).
  - by rewrite lookup_insert_ne.
Qed.

(** An entry that is falsy and is not the number [0] counts for nothing
    in the average. *)
Lemma falsy_counts_nothing (log10 : Q -> Q) (d : bdval) :
  bd_truthy d = false → (∀ q, d = BNum (Fin q) → ¬ (q == 0)%Q) →
  renormalize log10 d = None.
Proof.
  destruct d as [|n|ri]; simpl; [done| |done].
  intros Hf Hz. apply negb_false_iff, orb_true_iff in Hf as [Hnan|Hzero].
  - by destruct n.
  - destruct n as [| |q|]; try discriminate.
    simpl in Hzero. apply Qeq_bool_iff in Hzero. by destruct (Hz q eq_refl).
Qed.

(** Merging [b] again into the record it is incorporated in. *)
Lemma merge_again (log10 : Q -> Q) (getTime : string -> num)
    (a b : loc) (h : heap) (p n : Series) (lp : loc) (B : gmap string bdval) :
  (∀ x, (1 <= x)%Q → (0 <= log10 x)%Q) →
  a ≠ b → incorporated a b h →
  objects h !! a = Some p → objects h !! b = Some n →
  ratingBreakdown p = Some lp → breakdowns h !! lp = Some B →
  rating p = Some (calculateAverageRating log10 (Some B)) →
  (calculateMetadataScore p <? calculateMetadataScore n) = false →
  (∀ q, B !! getPrefixFromId (id p) = Some (BNum (Fin q)) → ¬ (q == 0)%Q) →
  plainKeys B →
  ∃ h2 p2,
    mergeSeries log10 getTime a b h = Some (a, h2)
    ∧ objects h2 !! a = Some p2
    ∧ rating p2 = rating p ∧ genres p2 = mergedGenres p n.
Proof.
  intros Hpos Hab Hinc Hp Hn Hlp HB Hrating Hscore Hzero Hplain.
  destruct Hinc as (p0 & n0 & la & A & lsl & S & lp0 & B0 & Hp0 & Hn0 & Hla & HA
                    & Hin & Hlsl & HS & Hslug & Hlp0 & HB0 & Hsec).
  assert (p0 = p) as -> by congruence. assert (n0 = n) as -> by congruence.
  assert (lp0 = lp) as -> by congruence. assert (B0 = B) as -> by congruence.
  clear Hp0 Hn0 Hlp0 HB0.
  set (pp := getPrefixFromId (id p)) in *.
  set (sp := getPrefixFromId (id n)) in *.
  set (r1 := calculateAverageRating log10 (Some B)) in *.
  assert (Hrated : rated n h).
  { unfold rated. destruct (ratingBreakdown n) as [ls|]; [|done].
    destruct Hsec as (Bs & HBs & _ & Hv & Hr). by exists Bs. }
  pose proof (initPrimary_noop a h p la lsl lp Hp Hla Hlsl Hlp pp) as R1.
  pose proof (copyExistingData_noop a h p la lsl lp A S B Hp Hla HA Hlsl HS
                Hlp HB) as R2.
  (* the blocks on the rating breakdowns *)
  assert (Hfront : ∃ hB B2,
    addPrimaryRatings a pp h = Some (tt, hB)
    ∧ addSecondaryRatings b sp hB = Some (tt, hB)
    ∧ mergeRatingBreakdowns a b hB = Some (tt, setCell lp B2 h)
    ∧ calculateAverageRating log10 (Some B2) = r1).
  { destruct (noEntry B pp) eqn:Hno.
    - (* the merged rating becomes the entry of the primary *)
      set (E := ratingEntry r1 (ratingType p)).
      set (B' := <[pp := E]> B).
      assert (Havg : calculateAverageRating log10 (Some B') = r1).
      { apply calculateAverageRating_with_itself; [done|done| |].
        { unfold noEntry in Hno. destruct (B !! pp) as [d|] eqn:Hd.
          - apply Hplain. by exists d.
          - by apply negb_true_iff in Hno. }
        intros d Hd. apply falsy_counts_nothing.
        - unfold noEntry in Hno. rewrite Hd in Hno.
          by apply negb_true_iff in Hno.
        - intros q ->. by apply Hzero. }
      assert (HpB : objects (setCell lp B' h) !! a = Some p) by done.
      assert (HnB : objects (setCell lp B' h) !! b = Some n) by done.
      assert (HBB : breakdowns (setCell lp B' h) !! lp = Some B')
        by (by eapply setCell_lookup).
      assert (Hfalsy : ∀ d, B !! pp = Some d → bd_truthy d = false).
      { intros d Hd. unfold noEntry in Hno. rewrite Hd in Hno.
        by apply negb_true_iff in Hno. }
      exists (setCell lp B' h).
      assert (R3 : addPrimaryRatings a pp h = Some (tt, setCell lp B' h))
        by (by eapply run_addPrimaryRatings).
      destruct (ratingBreakdown n) as [ls|] eqn:Hls.
      + destruct Hsec as (Bs & HBs & Hsub & Hv & Hr).
        destruct (decide (ls = lp)) as [->|Hne].
        * (* the two records share the breakdown *)
          assert (Bs = B) as -> by congruence.
          assert (Hsp : ∀ d, B !! sp = Some d → bd_truthy d = true →
                             B' !! sp = Some d).
          { intros d Hd Ht. unfold B'. rewrite lookup_insert_ne; [done|].
            intros Epp. rewrite Epp in Hfalsy.
            rewrite (Hfalsy d Hd) in Ht. discriminate. }
          exists B'. split; [exact R3|]. split; [|split; [|exact Havg]].
          -- eapply (addSecondaryRatings_noop b _ n HnB).
             unfold rated. rewrite Hls. exists B'. split; [done|].
             split; [intros vc Hvc|intros r Hr' Hvc]; by apply Hsp; eauto.
          -- unfold mergeRatingBreakdowns.
             erewrite run_copyBreakdown by eauto.
             by rewrite setCell_setCell, (idemp_L (∪)).
        * assert (HBsB : breakdowns (setCell lp B' h) !! ls = Some Bs)
            by (simpl; by rewrite list_lookup_insert_ne).
          assert (R4 : addSecondaryRatings b sp (setCell lp B' h)
                       = Some (tt, setCell lp B' h)).
          { eapply (addSecondaryRatings_noop b _ n HnB).
            unfold rated. rewrite Hls. by exists Bs. }
          destruct (Bs !! pp) as [d|] eqn:Hd.
          -- exists B. split; [exact R3|]. split; [exact R4|]. split; [|done].
             unfold mergeRatingBreakdowns.
             erewrite run_copyBreakdown by eauto.
             rewrite setCell_setCell. unfold B'.
             by rewrite (union_insert_present _ _ _ d), Hsub.
          -- exists B'. split; [exact R3|]. split; [exact R4|].
             split; [|exact Havg].
             unfold mergeRatingBreakdowns.
             erewrite run_copyBreakdown by eauto.
             rewrite setCell_setCell. unfold B'.
             by rewrite <- insert_union_r, Hsub.
      + exists B'. split; [exact R3|]. split; [|split; [|exact Havg]].
        * eapply (addSecondaryRatings_noop b _ n HnB).
          unfold rated. by rewrite Hls.
        * unfold mergeRatingBreakdowns, copyBreakdown.
          erewrite run_bind by (apply run_getSeries; exact HnB).
          by rewrite Hls.
    - (* the primary has its entry *)
      exists h, B. rewrite (setCell_id lp B h HB).
      split; [by eapply addPrimaryRatings_noop|].
      split; [by eapply addSecondaryRatings_noop|]. split; [|done].
      unfold mergeRatingBreakdowns. eapply copyBreakdown_noop; eauto.
      intros ls Hls. rewrite Hls in Hsec.
      destruct Hsec as (Bs & HBs & Esub & _). eauto. }
  destruct Hfront as (hB & B2 & R3 & R4 & R5 & Havg).
  set (hC := setCell lp B2 h) in *.
  assert (HpC : objects hC !! a = Some p) by done.
  assert (HnC : objects hC !! b = Some n) by done.
  assert (HBC : breakdowns hC !! lp = Some B2) by (by eapply setCell_lookup).
  assert (R6 : mergeProviderData a b sp hC = Some (tt, hC))
    by (by eapply (mergeProviderData_noop a b hC p n la lsl A S)).
  destruct (run_mergeMetadata log10 getTime a b Hab hC p n lp B2 HpC HnC Hlp HBC)
    as (p2 & Hrun2 & _ & Erating2 & Egenres2).
  exists (setObject a p2 hC), p2.
  split; [|split; [by eapply setObject_lookup|split]].
  - unfold mergeSeries.
    erewrite run_bind; cycle 1.
    { unfold choosePrimary. do 2 run_read. rewrite Hscore. reflexivity. }
    cbv beta iota. do 2 run_read. cbv zeta.
    erewrite run_bind by exact R1. erewrite run_bind by exact R2.
    erewrite run_bind by exact R3. erewrite run_bind by exact R4.
    erewrite run_bind by exact R5. erewrite run_bind by exact R6.
    by apply run_mergeSeries_tail.
  - rewrite Erating2, Havg. by rewrite Hrating.
  - exact Egenres2.
Qed.

(** Let a merge that returns keep the existing record [a] as the
    primary, [a] and [b] being two objects, and let the merged record hold
    in its [ratingBreakdown] no bare number [0] under [a]'s own prefix and
    no key inherited from [Object.prototype], have a metadata score not
    below [b]'s, and have a studio that is, ignoring case, the name the
    first merge filtered the genres by ([a]'s studio, or else [b]'s).
    Then merging [b] into it again returns the same object, with the same
    rating and the same genres. *)
Lemma idempotent_of_run (log10 : Q -> Q) (getTime : string -> num)
    (a b : loc) (h h1 : heap) (m : loc) (e n p1 : Series) :
  (∀ x, (1 <= x)%Q → (0 <= log10 x)%Q) →
  mergeSeries log10 getTime a b h = Some (m, h1) →
  objects h !! a = Some e → objects h !! b = Some n → a ≠ b →
  (calculateMetadataScore e <? calculateMetadataScore n) = false →
  objects h1 !! m = Some p1 →
  (calculateMetadataScore p1 <? calculateMetadataScore n) = false →
  (∀ q, hasEntry m (getPrefixFromId (id e)) (BNum (Fin q)) h1 → ¬ (q == 0)%Q) →
  (∀ k v, hasEntry m k v h1 → inherited k = false) →
  sameStudio (orElse (studio p1) (studio n)) (orElse (studio e) (studio n)) →
  ∃ h2 p2,
    mergeSeries log10 getTime m b h1 = Some (m, h2)
    ∧ objects h2 !! m = Some p2
    ∧ rating p2 = rating p1 ∧ genres p2 = genres p1.
Proof.
  intros Hpos H He Hn Hab Hscore Hp1 Hscore1 Hzero Hkeys Hstudio.
  destruct (first_merge_leaves log10 getTime a b h h1 m e n p1
              H He Hn Hab Hscore Hp1)
    as (-> & Hinc & (n1 & Hn1 & En1) & Eid & (lp & B & Hlp & HB & Hrating)
        & Egenres).
  destruct (merge_again log10 getTime a b h1 p1 n1 lp B Hpos Hab Hinc Hp1 Hn1
              Hlp HB Hrating) as (h2 & p2 & Hrun & Hp2 & Er & Eg).
  { by rewrite En1, score_without_breakdown. }
  { intros q Hq. apply Hzero. rewrite <- Eid. by exists p1, lp, B. }
  { intros k [v Hv]. apply (Hkeys k v). by exists p1, lp, B. }
  exists h2, p2. split; [done|]. split; [done|]. split; [done|].
  rewrite Eg.
  assert (Es : studio n1 = studio n) by (by rewrite En1).
  assert (Eg1 : genres n1 = genres n) by (by rewrite En1).
  rewrite (mergedGenres_fields p1 p1 n n1) by done.
  apply (mergedGenres_again e); done.
Qed.

(** C5, at an input where it fails.  The record [a] (id ['hmm-qux'],
    studio ['ABC'], genres ['Romance'], a year and a rating) stays the
    primary of a merge with [b] (id ['hse-qux'], studio ['Xyz'], genres
    ['Xyz'] and ['Drama']).  The merge filters the genres by [a]'s studio
    only, so that [b]'s studio name stays among them, and then takes [b]'s
    studio, a's being in capitals; merging [b] again filters by that
    studio.  The genres are ['Romance'], ['Xyz'], ['Drama'] after one merge
    and ['Romance'], ['Drama'] after two: the merge is not idempotent
    there. *)
Theorem mergeSeries_not_idempotent :
  (∃ h1 p1 h2 p2,
     mergeSeries log10_sample getTime_sample 0 1 studioHeap = Some (0, h1)
     ∧ objects h1 !! 0 = Some p1
     ∧ mergeSeries log10_sample getTime_sample 0 1 h1 = Some (0, h2)
     ∧ objects h2 !! 0 = Some p2
     ∧ studio p1 = Some "Xyz"
     ∧ genres p1 = Some ["Romance"; "Xyz"; "Drama"]
     ∧ genres p2 = Some ["Romance"; "Drama"])
  ∧ ¬ remergeIdempotent log10_sample getTime_sample studioHeap 0 1.
Proof.
  assert (Hrun : ∃ h1 p1 h2 p2,
    mergeSeries log10_sample getTime_sample 0 1 studioHeap = Some (0, h1)
    ∧ objects h1 !! 0 = Some p1
    ∧ mergeSeries log10_sample getTime_sample 0 1 h1 = Some (0, h2)
    ∧ objects h2 !! 0 = Some p2
    ∧ studio p1 = Some "Xyz"
    ∧ genres p1 = Some ["Romance"; "Xyz"; "Drama"]
    ∧ genres p2 = Some ["Romance"; "Drama"]).
  { eexists _, _, _, _. split; [vm_compute; reflexivity|].
    split; [vm_compute; reflexivity|]. split; [vm_compute; reflexivity|].
    split; [vm_compute; reflexivity|]. split; [vm_compute; reflexivity|].
    split; vm_compute; reflexivity. }
  split; [exact Hrun|]. intros Hclaim.
  destruct Hrun as (h1 & p1 & h2 & p2 & R1 & Hp1 & R2 & Hp2 & _ & G1 & G2).
  destruct (Hclaim _ _ _ _ _ _ R1 Hp1 R2 Hp2) as [_ Hsame].
  specialize (Hsame "Xyz"). rewrite G1, G2 in Hsame. simpl in Hsame.
  assert (Hin : "Xyz" ∈ ["Romance"; "Drama"]).
  { apply Hsame. apply list_elem_of_further, list_elem_of_here. }
  apply elem_of_cons in Hin as [[=]|Hin].
  apply elem_of_cons in Hin as [[=]|Hin].
  by apply elem_of_nil in Hin.
Qed.

(** The rating changes too where the breakdown holds the bare number
    [0] under the primary's prefix: the second merge takes that entry for
    none, and writes the merged rating in its place. *)
Lemma legacy_zero_counterexample :
  ¬ remergeIdempotent log10_sample getTime_sample legacyHeap 0 1.
Proof.
  intros Hclaim.
  assert (Hrun : ∃ h1 p1 h2 p2,
    mergeSeries log10_sample getTime_sample 0 1 legacyHeap = Some (0, h1)
    ∧ objects h1 !! 0 = Some p1
    ∧ mergeSeries log10_sample getTime_sample 0 1 h1 = Some (0, h2)
    ∧ objects h2 !! 0 = Some p2
    ∧ rating p1 = Some (Fin (3 # 2))
    ∧ rating p2 = Some (Fin (14 # 5))).
  { eexists _, _, _, _. split; [vm_compute; reflexivity|].
    split; [vm_compute; reflexivity|]. split; [vm_compute; reflexivity|].
    split; [vm_compute; reflexivity|]. split; vm_compute; reflexivity. }
  destruct Hrun as (h1 & p1 & h2 & p2 & R1 & Hp1 & R2 & Hp2 & G1 & G2).
  destruct (Hclaim _ _ _ _ _ _ R1 Hp1 R2 Hp2) as [Hsame _].
  rewrite G1, G2 in Hsame. discriminate.
Qed.

(** ** Well-formed heaps are kept *)

#[local] Instance extends_preorder : PreOrder extends.
Proof.
  split.
  - intros h. repeat (split; [done|]). intros l s Hs. eauto.
  - intros h1 h2 h3 (Ho & Ha & Hs & Hb & H12) (Ho' & Ha' & Hs' & Hb' & H23).
    repeat (split; [lia|]). intros l s Hl.
    destruct (H12 l s Hl) as (s2 & Hl2 & P2 & S2 & B2).
    destruct (H23 l s2 Hl2) as (s3 & Hl3 & P3 & S3 & B3).
    exists s3. split; [done|]. split; [|split]; auto.
Qed.

#[local] Instance safeStep_preorder : PreOrder safeStep.
Proof.
  split.
  - intros h. split; [done|reflexivity].
  - intros h1 h2 h3 [W12 E12] [W23 E23]. split; [auto|by transitivity h2].
Qed.

Lemma inStore_mono {A} (store store' : list A) (r : option loc) :
  length store <= length store' → inStore store r = true →
  inStore store' r = true.
Proof.
  intros Hle. destruct r as [l|]; [|done]. simpl.
  rewrite !bool_decide_eq_true. lia.
Qed.

Lemma refsValid_mono (h h' : heap) (s s' : Series) :
  length (arrays h) <= length (arrays h') →
  length (slugMaps h) <= length (slugMaps h') →
  length (breakdowns h) <= length (breakdowns h') →
  providers s' = providers s → providerSlugs s' = providerSlugs s →
  ratingBreakdown s' = ratingBreakdown s →
  refsValid h s = true → refsValid h' s' = true.
Proof.
  intros Ha Hs Hb E1 E2 E3. unfold refsValid. rewrite E1, E2, E3.
  rewrite !andb_true_iff. intros [[H1 H2] H3].
  split; [split|]; by eapply inStore_mono.
Qed.

Lemma wellFormed_lookup (h : heap) (l : loc) (s : Series) :
  wellFormed h → objects h !! l = Some s → refsValid h s = true.
Proof. intros Hwf Hs. by eapply (Forall_lookup_1 _ _ _ _ Hwf). Qed.

(** The same records in stores that are as long or longer. *)
Lemma wellFormed_stores (h : heap) (A : list (list string))
    (S : list (gmap string string)) (B : list (gmap string bdval)) :
  length (arrays h) <= length A → length (slugMaps h) <= length S →
  length (breakdowns h) <= length B →
  wellFormed h → wellFormed (mkHeap (objects h) A S B).
Proof.
  intros Ha Hs Hb Hwf. unfold wellFormed. simpl.
  eapply Forall_impl; [exact Hwf|]. intros s. by apply refsValid_mono.
Qed.

(** A record replaced by one whose references are valid. *)
Lemma wellFormed_insert (h : heap) (a : loc) (s' : Series)
    (A : list (list string)) (S : list (gmap string string))
    (B : list (gmap string bdval)) :
  length (arrays h) <= length A → length (slugMaps h) <= length S →
  length (breakdowns h) <= length B →
  refsValid (mkHeap (<[a := s']> (objects h)) A S B) s' = true →
  wellFormed h → wellFormed (mkHeap (<[a := s']> (objects h)) A S B).
Proof.
  intros Ha Hs Hb Hnew Hwf. unfold wellFormed. simpl.
  apply Forall_insert; [|done].
  eapply Forall_impl; [exact Hwf|]. intros s. by apply refsValid_mono.
Qed.

(** A record added whose references are valid. *)
Lemma wellFormed_app (h : heap) (s' : Series) :
  refsValid h s' = true → wellFormed h →
  wellFormed (mkHeap (objects h ++ [s']) (arrays h) (slugMaps h) (breakdowns h)).
Proof.
  intros Hnew Hwf. unfold wellFormed. simpl. apply Forall_app. split.
  - eapply Forall_impl; [exact Hwf|]. intros s. by apply refsValid_mono.
  - by apply Forall_singleton.
Qed.

Lemma extends_stores (h : heap) (A : list (list string))
    (S : list (gmap string string)) (B : list (gmap string bdval)) :
  length (arrays h) <= length A → length (slugMaps h) <= length S →
  length (breakdowns h) <= length B →
  extends h (mkHeap (objects h) A S B).
Proof. intros Ha Hs Hb. repeat (split; [done|]). intros l s Hl. eauto. Qed.

Lemma extends_insert (h : heap) (a : loc) (s s' : Series)
    (A : list (list string)) (S : list (gmap string string))
    (B : list (gmap string bdval)) :
  length (arrays h) <= length A → length (slugMaps h) <= length S →
  length (breakdowns h) <= length B →
  objects h !! a = Some s →
  (is_Some (providers s) → is_Some (providers s')) →
  (is_Some (providerSlugs s) → is_Some (providerSlugs s')) →
  (is_Some (ratingBreakdown s) → is_Some (ratingBreakdown s')) →
  extends h (mkHeap (<[a := s']> (objects h)) A S B).
Proof.
  intros Ha Hs Hb Hl H1 H2 H3. unfold extends.
  cbn [objects arrays slugMaps breakdowns].
  split; [by rewrite length_insert|]. repeat (split; [done|]).
  intros l s0 Hl0. destruct (decide (l = a)) as [->|Hne].
  - assert (s0 = s) as -> by congruence.
    rewrite list_lookup_insert_eq by (by eapply lookup_lt_Some). eauto.
  - rewrite list_lookup_insert_ne by done. eauto.
Qed.

Lemma extends_app (h : heap) (s' : Series) :
  extends h (mkHeap (objects h ++ [s']) (arrays h) (slugMaps h) (breakdowns h)).
Proof.
  unfold extends. cbn [objects arrays slugMaps breakdowns].
  split; [rewrite length_app; lia|]. repeat (split; [done|]).
  intros l s Hl. exists s. split; [by apply lookup_app_l_Some|done].
Qed.

(** The units of the merge are safe steps. *)
Lemma safeStep_ensureProviders (a : loc) (prefix : string) :
  preserves safeStep (ensureProviders a prefix).
Proof.
  intros h x h' (s & Hs & [[_ ->]|[Hnone ->]])%ensureProviders_Some;
    [reflexivity|].
  assert (Hlen : length (arrays h) <= length (arrays h ++ [[prefix]]))
    by (rewrite length_app; lia).
  split.
  - intros Hwf. apply wellFormed_insert; [done..| |done].
    pose proof (wellFormed_lookup _ _ _ Hwf Hs) as Hv.
    unfold refsValid in *. simpl. rewrite !andb_true_iff in Hv |- *.
    destruct Hv as [[_ H2] H3]. repeat split; [|done..].
    rewrite bool_decide_eq_true, length_app. simpl. lia.
  - eapply extends_insert; [done..| | |]; simpl; eauto.
Qed.

Lemma safeStep_ensureSlugs (a : loc) (prefix : string) :
  preserves safeStep (ensureSlugs a prefix).
Proof.
  intros h x h' (s & Hs & [[_ ->]|[Hnone ->]])%ensureSlugs_Some;
    [reflexivity|].
  match goal with |- safeStep _ (mkHeap _ _ (_ ++ [?v]) _) =>
    assert (Hlen : length (slugMaps h) <= length (slugMaps h ++ [v]))
      by (rewrite length_app; lia)
  end.
  split.
  - intros Hwf. apply wellFormed_insert; [done..| |done].
    pose proof (wellFormed_lookup _ _ _ Hwf Hs) as Hv.
    unfold refsValid in *. simpl. rewrite !andb_true_iff in Hv |- *.
    destruct Hv as [[H1 _] H3]. repeat split; [done| |done].
    rewrite bool_decide_eq_true, length_app. simpl. lia.
  - eapply extends_insert; [done..| | |]; simpl; eauto.
Qed.

Lemma safeStep_ensureBreakdown (a : loc) :
  preserves safeStep (ensureBreakdown a).
Proof.
  intros h x h' (s & Hs & [[_ ->]|[Hnone ->]])%ensureBreakdown_Some;
    [reflexivity|].
  assert (Hlen : length (breakdowns h) <= length (breakdowns h ++ [∅]))
    by (rewrite length_app; lia).
  split.
  - intros Hwf. apply wellFormed_insert; [done..| |done].
    pose proof (wellFormed_lookup _ _ _ Hwf Hs) as Hv.
    unfold refsValid in *. simpl. rewrite !andb_true_iff in Hv |- *.
    destruct Hv as [[H1 H2] _]. repeat split; [done..|].
    rewrite bool_decide_eq_true, length_app. simpl. lia.
  - eapply extends_insert; [done..| | |]; simpl; eauto.
Qed.

Lemma safeStep_stores (h : heap) (A : list (list string))
    (S : list (gmap string string)) (B : list (gmap string bdval)) :
  length (arrays h) <= length A → length (slugMaps h) <= length S →
  length (breakdowns h) <= length B →
  safeStep h (mkHeap (objects h) A S B).
Proof.
  intros Ha Hs Hb. split; [by apply wellFormed_stores|by apply extends_stores].
Qed.

Ltac safe_stores :=
  apply safeStep_stores; rewrite ?length_insert, ?length_app; simpl; lia.

Lemma safeStep_pushProvider (a : loc) (x : string) :
  preserves safeStep (pushProvider a x).
Proof.
  intros h ? h' (p & lp & cur & _ & _ & _ & [[_ ->]|[_ ->]])%pushProvider_Some;
    [reflexivity|safe_stores].
Qed.

Lemma safeStep_assignSlugs (a : loc) (src : gmap string string) :
  preserves safeStep (assignSlugs a src).
Proof.
  intros h ? h' (p & lp & cur & _ & _ & _ & ->)%assignSlugs_Some. safe_stores.
Qed.

Lemma safeStep_putSlug (a : loc) (k v : string) :
  preserves safeStep (putSlug a k v).
Proof.
  intros h ? h' (p & lp & cur & _ & _ & _ & ->)%putSlug_Some. safe_stores.
Qed.

Lemma safeStep_assignBreakdown (a : loc) (src : gmap string bdval) :
  preserves safeStep (assignBreakdown a src).
Proof.
  intros h ? h' (p & lp & cur & _ & _ & _ & ->)%assignBreakdown_Some.
  safe_stores.
Qed.

Lemma safeStep_putEntry (a : loc) (k : string) (v : bdval) :
  preserves safeStep (putEntry a k v).
Proof.
  intros h ? h' (p & lp & cur & _ & _ & _ & ->)%putEntry_Some. safe_stores.
Qed.

(** A write that keeps the references of the record. *)
Lemma safeStep_modSeries (a : loc) (f : Series -> Series) :
  (∀ s, refs (f s) = refs s) → preserves safeStep (modSeries a f).
Proof.
  intros Hf h x h' (s & Hs & ->)%modSeries_Some.
  injection (Hf s) as _ E1 E2 E3. split.
  - intros Hwf. apply wellFormed_insert; [done..| |done].
    eapply refsValid_mono; [..|by eapply wellFormed_lookup]; done.
  - eapply extends_insert; [done..| | |]; congruence.
Qed.

Ltac safe_prim :=
  idtac;
  lazymatch goal with
  | |- preserves _ (ensureProviders _ _) => apply safeStep_ensureProviders
  | |- preserves _ (ensureSlugs _ _) => apply safeStep_ensureSlugs
  | |- preserves _ (ensureBreakdown _) => apply safeStep_ensureBreakdown
  | |- preserves _ (pushProvider _ _) => apply safeStep_pushProvider
  | |- preserves _ (assignSlugs _ _) => apply safeStep_assignSlugs
  | |- preserves _ (putSlug _ _ _) => apply safeStep_putSlug
  | |- preserves _ (assignBreakdown _ _) => apply safeStep_assignBreakdown
  | |- preserves _ (putEntry _ _ _) => apply safeStep_putEntry
  | |- preserves _ (modSeries _ _) =>
      apply safeStep_modSeries; intros ?; reflexivity
  end.

Section SafePhases.
Context (log10 : Q -> Q) (getTime : string -> num).
Context (a b : loc) (prefix : string).

Lemma safeStep_initPrimary : preserves safeStep (initPrimary a prefix).
Proof. unfold_phases. preserves_with safe_prim. Qed.

Lemma safeStep_copyExistingData : preserves safeStep (copyExistingData b a).
Proof. unfold_phases. preserves_with safe_prim. Qed.

Lemma safeStep_addPrimaryRatings :
  preserves safeStep (addPrimaryRatings a prefix).
Proof. unfold_phases. preserves_with safe_prim. Qed.

Lemma safeStep_addSecondaryRatings :
  preserves safeStep (addSecondaryRatings b prefix).
Proof. unfold_phases. preserves_with safe_prim. Qed.

Lemma safeStep_mergeRatingBreakdowns :
  preserves safeStep (mergeRatingBreakdowns a b).
Proof. unfold_phases. preserves_with safe_prim. Qed.

Lemma safeStep_mergeProviderData :
  preserves safeStep (mergeProviderData a b prefix).
Proof. unfold_phases. preserves_with safe_prim. Qed.

Lemma safeStep_mergeMetadata :
  preserves safeStep (mergeMetadata log10 getTime a b).
Proof. unfold mergeMetadata. unfold_phases. preserves_with safe_prim. Qed.

End SafePhases.

(** ** The merge returns *)

Lemma valid_extends (h h' : heap) (l : loc) :
  extends h h' → is_Some (objects h !! l) → is_Some (objects h' !! l).
Proof.
  intros (_ & _ & _ & _ & Hk) [s Hs]. destruct (Hk l s Hs) as (s' & Hs' & _).
  eauto.
Qed.

Lemma ready_extends (h h' : heap) (a : loc) :
  extends h h' → ready a h → ready a h'.
Proof.
  intros (_ & _ & _ & _ & Hk) (p & Hp & H1 & H2 & H3).
  destruct (Hk a p Hp) as (p' & Hp' & K1 & K2 & K3).
  exists p'. split; [done|]. split; [|split]; auto.
Qed.

Lemma ready_valid (a : loc) (h : heap) : ready a h → is_Some (objects h !! a).
Proof. intros (p & Hp & _). eauto. Qed.

Lemma returns_bind {A B} (h : heap) (m : M A) (f : A -> M B)
    (Q : A -> heap -> Prop) (R : B -> heap -> Prop) :
  returns h m Q →
  (∀ x h1, safeStep h h1 → Q x h1 → returns h1 (f x) R) →
  returns h (m ≫= f) R.
Proof.
  intros (x & h1 & Hrun & Hstep & HQ) Hf.
  destruct (Hf x h1 Hstep HQ) as (y & h2 & Hrun2 & Hstep2 & HR).
  exists y, h2. split; [by erewrite run_bind|].
  split; [by transitivity h1|done].
Qed.

Lemma returns_ret {A} (h : heap) (x : A) (Q : A -> heap -> Prop) :
  Q x h → returns h (mret x) Q.
Proof. intros HQ. exists x, h. split; [done|]. split; [reflexivity|done]. Qed.

Lemma returns_run {A} (h : heap) (m : M A) (x : A) (h' : heap)
    (Q : A -> heap -> Prop) :
  preserves safeStep m → m h = Some (x, h') → Q x h' → returns h m Q.
Proof. intros Hsafe Hrun HQ. exists x, h'. eauto. Qed.

Lemma returns_weaken {A} (h : heap) (m : M A) (Q Q' : A -> heap -> Prop) :
  returns h m Q → (∀ x h', safeStep h h' → Q x h' → Q' x h') → returns h m Q'.
Proof. intros (x & h' & Hrun & Hstep & HQ) Himp. exists x, h'. eauto. Qed.

Lemma returns_getSeries (h : heap) (l : loc) (s : Series)
    (Q : Series -> heap -> Prop) :
  objects h !! l = Some s → Q s h → returns h (getSeries l) Q.
Proof.
  intros Hs HQ. exists s, h. split; [by apply run_getSeries|].
  split; [reflexivity|done].
Qed.

(** A reference of a record of a well-formed heap holds a value. *)
Lemma wellFormed_providers (h : heap) (l : loc) (s : Series) (r : loc) :
  wellFormed h → objects h !! l = Some s → providers s = Some r →
  is_Some (arrays h !! r).
Proof.
  intros Hwf Hs Hr. pose proof (wellFormed_lookup _ _ _ Hwf Hs) as Hv.
  unfold refsValid in Hv. rewrite Hr, !andb_true_iff in Hv.
  destruct Hv as [[Hv _] _]. apply lookup_lt_is_Some_2.
  by apply bool_decide_eq_true in Hv.
Qed.

Lemma wellFormed_providerSlugs (h : heap) (l : loc) (s : Series) (r : loc) :
  wellFormed h → objects h !! l = Some s → providerSlugs s = Some r →
  is_Some (slugMaps h !! r).
Proof.
  intros Hwf Hs Hr. pose proof (wellFormed_lookup _ _ _ Hwf Hs) as Hv.
  unfold refsValid in Hv. rewrite Hr, !andb_true_iff in Hv.
  destruct Hv as [[_ Hv] _]. apply lookup_lt_is_Some_2.
  by apply bool_decide_eq_true in Hv.
Qed.

Lemma wellFormed_ratingBreakdown (h : heap) (l : loc) (s : Series) (r : loc) :
  wellFormed h → objects h !! l = Some s → ratingBreakdown s = Some r →
  is_Some (breakdowns h !! r).
Proof.
  intros Hwf Hs Hr. pose proof (wellFormed_lookup _ _ _ Hwf Hs) as Hv.
  unfold refsValid in Hv. rewrite Hr, !andb_true_iff in Hv.
  destruct Hv as [_ Hv]. apply lookup_lt_is_Some_2.
  by apply bool_decide_eq_true in Hv.
Qed.

(** The units. *)
Lemma returns_ensureProviders (h : heap) (a : loc) (prefix : string) :
  is_Some (objects h !! a) →
  returns h (ensureProviders a prefix)
    (λ _ h', ∃ p, objects h' !! a = Some p ∧ is_Some (providers p)).
Proof.
  intros [p Hp].
  assert (Hrun : ∃ h', ensureProviders a prefix h = Some (tt, h')).
  { unfold ensureProviders. run_read. case_bool_decide; [|by eexists].
    unfold when, newArray, modSeries, mbind, M_bind. simpl. rewrite Hp.
    by eexists. }
  destruct Hrun as [h' Hrun].
  eapply returns_run; [apply safeStep_ensureProviders|exact Hrun|].
  apply ensureProviders_Some in Hrun as (s & Hs & [[Hsome ->]|[_ ->]]).
  - eauto.
  - simpl. rewrite list_lookup_insert_eq by (by eapply lookup_lt_Some).
    eexists. split; [done|]. simpl. eauto.
Qed.

Lemma returns_ensureSlugs (h : heap) (a : loc) (prefix : string) :
  is_Some (objects h !! a) →
  returns h (ensureSlugs a prefix)
    (λ _ h', ∃ p, objects h' !! a = Some p ∧ is_Some (providerSlugs p)).
Proof.
  intros [p Hp].
  assert (Hrun : ∃ h', ensureSlugs a prefix h = Some (tt, h')).
  { unfold ensureSlugs. run_read. case_bool_decide; [|by eexists].
    unfold when, newSlugs, modSeries, mbind, M_bind. simpl. rewrite Hp.
    by eexists. }
  destruct Hrun as [h' Hrun].
  eapply returns_run; [apply safeStep_ensureSlugs|exact Hrun|].
  apply ensureSlugs_Some in Hrun as (s & Hs & [[Hsome ->]|[_ ->]]).
  - eauto.
  - simpl. rewrite list_lookup_insert_eq by (by eapply lookup_lt_Some).
    eexists. split; [done|]. simpl. eauto.
Qed.

Lemma returns_ensureBreakdown (h : heap) (a : loc) :
  is_Some (objects h !! a) →
  returns h (ensureBreakdown a)
    (λ _ h', ∃ p, objects h' !! a = Some p ∧ is_Some (ratingBreakdown p)).
Proof.
  intros [p Hp].
  assert (Hrun : ∃ h', ensureBreakdown a h = Some (tt, h')).
  { unfold ensureBreakdown. run_read. case_bool_decide; [|by eexists].
    unfold when, newBreakdown, modSeries, mbind, M_bind. simpl. rewrite Hp.
    by eexists. }
  destruct Hrun as [h' Hrun].
  eapply returns_run; [apply safeStep_ensureBreakdown|exact Hrun|].
  apply ensureBreakdown_Some in Hrun as (s & Hs & [[Hsome ->]|[_ ->]]).
  - eauto.
  - simpl. rewrite list_lookup_insert_eq by (by eapply lookup_lt_Some).
    eexists. split; [done|]. simpl. eauto.
Qed.

Lemma returns_pushProvider (h : heap) (a : loc) (x : string) :
  wellFormed h → ready a h → returns h (pushProvider a x) (λ _ _, True).
Proof.
  intros Hwf (p & Hp & [la Hla] & _).
  destruct (wellFormed_providers _ _ _ _ Hwf Hp Hla) as [cur Hcur].
  assert (Hrun : ∃ h', pushProvider a x h = Some (tt, h')).
  { unfold pushProvider. run_read. rewrite Hla. run_read.
    destruct (negb _); [|by eexists].
    unfold when, setArray. rewrite Hcur. by eexists. }
  destruct Hrun as [h' Hrun].
  by eapply returns_run; [apply safeStep_pushProvider|exact Hrun|].
Qed.

Lemma returns_assignSlugs (h : heap) (a : loc) (src : gmap string string) :
  wellFormed h → ready a h → returns h (assignSlugs a src) (λ _ _, True).
Proof.
  intros Hwf (p & Hp & _ & [l Hl] & _).
  destruct (wellFormed_providerSlugs _ _ _ _ Hwf Hp Hl) as [cur Hcur].
  assert (Hrun : ∃ h', assignSlugs a src h = Some (tt, h')).
  { unfold assignSlugs. run_read. rewrite Hl. run_read.
    unfold setSlugs. rewrite Hcur. by eexists. }
  destruct Hrun as [h' Hrun].
  by eapply returns_run; [apply safeStep_assignSlugs|exact Hrun|].
Qed.

Lemma returns_putSlug (h : heap) (a : loc) (k v : string) :
  wellFormed h → ready a h → returns h (putSlug a k v) (λ _ _, True).
Proof.
  intros Hwf (p & Hp & _ & [l Hl] & _).
  destruct (wellFormed_providerSlugs _ _ _ _ Hwf Hp Hl) as [cur Hcur].
  assert (Hrun : ∃ h', putSlug a k v h = Some (tt, h')).
  { unfold putSlug. run_read. rewrite Hl. run_read.
    unfold setSlugs. rewrite Hcur. by eexists. }
  destruct Hrun as [h' Hrun].
  by eapply returns_run; [apply safeStep_putSlug|exact Hrun|].
Qed.

Lemma returns_assignBreakdown (h : heap) (a : loc) (src : gmap string bdval) :
  wellFormed h → ready a h → returns h (assignBreakdown a src) (λ _ _, True).
Proof.
  intros Hwf (p & Hp & _ & _ & [l Hl]).
  destruct (wellFormed_ratingBreakdown _ _ _ _ Hwf Hp Hl) as [cur Hcur].
  assert (Hrun : ∃ h', assignBreakdown a src h = Some (tt, h')).
  { unfold assignBreakdown. run_read. rewrite Hl. run_read.
    unfold setBreakdown. rewrite Hcur. by eexists. }
  destruct Hrun as [h' Hrun].
  by eapply returns_run; [apply safeStep_assignBreakdown|exact Hrun|].
Qed.

Lemma returns_putEntry (h : heap) (a : loc) (p : Series) (k : string)
    (v : bdval) :
  wellFormed h → objects h !! a = Some p → is_Some (ratingBreakdown p) →
  returns h (putEntry a k v) (λ _ _, True).
Proof.
  intros Hwf Hp [l Hl].
  destruct (wellFormed_ratingBreakdown _ _ _ _ Hwf Hp Hl) as [cur Hcur].
  assert (Hrun : ∃ h', putEntry a k v h = Some (tt, h')).
  { erewrite run_putEntry by done. by eexists. }
  destruct Hrun as [h' Hrun].
  by eapply returns_run; [apply safeStep_putEntry|exact Hrun|].
Qed.

Lemma returns_modSeries (h : heap) (a : loc) (f : Series -> Series) :
  (∀ s, refs (f s) = refs s) → is_Some (objects h !! a) →
  returns h (modSeries a f) (λ _ _, True).
Proof.
  intros Hf [p Hp].
  by eapply returns_run;
    [by apply safeStep_modSeries|by apply run_modSeries|].
Qed.

Lemma returns_read {A B} (h : heap) (m : M A) (f : A -> M B) (x : A)
    (R : B -> heap -> Prop) :
  m h = Some (x, h) → returns h (f x) R → returns h (m ≫= f) R.
Proof. intros Hrun (y & h' & Hy & Hrest). exists y, h'. by erewrite run_bind. Qed.

(** A read whose value is among the hypotheses. *)
Ltac returns_get :=
  eapply returns_read;
  [ first [ apply run_getSeries | apply run_getArray | apply run_getSlugs
          | apply run_getBreakdown ]; eassumption |].

(** The facts about [h] after a safe step from [h]. *)
Ltac carry Hstep :=
  let W := fresh "W" in
  let E := fresh "E" in
  destruct Hstep as [W E];
  lazymatch type of E with
  | extends ?h ?h1 =>
      repeat match goal with
      | Hwf : wellFormed h |- _ => apply W in Hwf
      | Hv : is_Some (objects h !! _) |- _ =>
          apply (valid_extends h h1 _ E) in Hv
      | Hr : ready _ h |- _ => apply (ready_extends h h1 _ E) in Hr
      end
  end;
  clear W E.

Lemma returns_initPrimary (h : heap) (a : loc) (prefix : string) :
  is_Some (objects h !! a) →
  returns h (initPrimary a prefix) (λ _ h', ready a h').
Proof.
  intros Ha. unfold initPrimary.
  eapply returns_bind; [by apply returns_ensureProviders|].
  intros _ h1 _ (p1 & Hp1 & Hprov).
  eapply returns_bind; [apply returns_ensureSlugs; eauto|].
  intros _ h2 [_ (_ & _ & _ & _ & K2)] (p2 & Hp2 & Hslug).
  eapply returns_weaken; [apply returns_ensureBreakdown; eauto|].
  intros _ h3 [_ (_ & _ & _ & _ & K3)] (p3 & Hp3 & Hbd).
  destruct (K2 a p1 Hp1) as (p2' & Hp2' & P2 & _).
  assert (p2' = p2) as -> by congruence.
  destruct (K3 a p2 Hp2) as (p3' & Hp3' & P3 & S3 & _).
  assert (p3' = p3) as -> by congruence.
  exists p3. split; [done|]. split; [|split]; auto.
Qed.

Lemma returns_forEach_pushProvider (a : loc) (xs : list string) (h : heap) :
  wellFormed h → ready a h →
  returns h (forEach xs (pushProvider a)) (λ _ _, True).
Proof.
  revert h. induction xs as [|x t IH]; intros h Hwf Hr; simpl.
  - by apply returns_ret.
  - eapply returns_bind; [by apply returns_pushProvider|].
    intros _ h1 Hstep _. carry Hstep. by apply IH.
Qed.

Section ReturningPhases.
Context (log10 : Q -> Q) (getTime : string -> num).
Context (a b : loc).

Lemma returns_copyProviders (h : heap) :
  wellFormed h → ready a h → is_Some (objects h !! b) →
  returns h (copyProviders b a) (λ _ _, True).
Proof.
  intros Hwf Hr [e He]. unfold copyProviders. returns_get.
  destruct (providers e) as [la|] eqn:Hla; [|by apply returns_ret].
  destruct (wellFormed_providers _ _ _ _ Hwf He Hla) as [ps Hps].
  returns_get. by apply returns_forEach_pushProvider.
Qed.

Lemma returns_copySlugs (h : heap) :
  wellFormed h → ready a h → is_Some (objects h !! b) →
  returns h (copySlugs b a) (λ _ _, True).
Proof.
  intros Hwf Hr [e He]. unfold copySlugs. returns_get.
  destruct (providerSlugs e) as [la|] eqn:Hla; [|by apply returns_ret].
  destruct (wellFormed_providerSlugs _ _ _ _ Hwf He Hla) as [ps Hps].
  returns_get. by apply returns_assignSlugs.
Qed.

Lemma returns_copyBreakdown (h : heap) :
  wellFormed h → ready a h → is_Some (objects h !! b) →
  returns h (copyBreakdown b a) (λ _ _, True).
Proof.
  intros Hwf Hr [e He]. unfold copyBreakdown. returns_get.
  destruct (ratingBreakdown e) as [la|] eqn:Hla; [|by apply returns_ret].
  destruct (wellFormed_ratingBreakdown _ _ _ _ Hwf He Hla) as [ps Hps].
  returns_get. by apply returns_assignBreakdown.
Qed.

Lemma returns_copyExistingData (h : heap) :
  wellFormed h → ready a h → is_Some (objects h !! b) →
  returns h (copyExistingData b a) (λ _ _, True).
Proof.
  intros Hwf Hr Hb. unfold copyExistingData.
  eapply returns_bind; [by apply returns_copyProviders|].
  intros _ h1 Hstep _. carry Hstep.
  eapply returns_bind; [by apply returns_copySlugs|].
  intros _ h2 Hstep _. carry Hstep.
  by apply returns_copyBreakdown.
Qed.

Lemma returns_addPrimaryRatings (h : heap) (prefix : string) :
  wellFormed h → ready a h →
  returns h (addPrimaryRatings a prefix) (λ _ _, True).
Proof.
  intros Hwf Hr. unfold addPrimaryRatings.
  pose proof Hr as (p & Hp & _ & _ & [lp Hlp]).
  destruct (wellFormed_ratingBreakdown _ _ _ _ Hwf Hp Hlp) as [bd Hbd].
  returns_get. rewrite Hlp. simpl. returns_get.
  eapply returns_bind with (Q := λ _ _, True).
  { destruct (rating p); [|by apply returns_ret].
    destruct (noEntry bd prefix); [|by apply returns_ret].
    eapply returns_putEntry; eauto. }
  intros _ h1 Hstep _. carry Hstep.
  destruct Hr as (p1 & Hp1 & _ & _ & [lp1 Hlp1]).
  destruct (wellFormed_ratingBreakdown _ _ _ _ Hwf Hp1 Hlp1) as [bd1 Hbd1].
  returns_get. rewrite Hlp1. simpl. returns_get.
  destruct (viewCount p1); [|by apply returns_ret].
  destruct (noEntry bd1 prefix); [|by apply returns_ret].
  eapply returns_putEntry; eauto.
Qed.

Lemma returns_addSecondaryRatings (h : heap) (prefix : string) :
  wellFormed h → is_Some (objects h !! b) →
  returns h (addSecondaryRatings b prefix) (λ _ _, True).
Proof.
  intros Hwf Hb. unfold addSecondaryRatings.
  pose proof Hb as [s Hs]. returns_get.
  eapply returns_bind with (Q := λ _ _, True).
  { destruct (rating s); [|by apply returns_ret].
    eapply returns_bind; [by apply returns_ensureBreakdown|].
    intros _ h1 Hstep (s1 & Hs1 & Hsome). carry Hstep.
    returns_get. eapply returns_putEntry; eauto. }
  intros _ h1 Hstep _. carry Hstep. destruct Hb as [s1 Hs1]. returns_get.
  destruct (viewCount s1); [|by apply returns_ret].
  eapply returns_bind; [apply returns_ensureBreakdown; eauto|].
  intros _ h2 Hstep (s2 & Hs2 & Hsome). carry Hstep.
  eapply returns_putEntry; eauto.
Qed.

Lemma returns_mergeProviderData (h : heap) (prefix : string) :
  wellFormed h → ready a h → is_Some (objects h !! b) →
  returns h (mergeProviderData a b prefix) (λ _ _, True).
Proof.
  intros Hwf Hr Hb. unfold mergeProviderData.
  eapply returns_bind; [by apply returns_pushProvider|].
  intros _ h1 Hstep _. carry Hstep. destruct Hb as [s Hs]. returns_get.
  by apply returns_putSlug.
Qed.

Lemma returns_recalculateRating (h : heap) :
  wellFormed h → ready a h →
  returns h (recalculateRating log10 a) (λ _ _, True).
Proof.
  intros Hwf (p & Hp & _ & _ & [lp Hlp]). unfold recalculateRating.
  destruct (wellFormed_ratingBreakdown _ _ _ _ Hwf Hp Hlp) as [bd Hbd].
  returns_get. rewrite Hlp. simpl. returns_get.
  apply returns_modSeries; [done|eauto].
Qed.

Lemma returns_mergePoster (h : heap) :
  is_Some (objects h !! a) → is_Some (objects h !! b) →
  returns h (mergePoster a b) (λ _ _, True).
Proof.
  intros Ha [s Hs]. pose proof Ha as [p Hp]. unfold mergePoster.
  do 2 returns_get.
  destruct (_ && _); simpl; [by apply returns_modSeries|by apply returns_ret].
Qed.

Lemma returns_mergeDescription (h : heap) :
  is_Some (objects h !! a) → is_Some (objects h !! b) →
  returns h (mergeDescription a b) (λ _ _, True).
Proof.
  intros Ha [s Hs]. pose proof Ha as [p Hp]. unfold mergeDescription.
  do 2 returns_get.
  destruct (_ || _); simpl; [by apply returns_modSeries|by apply returns_ret].
Qed.

Lemma returns_mergeGenres (h : heap) :
  is_Some (objects h !! a) → is_Some (objects h !! b) →
  returns h (mergeGenres a b) (λ _ _, True).
Proof.
  intros Ha Hb. pose proof Ha as [p Hp]. pose proof Hb as [s Hs].
  unfold mergeGenres. returns_get.
  destruct (genres s); [|by apply returns_ret]. returns_get.
  eapply returns_bind with (Q := λ _ _, True).
  { destruct (bool_decide _); simpl;
      [by apply returns_modSeries|by apply returns_ret]. }
  intros _ h1 Hstep _. carry Hstep.
  destruct Ha as [p1 Hp1]. destruct Hb as [s1 Hs1]. do 2 returns_get.
  apply returns_modSeries; [done|eauto].
Qed.

Lemma returns_mergeStudio (h : heap) :
  is_Some (objects h !! a) → is_Some (objects h !! b) →
  returns h (mergeStudio a b) (λ _ _, True).
Proof.
  intros Ha [s Hs]. pose proof Ha as [p Hp]. unfold mergeStudio.
  do 2 returns_get.
  destruct (_ && _); [by apply returns_modSeries|].
  destruct (_ && _); [|by apply returns_ret].
  destruct (_ && _); simpl; [by apply returns_modSeries|by apply returns_ret].
Qed.

Lemma returns_mergeLastUpdated (h : heap) :
  is_Some (objects h !! a) → is_Some (objects h !! b) →
  returns h (mergeLastUpdated getTime a b) (λ _ _, True).
Proof.
  intros Ha [s Hs]. pose proof Ha as [p Hp]. unfold mergeLastUpdated.
  do 2 returns_get. by apply returns_modSeries.
Qed.

Lemma returns_storeMetadataScore (h : heap) :
  is_Some (objects h !! a) →
  returns h (storeMetadataScore a) (λ _ _, True).
Proof.
  intros Ha. pose proof Ha as [p Hp]. unfold storeMetadataScore.
  returns_get. by apply returns_modSeries.
Qed.

End ReturningPhases.

Lemma returns_choosePrimary (h : heap) (a b : loc) :
  wellFormed h → is_Some (objects h !! a) → is_Some (objects h !! b) →
  returns h (choosePrimary a b)
    (λ ps h', is_Some (objects h' !! ps.1) ∧ is_Some (objects h' !! ps.2)).
Proof.
  intros Hwf Ha Hb. pose proof Ha as [e He]. pose proof Hb as [n Hn].
  unfold choosePrimary. do 2 returns_get.
  destruct (_ <? _); [|by apply returns_ret].
  exists (length (objects h), a),
    (mkHeap (objects h ++ [n]) (arrays h) (slugMaps h) (breakdowns h)).
  split; [done|]. split.
  - split; [|apply extends_app].
    intros _. apply wellFormed_app; [|done]. by eapply wellFormed_lookup.
  - simpl. split.
    + rewrite lookup_app_r by done. rewrite Nat.sub_diag. simpl. eauto.
    + rewrite lookup_app_l by (by eapply lookup_lt_Some). eauto.
Qed.

(** Every merge of two records of a well-formed heap returns, by a safe
    step, a record of the heap. *)
Lemma returns_mergeSeries (log10 : Q -> Q) (getTime : string -> num)
    (h : heap) (existing newSeries : loc) :
  wellFormed h →
  is_Some (objects h !! existing) → is_Some (objects h !! newSeries) →
  returns h (mergeSeries log10 getTime existing newSeries)
    (λ m h', is_Some (objects h' !! m)).
Proof.
  intros Hwf He Hn. unfold mergeSeries.
  eapply returns_bind; [by apply returns_choosePrimary|].
  intros [primary secondary] h1 Hstep [Hp Hs]. simpl in Hp, Hs. carry Hstep.
  pose proof Hp as [p Hp']. pose proof Hs as [s Hs']. do 2 returns_get.
  cbv zeta.
  eapply returns_bind; [by apply returns_initPrimary|].
  intros ? h2 Hstep Hr. simpl in Hr. carry Hstep.
  eapply returns_bind; [by apply returns_copyExistingData|].
  intros _ h3 Hstep _. carry Hstep.
  eapply returns_bind; [by apply returns_addPrimaryRatings|].
  intros _ h4 Hstep _. carry Hstep.
  eapply returns_bind; [by apply returns_addSecondaryRatings|].
  intros _ h5 Hstep _. carry Hstep.
  eapply returns_bind; [by apply returns_copyBreakdown|].
  intros _ h6 Hstep _. carry Hstep.
  eapply returns_bind; [by apply returns_mergeProviderData|].
  intros _ h7 Hstep _. carry Hstep.
  eapply returns_bind; [by apply returns_recalculateRating|].
  intros _ h8 Hstep _. carry Hstep.
  eapply returns_bind; [by apply returns_mergePoster|].
  intros _ h9 Hstep _. carry Hstep.
  eapply returns_bind; [by apply returns_mergeDescription|].
  intros _ h10 Hstep _. carry Hstep.
  eapply returns_bind; [by apply returns_mergeGenres|].
  intros _ h11 Hstep _. carry Hstep.
  eapply returns_bind; [by apply returns_mergeStudio|].
  intros _ h12 Hstep _. carry Hstep.
  eapply returns_bind; [by apply returns_mergeLastUpdated|].
  intros _ h13 Hstep _. carry Hstep.
  eapply returns_bind; [by apply returns_storeMetadataScore|].
  intros _ h14 Hstep _. carry Hstep.
  by apply returns_ret.
Qed.

(** ** The aggregation returns *)

Lemma valid_step (h h' : heap) (ls : list loc) :
  safeStep h h' →
  Forall (λ l, is_Some (objects h !! l)) ls →
  Forall (λ l, is_Some (objects h' !! l)) ls.
Proof.
  intros [_ E] Hv. eapply Forall_impl; [exact Hv|].
  intros l. by apply valid_extends.
Qed.

Lemma returns_findIndex (h : heap) (i : nat) (aggregated : list loc)
    (series : Series) :
  Forall (λ l, is_Some (objects h !! l)) aggregated →
  returns h (findIndex i aggregated series)
    (λ r h', h' = h
             ∧ ∀ j, r = Some j → i <= j ∧ j - i < length aggregated).
Proof.
  revert i. induction aggregated as [|l t IH]; intros i Hv; simpl.
  - apply returns_ret. split; [done|]. intros j [=].
  - apply Forall_cons in Hv as [[s Hs] Hv]. returns_get.
    destruct (isDuplicate s series).
    + apply returns_ret. split; [done|]. intros j [= <-].
      rewrite Nat.sub_diag. simpl. lia.
    + eapply returns_weaken; [by apply IH|].
      intros r h' _ [-> Hr]. split; [done|]. intros j Hj.
      destruct (Hr j Hj). simpl. lia.
Qed.

Lemma returns_newArray (h : heap) (x : list string) :
  returns h (newArray x)
    (λ l h', l = length (arrays h)
             ∧ h' = mkHeap (objects h) (arrays h ++ [x]) (slugMaps h)
                      (breakdowns h)).
Proof.
  eexists _, _. split; [done|]. split; [|done].
  apply safeStep_stores; rewrite ?length_app; lia.
Qed.

Lemma returns_newSlugs (h : heap) (x : gmap string string) :
  returns h (newSlugs x)
    (λ l h', l = length (slugMaps h)
             ∧ h' = mkHeap (objects h) (arrays h) (slugMaps h ++ [x])
                      (breakdowns h)).
Proof.
  eexists _, _. split; [done|]. split; [|done].
  apply safeStep_stores; rewrite ?length_app; lia.
Qed.

Lemma returns_newBreakdown (h : heap) (x : gmap string bdval) :
  returns h (newBreakdown x)
    (λ l h', l = length (breakdowns h)
             ∧ h' = mkHeap (objects h) (arrays h) (slugMaps h)
                      (breakdowns h ++ [x])).
Proof.
  eexists _, _. split; [done|]. split; [|done].
  apply safeStep_stores; rewrite ?length_app; lia.
Qed.

Lemma returns_newObject (h : heap) (s : Series) :
  refsValid h s = true →
  returns h (newObject s)
    (λ l h', l = length (objects h)
             ∧ h' = mkHeap (objects h ++ [s]) (arrays h) (slugMaps h)
                      (breakdowns h)).
Proof.
  intros Hv. eexists _, _. split; [done|]. split; [|done].
  split; [by apply wellFormed_app|apply extends_app].
Qed.

Lemma returns_addNewSeries (log10 : Q -> Q) (h : heap) (series : loc) :
  wellFormed h → is_Some (objects h !! series) →
  returns h (addNewSeries log10 series) (λ n h', is_Some (objects h' !! n)).
Proof.
  intros Hwf [sr Hsr]. unfold addNewSeries. returns_get. cbv zeta.
  eapply returns_bind; [apply returns_newArray|]. intros a h1 _ [-> ->].
  eapply returns_bind; [apply returns_newSlugs|]. intros sl h2 _ [-> ->].
  eapply returns_bind; [apply returns_newBreakdown|]. intros lb h3 _ [-> ->].
  cbn [objects arrays slugMaps breakdowns].
  eapply returns_bind.
  { apply returns_newObject. unfold refsValid.
    cbn [objects arrays slugMaps breakdowns providers providerSlugs
         ratingBreakdown inStore].
    rewrite !length_app. simpl. by rewrite !bool_decide_true by lia. }
  intros n h4 _ [-> ->]. cbn [objects arrays slugMaps breakdowns].
  eapply returns_read.
  { apply run_getSeries. cbn [objects].
    rewrite lookup_app_r by done. by rewrite Nat.sub_diag. }
  cbn [ratingBreakdown deref].
  eapply returns_read.
  { apply run_getBreakdown. cbn [breakdowns].
    rewrite lookup_app_r by done. by rewrite Nat.sub_diag. }
  eapply returns_bind.
  { apply returns_modSeries; [done|]. cbn [objects].
    rewrite lookup_app_r by done. rewrite Nat.sub_diag. simpl. eauto. }
  intros _ h5 [_ E] _. apply returns_ret. eapply valid_extends; [exact E|].
  cbn [objects]. rewrite lookup_app_r by done. rewrite Nat.sub_diag.
  simpl. eauto.
Qed.

Lemma returns_addSeries (log10 : Q -> Q) (getTime : string -> num)
    (h : heap) (aggregated : list loc) (series : loc) :
  wellFormed h →
  Forall (λ l, is_Some (objects h !! l)) aggregated →
  is_Some (objects h !! series) →
  returns h (addSeries log10 getTime aggregated series)
    (λ agg' h', Forall (λ l, is_Some (objects h' !! l)) agg').
Proof.
  intros Hwf Hv Hs. unfold addSeries. pose proof Hs as [sr Hsr]. returns_get.
  eapply returns_bind; [by apply returns_findIndex|].
  intros r h1 _ [-> Hr]. destruct r as [i|].
  - destruct (Hr i eq_refl) as [_ Hi]. rewrite Nat.sub_0_r in Hi.
    destruct (lookup_lt_is_Some_2 _ _ Hi) as [ex Hex]. rewrite Hex.
    eapply returns_bind.
    { apply returns_mergeSeries; [done| |done].
      by eapply (Forall_lookup_1 _ _ _ _ Hv). }
    intros m h2 Hstep Hm. apply returns_ret.
    apply Forall_insert; [by eapply valid_step|done].
  - eapply returns_bind; [by apply returns_addNewSeries|].
    intros n h2 Hstep Hn. apply returns_ret.
    apply Forall_app. split; [by eapply valid_step|by apply Forall_singleton].
Qed.

Lemma returns_addCatalog (log10 : Q -> Q) (getTime : string -> num)
    (I : heap -> Prop) (catalog : list loc) (h : heap)
    (aggregated : list loc) :
  (∀ h h', safeStep h h' → I h → I h') →
  wellFormed h → I h →
  Forall (λ l, is_Some (objects h !! l)) aggregated →
  Forall (λ l, is_Some (objects h !! l)) catalog →
  returns h (addCatalog log10 getTime aggregated catalog)
    (λ agg' h', wellFormed h' ∧ I h'
                ∧ Forall (λ l, is_Some (objects h' !! l)) agg').
Proof.
  intros HI. revert h aggregated.
  induction catalog as [|series rest IH]; intros h aggregated Hwf Hi Hv Hc;
    simpl.
  - by apply returns_ret.
  - apply Forall_cons in Hc as [Hs Hc].
    eapply returns_bind; [by apply returns_addSeries|].
    intros agg' h1 Hstep Hv'.
    apply IH; [by apply Hstep|by eapply HI|done|by eapply valid_step].
Qed.

Lemma returns_addCatalogs (log10 : Q -> Q) (getTime : string -> num)
    (providerCatalogs : list (string * list loc)) (h : heap)
    (aggregated : list loc) :
  wellFormed h →
  Forall (λ l, is_Some (objects h !! l)) aggregated →
  Forall (λ pc, Forall (λ l, is_Some (objects h !! l)) pc.2) providerCatalogs →
  returns h (addCatalogs log10 getTime aggregated providerCatalogs)
    (λ agg' h', wellFormed h'
                ∧ Forall (λ l, is_Some (objects h' !! l)) agg').
Proof.
  revert h aggregated.
  induction providerCatalogs as [|[provider catalog] rest IH];
    intros h aggregated Hwf Hv Hc; simpl.
  - by apply returns_ret.
  - apply Forall_cons in Hc as [Hcat Hrest]. simpl in Hcat.
    eapply returns_bind.
    { apply (returns_addCatalog log10 getTime
               (λ h, Forall (λ pc : string * list loc,
                               Forall (λ l, is_Some (objects h !! l)) pc.2)
                       rest)); [|done..].
      intros h1 h2 Hstep Hall. eapply Forall_impl; [exact Hall|].
      intros pc. by apply valid_step. }
    intros agg' h1 _ (Hwf1 & Ho1 & Hv1). by apply IH.
Qed.

Lemma returns_sortKeys (h : heap) (aggregated : list loc) :
  wellFormed h →
  Forall (λ l, is_Some (objects h !! l)) aggregated →
  returns h (mapM (λ l, k ← sortKey l; mret (l, k)) aggregated)
    (λ _ h', h' = h).
Proof.
  intros Hwf. induction aggregated as [|l t IH]; intros Hv; simpl.
  - by apply returns_ret.
  - apply Forall_cons in Hv as [[s Hs] Hv].
    assert (Hkey : ∃ k, sortKey l h = Some (k, h)).
    { unfold sortKey. run_read. destruct (providers s) as [la|] eqn:Hla.
      - destruct (wellFormed_providers _ _ _ _ Hwf Hs Hla) as [arr Harr].
        erewrite run_bind by (erewrite run_bind by (by apply run_getArray);
                              reflexivity).
        by eexists.
      - erewrite run_bind by reflexivity. by eexists. }
    destruct Hkey as [k Hk].
    eapply returns_read; [by erewrite run_bind by exact Hk|].
    eapply returns_bind; [by apply IH|].
    intros ys h1 _ ->. by apply returns_ret.
Qed.

(** The aggregation of catalogs of records of a well-formed heap returns. *)
Lemma returns_aggregateCatalogs (log10 : Q -> Q) (getTime : string -> num)
    (localeCompare : string -> string -> Z)
    (providerCatalogs : list (string * list loc)) (h : heap) :
  wellFormed h →
  Forall (λ pc, Forall (λ l, is_Some (objects h !! l)) pc.2) providerCatalogs →
  ∃ out h',
    aggregateCatalogs log10 getTime localeCompare providerCatalogs h
    = Some (out, h').
Proof.
  intros Hwf Hc.
  assert (R : returns h
            (aggregateCatalogs log10 getTime localeCompare providerCatalogs)
            (λ _ _, True)).
  { unfold aggregateCatalogs.
    eapply returns_bind; [by apply returns_addCatalogs|].
    intros agg h1 _ [Hwf1 Hv1]. unfold sortAggregated.
    eapply returns_bind; [by apply returns_sortKeys|].
    intros keyed h2 _ ->. by apply returns_ret. }
  destruct R as (out & h' & Hrun & _). eauto.
Qed.

(** ** The claims on well-formed heaps *)

Lemma mergeSeries_keeps_existing (log10 : Q -> Q) (getTime : string -> num)
    (existing newSeries : loc) (h : heap) (m : loc) (h' : heap) (e n : Series) :
  mergeSeries log10 getTime existing newSeries h = Some (m, h') →
  objects h !! existing = Some e → objects h !! newSeries = Some n →
  (calculateMetadataScore e <? calculateMetadataScore n) = false →
  m = existing.
Proof.
  intros H He Hn Hscore.
  apply mergeSeries_phases in H as (secondary & p & s & h1 & Hrest).
  destruct Hrest as (? & ? & ? & ? & ? & ? & ? & ? & Hc & _).
  apply choosePrimary_Some in Hc
    as (e0 & n0 & He0 & Hn0 & [(Hlt & _)|(_ & -> & _)]); [|done].
  assert (e0 = e) as -> by congruence. assert (n0 = n) as -> by congruence.
  congruence.
Qed.

(** C1, as the code has it.  Every merge of two records of a well-formed heap
    returns, and on a key that both breakdowns hold, the merged
    [ratingBreakdown] holds the entry of the secondary, not the primary's:
    every entry of the secondary's [ratingBreakdown] is in the merged one (the
    two records not sharing one breakdown object), except that under the
    secondary's own prefix the merged entry is the one made from the
    secondary's view count, or else from its rating, when it has one. *)
Theorem mergeSeries_ratingBreakdown (log10 : Q -> Q) (getTime : string -> num)
    (existing newSeries : loc) (h : heap) (e n : Series) :
  wellFormed h →
  objects h !! existing = Some e → objects h !! newSeries = Some n →
  let p := if calculateMetadataScore e <? calculateMetadataScore n then n else e in
  let s := if calculateMetadataScore e <? calculateMetadataScore n then e else n in
  let sp := getPrefixFromId (id s) in
  ∃ m h',
    mergeSeries log10 getTime existing newSeries h = Some (m, h')
    ∧ (∀ ls ms k v,
         ratingBreakdown s = Some ls → breakdowns h !! ls = Some ms →
         ms !! k = Some v → ratingBreakdown p ≠ Some ls →
         k ≠ sp ∨ (rating s = None ∧ viewCount s = None) →
         hasEntry m k v h')
    ∧ (∀ vc, viewCount s = Some vc → hasEntry m sp (viewsEntry vc) h')
    ∧ (∀ r, rating s = Some r → viewCount s = None →
            hasEntry m sp (ratingEntry r (ratingType s)) h').
Proof.
  intros Hwf He Hn p s sp.
  destruct (returns_mergeSeries log10 getTime h existing newSeries Hwf)
    as (m & h' & Hrun & _); [eauto..|].
  exists m, h'. split; [exact Hrun|].
  exact (ratingBreakdown_of_run log10 getTime existing newSeries h m h' e n
           Hrun He Hn).
Qed.

Lemma mergeSeries_ratingBreakdown_witness :
  wellFormed collisionHeap
  ∧ ∃ m h',
      mergeSeries log10_sample getTime_sample 0 1 collisionHeap = Some (m, h')
      ∧ hasEntry m "htv" (viewsEntry (Fin 9000)) h'.
Proof.
  assert (Hwf : wellFormed collisionHeap) by (repeat constructor).
  split; [exact Hwf|].
  destruct (mergeSeries_ratingBreakdown log10_sample getTime_sample 0 1
              collisionHeap accumulatedBar incomingBar Hwf eq_refl eq_refl)
    as (m & h' & Hrun & Hcopy & _).
  exists m, h'. split; [exact Hrun|].
  refine (Hcopy 1 {[ "htv" := viewsEntry (Fin 9000) ]} "htv"
            (viewsEntry (Fin 9000)) eq_refl eq_refl eq_refl _ _).
  - discriminate.
  - left. discriminate.
Defined.





(** Let [log10] be non-negative from [1] on.  A merge of two objects [a]
    and [b] of a well-formed heap that keeps the existing record [a]
    as the primary returns [a].  When the merged record holds in its
    [ratingBreakdown] no bare number [0] under [a]'s own prefix and no key
    inherited from [Object.prototype], has a metadata score not below
    [b]'s, and has a studio that is, ignoring case, the name the first
    merge filtered the genres by ([a]'s studio, or else [b]'s), merging [b]
    into it again returns the same object, with the same rating and the
    same genres. *)
Theorem mergeSeries_idempotent (log10 : Q -> Q) (getTime : string -> num)
    (a b : loc) (h : heap) (e n : Series) :
  (∀ x, (1 <= x)%Q → (0 <= log10 x)%Q) →
  wellFormed h →
  objects h !! a = Some e → objects h !! b = Some n → a ≠ b →
  (calculateMetadataScore e <? calculateMetadataScore n) = false →
  ∃ h1 p1,
    mergeSeries log10 getTime a b h = Some (a, h1)
    ∧ objects h1 !! a = Some p1
    ∧ ((calculateMetadataScore p1 <? calculateMetadataScore n) = false →
       (∀ q, hasEntry a (getPrefixFromId (id e)) (BNum (Fin q)) h1 →
             ¬ (q == 0)%Q) →
       (∀ k v, hasEntry a k v h1 → inherited k = false) →
       sameStudio (orElse (studio p1) (studio n))
         (orElse (studio e) (studio n)) →
       ∃ h2 p2,
         mergeSeries log10 getTime a b h1 = Some (a, h2)
         ∧ objects h2 !! a = Some p2
         ∧ rating p2 = rating p1 ∧ genres p2 = genres p1).
Proof.
  intros Hpos Hwf He Hn Hab Hscore.
  destruct (returns_mergeSeries log10 getTime h a b Hwf)
    as (m & h1 & Hrun & _ & [p1 Hp1]); [eauto..|].
  assert (m = a) as -> by (by eapply mergeSeries_keeps_existing).
  exists h1, p1. split; [exact Hrun|]. split; [exact Hp1|].
  intros Hscore1 Hzero Hkeys Hstudio.
  exact (idempotent_of_run log10 getTime a b h h1 a e n p1 Hpos Hrun He Hn Hab
           Hscore Hp1 Hscore1 Hzero Hkeys Hstudio).
Qed.

Lemma log10_sample_nonneg (x : Q) : (1 <= x)%Q → (0 <= log10_sample x)%Q.
Proof.
  intros _. unfold log10_sample.
  assert (H : (0 <= inject_Z (Z.log2 (Qfloor x)))%Q).
  { change 0%Q with (inject_Z 0). rewrite <- Zle_Qle. apply Z.log2_nonneg. }
  nra.
Qed.

Lemma mergeSeries_idempotent_witness :
  wellFormed unratedHeap
  ∧ ∃ h1 p1 h2 p2,
      mergeSeries log10_sample getTime_sample 0 1 unratedHeap = Some (0, h1)
      ∧ objects h1 !! 0 = Some p1
      ∧ mergeSeries log10_sample getTime_sample 0 1 h1 = Some (0, h2)
      ∧ objects h2 !! 0 = Some p2
      ∧ rating p2 = rating p1 ∧ genres p2 = genres p1.
Proof.
  assert (Hwf : wellFormed unratedHeap) by (repeat constructor).
  split; [exact Hwf|].
  assert (Hab : 0 ≠ 1) by lia.
  destruct (mergeSeries_idempotent log10_sample getTime_sample 0 1
              unratedHeap unratedQux viewedQux log10_sample_nonneg
              Hwf eq_refl eq_refl Hab eq_refl)
    as (h1 & p1 & R1 & Hp1 & Hagain).
  assert (Hrun : ∃ hc pc,
    mergeSeries log10_sample getTime_sample 0 1 unratedHeap = Some (0, hc)
    ∧ objects hc !! 0 = Some pc
    ∧ (calculateMetadataScore pc <? calculateMetadataScore viewedQux) = false
    ∧ (∀ ls mp, ratingBreakdown pc = Some ls → breakdowns hc !! ls = Some mp →
                mp !! getPrefixFromId (id unratedQux) = None
                ∧ Forall (λ e, inherited e.1 = false) (map_to_list mp))
    ∧ sameStudio (orElse (studio pc) (studio viewedQux))
        (orElse (studio unratedQux) (studio viewedQux))).
  { eexists _, _. split; [vm_compute; reflexivity|].
    split; [vm_compute; reflexivity|]. split; [vm_compute; reflexivity|].
    split; [|split; vm_compute; reflexivity].
    intros ls mp Hls Hmp. vm_compute in Hls. injection Hls as <-.
    vm_compute in Hmp. injection Hmp as <-.
    split; [vm_compute; reflexivity|].
    vm_compute. repeat constructor. }
  destruct Hrun as (hc & pc & Rc & Hpc & Hscore1 & Hnone & Hstudio).
  assert (hc = h1) as -> by congruence.
  assert (pc = p1) as -> by congruence.
  destruct (Hagain Hscore1) as (h2 & p2 & R2 & Hp2 & Er & Eg).
  { intros q (s & ls & mp & Hs & Hls & Hmp & Hk).
    assert (s = p1) as -> by congruence.
    rewrite (proj1 (Hnone ls mp Hls Hmp)) in Hk. discriminate. }
  { intros k v (s & ls & mp & Hs & Hls & Hmp & Hk).
    assert (s = p1) as -> by congruence.
    pose proof (proj2 (Hnone ls mp Hls Hmp)) as Hall.
    rewrite Forall_forall in Hall.
    apply (Hall (k, v)). by apply elem_of_map_to_list. }
  { exact Hstudio. }
  exists h1, p1, h2, p2. repeat (split; [assumption|]). assumption.
Defined.

(** C8.  For catalogs of records of a well-formed heap, and a locale
    comparison that is total and transitive, [aggregateCatalogs] returns,
    and the sequence it returns is the accumulator in the order of
    [metadataScore] descending, then provider count descending, then name
    ascending under the locale's comparison; records that compare as equal
    keep the order they had in the accumulator.  In particular, of two
    records with the same [metadataScore], one with two providers and one
    with one, the one with two providers comes first. *)
Theorem aggregateCatalogs_sorted (log10 : Q -> Q) (getTime : string -> num)
    (localeCompare : string -> string -> Z)
    (providerCatalogs : list (string * list loc)) (h : heap) :
  (∀ a b, (localeCompare a b <= 0)%Z ∨ (localeCompare b a <= 0)%Z) →
  (∀ a b c, (localeCompare a b <= 0)%Z → (localeCompare b c <= 0)%Z →
            (localeCompare a c <= 0)%Z) →
  wellFormed h →
  Forall (λ pc, Forall (λ l, is_Some (objects h !! l)) pc.2) providerCatalogs →
  ∃ (out : list loc) (h' : heap) (aggregated : list loc)
    (keyed : list (loc * SortKey)),
    aggregateCatalogs log10 getTime localeCompare providerCatalogs h
    = Some (out, h')
    ∧ addCatalogs log10 getTime [] providerCatalogs h = Some (aggregated, h')
    ∧ out = keyed.*1
    ∧ Forall (λ lk, keyAt h' lk.1 = Some lk.2) keyed
    ∧ StronglySorted (λ a b, precedes localeCompare a.2 b.2) keyed
    ∧ out ≡ₚ aggregated
    ∧ (∀ k, filter (λ l, tiesWith localeCompare h' k l) out
            = filter (λ l, tiesWith localeCompare h' k l) aggregated)
    ∧ (∀ i j a b ka kb,
         out !! i = Some a → out !! j = Some b →
         keyAt h' a = Some ka → keyAt h' b = Some kb →
         keyScore ka = keyScore kb → keyProviders ka = 2 → keyProviders kb = 1 →
         i < j).
Proof.
  intros Htotal Htrans Hwf Hvalid.
  destruct (returns_aggregateCatalogs log10 getTime localeCompare
              providerCatalogs h Hwf Hvalid) as (out & h' & Hrun).
  destruct (sorted_of_run log10 getTime localeCompare providerCatalogs h out h'
              Htotal Htrans Hrun) as (aggregated & keyed & Hsorted).
  exists out, h', aggregated, keyed. split; [exact Hrun|]. exact Hsorted.
Qed.

Lemma aggregateCatalogs_sorted_witness :
  wellFormed sortHeap
  ∧ ∃ h',
      aggregateCatalogs log10_sample getTime_sample localeCompare_sample
        [("hmm", [0; 1]); ("hse", [2])] sortHeap = Some ([4; 3], h')
      ∧ keyAt h' 4 = Some (mkSortKey 2 2 "Alpha")
      ∧ keyAt h' 3 = Some (mkSortKey 2 1 "Beta")
      ∧ ∃ keyed : list (loc * SortKey),
          [4; 3] = keyed.*1
          ∧ StronglySorted (λ a b, precedes localeCompare_sample a.2 b.2) keyed.
Proof.
  assert (Hwf : wellFormed sortHeap) by (repeat constructor).
  split; [exact Hwf|].
  assert (Hvalid : Forall (λ pc : string * list loc,
                             Forall (λ l, is_Some (objects sortHeap !! l)) pc.2)
                     [("hmm", [0; 1]); ("hse", [2])]).
  { repeat (apply Forall_cons; split); try apply Forall_nil; simpl; eauto. }
  destruct (aggregateCatalogs_sorted log10_sample getTime_sample
              localeCompare_sample _ sortHeap localeCompare_sample_total
              localeCompare_sample_trans Hwf Hvalid)
    as (out & h' & aggregated & keyed & Hrun & _ & Hout & _ & Hsorted & _).
  assert (Hc : ∃ hc,
    aggregateCatalogs log10_sample getTime_sample localeCompare_sample
      [("hmm", [0; 1]); ("hse", [2])] sortHeap = Some ([4; 3], hc)
    ∧ keyAt hc 4 = Some (mkSortKey 2 2 "Alpha")
    ∧ keyAt hc 3 = Some (mkSortKey 2 1 "Beta")).
  { eexists. split; [vm_compute; reflexivity|]. split; vm_compute; reflexivity. }
  destruct Hc as (hc & Rc & K4 & K3).
  assert (out = [4; 3]) as -> by congruence.
  assert (hc = h') as -> by congruence.
  exists h'. split; [exact Rc|]. split; [exact K4|]. split; [exact K3|].
  exists keyed. split; [exact Hout|exact Hsorted].
Defined.


(** * Further properties of the code *)

(** ** The rating normaliser: ranges *)

Lemma clamp_range (n : num) :
  n ≠ NaN →
  ∃ q, Math_max (Fin 0) (Math_min (Fin 10) n) = Fin q
       ∧ (0 <= q)%Q ∧ (q <= 10)%Q.
Proof.
  intros Hnan. destruct n as [| |q|]; [done| | |].
  - exists 0%Q. split; [reflexivity|lra].
  - unfold Math_max, Math_min, num_ltb.
    case_Qle; simpl; case_Qle; simpl; eexists; (split; [reflexivity|lra]).
  - exists 10%Q. split; [reflexivity|lra].
Qed.

Lemma num_div_not_NaN (n : num) (d : Q) :
  n ≠ NaN → (0 < d)%Q → num_div n (Fin d) ≠ NaN.
Proof.
  intros Hnan Hd. destruct n as [| |q|]; [done| | |]; simpl.
  - destruct (Qle_bool 0 d) eqn:E; [done|]. apply Qle_bool_false in E. lra.
  - destruct (Qeq_bool d 0) eqn:E; [|done]. apply Qeq_bool_iff in E. lra.
  - destruct (Qle_bool 0 d) eqn:E; [done|]. apply Qle_bool_false in E. lra.
Qed.

Lemma num_mul_not_NaN (n : num) (d : Q) :
  n ≠ NaN → (0 < d)%Q → num_mul n (Fin d) ≠ NaN.
Proof.
  intros Hnan Hd. destruct n as [| |q|]; [done| | |]; simpl; try done.
  - destruct d as [[|p|p] dd]; simpl; try done; compute in Hd; done.
  - destruct d as [[|p|p] dd]; simpl; try done; compute in Hd; done.
Qed.

(** A trending value: the direct rating capped at [7.5]. *)
Lemma trending_range (v : value) :
  ∃ q, Math_min (Fin (15 # 2)) (ToNumber (normalizeDirectRating v)) = Fin q
       ∧ (0 <= q)%Q ∧ (q <= 15 # 2)%Q.
Proof.
  destruct (normalizeDirectRating v) as [nz|] eqn:E; simpl.
  - apply normalizeDirectRating_range in E as (q & -> & Hq0 & Hq10).
    unfold Math_min, num_ltb. case_Qle; simpl; eexists; (split; [reflexivity|lra]).
  - exists 0%Q. split; [reflexivity|lra].
Qed.

Lemma normalizeRating_ranged (log10 : Q -> Q) (v ty : value) (n : num) :
  (∀ x, (1 <= x)%Q → (0 <= log10 x)%Q) →
  normalizeRating log10 v ty = Some n →
  ∃ q, n = Fin q ∧ (0 <= q)%Q ∧ (q <= 10)%Q.
Proof.
  intros Hpos. unfold normalizeRating.
  assert (Hd : normalizeDirectRating v = Some n →
               ∃ q, n = Fin q ∧ (0 <= q)%Q ∧ (q <= 10)%Q)
    by apply normalizeDirectRating_range.
  destruct ty as [| |b|m|t]; try exact Hd.
  cbv zeta iota beta.
  destruct (String.eqb t "direct"); [exact Hd|].
  destruct (String.eqb t "views");
    [intros E; by eapply normalizeViewCount_range|].
  destruct (String.eqb t "trending").
  { destruct (numeric v); [|done]. intros [= <-].
    destruct (trending_range v) as (q & Hq & Hq0 & Hq1).
    exists q. split; [exact Hq|]. lra. }
  destruct (String.eqb t "percentage").
  { destruct (numeric v) as [x|] eqn:Hx; [|done]. intros [= <-].
    destruct (clamp_range (num_div x (Fin 10))) as (q & Hq & Hb); [|by exists q].
    apply num_div_not_NaN; [by eapply numeric_not_NaN|lra]. }
  destruct (String.eqb t "stars"); [|exact Hd].
  destruct (numeric v) as [x|] eqn:Hx; [|done]. intros [= <-].
  destruct (clamp_range (num_mul (num_div x (Fin 5)) (Fin 10)))
    as (q & Hq & Hb); [|by exists q].
  apply num_mul_not_NaN; [|lra].
  apply num_div_not_NaN; [by eapply numeric_not_NaN|lra].
Qed.

(** X1.  Whatever the value and the type tag, [normalizeRating] gives
    [null] or a finite number between [0] and [10], the logarithm being
    non-negative from [1] on: infinite values are clamped, and no type lets
    a [NaN] or a number out of the scale through. *)
Theorem normalizeRating_range (log10 : Q -> Q) (v ty : value) :
  (∀ x, (1 <= x)%Q → (0 <= log10 x)%Q) →
  normalizeRating log10 v ty = None
  ∨ ∃ q, normalizeRating log10 v ty = Some (Fin q) ∧ (0 <= q)%Q ∧ (q <= 10)%Q.
Proof.
  intros Hpos. destruct (normalizeRating log10 v ty) as [n|] eqn:E; [|by left].
  right. apply normalizeRating_ranged in E as (q & -> & Hq); [|done].
  by exists q.
Qed.

Lemma normalizeRating_range_witness :
  (∀ x, (1 <= x)%Q → (0 <= log10_sample x)%Q)
  ∧ (normalizeRating log10_sample (VNum (Fin 450)) (VStr "stars") = None
     ∨ ∃ q, normalizeRating log10_sample (VNum (Fin 450)) (VStr "stars")
            = Some (Fin q) ∧ (0 <= q)%Q ∧ (q <= 10)%Q).
Proof.
  split; [exact log10_sample_nonneg|].
  exact (normalizeRating_range log10_sample (VNum (Fin 450)) (VStr "stars")
           log10_sample_nonneg).
Defined.

Lemma resolveNormalized_ranged (log10 : Q -> Q) (d : bdval) :
  (∀ x, (1 <= x)%Q → (0 <= log10 x)%Q) →
  (∀ ri n, d = BInfo ri → normalized ri = Some n →
           ∃ q, n = Fin q ∧ (0 <= q)%Q ∧ (q <= 10)%Q) →
  ranged log10 d.
Proof.
  intros Hpos Hcache n. destruct d as [|m|ri]; [done..|].
  unfold resolveNormalized.
  destruct (normalized ri) as [c|] eqn:Hc.
  { intros [= <-]. by eapply Hcache. }
  assert (Hgen : ∀ r,
    (if String.eqb (or_direct (type ri)) "views" then normalizeViewCount log10 r
     else if String.eqb (or_direct (type ri)) "trending" then
       Some (Math_min (Fin (15 # 2)) (ToNumber (normalizeDirectRating r)))
     else normalizeDirectRating r) = Some n →
    ∃ q, n = Fin q ∧ (0 <= q)%Q ∧ (q <= 10)%Q).
  { intros r. destruct (String.eqb _ "views");
      [intros E; by eapply normalizeViewCount_range|].
    destruct (String.eqb _ "trending");
      [|intros E; by eapply normalizeDirectRating_range].
    intros [= <-]. destruct (trending_range r) as (q & Hq & Hq0 & Hq1).
    exists q. split; [exact Hq|lra]. }
  destruct (raw ri); [done..| | |]; apply Hgen.
Qed.

Lemma weighStep_ranged (log10 : Q -> Q) (acc : num * num) (k : string)
    (d : bdval) :
  inherited k = false →
  ranged log10 d → bounded acc → bounded (weighStep log10 acc (k, d)).
Proof.
  intros Hk Hd Hacc. unfold weighStep. simpl.
  destruct (resolveNormalized log10 d) as [n|] eqn:E; [|done].
  destruct (Hd n E) as (q & -> & Hq0 & Hq10).
  destruct Hacc as (w & s & -> & Hs0 & Hs10 & Hw).
  destruct (weightOf_cases k Hk) as [-> | ->]; simpl; unfold fin;
    eexists _, _; (split; [reflexivity|]); rewrite !Qred_correct;
    (split; [nra|]); (split; [nra|]); right; destruct Hw; lra.
Qed.

Lemma totals_ranged (log10 : Q -> Q) (l : list (string * bdval))
    (acc : num * num) :
  Forall (λ e, inherited e.1 = false ∧ ranged log10 e.2) l → bounded acc →
  bounded (foldl (weighStep log10) acc l).
Proof.
  intros Hl. revert acc.
  induction Hl as [|[k d] l [Hk Hd] _ IH]; intros acc Hacc; simpl; [done|].
  apply IH. by apply weighStep_ranged.
Qed.

Lemma bounded_zero : bounded (Fin 0, Fin 0).
Proof.
  exists 0%Q, 0%Q. split; [done|]. split; [lra|]. split; [lra|]. by left.
Qed.

Lemma averageOf_onScale (acc : num * num) : bounded acc → onScale (averageOf acc).
Proof.
  intros Hb. destruct (averageOf_bounded acc Hb) as (r & Hr & Hr0 & Hr10 & _).
  destruct Hb as (w & s & -> & Hs0 & Hs10 & Hw).
  destruct (Qeq_bool w 0) eqn:Ew.
  - exists 60%Z. split; [lia|]. unfold averageOf. simpl. by rewrite Ew.
  - apply Qeq_bool_neq in Ew.
    rewrite (averageOf_Fin w s Ew) in Hr |- *.
    set (k := Qfloor (Qred (Qred (s / w) * 10) + (1 # 2))) in *.
    exists k. split; [|reflexivity].
    assert (Hk : r = Qred (inject_Z k / 10)) by congruence.
    assert (Hq : (r == inject_Z k / 10)%Q) by (rewrite Hk; apply Qred_correct).
    split.
    + assert ((-1 < k)%Z); [|lia]. rewrite Zlt_Qlt.
      change (inject_Z (-1)) with (-1)%Q. lra10.
    + assert ((k < 101)%Z); [|lia]. rewrite Zlt_Qlt.
      change (inject_Z 101) with 101%Q. lra10.
Qed.

Lemma calculateWeightedAverage_ranged (log10 : Q -> Q)
    (bd : gmap string bdval) :
  plainKeys bd → map_Forall (λ _ d, ranged log10 d) bd →
  onScale (calculateWeightedAverage log10 (Some bd)).
Proof.
  intros Hp Hr. rewrite calculateWeightedAverage_averageOf.
  apply averageOf_onScale, totals_ranged; [|exact bounded_zero].
  apply Forall_forall. intros [k d] Hkd. apply elem_of_map_to_list in Hkd.
  split; [apply Hp; by exists d|by apply (Hr k)].
Qed.

(** Once the totals are [NaN] they stay [NaN]. *)
Lemma totals_NaN (log10 : Q -> Q) (l : list (string * bdval)) :
  foldl (weighStep log10) (NaN, NaN) l = (NaN, NaN).
Proof.
  induction l as [|[k d] l IH]; simpl; [done|].
  unfold weighStep at 2. simpl.
  destruct (resolveNormalized log10 d) as [n|]; [|exact IH].
  simpl. exact IH.
Qed.

(** An entry that counts under an inherited key makes the totals [NaN]. *)
Lemma weighStep_inherited (log10 : Q -> Q) (acc : num * num) (k : string)
    (d : bdval) (n : num) :
  resolveNormalized log10 d = Some n → inherited k = true →
  weighStep log10 acc (k, d) = (NaN, NaN).
Proof.
  intros Hn Hk. unfold weighStep. simpl. rewrite Hn, (weightOf_inherited k Hk).
  destruct acc as [[| |w|] [| |s|]], n as [| |q|]; reflexivity.
Qed.

Lemma onScale_default : onScale CONFIG.DEFAULT_RATING.
Proof. exists 60%Z. split; [lia|reflexivity]. Qed.

(** X2.  [calculateWeightedAverage] returns a number of the rating scale,
    [k / 10] for an integer [k] from [0] to [100], for every breakdown
    whose cached [normalized] values lie between [0] and [10] and whose
    provider keys are no names inherited from [Object.prototype] (such as
    ['constructor']), whatever the raw values and the types are, the
    logarithm being non-negative from [1] on. *)
Theorem calculateWeightedAverage_range (log10 : Q -> Q)
    (bd : option (gmap string bdval)) :
  (∀ x, (1 <= x)%Q → (0 <= log10 x)%Q) →
  (∀ m, bd = Some m → cacheInRange m) →
  (∀ m, bd = Some m → plainKeys m) →
  onScale (calculateWeightedAverage log10 bd).
Proof.
  intros Hpos Hcache Hplain. destruct bd as [m|]; [|exact onScale_default].
  apply calculateWeightedAverage_ranged; [by apply Hplain|]. intros p d Hp.
  apply resolveNormalized_ranged; [done|]. intros ri n -> Hn.
  by eapply (Hcache m eq_refl).
Qed.

Lemma cachedBreakdown_inRange : cacheInRange cachedBreakdown.
Proof.
  intros p ri n Hp Hn. unfold cachedBreakdown in Hp.
  apply lookup_singleton_Some in Hp as [_ [= <-]]. simpl in Hn.
  injection Hn as <-. exists 8%Q. split; [reflexivity|lra].
Qed.

Lemma cachedBreakdown_plainKeys : plainKeys cachedBreakdown.
Proof.
  intros k [v Hk]. unfold cachedBreakdown in Hk.
  by apply lookup_singleton_Some in Hk as [<- _].
Qed.

Lemma calculateWeightedAverage_range_witness :
  (∀ x, (1 <= x)%Q → (0 <= log10_sample x)%Q)
  ∧ cacheInRange cachedBreakdown ∧ plainKeys cachedBreakdown
  ∧ onScale (calculateWeightedAverage log10_sample (Some cachedBreakdown)).
Proof.
  split; [exact log10_sample_nonneg|].
  split; [exact cachedBreakdown_inRange|].
  split; [exact cachedBreakdown_plainKeys|].
  apply (calculateWeightedAverage_range log10_sample (Some cachedBreakdown)
           log10_sample_nonneg).
  - intros m [= <-]. exact cachedBreakdown_inRange.
  - intros m [= <-]. exact cachedBreakdown_plainKeys.
Defined.

(** X31.  Where an entry that counts sits under a provider key that is a
    name inherited from [Object.prototype], such as ['constructor'],
    [calculateWeightedAverage] returns [NaN]: the weight it reads for the
    key is the inherited function. *)
Theorem calculateWeightedAverage_inherited_key (log10 : Q -> Q)
    (bd : gmap string bdval) (k : string) (d : bdval) :
  bd !! k = Some d → is_Some (resolveNormalized log10 d) →
  inherited k = true →
  calculateWeightedAverage log10 (Some bd) = NaN.
Proof.
  intros Hk [n Hn] Hin. rewrite calculateWeightedAverage_averageOf.
  rewrite <- (insert_delete_id bd k d Hk).
  rewrite totals_insert by apply lookup_delete_eq.
  by rewrite (weighStep_inherited log10 _ k d n Hn Hin).
Qed.

Lemma calculateWeightedAverage_inherited_key_witness :
  inheritedBreakdown !! "constructor"
  = Some (BInfo (mkRatingInfo (VNum (Fin 8)) (Some (Fin 8)) (Some "direct")))
  ∧ inherited "constructor" = true
  ∧ calculateWeightedAverage log10_sample (Some inheritedBreakdown) = NaN.
Proof.
  split; [reflexivity|]. split; [reflexivity|].
  apply (calculateWeightedAverage_inherited_key log10_sample inheritedBreakdown
           "constructor"
           (BInfo (mkRatingInfo (VNum (Fin 8)) (Some (Fin 8)) (Some "direct"))));
    [reflexivity|by eexists|reflexivity].
Defined.

Lemma calculateAverageRating_onScale (log10 : Q -> Q)
    (m : gmap string bdval) :
  (∀ x, (1 <= x)%Q → (0 <= log10 x)%Q) → plainKeys m →
  onScale (calculateAverageRating log10 (Some m)).
Proof.
  intros Hpos Hplain. unfold calculateAverageRating.
  apply calculateWeightedAverage_ranged.
  { intros k [v Hv]. apply lookup_omap_Some in Hv as (d & _ & Hd).
    apply Hplain. by exists d. }
  intros p d Hp.
  apply lookup_omap_Some in Hp as (d0 & Hd & _).
  apply renormalize_graded in Hd as (r & q & t & -> & Hq); [|done].
  intros n [= <-]. by exists q.
Qed.

(** X3.  [calculateAverageRating] returns a number of the rating scale for
    every breakdown whose provider keys are no names inherited from
    [Object.prototype], old-format numbers, infinite or non-numeric raw
    values and out-of-range cached values included: it normalises every
    entry again. *)
Theorem calculateAverageRating_range (log10 : Q -> Q)
    (bd : option (gmap string bdval)) :
  (∀ x, (1 <= x)%Q → (0 <= log10 x)%Q) →
  (∀ m, bd = Some m → plainKeys m) →
  onScale (calculateAverageRating log10 bd).
Proof.
  intros Hpos Hplain. destruct bd as [m|].
  - apply calculateAverageRating_onScale; [done|by apply Hplain].
  - exists 60%Z. split; [lia|reflexivity].
Qed.

Lemma calculateAverageRating_range_witness :
  (∀ x, (1 <= x)%Q → (0 <= log10_sample x)%Q)
  ∧ plainKeys legacyBreakdown
  ∧ onScale (calculateAverageRating log10_sample (Some legacyBreakdown)).
Proof.
  assert (Hp : plainKeys legacyBreakdown).
  { intros k [v Hk]. unfold legacyBreakdown in Hk.
    apply lookup_insert_Some in Hk as [[<- _]|[_ Hk]]; [done|].
    by apply lookup_singleton_Some in Hk as [<- _]. }
  split; [exact log10_sample_nonneg|]. split; [exact Hp|].
  apply (calculateAverageRating_range log10_sample (Some legacyBreakdown)
           log10_sample_nonneg).
  intros m [= <-]. exact Hp.
Defined.

(** ** The rating normaliser: breakdowns made by [createRatingBreakdown] *)

Lemma createEntry_cache (log10 : Q -> Q) (data : option RatingData)
    (ri : RatingInfo) :
  createEntry log10 data = BInfo ri →
  ∃ d, data = Some d ∧ raw ri = data_value d
       ∧ data_value d ≠ VNull ∧ data_value d ≠ VUndef
       ∧ type ri = Some (or_direct (data_type d))
       ∧ normalized ri
         = normalizeRating log10 (data_value d) (VStr (or_direct (data_type d))).
Proof.
  destruct data as [d|]; [|done]. unfold createEntry.
  destruct (data_value d) eqn:Hv; try done; intros [= <-]; exists d;
    rewrite Hv; by repeat split.
Qed.

Lemma createRatingBreakdown_cacheInRange (log10 : Q -> Q)
    (ratings : gmap string (option RatingData)) :
  (∀ x, (1 <= x)%Q → (0 <= log10 x)%Q) →
  cacheInRange (createRatingBreakdown log10 ratings).
Proof.
  intros Hpos p ri n Hp Hn. unfold createRatingBreakdown in Hp.
  apply lookup_fmap_Some in Hp as (data & Hri & _).
  apply createEntry_cache in Hri as (d & _ & _ & _ & _ & _ & Hnz).
  rewrite Hnz in Hn. by eapply normalizeRating_ranged.
Qed.

(** X4.  In a breakdown made by [createRatingBreakdown], a provider with
    data counts in [calculateWeightedAverage] with
    [normalizeRating(value, type || 'direct')]; where that is [null] the
    provider is skipped, except under the type ['trending'], where a
    value that is not a number counts as the rating [0].  A provider
    without data, or with a [null] value, gets the entry [null]. *)
Theorem createRatingBreakdown_contribution (log10 : Q -> Q)
    (ratings : gmap string (option RatingData)) (p : string) :
  match ratings !! p with
  | None => createRatingBreakdown log10 ratings !! p = None
  | Some None => createRatingBreakdown log10 ratings !! p = Some BNull
  | Some (Some d) =>
      match data_value d with
      | VNull | VUndef => createRatingBreakdown log10 ratings !! p = Some BNull
      | v =>
          ∃ e, createRatingBreakdown log10 ratings !! p = Some e
            ∧ resolveNormalized log10 e
              = match normalizeRating log10 v
                        (VStr (or_direct (data_type d))) with
                | Some n => Some n
                | None =>
                    if String.eqb (or_direct (data_type d)) "trending"
                    then Some (Fin 0) else None
                end
      end
  end.
Proof.
  unfold createRatingBreakdown. rewrite lookup_fmap.
  destruct (ratings !! p) as [[d|]|]; simpl; [|done..].
  assert (Hgen : ∀ v, v ≠ VNull → v ≠ VUndef →
    resolveNormalized log10
      (BInfo (mkRatingInfo v
                (normalizeRating log10 v (VStr (or_direct (data_type d))))
                (Some (or_direct (data_type d)))))
    = match normalizeRating log10 v (VStr (or_direct (data_type d))) with
      | Some n => Some n
      | None =>
          if String.eqb (or_direct (data_type d)) "trending"
          then Some (Fin 0) else None
      end).
  { intros v Hnull Hundef.
    assert (Hraw : resolveNormalized log10
      (BInfo (mkRatingInfo v None (Some (or_direct (data_type d)))))
      = if String.eqb (or_direct (data_type d)) "views"
        then normalizeViewCount log10 v
        else if String.eqb (or_direct (data_type d)) "trending" then
          Some (Math_min (Fin (15 # 2)) (ToNumber (normalizeDirectRating v)))
        else normalizeDirectRating v).
    { unfold resolveNormalized. cbn [normalized raw type].
      rewrite or_direct_idemp. by destruct v. }
    destruct (normalizeRating log10 v (VStr (or_direct (data_type d))))
      as [n|] eqn:E; [done|].
    rewrite Hraw. clear Hraw. revert E.
    generalize (or_direct (data_type d)). intros t.
    unfold normalizeRating. cbv zeta iota beta.
    destruct (String.eqb_spec t "direct") as [->|_]; [done|].
    destruct (String.eqb_spec t "views") as [->|_]; [done|].
    destruct (String.eqb_spec t "trending") as [->|_].
    { unfold normalizeDirectRating. by destruct (numeric v). }
    destruct (String.eqb_spec t "percentage") as [->|_].
    { unfold normalizeDirectRating. by destruct (numeric v). }
    destruct (String.eqb_spec t "stars") as [->|_]; [|done].
    unfold normalizeDirectRating. by destruct (numeric v). }
  destruct (data_value d) as [| |b|n|t]; [done..| | |];
    (eexists; split; [reflexivity|]); by apply Hgen.
Qed.

(** X5.  The weighted average of a breakdown made by
    [createRatingBreakdown] from ratings whose provider keys are no names
    inherited from [Object.prototype] is a number of the rating scale,
    whatever the values and types of the ratings are, the logarithm being
    non-negative from [1] on. *)
Theorem createRatingBreakdown_average (log10 : Q -> Q)
    (ratings : gmap string (option RatingData)) :
  (∀ x, (1 <= x)%Q → (0 <= log10 x)%Q) →
  plainKeys ratings →
  onScale (calculateWeightedAverage log10
             (Some (createRatingBreakdown log10 ratings))).
Proof.
  intros Hpos Hplain. apply calculateWeightedAverage_ranged.
  { intros k [v Hv]. unfold createRatingBreakdown in Hv.
    apply lookup_fmap_Some in Hv as (data & _ & Hdata).
    apply Hplain. by exists data. }
  intros p d Hp.
  apply resolveNormalized_ranged; [done|]. intros ri n -> Hn.
  by eapply (createRatingBreakdown_cacheInRange log10 ratings Hpos).
Qed.

Lemma createRatingBreakdown_average_witness :
  (∀ x, (1 <= x)%Q → (0 <= log10_sample x)%Q)
  ∧ plainKeys percentRatings
  ∧ onScale (calculateWeightedAverage log10_sample
               (Some (createRatingBreakdown log10_sample percentRatings))).
Proof.
  assert (Hp : plainKeys percentRatings).
  { intros k [v Hk]. unfold percentRatings in Hk.
    by apply lookup_singleton_Some in Hk as [<- _]. }
  split; [exact log10_sample_nonneg|]. split; [exact Hp|].
  exact (createRatingBreakdown_average log10_sample percentRatings
           log10_sample_nonneg Hp).
Defined.

(** ** The date parser: comparisons *)

Lemma sgn_Qred (q : Q) : Z.sgn (Qnum (Qred q)) = Z.sgn (Qnum q).
Proof.
  pose proof (Qred_correct q) as E. unfold Qeq in E.
  assert (H1 : Z.sgn (Qnum (Qred q) * Z.pos (Qden q))
               = Z.sgn (Qnum (Qred q))).
  { rewrite Z.sgn_mul. simpl. lia. }
  assert (H2 : Z.sgn (Qnum q * Z.pos (Qden (Qred q))) = Z.sgn (Qnum q)).
  { rewrite Z.sgn_mul. simpl. lia. }
  congruence.
Qed.

Lemma sgn_Qle (q : Q) : (Z.sgn (Qnum q) <= 0)%Z ↔ (q <= 0)%Q.
Proof. unfold Qle. simpl. lia. Qed.

Lemma sgn_Qlt (q : Q) : (Z.sgn (Qnum q) < 0)%Z ↔ (q < 0)%Q.
Proof. unfold Qlt. simpl. lia. Qed.

Lemma sgn_Qgt (q : Q) : (0 < Z.sgn (Qnum q))%Z ↔ (0 < q)%Q.
Proof. unfold Qlt. simpl. lia. Qed.

Lemma sgn_sub_opp (x y : Q) :
  Z.sgn (Qnum (y - x)) = (- Z.sgn (Qnum (x - y)))%Z.
Proof.
  rewrite <- Z.sgn_opp. f_equal. unfold Qminus, Qplus, Qopp. simpl. lia.
Qed.

(** The sign of [compareDatesNewestFirst] from the rank of the two dates:
    a valid date by its time, then the invalid ones, then the missing. *)
Lemma compareDatesNewestFirst_sign (getTime : string -> num)
    (a b : option string) :
  finiteTimes getTime →
  compareDatesNewestFirst getTime a b ≠ NaN
  ∧ num_sgn (compareDatesNewestFirst getTime a b)
    = match truthy a, truthy b with
      | false, false => 0%Z
      | false, true => 1%Z
      | true, false => (-1)%Z
      | true, true =>
          match getTime (default "" a), getTime (default "" b) with
          | Fin x, Fin y => Z.sgn (Qnum (y - x))
          | Fin _, _ => (-1)%Z
          | _, Fin _ => 1%Z
          | _, _ => 0%Z
          end
      end.
Proof.
  intros Hfin. unfold compareDatesNewestFirst.
  destruct (truthy a), (truthy b); simpl; try done.
  destruct (Hfin (default "" a)) as [-> | [x ->]],
           (Hfin (default "" b)) as [-> | [y ->]]; simpl; try done.
  split; [done|]. apply sgn_Qred.
Qed.

(** X6.  [compareDatesNewestFirst] is a consistent comparator for a sort,
    the clock giving finite times: it never returns [NaN], swapping its
    arguments changes the sign of the result, and "not after" is
    transitive.  Invalid dates follow the valid ones, and missing dates
    the invalid ones. *)
Theorem compareDatesNewestFirst_consistent (getTime : string -> num)
    (a b c : option string) :
  finiteTimes getTime →
  compareDatesNewestFirst getTime a b ≠ NaN
  ∧ num_sgn (compareDatesNewestFirst getTime a b)
    = (- num_sgn (compareDatesNewestFirst getTime b a))%Z
  ∧ ((num_sgn (compareDatesNewestFirst getTime a b) <= 0)%Z →
     (num_sgn (compareDatesNewestFirst getTime b c) <= 0)%Z →
     (num_sgn (compareDatesNewestFirst getTime a c) <= 0)%Z).
Proof.
  intros Hfin.
  destruct (compareDatesNewestFirst_sign getTime a b Hfin) as [Hab ->].
  destruct (compareDatesNewestFirst_sign getTime b a Hfin) as [_ ->].
  destruct (compareDatesNewestFirst_sign getTime b c Hfin) as [_ ->].
  destruct (compareDatesNewestFirst_sign getTime a c Hfin) as [_ ->].
  split; [exact Hab|]. split.
  - destruct (truthy a), (truthy b); simpl; try lia.
    destruct (Hfin (default "" a)) as [-> | [x ->]],
             (Hfin (default "" b)) as [-> | [y ->]]; simpl; lia.
  - destruct (truthy a), (truthy b), (truthy c); cbv beta iota; try lia;
      destruct (Hfin (default "" a)) as [-> | [x ->]]; cbv beta iota; try lia;
      destruct (Hfin (default "" b)) as [-> | [y ->]]; cbv beta iota; try lia;
      destruct (Hfin (default "" c)) as [-> | [z ->]]; cbv beta iota; try lia.
    rewrite !sgn_Qle. lra.
Qed.

Lemma getTime_days_finite : finiteTimes getTime_days.
Proof.
  intros s. unfold getTime_days. destruct (chars s) as [|c t]; [by left|].
  destruct (is_digit c); [right; by eexists|by left].
Qed.

Lemma compareDatesNewestFirst_consistent_witness :
  finiteTimes getTime_days
  ∧ num_sgn (compareDatesNewestFirst getTime_days (Some "2024-01-10")
               (Some "2024-1-1"))
    = (- num_sgn (compareDatesNewestFirst getTime_days (Some "2024-1-1")
                    (Some "2024-01-10")))%Z.
Proof.
  split; [exact getTime_days_finite|].
  exact (proj1 (proj2 (compareDatesNewestFirst_consistent getTime_days
                         (Some "2024-01-10") (Some "2024-1-1") None
                         getTime_days_finite))).
Defined.

(** X7.  [getMostRecentDate] agrees with [compareDatesNewestFirst]: it
    returns the date that the comparator puts first, and its second
    argument, when that is a date, where the comparator ties. *)
Theorem getMostRecentDate_agrees (getTime : string -> num)
    (a b : option string) :
  match num_sgn (compareDatesNewestFirst getTime a b) with
  | Zneg _ => getMostRecentDate getTime a b = a
  | Zpos _ => getMostRecentDate getTime a b = b
  | Z0 => getMostRecentDate getTime a b = (if truthy b then b else None)
  end.
Proof.
  unfold compareDatesNewestFirst, getMostRecentDate.
  destruct (truthy a), (truthy b); simpl; try done.
  destruct (getTime (default "" a)) as [| |x|],
           (getTime (default "" b)) as [| |y|]; try done.
  cbn [isNaN andb negb num_sub num_sgn num_ltb fin].
  rewrite sgn_Qred.
  destruct (Qle_bool x y) eqn:E; cbn [negb].
  - apply Qle_bool_iff in E.
    destruct (Z.sgn (Qnum (y - x))) eqn:S; try done.
    assert (H : (Z.sgn (Qnum (y - x)) < 0)%Z) by lia.
    apply sgn_Qlt in H. lra.
  - apply Qle_bool_false in E.
    destruct (Z.sgn (Qnum (y - x))) eqn:S; try done.
    + assert (H : (0 <= Z.sgn (Qnum (y - x)))%Z) by lia.
      assert (H' : ¬ (Z.sgn (Qnum (y - x)) < 0)%Z) by lia.
      rewrite sgn_Qlt in H'. lra.
    + assert (H' : ¬ (Z.sgn (Qnum (y - x)) < 0)%Z) by lia.
      rewrite sgn_Qlt in H'. lra.
Qed.

Lemma num_leb_trans (a b c : num) :
  num_leb a b = true → num_leb b c = true → num_leb a c = true.
Proof.
  destruct a as [| |x|], b as [| |y|], c as [| |z|]; simpl; try done.
  rewrite !negb_involutive.
  intros H1%Qle_bool_iff H2%Qle_bool_iff. apply Qle_bool_iff. lra.
Qed.

Lemma milliseconds_per_day :
  num_mul (num_mul (num_mul (Fin 1000) (Fin 60)) (Fin 60)) (Fin 24)
  = Fin 86400000.
Proof. reflexivity. Qed.

(** X8.  [isWithinDays] is monotone in the number of days: a date within
    [n] days is within [m] days for every [m >= n]; so a date within the
    last week ([isWithinWeek]) is within the last month
    ([isWithinMonth]). *)
Theorem isWithinDays_monotone (getTime : string -> num) (now : num)
    (isoDate : option string) (n m : num) :
  num_leb n m = true →
  (isWithinDays getTime now isoDate n = true →
   isWithinDays getTime now isoDate m = true)
  ∧ (isWithinWeek getTime now isoDate = true →
     isWithinMonth getTime now isoDate = true).
Proof.
  assert (Hmono : ∀ n m, num_leb n m = true →
            isWithinDays getTime now isoDate n = true →
            isWithinDays getTime now isoDate m = true).
  { clear n m. intros n m Hnm. unfold isWithinDays.
    destruct (negb (truthy isoDate)); [done|].
    destruct (isNaN (getTime (default "" isoDate))); [done|].
    rewrite !andb_true_iff. intros [H0 Hn]. split; [exact H0|].
    by eapply num_leb_trans. }
  intros Hnm. split; [by apply Hmono|].
  unfold isWithinWeek, isWithinMonth. by apply Hmono.
Qed.

Lemma isWithinDays_monotone_witness :
  num_leb (Fin 7) (Fin 14) = true
  ∧ isWithinDays getTime_days (Fin 1296000000) (Some "2024-01-10") (Fin 7)
    = true
  ∧ isWithinDays getTime_days (Fin 1296000000) (Some "2024-01-10") (Fin 14)
    = true
  ∧ isWithinMonth getTime_days (Fin 1296000000) (Some "2024-01-10") = true.
Proof.
  split; [reflexivity|]. split; [reflexivity|].
  destruct (isWithinDays_monotone getTime_days (Fin 1296000000)
              (Some "2024-01-10") (Fin 7) (Fin 14) eq_refl) as [Hd Hw].
  split; [exact (Hd eq_refl)|exact (Hw eq_refl)].
Defined.

(** X9.  [isWithinDays] answers [true] only for a date that is present
    and valid and does not lie in the future, and only for a number of
    days that is not negative. *)
Theorem isWithinDays_sound (getTime : string -> num) (now : num)
    (isoDate : option string) (days : num) :
  isWithinDays getTime now isoDate days = true →
  truthy isoDate = true
  ∧ isNaN (getTime (default "" isoDate)) = false
  ∧ num_leb (getTime (default "" isoDate)) now = true
  ∧ num_leb (Fin 0) days = true.
Proof.
  unfold isWithinDays. rewrite milliseconds_per_day.
  destruct (truthy isoDate); [|done]. simpl negb. cbv iota.
  destruct (getTime (default "" isoDate)) as [| |t|] eqn:Ht; [done|..];
    simpl isNaN; cbv iota; rewrite andb_true_iff; intros [H0 Hd];
    (split; [done|]); (split; [done|]);
    (split; [|by eapply num_leb_trans]);
    destruct now as [| |x|]; try done.
  simpl in H0 |- *. rewrite negb_involutive in H0 |- *.
  apply Qle_bool_iff in H0. apply Qle_bool_iff.
  rewrite !Qred_correct in H0.
  assert (H : (0 <= (x - t) / 86400000)%Q) by exact H0.
  unfold Qdiv in H. change (/ 86400000)%Q with (1 # 86400000)%Q in H. lra.
Qed.

Lemma isWithinDays_sound_witness :
  isWithinDays getTime_days (Fin 1296000000) (Some "2024-01-10") (Fin 7) = true
  ∧ num_leb (getTime_days "2024-01-10") (Fin 1296000000) = true.
Proof.
  split; [reflexivity|].
  exact (proj1 (proj2 (proj2
    (isWithinDays_sound getTime_days (Fin 1296000000) (Some "2024-01-10")
       (Fin 7) eq_refl)))).
Defined.

(** ** The stream handler: provider prefixes *)

Lemma str_chars (s : string) : str (chars s) = s.
Proof. apply String.string_of_list_ascii_of_string. Qed.

Lemma chars_str (l : list ascii) : chars (str l) = l.
Proof. apply String.list_ascii_of_string_of_list_ascii. Qed.

Lemma chars_length (s : string) : length (chars s) = String.length s.
Proof. induction s as [|c s IH]; simpl; [done|]. by rewrite <- IH. Qed.

Lemma after_keyword_Some (kw l r : list ascii) :
  after_keyword kw l = Some r →
  ∃ p, l = (p ++ r)%list ∧ length p = length kw.
Proof.
  revert l. induction kw as [|k kw IH]; intros l; simpl.
  - intros [= ->]. by exists [].
  - destruct l as [|c l]; [done|].
    destruct (Ascii.eqb (lower k) (lower c)); [|done].
    intros (p & -> & Hlen)%IH. exists (c :: p). simpl. by rewrite Hlen.
Qed.

Lemma stripPrefix_cases (kw : string) (l : list ascii) :
  (after_keyword (chars kw) l = None ∧ stripPrefix kw l = l)
  ∨ ∃ p, l = (p ++ stripPrefix kw l)%list ∧ length p = String.length kw
         ∧ is_Some (after_keyword (chars kw) l).
Proof.
  unfold stripPrefix. destruct (after_keyword (chars kw) l) as [r|] eqn:E.
  - right. apply after_keyword_Some in E as (p & -> & Hlen).
    exists p. rewrite chars_length in Hlen. by repeat split.
  - by left.
Qed.

Lemma stripPrefix_suffix (kw : string) (l : list ascii) :
  ∃ p, l = (p ++ stripPrefix kw l)%list.
Proof.
  destruct (stripPrefix_cases kw l) as [[_ ->]|(p & Hp & _)];
    [by exists []|by exists p].
Qed.

Lemma stripPrefix_length (kw : string) (l : list ascii) :
  length (stripPrefix kw l) <= length l.
Proof.
  destruct (stripPrefix_suffix kw l) as [p Hp].
  rewrite Hp at 2. rewrite length_app. lia.
Qed.

Lemma stripPrefix_fixed (kw : string) (l : list ascii) :
  0 < String.length kw →
  length l <= length (stripPrefix kw l) →
  after_keyword (chars kw) l = None ∧ stripPrefix kw l = l.
Proof.
  intros Hkw Hlen.
  destruct (stripPrefix_cases kw l) as [H|(p & Hp & Hpl & _)]; [done|].
  rewrite Hp in Hlen at 1. rewrite length_app in Hlen. lia.
Qed.

Lemma str_app (a b : list ascii) : str (a ++ b) = String.append (str a) (str b).
Proof.
  unfold str. induction a as [|c a IH]; simpl; [done|]. by rewrite IH.
Qed.

(** The chain of replacements of [cleanProviderSlug], as a fold. *)
Lemma cleanProviderSlug_fold (slug : string) :
  cleanProviderSlug slug
  = str (foldl (λ l kw, stripPrefix kw l) (chars slug) providerPrefixes).
Proof. reflexivity. Qed.

Lemma strip_all_suffix (kws : list string) (l : list ascii) :
  ∃ p, l = (p ++ foldl (λ l kw, stripPrefix kw l) l kws)%list.
Proof.
  revert l. induction kws as [|kw kws IH]; intros l; simpl; [by exists []|].
  destruct (stripPrefix_suffix kw l) as [p Hp].
  destruct (IH (stripPrefix kw l)) as [p' Hp'].
  exists (p ++ p')%list. rewrite <- (assoc_L (++)), <- Hp'. exact Hp.
Qed.

Lemma strip_all_fixed (kws : list string) (l : list ascii) :
  Forall (λ kw, 0 < String.length kw) kws →
  foldl (λ l kw, stripPrefix kw l) l kws = l
  ↔ Forall (λ kw, after_keyword (chars kw) l = None) kws.
Proof.
  intros Hkws. revert l.
  induction Hkws as [|kw kws Hkw _ IH]; intros l; simpl.
  { split; [by constructor|done]. }
  split.
  - intros E.
    destruct (strip_all_suffix kws (stripPrefix kw l)) as [p Hp].
    rewrite E in Hp.
    assert (Hlen : length l <= length (stripPrefix kw l)).
    { rewrite Hp, length_app. lia. }
    destruct (stripPrefix_fixed kw l Hkw Hlen) as [Hnone Hid].
    rewrite Hid in E. constructor; [exact Hnone|]. by apply IH.
  - intros [Hnone Hrest]%Forall_cons.
    unfold stripPrefix at 2. rewrite Hnone. simpl. by apply IH.
Qed.

(** X10.  [cleanProviderSlug] only removes a beginning of the slug: the
    result is an end of the slug, and it is the slug itself exactly when
    the slug begins with none of the seven provider prefixes, letter case
    ignored. *)
Theorem cleanProviderSlug_removes_prefix (slug : string) :
  (∃ removed, slug = String.append removed (cleanProviderSlug slug))
  ∧ (cleanProviderSlug slug = slug
     ↔ Forall (λ kw, ¬ startsWith kw slug) providerPrefixes).
Proof.
  rewrite cleanProviderSlug_fold. split.
  - destruct (strip_all_suffix providerPrefixes (chars slug)) as [p Hp].
    exists (str p). rewrite <- str_app, <- Hp. symmetry. apply str_chars.
  - assert (Hpos : Forall (λ kw, 0 < String.length kw) providerPrefixes)
      by (repeat constructor).
    pose proof (strip_all_fixed providerPrefixes (chars slug) Hpos) as Hfix.
    split.
    + intros E. apply (f_equal chars) in E. rewrite chars_str in E.
      apply Hfix in E. eapply Forall_impl; [exact E|].
      intros kw Hnone [r Hr]. unfold startsWith in *. congruence.
    + intros HF. rewrite (proj2 Hfix); [apply str_chars|].
      eapply Forall_impl; [exact HF|].
      intros kw Hno. by apply eq_None_not_Some.
Qed.

(** X11.  [cleanProviderSlug] removes each prefix once and in a fixed
    order, so that its result can begin with a provider prefix again: of
    two leading ["hentai-"] only the first goes, and ["hmm-"] stays
    behind a leading ["hse-"]. *)
Theorem cleanProviderSlug_once (rest : string) :
  cleanProviderSlug (String.append "hentai-hentai-" rest)
  = String.append "hentai-" rest
  ∧ cleanProviderSlug (String.append "hse-hmm-" rest)
    = String.append "hmm-" rest.
Proof.
  unfold cleanProviderSlug, stripPrefix. simpl.
  split; by rewrite str_chars.
Qed.

(** ** The series matcher: names in the form of a slug *)

Lemma lower_not_upper (c : ascii) : is_upper (lower c) = false.
Proof. destruct c as [[] [] [] [] [] [] [] []]; reflexivity. Qed.

Lemma slugChar_lower (c : ascii) : slugChar c = true → lower c = c.
Proof. destruct c as [[] [] [] [] [] [] [] []]; (reflexivity || discriminate). Qed.

Lemma slugChar_not_space (c : ascii) : slugChar c = true → is_space c = false.
Proof. destruct c as [[] [] [] [] [] [] [] []]; (reflexivity || discriminate). Qed.

Lemma slugChar_kept (c : ascii) :
  slugChar c = true → is_word c || is_space c || Ascii.eqb c "-" = true.
Proof. destruct c as [[] [] [] [] [] [] [] []]; (reflexivity || discriminate). Qed.

Lemma kept_lower_slugChar (c : ascii) :
  is_word (lower c) || is_space (lower c) || Ascii.eqb (lower c) "-" = true →
  slugChar (lower c) = true ∨ is_space (lower c) = true.
Proof.
  destruct c as [[] [] [] [] [] [] [] []]; simpl; intros H;
    (discriminate || (left; reflexivity) || (right; reflexivity)).
Qed.

Lemma hyphenate_slug (b : bool) (l : list ascii) :
  Forall (λ c, slugChar c = true ∨ is_space c = true) l →
  Forall (λ c, slugChar c = true) (SeriesMatcher.hyphenate b l).
Proof.
  intros Hl. revert b. induction Hl as [|c l Hc _ IH]; intros b; simpl;
    [constructor|].
  destruct (is_space c) eqn:Hs.
  - destruct b; [apply IH|]. constructor; [reflexivity|apply IH].
  - constructor; [|apply IH]. by destruct Hc as [Hc|Hc]; [|congruence].
Qed.

Lemma squeeze_slug (b : bool) (l : list ascii) :
  Forall (λ c, slugChar c = true) l →
  Forall (λ c, slugChar c = true) (SeriesMatcher.squeeze b l).
Proof.
  intros Hl. revert b. induction Hl as [|c l Hc _ IH]; intros b; simpl;
    [constructor|].
  destruct (Ascii.eqb c "-").
  - destruct b; [apply IH|]. constructor; [reflexivity|apply IH].
  - constructor; [exact Hc|apply IH].
Qed.

Lemma trimStart_slug (l : list ascii) :
  Forall (λ c, slugChar c = true) l → trimStart l = l.
Proof.
  intros [|c l' Hc _]; simpl; [done|]. by rewrite (slugChar_not_space c Hc).
Qed.

Lemma trim_slug (l : list ascii) :
  Forall (λ c, slugChar c = true) l → trim l = l.
Proof.
  intros Hl. unfold trim. rewrite (trimStart_slug l Hl).
  rewrite trimStart_slug; [apply reverse_involutive|].
  by apply Forall_reverse.
Qed.

Lemma hyphenate_id (l : list ascii) :
  Forall (λ c, slugChar c = true) l → SeriesMatcher.hyphenate false l = l.
Proof.
  induction 1 as [|c l Hc _ IH]; simpl; [done|].
  by rewrite (slugChar_not_space c Hc), IH.
Qed.

Lemma lower_id (l : list ascii) :
  Forall (λ c, slugChar c = true) l → lower <$> l = l.
Proof.
  induction 1 as [|c t Hc _ IH]; [done|].
  by rewrite fmap_cons, (slugChar_lower c Hc), IH.
Qed.

Lemma filter_id (l : list ascii) :
  Forall (λ c, slugChar c = true) l →
  filter (λ c, is_word c || is_space c || Ascii.eqb c "-") l = l.
Proof.
  induction 1 as [|c t Hc _ IH]; [done|].
  rewrite filter_cons_True; [by rewrite IH|].
  apply Is_true_true. by apply slugChar_kept.
Qed.

Lemma squeeze_idemp (b : bool) (l : list ascii) :
  SeriesMatcher.squeeze b (SeriesMatcher.squeeze b l) = SeriesMatcher.squeeze b l.
Proof.
  revert b. induction l as [|c l IH]; intros b; simpl; [done|].
  destruct (Ascii.eqb c "-") eqn:Hc.
  - destruct b; [apply IH|]. simpl. by rewrite IH.
  - simpl. by rewrite Hc, IH.
Qed.

Lemma squeeze_no_double (b : bool) (l pre post : list ascii) :
  SeriesMatcher.squeeze b l ≠ (pre ++ "-"%char :: "-"%char :: post)%list
  ∧ (b = true → ∀ t, SeriesMatcher.squeeze b l ≠ "-"%char :: t).
Proof.
  revert b pre. induction l as [|c l IH]; intros b pre; simpl.
  { split; [by destruct pre|done]. }
  destruct (Ascii.eqb c "-") eqn:Hc.
  - apply Ascii.eqb_eq in Hc as ->. destruct b.
    + split; [apply IH|]. intros _. by apply IH.
    + split; [|done]. destruct pre as [|x pre]; simpl.
      * intros [= E]. by eapply (proj2 (IH true [])).
      * intros [= _ E]. by eapply (proj1 (IH true pre)).
  - split.
    + destruct pre as [|x pre]; simpl.
      * intros [= -> _]. discriminate.
      * intros [= _ E]. by eapply (proj1 (IH false pre)).
    + intros _ t [= -> _]. discriminate.
Qed.

(** The characters of a normalised name before the final [trim]. *)
Lemma normalizeName_chars (name : string) :
  ∃ l, SeriesMatcher.normalizeName name = str (SeriesMatcher.squeeze false l)
       ∧ Forall (λ c, slugChar c = true) l.
Proof.
  unfold SeriesMatcher.normalizeName. cbv zeta.
  set (l2 := filter _ (lower <$> chars name)).
  assert (H2 : Forall (λ c, slugChar c = true ∨ is_space c = true) l2).
  { apply Forall_forall. intros c [Hkept Hin]%list_elem_of_filter.
    apply list_elem_of_fmap in Hin as (c0 & -> & _).
    apply kept_lower_slugChar. by apply Is_true_true. }
  exists (SeriesMatcher.hyphenate false l2).
  pose proof (hyphenate_slug false l2 H2) as H3.
  split; [|exact H3]. by rewrite trim_slug by by apply squeeze_slug.
Qed.

(** X12.  A name normalised by the series matcher is a slug: it holds
    lower-case letters, digits, underscores and hyphens only, so no white
    space that its final [trim] could remove, and no two hyphens in a
    row. *)
Theorem SeriesMatcher_normalizeName_slug (name : string) :
  Forall (λ c, slugChar c = true) (chars (SeriesMatcher.normalizeName name))
  ∧ ∀ pre post,
      chars (SeriesMatcher.normalizeName name)
      ≠ (pre ++ "-"%char :: "-"%char :: post)%list.
Proof.
  destruct (normalizeName_chars name) as (l & -> & Hl).
  rewrite chars_str. split; [by apply squeeze_slug|].
  intros pre post. apply squeeze_no_double.
Qed.

(** X13.  The normalisation of the series matcher is idempotent: a
    normalised name is its own normalisation. *)
Theorem SeriesMatcher_normalizeName_idempotent (name : string) :
  SeriesMatcher.normalizeName (SeriesMatcher.normalizeName name)
  = SeriesMatcher.normalizeName name.
Proof.
  destruct (normalizeName_chars name) as (l & -> & Hl).
  pose proof (squeeze_slug false l Hl) as Hs.
  unfold SeriesMatcher.normalizeName at 1. cbv zeta. rewrite chars_str.
  rewrite (lower_id _ Hs), (filter_id _ Hs), (hyphenate_id _ Hs), squeeze_idemp.
  by rewrite trim_slug.
Qed.

(** ** The aggregator: edit distance and similarity of names *)

Lemma editDistance_nil_r (a : list ascii) : editDistance a [] = length a.
Proof. by destruct a. Qed.

Lemma editDistance_nil_l (b : list ascii) : editDistance [] b = length b.
Proof. by destruct b. Qed.

Lemma editDistance_cons (x y : ascii) (a b : list ascii) :
  editDistance (x :: a) (y :: b)
  = (editDistance a (y :: b) + 1)
    `min` ((editDistance (x :: a) b + 1)
           `min` (editDistance a b + (if Ascii.eqb x y then 0 else 1))).
Proof. reflexivity. Qed.

Lemma editDistance_sym (a b : list ascii) : editDistance a b = editDistance b a.
Proof.
  revert b. induction a as [|x a IHa]; intros b.
  { by rewrite editDistance_nil_r, editDistance_nil_l. }
  induction b as [|y b IHb].
  { by rewrite editDistance_nil_r, editDistance_nil_l. }
  rewrite !editDistance_cons, IHb, (IHa (y :: b)), (IHa b).
  rewrite (Ascii.eqb_sym x y). lia.
Qed.

Lemma editDistance_refl (a : list ascii) : editDistance a a = 0.
Proof.
  induction a as [|x a IH]; [done|].
  rewrite editDistance_cons, IH, Ascii.eqb_refl. lia.
Qed.

Lemma editDistance_zero (a b : list ascii) : editDistance a b = 0 → a = b.
Proof.
  revert b. induction a as [|x a IHa]; intros b.
  { rewrite editDistance_nil_l. by destruct b. }
  destruct b as [|y b]; [done|].
  rewrite editDistance_cons. intros H.
  destruct (Ascii.eqb_spec x y) as [->|]; [|lia].
  f_equal. apply IHa. lia.
Qed.

Lemma editDistance_max (a b : list ascii) :
  editDistance a b <= length a `max` length b.
Proof.
  revert b. induction a as [|x a IHa]; intros b.
  { rewrite editDistance_nil_l. simpl. lia. }
  destruct b as [|y b]; [simpl; lia|].
  rewrite editDistance_cons. specialize (IHa b). simpl length.
  destruct (Ascii.eqb x y); lia.
Qed.

Lemma editDistance_diff (a b : list ascii) :
  length a - length b <= editDistance a b
  ∧ length b - length a <= editDistance a b.
Proof.
  revert b. induction a as [|x a IHa]; intros b.
  { rewrite editDistance_nil_l. simpl. lia. }
  induction b as [|y b IHb]; [simpl; lia|].
  rewrite editDistance_cons.
  pose proof (IHa (y :: b)) as H1. pose proof (IHa b) as H2.
  simpl length in *. destruct (Ascii.eqb x y); lia.
Qed.

(** A row of the matrix from the row before. *)
Lemma levenshteinRow_rowOf (bj : ascii) (a2 a1 y : list ascii) :
  levenshteinRow bj a2 (rowOf a1 a2 y 0 (S (length a2)))
    (cellOf a1 (y ++ [bj]))
  = rowOf a1 a2 (y ++ [bj]) 1 (length a2).
Proof.
  revert a1. induction a2 as [|ai a2 IH]; intros a1; [done|].
  unfold rowOf. simpl length.
  change (seq 0 (S (S (length a2)))) with (0 :: 1 :: seq 2 (length a2)).
  change (seq 1 (S (length a2))) with (1 :: seq 2 (length a2)).
  rewrite !fmap_cons. cbn [levenshteinRow firstn]. rewrite ?take_0.
  assert (Hcell :
    (cellOf a1 (y ++ [bj]) + 1)
    `min` ((cellOf (a1 ++ [ai]) y + 1)
           `min` (cellOf (a1 ++ []) y + (if Ascii.eqb ai bj then 0 else 1)))
    = cellOf (a1 ++ [ai]) (y ++ [bj])).
  { unfold cellOf. rewrite app_nil_r, !reverse_app, !reverse_singleton.
    cbn [app]. by rewrite editDistance_cons. }
  rewrite Hcell. f_equal.
  assert (Hshift : ∀ z,
    (λ i, cellOf (a1 ++ take i (ai :: a2)) z) <$> seq 2 (length a2)
    = (λ i, cellOf ((a1 ++ [ai]) ++ take i a2) z) <$> seq 1 (length a2)).
  { intros z. rewrite <- (fmap_S_seq 1), <- list_fmap_compose.
    apply list_fmap_ext. intros _ i _. simpl.
    by rewrite <- (assoc_L (++)). }
  rewrite !Hshift.
  specialize (IH (a1 ++ [ai])%list). unfold rowOf in IH.
  change (seq 0 (S (length a2))) with (0 :: seq 1 (length a2)) in IH.
  rewrite fmap_cons, take_0 in IH.
  rewrite (app_nil_r (a1 ++ [ai])%list) in IH. exact IH.
Qed.

Lemma cellOf_nil_l (y : list ascii) : cellOf [] y = length y.
Proof. unfold cellOf. by rewrite reverse_nil, editDistance_nil_l, length_reverse. Qed.

Lemma rows_rowOf (a b2 b1 : list ascii) :
  foldl (λ row bj, S (hd 0 row) :: levenshteinRow bj a row (S (hd 0 row)))
    (rowOf [] a b1 0 (S (length a))) b2
  = rowOf [] a (b1 ++ b2) 0 (S (length a)).
Proof.
  revert b1. induction b2 as [|bj b2 IH]; intros b1; cbn [foldl].
  { by rewrite app_nil_r. }
  assert (Hhd : S (hd 0 (rowOf [] a b1 0 (S (length a))))
                = cellOf [] (b1 ++ [bj])).
  { unfold rowOf. simpl. rewrite !cellOf_nil_l, length_app. simpl. lia. }
  rewrite Hhd, levenshteinRow_rowOf.
  replace (cellOf [] (b1 ++ [bj]) :: rowOf [] a (b1 ++ [bj]) 1 (length a))
    with (rowOf [] a (b1 ++ [bj]) 0 (S (length a))) by reflexivity.
  rewrite IH. by rewrite <- (assoc_L (++)).
Qed.

Lemma row0_rowOf (a : list ascii) :
  seq 0 (S (length a)) = rowOf [] a [] 0 (S (length a)).
Proof.
  unfold rowOf. rewrite <- (list_fmap_id (seq 0 (S (length a)))) at 1.
  apply list_fmap_ext. intros k i Hi. simpl.
  apply lookup_seq in Hi as [-> Hk]. unfold cellOf. simpl.
  rewrite editDistance_nil_r, length_reverse, length_take. lia.
Qed.

(** [levenshteinDistance] computes the edit distance, read from the ends
    of the strings. *)
Lemma levenshteinDistance_editDistance (a b : string) :
  levenshteinDistance a b
  = editDistance (reverse (chars a)) (reverse (chars b)).
Proof.
  unfold levenshteinDistance. cbv zeta.
  rewrite <- chars_length, row0_rowOf, rows_rowOf. simpl app.
  unfold rowOf. rewrite seq_S, fmap_app. simpl.
  rewrite List.last_last, firstn_all. reflexivity.
Qed.

Lemma chars_inj (a b : string) : chars a = chars b → a = b.
Proof. intros E. by rewrite <- (str_chars a), <- (str_chars b), E. Qed.

Lemma levenshteinDistance_sym (a b : string) :
  levenshteinDistance a b = levenshteinDistance b a.
Proof. rewrite !levenshteinDistance_editDistance. apply editDistance_sym. Qed.

Lemma levenshteinDistance_zero (a b : string) :
  levenshteinDistance a b = 0 ↔ a = b.
Proof.
  rewrite levenshteinDistance_editDistance. split.
  - intros E%editDistance_zero. apply chars_inj.
    by apply (inj reverse).
  - intros ->. apply editDistance_refl.
Qed.

Lemma levenshteinDistance_max (a b : string) :
  levenshteinDistance a b <= String.length a `max` String.length b.
Proof.
  rewrite levenshteinDistance_editDistance, <- !chars_length.
  rewrite <- (length_reverse (chars a)), <- (length_reverse (chars b)).
  apply editDistance_max.
Qed.

Lemma levenshteinDistance_diff (a b : string) :
  String.length a <= String.length b + levenshteinDistance a b
  ∧ String.length b <= String.length a + levenshteinDistance a b.
Proof.
  rewrite levenshteinDistance_editDistance, <- !chars_length.
  rewrite <- (length_reverse (chars a)), <- (length_reverse (chars b)).
  pose proof (editDistance_diff (reverse (chars a)) (reverse (chars b))). lia.
Qed.

(** X14.  [levenshteinDistance] does not depend on the order of its
    arguments. *)
Theorem levenshteinDistance_symmetric (a b : string) :
  levenshteinDistance a b = levenshteinDistance b a.
Proof. rewrite !levenshteinDistance_editDistance. apply editDistance_sym. Qed.

(** X15.  [levenshteinDistance] is [0] for equal strings only; it is at
    least the difference of the two lengths and at most the greater
    length. *)
Theorem levenshteinDistance_bounds (a b : string) :
  (levenshteinDistance a b = 0 ↔ a = b)
  ∧ String.length a <= String.length b + levenshteinDistance a b
  ∧ String.length b <= String.length a + levenshteinDistance a b
  ∧ levenshteinDistance a b <= String.length a `max` String.length b.
Proof.
  split; [apply levenshteinDistance_zero|].
  pose proof (levenshteinDistance_diff a b).
  pose proof (levenshteinDistance_max a b). tauto.
Qed.

(** The quotient of [similarity], for a length [L > 0] and a distance. *)
Lemma ratio_le (L d : nat) (p q : positive) :
  0 < L →
  (Z.pos p # q <= (inject_Z (Z.of_nat L) - inject_Z (Z.of_nat d))
                  / inject_Z (Z.of_nat L))%Q
  ↔ (Z.pos p * Z.of_nat L <= Z.pos q * (Z.of_nat L - Z.of_nat d))%Z.
Proof.
  intros HL. destruct (Z.of_nat L) as [|l|l] eqn:El; [lia| |lia].
  unfold Qdiv, Qinv, Qmult, Qminus, Qplus, Qopp, Qle, inject_Z. simpl.
  rewrite !Z.mul_1_r. rewrite !Pos2Z.inj_mul. split; intros H; nia.
Qed.

Lemma ratio_upper (L d : nat) :
  0 < L →
  ((inject_Z (Z.of_nat L) - inject_Z (Z.of_nat d)) / inject_Z (Z.of_nat L)
   <= 1)%Q
  ∧ (d <= L →
     (0 <= (inject_Z (Z.of_nat L) - inject_Z (Z.of_nat d))
           / inject_Z (Z.of_nat L))%Q)
  ∧ (((inject_Z (Z.of_nat L) - inject_Z (Z.of_nat d)) / inject_Z (Z.of_nat L)
      == 1)%Q ↔ d = 0).
Proof.
  intros HL. destruct (Z.of_nat L) as [|l|l] eqn:El; [lia| |lia].
  unfold Qdiv, Qinv, Qmult, Qminus, Qplus, Qopp, Qle, Qeq, inject_Z. simpl.
  rewrite !Z.mul_1_r. split; [nia|]. split; [intros Hd; nia|].
  split; intros H; nia.
Qed.

(** The two strings that [similarity] compares: the longer one, and the
    second where the lengths are equal, first. *)
Lemma similarity_cases (a b : string) :
  similarity a b
  = if (String.length a `max` String.length b =? 0) then 1%Q
    else ((inject_Z (Z.of_nat (String.length a `max` String.length b))
           - inject_Z (Z.of_nat (levenshteinDistance a b)))
          / inject_Z (Z.of_nat (String.length a `max` String.length b)))%Q.
Proof.
  unfold similarity. cbv zeta.
  destruct (String.length b <? String.length a) eqn:E.
  - apply Nat.ltb_lt in E. by rewrite Nat.max_l by lia.
  - apply Nat.ltb_ge in E. rewrite Nat.max_r by lia.
    by rewrite (levenshteinDistance_sym b a).
Qed.

(** X16.  [similarity] is a number between [0] and [1]; it is [1] for
    equal strings only, and it does not depend on the order of its
    arguments. *)
Theorem similarity_range (a b : string) :
  (0 <= similarity a b)%Q ∧ (similarity a b <= 1)%Q
  ∧ ((similarity a b == 1)%Q ↔ a = b)
  ∧ similarity a b = similarity b a.
Proof.
  assert (Hsym : similarity a b = similarity b a).
  { rewrite !similarity_cases, (Nat.max_comm (String.length b)).
    by rewrite (levenshteinDistance_sym b a). }
  cut ((0 <= similarity a b)%Q ∧ (similarity a b <= 1)%Q
       ∧ ((similarity a b == 1)%Q ↔ a = b)); [tauto|].
  rewrite similarity_cases.
  pose proof (levenshteinDistance_max a b) as Hmax.
  pose proof (levenshteinDistance_zero a b) as Hzero.
  destruct (String.length a `max` String.length b =? 0) eqn:E.
  - apply Nat.eqb_eq in E.
    split; [lra|]. split; [lra|].
    split; [|done]. intros _. apply Hzero. lia.
  - apply Nat.eqb_neq in E.
    destruct (ratio_upper (String.length a `max` String.length b)
                (levenshteinDistance a b)) as (H1 & H0 & Heq); [lia|].
    split; [by apply H0|]. split; [exact H1|].
    rewrite Heq. exact Hzero.
Qed.

Lemma isDuplicate_distance (x y : Series) :
  isDuplicate x y = true
  ↔ 10 * levenshteinDistance (normalizeName (name x)) (normalizeName (name y))
    <= String.length (normalizeName (name x))
       `max` String.length (normalizeName (name y)).
Proof.
  unfold isDuplicate. cbv zeta.
  set (n1 := normalizeName (name x)). set (n2 := normalizeName (name y)).
  pose proof (levenshteinDistance_zero n1 n2) as Hzero.
  pose proof (levenshteinDistance_max n1 n2) as Hmax.
  destruct (String.eqb_spec n1 n2) as [E|E].
  { apply Hzero in E. split; [lia|done]. }
  rewrite similarity_cases.
  destruct (String.length n1 `max` String.length n2 =? 0) eqn:E0.
  { apply Nat.eqb_eq in E0. split; [lia|done]. }
  apply Nat.eqb_neq in E0.
  rewrite Qle_bool_iff, ratio_le by lia. lia.
Qed.

(** X17.  [isDuplicate] holds exactly for the records whose normalised
    names are at an edit distance of at most a tenth of the length of the
    longer one; so it does not depend on the order of the two records,
    and every record is a duplicate of itself. *)
Theorem isDuplicate_characterised (x y : Series) :
  (isDuplicate x y = true
   ↔ 10 * levenshteinDistance (normalizeName (name x)) (normalizeName (name y))
     <= String.length (normalizeName (name x))
        `max` String.length (normalizeName (name y)))
  ∧ isDuplicate x y = isDuplicate y x
  ∧ isDuplicate x x = true.
Proof.
  split; [apply isDuplicate_distance|]. split.
  - apply eq_true_iff_eq. rewrite !isDuplicate_distance.
    by rewrite levenshteinDistance_sym, Nat.max_comm.
  - unfold isDuplicate. by rewrite String.eqb_refl.
Qed.

(** X18.  Two records whose normalised names are both shorter than ten
    characters are duplicates only when the normalised names are equal:
    one edit is more than a tenth of such a name. *)
Theorem isDuplicate_short_names (x y : Series) :
  String.length (normalizeName (name x)) < 10 →
  String.length (normalizeName (name y)) < 10 →
  isDuplicate x y = true ↔ normalizeName (name x) = normalizeName (name y).
Proof.
  intros Hx Hy. rewrite isDuplicate_distance.
  rewrite <- levenshteinDistance_zero. lia.
Qed.

Lemma isDuplicate_short_names_witness :
  String.length (normalizeName (Some "Foo 1")) < 10
  ∧ String.length (normalizeName (Some "Foo 2")) < 10
  ∧ (isDuplicate (bareSeries "hmm-foo-1" "Foo 1" None)
       (bareSeries "hmm-foo-2" "Foo 2" None) = true
     ↔ normalizeName (Some "Foo 1") = normalizeName (Some "Foo 2")).
Proof.
  assert (H1 : String.length (normalizeName (Some "Foo 1")) < 10)
    by (vm_compute; lia).
  assert (H2 : String.length (normalizeName (Some "Foo 2")) < 10)
    by (vm_compute; lia).
  split; [exact H1|]. split; [exact H2|].
  exact (isDuplicate_short_names (bareSeries "hmm-foo-1" "Foo 1" None)
           (bareSeries "hmm-foo-2" "Foo 2" None) H1 H2).
Defined.

(** ** The aggregator: keys inherited from [Object.prototype] *)

#[local] Instance staysPlain_preorder : PreOrder staysPlain.
Proof.
  split; [by intros h Hh|].
  intros h1 h2 h3 H12 H23 Hh. by apply H23, H12.
Qed.

Lemma plainKeys_empty : plainKeys (∅ : gmap string bdval).
Proof. intros k [v Hv]. by rewrite lookup_empty in Hv. Qed.

Lemma plainKeys_insert (B : gmap string bdval) (k : string) (v : bdval) :
  inherited k = false → plainKeys B → plainKeys (<[k := v]> B).
Proof.
  intros Hk HB i [x Hx]. apply lookup_insert_Some in Hx as [[<- _]|[_ Hx]];
    [done|]. apply HB. by exists x.
Qed.

Lemma plainKeys_union (B C : gmap string bdval) :
  plainKeys B → plainKeys C → plainKeys (B ∪ C).
Proof.
  intros HB HC i [x Hx]. apply lookup_union_Some_raw in Hx as [Hx|[_ Hx]].
  - apply HB. by exists x.
  - apply HC. by exists x.
Qed.

(** The heap after a step that writes no breakdown. *)
Lemma staysPlain_same (h h' : heap) :
  breakdowns h' = breakdowns h → staysPlain h h'.
Proof. intros E Hh l B. rewrite E. apply Hh. Qed.

(** The heap after a step that makes an empty breakdown. *)
Lemma staysPlain_new (h h' : heap) :
  breakdowns h' = (breakdowns h ++ [∅])%list → staysPlain h h'.
Proof.
  intros E Hh l B. rewrite E. intros HB.
  apply lookup_app_Some in HB as [HB|[_ HB]]; [by eapply Hh|].
  apply list_lookup_singleton_Some in HB as [_ <-]. apply plainKeys_empty.
Qed.

(** The heap after a step that writes one breakdown. *)
Lemma staysPlain_written (h h' : heap) (lp : loc) (B : gmap string bdval) :
  breakdowns h' = <[lp := B]> (breakdowns h) →
  (plainBreakdowns h → plainKeys B) → staysPlain h h'.
Proof.
  intros E HB Hh l C. rewrite E. intros HC.
  destruct (decide (l = lp)) as [->|Hne].
  - apply list_lookup_insert_Some in HC as [(_ & <- & _)|[? _]]; [|done].
    by apply HB.
  - rewrite list_lookup_insert_ne in HC by done. by eapply Hh.
Qed.

Ltac plain_unit lem :=
  let H := fresh "H" in
  intros ? ? ? H; apply lem in H;
  repeat match goal with
         | H : ∃ _, _ |- _ => destruct H
         | H : _ ∧ _ |- _ => destruct H
         | H : _ ∨ _ |- _ => destruct H
         end;
  subst; first [reflexivity | by apply staysPlain_same | by apply staysPlain_new].

Lemma staysPlain_putEntry (obj : loc) (key : string) (v : bdval) :
  inherited key = false → preserves staysPlain (putEntry obj key v).
Proof.
  intros Hk h x h' (s & lp & cur & _ & _ & Hcur & ->)%putEntry_Some.
  eapply staysPlain_written; [reflexivity|]. intros Hh.
  apply plainKeys_insert; [done|]. by eapply Hh.
Qed.

Lemma staysPlain_copyBreakdown (src primary : loc) :
  preserves staysPlain (copyBreakdown src primary).
Proof.
  intros h x h' H. unfold copyBreakdown in H.
  apply bind_Some in H as (e & ? & [He ->]%getSeries_Some & H).
  destruct (ratingBreakdown e) as [le|].
  - apply bind_Some in H as (C & ? & [HC ->]%getBreakdown_Some & H).
    apply assignBreakdown_Some in H as (s & lp & tgt & _ & _ & Htgt & ->).
    eapply staysPlain_written; [reflexivity|]. intros Hh.
    apply plainKeys_union; by eapply Hh.
  - by apply ret_Some in H as [_ ->].
Qed.

Ltac plain_prim :=
  idtac;
  lazymatch goal with
  | |- preserves _ (ensureProviders _ _) => plain_unit ensureProviders_Some
  | |- preserves _ (ensureSlugs _ _) => plain_unit ensureSlugs_Some
  | |- preserves _ (ensureBreakdown _) => plain_unit ensureBreakdown_Some
  | |- preserves _ (pushProvider _ _) => plain_unit pushProvider_Some
  | |- preserves _ (assignSlugs _ _) => plain_unit assignSlugs_Some
  | |- preserves _ (putSlug _ _ _) => plain_unit putSlug_Some
  | |- preserves _ (putEntry _ _ _) => apply staysPlain_putEntry; assumption
  | |- preserves _ (copyBreakdown _ _) => apply staysPlain_copyBreakdown
  | |- preserves _ (newObject _) => plain_unit newObject_Some
  | |- preserves _ (modSeries _ _) => plain_unit modSeries_Some
  end.

Section PlainPhases.
Context (log10 : Q -> Q) (getTime : string -> num).
Context (primary other : loc) (prefix : string).

Lemma staysPlain_choosePrimary :
  preserves staysPlain (choosePrimary primary other).
Proof. unfold choosePrimary. preserves_with plain_prim. Qed.

Lemma staysPlain_initPrimary :
  preserves staysPlain (initPrimary primary prefix).
Proof. unfold initPrimary. preserves_with plain_prim. Qed.

Lemma staysPlain_copyProviders :
  preserves staysPlain (copyProviders other primary).
Proof. unfold copyProviders. preserves_with plain_prim. Qed.

Lemma staysPlain_copySlugs :
  preserves staysPlain (copySlugs other primary).
Proof. unfold copySlugs. preserves_with plain_prim. Qed.

Lemma staysPlain_mergeProviderData :
  preserves staysPlain (mergeProviderData primary other prefix).
Proof. unfold mergeProviderData. preserves_with plain_prim. Qed.

Lemma staysPlain_mergeMetadata :
  preserves staysPlain (mergeMetadata log10 getTime primary other).
Proof.
  unfold mergeMetadata, recalculateRating, mergePoster, mergeDescription,
    mergeGenres, mergeStudio, mergeLastUpdated, storeMetadataScore.
  preserves_with plain_prim.
Qed.

End PlainPhases.

Lemma staysPlain_addPrimaryRatings (primary : loc) (prefix : string) :
  inherited prefix = false →
  preserves staysPlain (addPrimaryRatings primary prefix).
Proof. intros Hk. unfold addPrimaryRatings. preserves_with plain_prim. Qed.

Lemma staysPlain_addSecondaryRatings (secondary : loc) (prefix : string) :
  inherited prefix = false →
  preserves staysPlain (addSecondaryRatings secondary prefix).
Proof. intros Hk. unfold addSecondaryRatings. preserves_with plain_prim. Qed.

(** A merge of two records whose provider prefixes are no inherited names
    leaves the breakdowns without inherited keys. *)
Lemma staysPlain_mergeSeries (log10 : Q -> Q) (getTime : string -> num)
    (existing newSeries : loc) (h : heap) (m : loc) (h' : heap) (e n : Series) :
  mergeSeries log10 getTime existing newSeries h = Some (m, h') →
  objects h !! existing = Some e → objects h !! newSeries = Some n →
  inherited (getPrefixFromId (id e)) = false →
  inherited (getPrefixFromId (id n)) = false →
  staysPlain h h'.
Proof.
  intros Hrun He Hn Hpe Hpn.
  apply mergeSeries_phases in Hrun
    as (secondary & p & s & h1 & h2 & h3 & h4 & h5 & h6 & h7 & h8 & h9
        & Hc & Hp1 & Hs1 & H2 & H3 & H4 & H5 & H6 & H7 & H8 & H9 & H10).
  destruct (choosePrimary_records _ _ _ _ _ _ _ _ Hc He Hn)
    as (Hp & Hs & _).
  assert (Hpp : inherited (getPrefixFromId (id p)) = false).
  { rewrite Hp in Hp1. injection Hp1 as <-. by destruct (_ <? _). }
  assert (Hsp : inherited (getPrefixFromId (id s)) = false).
  { rewrite Hs in Hs1. injection Hs1 as <-. by destruct (_ <? _). }
  transitivity h1; [by eapply staysPlain_choosePrimary|].
  transitivity h2; [by eapply staysPlain_initPrimary|].
  transitivity h3; [by eapply staysPlain_copyProviders|].
  transitivity h4; [by eapply staysPlain_copySlugs|].
  transitivity h5; [by eapply staysPlain_copyBreakdown|].
  transitivity h6; [exact (staysPlain_addPrimaryRatings m _ Hpp _ _ _ H6)|].
  transitivity h7; [exact (staysPlain_addSecondaryRatings secondary _ Hsp _ _ _ H7)|].
  transitivity h8; [by eapply staysPlain_copyBreakdown|].
  transitivity h9; [by eapply staysPlain_mergeProviderData|].
  by eapply staysPlain_mergeMetadata.
Qed.

(** ** The aggregator: the record that a merge returns *)

Section MetadataRecord.
Context (log10 : Q -> Q) (getTime : string -> num).
Context (a b : loc) (Hab : a ≠ b).

Lemma record_mergePoster (h : heap) (p n : Series) :
  objects h !! a = Some p → objects h !! b = Some n →
  mergePoster a b h = Some (tt, setObject a (withPoster n p) h).
Proof.
  intros Hp Hn. unfold mergePoster, withPoster. do 2 run_read.
  destruct (negb (truthy (poster p)) && truthy (poster n)); simpl.
  - by apply run_modSeries.
  - by rewrite setObject_id.
Qed.

Lemma record_mergeDescription (h : heap) (p n : Series) :
  objects h !! a = Some p → objects h !! b = Some n →
  mergeDescription a b h = Some (tt, setObject a (withDescription n p) h).
Proof.
  intros Hp Hn. unfold mergeDescription, withDescription. do 2 run_read.
  match goal with |- context [when ?c _] => destruct c end; simpl.
  - by apply run_modSeries.
  - by rewrite setObject_id.
Qed.

Lemma record_mergeGenres (h : heap) (p n : Series) :
  objects h !! a = Some p → objects h !! b = Some n →
  mergeGenres a b h = Some (tt, setObject a (withGenres n p) h).
Proof.
  intros Hp Hn. unfold mergeGenres, withGenres, mergedGenres. run_read.
  destruct (genres n) as [gs|] eqn:Egs.
  - run_read. destruct (genres p) as [gp|] eqn:Egp.
    + rewrite bool_decide_false by done. simpl.
      erewrite run_bind by apply run_ret. do 2 run_read.
      rewrite Egp, Egs. simpl. by apply run_modSeries.
    + rewrite bool_decide_true by done. simpl.
      erewrite run_bind by (by apply run_modSeries).
      erewrite run_bind
        by (apply run_getSeries; by eapply setObject_lookup).
      erewrite run_bind
        by (apply run_getSeries; rewrite setObject_lookup_ne by done; eassumption).
      simpl. rewrite Egs. simpl.
      erewrite run_modSeries by (by eapply setObject_lookup).
      by rewrite setObject_setObject.
  - by rewrite setObject_id.
Qed.

Lemma record_mergeStudio (h : heap) (p n : Series) :
  objects h !! a = Some p → objects h !! b = Some n →
  mergeStudio a b h = Some (tt, setObject a (withStudio n p) h).
Proof.
  intros Hp Hn. unfold mergeStudio, withStudio. do 2 run_read.
  destruct (negb (truthy (studio p)) && truthy (studio n)).
  { by apply run_modSeries. }
  destruct (truthy (studio p) && truthy (studio n)); simpl.
  - match goal with |- context [when ?c _] => destruct c end; simpl.
    + by apply run_modSeries.
    + by rewrite setObject_id.
  - by rewrite setObject_id.
Qed.

Lemma record_mergeMetadata (h : heap) (p n : Series) (lp : loc)
    (B : gmap string bdval) :
  objects h !! a = Some p → objects h !! b = Some n →
  ratingBreakdown p = Some lp → breakdowns h !! lp = Some B →
  mergeMetadata log10 getTime a b h
  = Some (tt, setObject a
                (mergedRecord getTime (calculateAverageRating log10 (Some B)) n p)
                h).
Proof.
  intros Hp Hn Hlp HB. unfold mergeMetadata, mergedRecord. cbv zeta.
  erewrite run_bind by (by eapply run_recalculateRating).
  set (p1 := set_rating _ p).
  assert (Hn' : ∀ q, objects (setObject a q h) !! b = Some n)
    by (intros q; by rewrite setObject_lookup_ne).
  assert (Hp' : ∀ q, objects (setObject a q h) !! a = Some q)
    by (intros q; by eapply setObject_lookup).
  erewrite run_bind by (by apply record_mergePoster).
  rewrite setObject_setObject.
  erewrite run_bind by (by apply record_mergeDescription).
  rewrite setObject_setObject.
  erewrite run_bind by (by apply record_mergeGenres).
  rewrite setObject_setObject.
  erewrite run_bind by (by apply record_mergeStudio).
  rewrite setObject_setObject.
  unfold mergeLastUpdated.
  erewrite run_bind
    by (erewrite run_bind by (by apply run_getSeries);
        erewrite run_bind by (by apply run_getSeries);
        by apply run_modSeries).
  rewrite setObject_setObject.
  unfold storeMetadataScore.
  erewrite run_bind by (by apply run_getSeries).
  erewrite run_modSeries by done. by rewrite setObject_setObject.
Qed.

End MetadataRecord.

(** A merge of two objects of a well-formed heap: the object it returns,
    and the record it leaves there. *)
Lemma mergeSeries_record (log10 : Q -> Q) (getTime : string -> num)
    (existing newSeries : loc) (h : heap) (e n : Series) :
  wellFormed h → existing ≠ newSeries →
  objects h !! existing = Some e → objects h !! newSeries = Some n →
  ∃ m h9 p9 s9 lp B,
    m = (if calculateMetadataScore e <? calculateMetadataScore n
         then length (objects h) else existing)
    ∧ mergeSeries log10 getTime existing newSeries h
      = Some (m, setObject m
                   (mergedRecord getTime
                      (calculateAverageRating log10 (Some B)) s9 p9) h9)
    ∧ objects h9 !! m = Some p9
    ∧ scalars p9 = scalars (primaryOf e n)
    ∧ scalars s9 = scalars (secondaryOf e n)
    ∧ ratingBreakdown p9 = Some lp ∧ breakdowns h9 !! lp = Some B
    ∧ is_Some (providers p9) ∧ is_Some (providerSlugs p9)
    ∧ scalarsKept h h9
    ∧ safeStep h (setObject m
                    (mergedRecord getTime
                       (calculateAverageRating log10 (Some B)) s9 p9) h9).
Proof.
  intros Hwf Hne He Hn.
  destruct (returns_mergeSeries log10 getTime h existing newSeries Hwf)
    as (m & h' & Hrun & Hsafe & _); [eauto..|].
  pose proof Hrun as Hph.
  apply mergeSeries_phases in Hph
    as (secondary & p & s & h1 & h2 & h3 & h4 & h5 & h6 & h7 & h8 & h9
        & Hc & Hp1 & Hs1 & H2 & H3 & H4 & H5 & H6 & H7 & H8 & H9 & H10).
  destruct (choosePrimary_records _ _ _ _ _ _ _ _ Hc He Hn)
    as (Hp & Hs & _ & _ & _ & Hsec & Hkept).
  assert (Hm : m = (if calculateMetadataScore e <? calculateMetadataScore n
                    then length (objects h) else existing)
               ∧ m ≠ secondary).
  { apply choosePrimary_Some in Hc
      as (e0 & n0 & He0 & Hn0 & [(Hlt & -> & -> & _)|(Hlt & -> & -> & _)]).
    - assert (e0 = e) as -> by congruence. assert (n0 = n) as -> by congruence.
      rewrite Hlt. split; [done|]. apply lookup_lt_Some in He. lia.
    - assert (e0 = e) as -> by congruence. assert (n0 = n) as -> by congruence.
      by rewrite Hlt. }
  destruct Hm as [Em Hms].
  assert (Hk8 : scalarsKept h1 h8).
  { pose proof (scalarsKept_initPrimary m _ _ _ _ H2) as K2.
    pose proof (scalarsKept_copyProviders m existing _ _ _ H3) as K3.
    pose proof (scalarsKept_copySlugs m existing _ _ _ H4) as K4.
    pose proof (scalarsKept_copyBreakdown m existing _ _ _ H5) as K5.
    pose proof (scalarsKept_addPrimaryRatings m _ _ _ _ H6) as K6.
    pose proof (scalarsKept_addSecondaryRatings secondary _ _ _ _ H7) as K7.
    pose proof (scalarsKept_copyBreakdown m secondary _ _ _ H8) as K8.
    repeat (etrans; [eassumption|]). done. }
  destruct (Hk8 _ _ Hs) as (s8 & Hs8 & Es8).
  destruct (mergeProviderData_state _ _ _ _ _ _ H9 Hs8)
    as (Ho9 & _ & p8 & la & A & lsl & S & Hp8 & Hla & _ & _ & Hlsl & _).
  destruct (Hk8 _ _ Hp) as (p8' & Hp8' & Ep8).
  assert (p8' = p8) as -> by congruence.
  destruct (mergeMetadata_reads _ _ _ _ _ _ H10) as (p9 & lp & B & Hp9 & Hlp & HB).
  assert (p9 = p8) as -> by (rewrite Ho9 in Hp9; congruence).
  assert (Hs9 : objects h9 !! secondary = Some s8) by (by rewrite Ho9).
  exists m, h9, p8, s8, lp, B. split; [exact Em|].
  rewrite (record_mergeMetadata log10 getTime m secondary Hms h9 p8 s8 lp B)
    in H10 by done.
  injection H10 as <-.
  split; [exact Hrun|]. split; [done|]. split; [exact Ep8|].
  split; [exact Es8|]. split; [exact Hlp|]. split; [exact HB|].
  split; [by rewrite Hla|]. split; [by rewrite Hlsl|].
  split; [|exact Hsafe].
  intros l o Hl. apply Hkept in Hl. destruct (Hk8 _ _ Hl) as (o' & Ho' & Eo').
  exists o'. by rewrite Ho9.
Qed.

Lemma truthy_false_strlen (o : option string) : truthy o = false → strlen o = 0.
Proof.
  destruct o as [s|]; [|done]. simpl. intros E%negb_false_iff.
  by apply String.eqb_eq in E as ->.
Qed.

Lemma withPoster_fields (s p : Series) :
  refs (withPoster s p) = refs p ∧ name (withPoster s p) = name p
  ∧ rating (withPoster s p) = rating p
  ∧ description (withPoster s p) = description p
  ∧ genres (withPoster s p) = genres p ∧ studio (withPoster s p) = studio p.
Proof. unfold withPoster. by destruct (_ && _). Qed.

Lemma withDescription_fields (s p : Series) :
  refs (withDescription s p) = refs p ∧ name (withDescription s p) = name p
  ∧ rating (withDescription s p) = rating p
  ∧ genres (withDescription s p) = genres p
  ∧ studio (withDescription s p) = studio p.
Proof. unfold withDescription. by destruct (_ || _). Qed.

Lemma withGenres_fields (s p : Series) :
  refs (withGenres s p) = refs p ∧ name (withGenres s p) = name p
  ∧ rating (withGenres s p) = rating p
  ∧ description (withGenres s p) = description p
  ∧ genres (withGenres s p) = mergedGenres p s.
Proof. unfold withGenres, mergedGenres. by destruct (genres s). Qed.

Lemma withStudio_fields (s p : Series) :
  refs (withStudio s p) = refs p ∧ name (withStudio s p) = name p
  ∧ rating (withStudio s p) = rating p
  ∧ description (withStudio s p) = description p
  ∧ genres (withStudio s p) = genres p.
Proof.
  unfold withStudio. destruct (_ && _); [done|]. by destruct (_ && _).
Qed.

Lemma withDescription_description (s p q : Series) :
  description q = description p →
  description (withDescription s q) = description (withDescription s p).
Proof.
  intros E. unfold withDescription. rewrite E. by destruct (_ || _).
Qed.

Lemma mergedGenres_fields_eq (s p q : Series) :
  genres q = genres p → studio q = studio p →
  mergedGenres q s = mergedGenres p s.
Proof. intros Eg Es. unfold mergedGenres. by rewrite Eg, Es. Qed.

Lemma mergedRecord_refs (getTime : string -> num) (r : num) (s p : Series) :
  refs (mergedRecord getTime r s p) = refs p
  ∧ name (mergedRecord getTime r s p) = name p
  ∧ rating (mergedRecord getTime r s p) = Some r.
Proof.
  unfold mergedRecord. cbv zeta.
  set (p1 := set_rating (Some r) p). set (p2 := withPoster s p1).
  set (p3 := withDescription s p2). set (p4 := withGenres s p3).
  destruct (withStudio_fields s p4) as (E5 & N5 & R5 & _).
  destruct (withGenres_fields s p3) as (E4 & N4 & R4 & _).
  destruct (withDescription_fields s p2) as (E3 & N3 & R3 & _).
  destruct (withPoster_fields s p1) as (E2 & N2 & R2 & _).
  fold p2 in E2, N2, R2, E3, N3, R3. fold p3 in E3, N3, R3, E4, N4, R4.
  fold p4 in E4, N4, R4, E5, N5, R5.
  split; [|split].
  - transitivity (refs (withStudio s p4)); [done|].
    by rewrite E5, E4, E3, E2.
  - transitivity (name (withStudio s p4)); [done|].
    by rewrite N5, N4, N3, N2.
  - transitivity (rating (withStudio s p4)); [done|].
    by rewrite R5, R4, R3, R2.
Qed.

Lemma mergedRecord_description (getTime : string -> num) (r : num)
    (s p : Series) :
  description (mergedRecord getTime r s p) = description (withDescription s p).
Proof.
  unfold mergedRecord. cbv zeta.
  set (p1 := set_rating (Some r) p). set (p2 := withPoster s p1).
  set (p3 := withDescription s p2). set (p4 := withGenres s p3).
  transitivity (description (withStudio s p4)); [done|].
  destruct (withStudio_fields s p4) as (_ & _ & _ & -> & _).
  destruct (withGenres_fields s p3) as (_ & _ & _ & D4 & _).
  fold p4 in D4. rewrite D4. apply withDescription_description.
  unfold p2. by destruct (withPoster_fields s p1) as (_ & _ & _ & -> & _).
Qed.

Lemma mergedRecord_genres (getTime : string -> num) (r : num) (s p : Series) :
  genres (mergedRecord getTime r s p) = mergedGenres p s.
Proof.
  unfold mergedRecord. cbv zeta.
  set (p1 := set_rating (Some r) p). set (p2 := withPoster s p1).
  set (p3 := withDescription s p2). set (p4 := withGenres s p3).
  transitivity (genres (withStudio s p4)); [done|].
  destruct (withStudio_fields s p4) as (_ & _ & _ & _ & ->).
  destruct (withGenres_fields s p3) as (_ & _ & _ & _ & G4).
  fold p4 in G4. rewrite G4.
  destruct (withDescription_fields s p2) as (_ & _ & _ & G3 & S3).
  destruct (withPoster_fields s p1) as (_ & _ & _ & _ & G2 & S2).
  fold p2 in G2, S2, G3, S3. fold p3 in G3, S3.
  apply mergedGenres_fields_eq; [by rewrite G3, G2|by rewrite S3, S2].
Qed.

Lemma mergedRecord_score (getTime : string -> num) (r : num) (s p : Series) :
  metadataScore (mergedRecord getTime r s p)
  = Some (calculateMetadataScore (mergedRecord getTime r s p)).
Proof. reflexivity. Qed.

Lemma withDescription_longest (s p : Series) :
  (description (withDescription s p) = description p
   ∨ description (withDescription s p) = description s)
  ∧ strlen (description (withDescription s p))
    = strlen (description p) `max` strlen (description s).
Proof.
  unfold withDescription.
  destruct (truthy (description p)) eqn:Ep; simpl.
  - destruct (truthy (description s)) eqn:Es; simpl.
    + destruct (strlen (description p) <? strlen (description s)) eqn:El;
        simpl; (split; [auto|]).
      * apply Nat.ltb_lt in El. lia.
      * apply Nat.ltb_ge in El. lia.
    + split; [auto|]. rewrite (truthy_false_strlen _ Es). lia.
  - split; [auto|]. rewrite (truthy_false_strlen _ Ep). lia.
Qed.

(** X19.  A merge of two objects of a well-formed heap returns the
    existing object itself, unless the new series has the strictly higher
    metadata score: then it returns a new object, the one past the objects
    of the heap.  The record it returns has the [id] and the [name] of
    the record it took as primary; with equal scores that is the existing
    one. *)
Theorem mergeSeries_primary (log10 : Q -> Q) (getTime : string -> num)
    (existing newSeries : loc) (h : heap) (e n : Series) :
  wellFormed h →
  objects h !! existing = Some e → objects h !! newSeries = Some n →
  ∃ h' sm,
    mergeSeries log10 getTime existing newSeries h
    = Some ((if calculateMetadataScore e <? calculateMetadataScore n
             then length (objects h) else existing), h')
    ∧ objects h'
      !! (if calculateMetadataScore e <? calculateMetadataScore n
          then length (objects h) else existing) = Some sm
    ∧ id sm = id (primaryOf e n) ∧ name sm = name (primaryOf e n).
Proof.
  intros Hwf He Hn.
  destruct (returns_mergeSeries log10 getTime h existing newSeries Hwf)
    as (m & h' & Hrun & _ & _); [eauto..|].
  pose proof Hrun as Hc.
  apply mergeSeries_Some in Hc as (secondary & h1 & Hc & Hk).
  destruct (choosePrimary_records _ _ _ _ _ _ _ _ Hc He Hn) as (Hp & _).
  destruct (Hk _ _ Hp) as (sm & Hsm & Hid & Hname).
  apply choosePrimary_Some in Hc
    as (e0 & n0 & He0 & Hn0 & [(Hlt & -> & _)|(Hlt & -> & _)]);
    assert (e0 = e) as -> by congruence; assert (n0 = n) as -> by congruence;
    rewrite Hlt; exists h', sm; unfold primaryOf; by rewrite Hlt in *.
Qed.

Lemma mergeSeries_primary_witness :
  wellFormed unratedHeap
  ∧ ∃ h' sm,
      mergeSeries log10_sample getTime_sample 0 1 unratedHeap = Some (0, h')
      ∧ objects h' !! 0 = Some sm
      ∧ id sm = "hmm-qux" ∧ name sm = Some "Qux".
Proof.
  assert (Hwf : wellFormed unratedHeap) by (repeat constructor).
  split; [exact Hwf|].
  exact (mergeSeries_primary log10_sample getTime_sample 0 1 unratedHeap
           unratedQux viewedQux Hwf eq_refl eq_refl).
Defined.

(** X20.  The record that a merge of two distinct objects returns has the
    description of one of the two records, and the longer one: its length
    is the greater of the two lengths, a missing description counting as
    the empty one. *)
Theorem mergeSeries_description (log10 : Q -> Q) (getTime : string -> num)
    (existing newSeries : loc) (h : heap) (e n : Series) :
  wellFormed h → existing ≠ newSeries →
  objects h !! existing = Some e → objects h !! newSeries = Some n →
  ∃ m h' sm,
    mergeSeries log10 getTime existing newSeries h = Some (m, h')
    ∧ objects h' !! m = Some sm
    ∧ (description sm = description e ∨ description sm = description n)
    ∧ strlen (description sm)
      = strlen (description e) `max` strlen (description n).
Proof.
  intros Hwf Hne He Hn.
  destruct (mergeSeries_record log10 getTime existing newSeries h e n)
    as (m & h9 & p9 & s9 & lp & B & _ & Hrun & Hp9 & Ep & Es & _); [done..|].
  eexists m, _, _. split; [exact Hrun|].
  split; [by eapply setObject_lookup|].
  rewrite mergedRecord_description.
  destruct (withDescription_longest s9 p9) as [Hor Hlen].
  assert (Edp : description p9 = description (primaryOf e n))
    by exact (f_equal description Ep).
  assert (Eds : description s9 = description (secondaryOf e n))
    by exact (f_equal description Es).
  rewrite Hlen. rewrite Edp, Eds in *.
  unfold primaryOf, secondaryOf in *.
  destruct (calculateMetadataScore e <? calculateMetadataScore n);
    (split; [tauto|lia]).
Qed.

Lemma mergeSeries_description_witness :
  wellFormed unratedHeap
  ∧ ∃ m h' sm,
      mergeSeries log10_sample getTime_sample 0 1 unratedHeap = Some (m, h')
      ∧ objects h' !! m = Some sm
      ∧ (description sm = description unratedQux
         ∨ description sm = description viewedQux)
      ∧ strlen (description sm)
        = strlen (description unratedQux) `max` strlen (description viewedQux).
Proof.
  assert (Hwf : wellFormed unratedHeap) by (repeat constructor).
  assert (Hne : 0 ≠ 1) by lia.
  split; [exact Hwf|].
  exact (mergeSeries_description log10_sample getTime_sample 0 1 unratedHeap
           unratedQux viewedQux Hwf Hne eq_refl eq_refl).
Defined.

(** X21.  The [metadataScore] stored in the record that a merge of two
    distinct objects returns is the metadata score of that record, as
    [calculateMetadataScore] gives it after the merge. *)
Theorem mergeSeries_metadataScore (log10 : Q -> Q) (getTime : string -> num)
    (existing newSeries : loc) (h : heap) (e n : Series) :
  wellFormed h → existing ≠ newSeries →
  objects h !! existing = Some e → objects h !! newSeries = Some n →
  ∃ m h' sm,
    mergeSeries log10 getTime existing newSeries h = Some (m, h')
    ∧ objects h' !! m = Some sm
    ∧ metadataScore sm = Some (calculateMetadataScore sm).
Proof.
  intros Hwf Hne He Hn.
  destruct (mergeSeries_record log10 getTime existing newSeries h e n)
    as (m & h9 & p9 & s9 & lp & B & _ & Hrun & Hp9 & _); [done..|].
  eexists m, _, _. split; [exact Hrun|].
  split; [by eapply setObject_lookup|]. apply mergedRecord_score.
Qed.

Lemma mergeSeries_metadataScore_witness :
  wellFormed unratedHeap
  ∧ ∃ m h' sm,
      mergeSeries log10_sample getTime_sample 0 1 unratedHeap = Some (m, h')
      ∧ objects h' !! m = Some sm
      ∧ metadataScore sm = Some (calculateMetadataScore sm).
Proof.
  assert (Hwf : wellFormed unratedHeap) by (repeat constructor).
  assert (Hne : 0 ≠ 1) by lia.
  split; [exact Hwf|].
  exact (mergeSeries_metadataScore log10_sample getTime_sample 0 1 unratedHeap
           unratedQux viewedQux Hwf Hne eq_refl eq_refl).
Defined.

(** X22.  The rating of the record that a merge of two distinct objects
    returns is the average that [calculateAverageRating] gives for the
    record's own [ratingBreakdown] as the merge leaves it.  It is a number
    of the rating scale where no breakdown of the heap has a key inherited
    from [Object.prototype] and neither id begins with [constructor-], the
    logarithm being non-negative from [1] on. *)
Theorem mergeSeries_rating (log10 : Q -> Q) (getTime : string -> num)
    (existing newSeries : loc) (h : heap) (e n : Series) :
  (∀ x, (1 <= x)%Q → (0 <= log10 x)%Q) →
  wellFormed h → existing ≠ newSeries →
  objects h !! existing = Some e → objects h !! newSeries = Some n →
  plainBreakdowns h →
  inherited (getPrefixFromId (id e)) = false →
  inherited (getPrefixFromId (id n)) = false →
  ∃ m h' sm lp B,
    mergeSeries log10 getTime existing newSeries h = Some (m, h')
    ∧ objects h' !! m = Some sm
    ∧ ratingBreakdown sm = Some lp ∧ breakdowns h' !! lp = Some B
    ∧ rating sm = Some (calculateAverageRating log10 (Some B))
    ∧ onScale (calculateAverageRating log10 (Some B)).
Proof.
  intros Hpos Hwf Hne He Hn Hplain Hpe Hpn.
  destruct (mergeSeries_record log10 getTime existing newSeries h e n)
    as (m & h9 & p9 & s9 & lp & B & _ & Hrun & Hp9 & _ & _ & Hlp & HB & _);
    [done..|].
  pose proof (staysPlain_mergeSeries log10 getTime existing newSeries h m _ e n
                Hrun He Hn Hpe Hpn Hplain) as Hplain'.
  eexists m, _, _, lp, B. split; [exact Hrun|].
  split; [by eapply setObject_lookup|].
  destruct (mergedRecord_refs getTime
              (calculateAverageRating log10 (Some B)) s9 p9) as (Er & _ & Ea).
  split; [|split; [exact HB|split; [exact Ea|]]].
  - etrans; [exact (f_equal snd Er)|exact Hlp].
  - apply calculateAverageRating_onScale; [done|]. exact (Hplain' lp B HB).
Qed.

Lemma plainBreakdowns_none (os : list Series) (arr : list (list string))
    (sl : list (gmap string string)) :
  plainBreakdowns (mkHeap os arr sl []).
Proof. intros l B HB. simpl in HB. by rewrite lookup_nil in HB. Qed.

Lemma mergeSeries_rating_witness :
  (∀ x, (1 <= x)%Q → (0 <= log10_sample x)%Q)
  ∧ wellFormed unratedHeap ∧ plainBreakdowns unratedHeap
  ∧ inherited (getPrefixFromId (id unratedQux)) = false
  ∧ inherited (getPrefixFromId (id viewedQux)) = false
  ∧ ∃ m h' sm lp B,
      mergeSeries log10_sample getTime_sample 0 1 unratedHeap = Some (m, h')
      ∧ objects h' !! m = Some sm
      ∧ ratingBreakdown sm = Some lp ∧ breakdowns h' !! lp = Some B
      ∧ rating sm = Some (calculateAverageRating log10_sample (Some B))
      ∧ onScale (calculateAverageRating log10_sample (Some B)).
Proof.
  assert (Hwf : wellFormed unratedHeap) by (repeat constructor).
  assert (Hne : 0 ≠ 1) by lia.
  assert (Hplain : plainBreakdowns unratedHeap) by apply plainBreakdowns_none.
  split; [exact log10_sample_nonneg|]. split; [exact Hwf|].
  split; [exact Hplain|]. split; [reflexivity|]. split; [reflexivity|].
  exact (mergeSeries_rating log10_sample getTime_sample 0 1 unratedHeap
           unratedQux viewedQux log10_sample_nonneg Hwf Hne eq_refl eq_refl
           Hplain eq_refl eq_refl).
Defined.

Lemma filterStudio_elem (sn : option string) (l : list string) (g : string) :
  g ∈ filterStudio sn l ↔ g ∈ l ∧ ¬ isStudioName sn g.
Proof.
  unfold filterStudio, isStudioName. destruct sn as [st|]; simpl.
  - destruct (negb (String.eqb st "")) eqn:Et.
    + rewrite list_elem_of_filter. unfold notStudio.
      destruct (String.eqb_spec (toLowerCase g) (toLowerCase st)); simpl;
        tauto.
    + split; [intros Hin; split; [done|]; by intros [? _]|tauto].
  - split; [intros Hin; split; [done|]; by intros [? _]|tauto].
Qed.

(** X23.  Where the secondary record has genres, the genres of the record
    that a merge of two distinct objects returns are without duplicates
    and are exactly the genres of the two records other than the studio
    name, letter case ignored: the primary's studio before the merge, or
    else the secondary's.  Where the secondary has none, the primary's
    genres stay as they are. *)
Theorem mergeSeries_genres (log10 : Q -> Q) (getTime : string -> num)
    (existing newSeries : loc) (h : heap) (e n : Series) :
  wellFormed h → existing ≠ newSeries →
  objects h !! existing = Some e → objects h !! newSeries = Some n →
  ∃ m h' sm,
    mergeSeries log10 getTime existing newSeries h = Some (m, h')
    ∧ objects h' !! m = Some sm
    ∧ match genres (secondaryOf e n) with
      | Some gs =>
          ∃ G, genres sm = Some G ∧ NoDup G
            ∧ ∀ g, g ∈ G
                   ↔ (g ∈ default [] (genres (primaryOf e n)) ∨ g ∈ gs)
                     ∧ ¬ isStudioName
                           (orElse (studio (primaryOf e n))
                              (studio (secondaryOf e n))) g
      | None => genres sm = genres (primaryOf e n)
      end.
Proof.
  intros Hwf Hne He Hn.
  destruct (mergeSeries_record log10 getTime existing newSeries h e n)
    as (m & h9 & p9 & s9 & lp & B & _ & Hrun & Hp9 & Ep & Es & _); [done..|].
  eexists m, _, _. split; [exact Hrun|].
  split; [by eapply setObject_lookup|].
  rewrite mergedRecord_genres.
  assert (Egp : genres p9 = genres (primaryOf e n))
    by exact (f_equal genres Ep).
  assert (Egs : genres s9 = genres (secondaryOf e n))
    by exact (f_equal genres Es).
  assert (Esp : studio p9 = studio (primaryOf e n))
    by exact (f_equal studio Ep).
  assert (Ess : studio s9 = studio (secondaryOf e n))
    by exact (f_equal studio Es).
  unfold mergedGenres. rewrite Egs, Egp, Esp, Ess.
  destruct (genres (secondaryOf e n)) as [gs|]; [|done].
  eexists. split; [reflexivity|]. split; [apply dedupe_NoDup|].
  intros g. rewrite dedupe_in, filterStudio_elem, elem_of_app. done.
Qed.

Lemma mergeSeries_genres_witness :
  wellFormed unratedHeap
  ∧ ∃ m h' sm G,
      mergeSeries log10_sample getTime_sample 0 1 unratedHeap = Some (m, h')
      ∧ objects h' !! m = Some sm
      ∧ genres sm = Some G ∧ NoDup G
      ∧ ∀ g, g ∈ G
             ↔ (g ∈ ["Romance"] ∨ g ∈ ["Abc"; "Drama"])
               ∧ ¬ isStudioName (Some "ABC") g.
Proof.
  assert (Hwf : wellFormed unratedHeap) by (repeat constructor).
  assert (Hne : 0 ≠ 1) by lia.
  split; [exact Hwf|].
  destruct (mergeSeries_genres log10_sample getTime_sample 0 1 unratedHeap
              unratedQux viewedQux Hwf Hne eq_refl eq_refl)
    as (m & h' & sm & Hrun & Hsm & G & HG).
  exists m, h', sm, G. split; [exact Hrun|]. split; [exact Hsm|]. exact HG.
Defined.

Section Frame.
Context (log10 : Q -> Q) (getTime : string -> num).
Context (secondary l : loc) (Hne : secondary ≠ l).

Lemma objectKept_addSecondaryRatings (prefix : string) :
  preserves (objectKept l) (addSecondaryRatings secondary prefix).
Proof. unfold_phases. preserves_with kept_prim. Qed.

End Frame.

(** X24.  A merge of two objects of a well-formed heap writes no other
    record of the heap: every record but the two is after the merge what
    it was before. *)
Theorem mergeSeries_frame (log10 : Q -> Q) (getTime : string -> num)
    (existing newSeries : loc) (h : heap) :
  wellFormed h →
  is_Some (objects h !! existing) → is_Some (objects h !! newSeries) →
  ∃ m h',
    mergeSeries log10 getTime existing newSeries h = Some (m, h')
    ∧ ∀ l o, l ≠ existing → l ≠ newSeries →
             objects h !! l = Some o → objects h' !! l = Some o.
Proof.
  intros Hwf [e He] [n Hn].
  destruct (returns_mergeSeries log10 getTime h existing newSeries Hwf)
    as (m & h' & Hrun & _ & _); [eauto..|].
  exists m, h'. split; [exact Hrun|]. intros l o Hle Hln Hl.
  apply mergeSeries_phases in Hrun
    as (secondary & p & s & h1 & h2 & h3 & h4 & h5 & h6 & h7 & h8 & h9
        & Hc & Hp1 & Hs1 & H2 & H3 & H4 & H5 & H6 & H7 & H8 & H9 & H10).
  destruct (choosePrimary_records _ _ _ _ _ _ _ _ Hc He Hn)
    as (_ & _ & _ & _ & _ & Hsec & Hkept).
  assert (Hm : m ≠ l ∧ secondary ≠ l).
  { apply choosePrimary_Some in Hc
      as (e0 & n0 & _ & _ & [(_ & -> & -> & _)|(_ & -> & -> & _)]).
    - split; [|done]. apply lookup_lt_Some in Hl. lia.
    - done. }
  destruct Hm as [Hml Hsl].
  apply (objectKept_mergeMetadata log10 getTime m l Hml secondary _ _ _ H10).
  apply (objectKept_mergeProviderData m l secondary _ _ _ _ H9).
  apply (objectKept_copyBreakdown m l secondary _ _ _ H8).
  apply (objectKept_addSecondaryRatings secondary l Hsl _ _ _ _ H7).
  apply (objectKept_addPrimaryRatings m l _ _ _ _ H6).
  apply (objectKept_copyBreakdown m l existing _ _ _ H5).
  apply (objectKept_copySlugs m l existing _ _ _ H4).
  apply (objectKept_copyProviders m l existing _ _ _ H3).
  apply (objectKept_initPrimary m l Hml _ _ _ _ H2).
  by apply Hkept.
Qed.

Lemma mergeSeries_frame_witness :
  wellFormed sortHeap
  ∧ ∃ m h',
      mergeSeries log10_sample getTime_sample 0 1 sortHeap = Some (m, h')
      ∧ ∀ l o, l ≠ 0 → l ≠ 1 →
               objects sortHeap !! l = Some o → objects h' !! l = Some o.
Proof.
  assert (Hwf : wellFormed sortHeap) by (repeat constructor).
  split; [exact Hwf|].
  apply (mergeSeries_frame log10_sample getTime_sample 0 1 sortHeap Hwf);
    by eexists.
Defined.

(** ** The aggregator: seeding and the accumulated records *)

Lemma run_addNewSeries (log10 : Q -> Q) (series : loc) (h : heap) (sr : Series) :
  objects h !! series = Some sr →
  addNewSeries log10 series h = Some (length (objects h), seeded log10 sr h).
Proof.
  intros Hsr. unfold addNewSeries. run_read. cbv zeta.
  fold (seedBreakdown sr). fold (seedGenres sr).
  erewrite run_bind by reflexivity. erewrite run_bind by reflexivity.
  erewrite run_bind by reflexivity. erewrite run_bind by reflexivity.
  cbn [objects arrays slugMaps breakdowns].
  erewrite run_bind
    by (apply run_getSeries; cbn [objects];
        rewrite lookup_app_r by done; by rewrite Nat.sub_diag).
  cbn [ratingBreakdown deref].
  erewrite run_bind
    by (apply run_getBreakdown; cbn [breakdowns];
        rewrite lookup_app_r by done; by rewrite Nat.sub_diag).
  erewrite run_bind
    by (apply run_modSeries; cbn [objects];
        rewrite lookup_app_r by done; by rewrite Nat.sub_diag).
  unfold setObject, seeded. cbn [objects arrays slugMaps breakdowns].
  rewrite insert_app_r_alt by done. rewrite Nat.sub_diag. reflexivity.
Qed.

Lemma complete_kept (s s' : Series) :
  scalars s' = scalars s →
  (is_Some (providers s) → is_Some (providers s')) →
  (is_Some (providerSlugs s) → is_Some (providerSlugs s')) →
  (is_Some (ratingBreakdown s) → is_Some (ratingBreakdown s')) →
  complete s → complete s'.
Proof.
  intros E K1 K2 K3 (Hr & Hm & H1 & H2 & H3).
  assert (Er : rating s' = rating s) by exact (f_equal rating E).
  assert (Em : metadataScore s' = metadataScore s)
    by exact (f_equal metadataScore E).
  unfold complete. rewrite Er, Em. repeat split; auto.
Qed.

Lemma complete_mergedRecord (log10 : Q -> Q) (getTime : string -> num)
    (B : gmap string bdval) (s p : Series) :
  (∀ x, (1 <= x)%Q → (0 <= log10 x)%Q) → plainKeys B →
  is_Some (providers p) → is_Some (providerSlugs p) →
  is_Some (ratingBreakdown p) →
  complete (mergedRecord getTime (calculateAverageRating log10 (Some B)) s p).
Proof.
  intros Hpos HB H1 H2 H3.
  destruct (mergedRecord_refs getTime
              (calculateAverageRating log10 (Some B)) s p) as (Er & _ & Ea).
  assert (E3 : ratingBreakdown (mergedRecord getTime
                 (calculateAverageRating log10 (Some B)) s p)
               = ratingBreakdown p) by exact (f_equal snd Er).
  assert (E2 : providerSlugs (mergedRecord getTime
                 (calculateAverageRating log10 (Some B)) s p)
               = providerSlugs p) by exact (f_equal (λ x, x.1.2) Er).
  assert (E1 : providers (mergedRecord getTime
                 (calculateAverageRating log10 (Some B)) s p)
               = providers p) by exact (f_equal (λ x, x.1.1.2) Er).
  split; [|split; [|by rewrite E1, E2, E3]].
  - eexists. split; [exact Ea|]. by apply calculateAverageRating_onScale.
  - rewrite mergedRecord_score. by eexists.
Qed.

(** One merge, as the aggregation needs it. *)
Lemma step_mergeSeries (log10 : Q -> Q) (getTime : string -> num)
    (first : nat) (existing newSeries : loc) (h : heap) (e n : Series) :
  (∀ x, (1 <= x)%Q → (0 <= log10 x)%Q) →
  wellFormed h → plainBreakdowns h → existing ≠ newSeries →
  objects h !! existing = Some e → objects h !! newSeries = Some n →
  inherited (getPrefixFromId (id e)) = false →
  inherited (getPrefixFromId (id n)) = false →
  first <= existing → first <= length (objects h) →
  returns h (mergeSeries log10 getTime existing newSeries)
    (λ m h',
       first <= m ∧ plainBreakdowns h'
       ∧ (∃ sm, objects h' !! m = Some sm ∧ complete sm
                ∧ inherited (getPrefixFromId (id sm)) = false)
       ∧ ∀ l s, objects h !! l = Some s →
                ∃ s', objects h' !! l = Some s' ∧ id s' = id s
                      ∧ (complete s → complete s')).
Proof.
  intros Hpos Hwf Hplain Hne He Hn Hpe Hpn Hfe Hfl.
  destruct (mergeSeries_record log10 getTime existing newSeries h e n)
    as (m & h9 & p9 & s9 & lp & B & Em & Hrun & Hp9 & Ep9 & _ & Hlp & HB
        & Hpr & Hsl & Hk & Hsafe); [done..|].
  pose proof (staysPlain_mergeSeries log10 getTime existing newSeries h m _ e n
                Hrun He Hn Hpe Hpn Hplain) as Hplain'.
  eexists m, _. split; [exact Hrun|]. split; [exact Hsafe|].
  assert (Hc : complete (mergedRecord getTime
                           (calculateAverageRating log10 (Some B)) s9 p9)).
  { apply complete_mergedRecord; [done|exact (Hplain' lp B HB)|done|done|].
    by rewrite Hlp. }
  assert (Hid : id (mergedRecord getTime
                      (calculateAverageRating log10 (Some B)) s9 p9)
                = id (primaryOf e n)).
  { destruct (mergedRecord_refs getTime
                (calculateAverageRating log10 (Some B)) s9 p9) as (Er & _).
    etrans; [exact (f_equal (λ x, x.1.1.1) Er)|].
    exact (f_equal id Ep9). }
  assert (Hpm : inherited (getPrefixFromId
                  (id (mergedRecord getTime
                         (calculateAverageRating log10 (Some B)) s9 p9)))
                = false).
  { rewrite Hid. unfold primaryOf. by destruct (_ <? _). }
  split; [|split; [exact Hplain'|split]].
  - rewrite Em. by destruct (_ <? _).
  - eexists. split; [by eapply setObject_lookup|]. by split.
  - intros l s Hl. destruct (decide (l = m)) as [->|Hlm].
    + eexists. split; [by eapply setObject_lookup|]. split; [|done].
      rewrite Hid. unfold primaryOf.
      destruct (calculateMetadataScore e <? calculateMetadataScore n) eqn:Elt.
      * apply lookup_lt_Some in Hl. lia.
      * congruence.
    + destruct Hsafe as [_ (_ & _ & _ & _ & Hext)].
      destruct (Hext l s Hl) as (s' & Hs' & K1 & K2 & K3).
      exists s'. split; [exact Hs'|].
      destruct (Hk l s Hl) as (s9' & Hs9' & Es).
      rewrite setObject_lookup_ne in Hs' by done.
      assert (s9' = s') as -> by congruence.
      split; [exact (f_equal id Es)|]. by eapply complete_kept.
Qed.

Lemma plainKeys_seedBreakdown (sr : Series) :
  inherited (getPrefixFromId (id sr)) = false → plainKeys (seedBreakdown sr).
Proof.
  intros Hp k [v Hv]. unfold seedBreakdown in Hv.
  destruct (rating sr), (viewCount sr);
    try (by apply lookup_singleton_Some in Hv as [<- _]).
  by rewrite lookup_empty in Hv.
Qed.

(** The seeding of one record, as the aggregation needs it. *)
Lemma step_addNewSeries (log10 : Q -> Q) (series : loc) (h : heap)
    (sr : Series) :
  (∀ x, (1 <= x)%Q → (0 <= log10 x)%Q) →
  wellFormed h → plainBreakdowns h → objects h !! series = Some sr →
  inherited (getPrefixFromId (id sr)) = false →
  returns h (addNewSeries log10 series)
    (λ n h',
       n = length (objects h) ∧ plainBreakdowns h'
       ∧ (∃ sn, objects h' !! n = Some sn ∧ complete sn
                ∧ inherited (getPrefixFromId (id sn)) = false)
       ∧ ∀ l s, objects h !! l = Some s → objects h' !! l = Some s).
Proof.
  intros Hpos Hwf Hplain Hsr Hp.
  destruct (returns_addNewSeries log10 h series Hwf)
    as (n & h' & Hrun & Hsafe & _); [by eexists|].
  rewrite (run_addNewSeries log10 series h sr Hsr) in Hrun.
  injection Hrun as <- <-.
  eexists _, _. split; [by apply run_addNewSeries|]. split; [exact Hsafe|].
  split; [done|]. split; [|split].
  - intros l B HB. unfold seeded in HB. cbn [breakdowns] in HB.
    apply lookup_app_Some in HB as [HB|[_ HB]]; [by eapply Hplain|].
    apply list_lookup_singleton_Some in HB as [_ <-].
    by apply plainKeys_seedBreakdown.
  - eexists. split.
    { unfold seeded. cbn [objects]. rewrite lookup_app_r by done.
      by rewrite Nat.sub_diag. }
    split; [|exact Hp]. split; [|by repeat split; eexists].
    eexists. split; [reflexivity|].
    apply calculateAverageRating_onScale; [done|].
    by apply plainKeys_seedBreakdown.
  - intros l s Hl. unfold seeded. cbn [objects]. by apply lookup_app_l_Some.
Qed.

(** What the loop of the aggregation keeps, the records [rest] being
    those still to come. *)
Lemma step_addSeries (log10 : Q -> Q) (getTime : string -> num)
    (first : nat) (h : heap) (aggregated : list loc) (series : loc)
    (rest : list loc) :
  (∀ x, (1 <= x)%Q → (0 <= log10 x)%Q) →
  wellFormed h → plainBreakdowns h → settled first h aggregated →
  Forall (λ l, l < first ∧ is_Some (objects h !! l) ∧ plainPrefix h l)
    (series :: rest) →
  first <= length (objects h) →
  returns h (addSeries log10 getTime aggregated series)
    (λ agg' h',
       plainBreakdowns h' ∧ settled first h' agg'
       ∧ Forall (λ l, l < first ∧ is_Some (objects h' !! l) ∧ plainPrefix h' l)
           rest).
Proof.
  intros Hpos Hwf Hplain Hacc Hrest Hfl. unfold addSeries.
  apply Forall_cons in Hrest as [(Hlt & [sr Hsr] & Hpsr) Hrest].
  returns_get.
  assert (Hv : Forall (λ l, is_Some (objects h !! l)) aggregated).
  { eapply Forall_impl; [exact Hacc|]. intros l (_ & s & Hl & _). by eexists. }
  assert (Hkeep : ∀ h', (∀ l s, objects h !! l = Some s →
                          ∃ s', objects h' !! l = Some s' ∧ id s' = id s) →
            Forall (λ l, l < first ∧ is_Some (objects h' !! l)
                         ∧ plainPrefix h' l) rest).
  { intros h' Hk. eapply Forall_impl; [exact Hrest|].
    intros l (Hl & [s Hs] & Hp). split; [exact Hl|].
    destruct (Hk l s Hs) as (s' & Hs' & Eid). split; [by eexists|].
    intros s'' Hs''. assert (s'' = s') as -> by congruence.
    rewrite Eid. by apply Hp. }
  eapply returns_bind; [by apply returns_findIndex|].
  intros r h1 _ [-> Hr]. destruct r as [i|].
  - destruct (Hr i eq_refl) as [_ Hi]. rewrite Nat.sub_0_r in Hi.
    destruct (lookup_lt_is_Some_2 _ _ Hi) as [ex Hex]. rewrite Hex.
    destruct (Forall_lookup_1 _ _ _ _ Hacc Hex)
      as (Hfe & se & Hse & Hce & Hpe).
    eapply returns_bind.
    { apply (step_mergeSeries log10 getTime first ex series h se sr);
        [done|done|done|lia|done|done|done|by apply Hpsr|done|done]. }
    intros m h2 Hstep (Hfm & Hplain2 & Hm & Hk). apply returns_ret.
    split; [exact Hplain2|]. split.
    + apply Forall_insert; [|done].
      eapply Forall_impl; [exact Hacc|].
      intros l (Hl & s & Hs & Hc & Hp). split; [exact Hl|].
      destruct (Hk l s Hs) as (s' & Hs' & Eid & Hc').
      exists s'. split; [exact Hs'|]. split; [by apply Hc'|by rewrite Eid].
    + apply Hkeep. intros l s Hs.
      destruct (Hk l s Hs) as (s' & Hs' & Eid & _). eauto.
  - eapply returns_bind; [by apply (step_addNewSeries log10 series h sr);
                            [done|done|done|done|apply Hpsr]|].
    intros n h2 Hstep (-> & Hplain2 & Hn & Hk). apply returns_ret.
    split; [exact Hplain2|]. split.
    + apply Forall_app. split.
      * eapply Forall_impl; [exact Hacc|].
        intros l (Hl & s & Hs & Hc & Hp). split; [exact Hl|].
        exists s. split; [by apply Hk|done].
      * apply Forall_singleton. done.
    + apply Hkeep. intros l s Hs. exists s. split; [by apply Hk|done].
Qed.

Lemma step_addCatalog (log10 : Q -> Q) (getTime : string -> num)
    (first : nat) (catalog rest : list loc) (h : heap)
    (aggregated : list loc) :
  (∀ x, (1 <= x)%Q → (0 <= log10 x)%Q) →
  wellFormed h → plainBreakdowns h → settled first h aggregated →
  Forall (λ l, l < first ∧ is_Some (objects h !! l) ∧ plainPrefix h l)
    (catalog ++ rest)%list →
  first <= length (objects h) →
  returns h (addCatalog log10 getTime aggregated catalog)
    (λ agg' h',
       wellFormed h' ∧ plainBreakdowns h' ∧ settled first h' agg'
       ∧ Forall (λ l, l < first ∧ is_Some (objects h' !! l) ∧ plainPrefix h' l)
           rest
       ∧ first <= length (objects h')).
Proof.
  intros Hpos. revert h aggregated.
  induction catalog as [|series more IH];
    intros h aggregated Hwf Hplain Hacc Hc Hfl; simpl.
  - apply returns_ret. by repeat split.
  - eapply returns_bind.
    { by apply (step_addSeries log10 getTime first h aggregated series
                  (more ++ rest)%list). }
    intros agg' h1 Hstep (Hplain1 & Hacc1 & Hc1).
    apply IH; [by apply Hstep|done|done|done|].
    destruct Hstep as [_ (E & _)]. lia.
Qed.

Lemma step_addCatalogs (log10 : Q -> Q) (getTime : string -> num)
    (first : nat) (providerCatalogs : list (string * list loc)) (h : heap)
    (aggregated : list loc) :
  (∀ x, (1 <= x)%Q → (0 <= log10 x)%Q) →
  wellFormed h → plainBreakdowns h → settled first h aggregated →
  Forall (λ l, l < first ∧ is_Some (objects h !! l) ∧ plainPrefix h l)
    (concat (snd <$> providerCatalogs)) →
  first <= length (objects h) →
  returns h (addCatalogs log10 getTime aggregated providerCatalogs)
    (λ agg' h', wellFormed h' ∧ settled first h' agg').
Proof.
  intros Hpos. revert h aggregated.
  induction providerCatalogs as [|[provider catalog] rest IH];
    intros h aggregated Hwf Hplain Hacc Hc Hfl; cbn [addCatalogs].
  - by apply returns_ret.
  - rewrite fmap_cons in Hc. cbn [concat snd] in Hc.
    eapply returns_bind.
    { by apply (step_addCatalog log10 getTime first catalog
                  (concat (snd <$> rest))). }
    intros agg' h1 _ (Hwf1 & Hplain1 & Hacc1 & Hc1 & Hfl1).
    by apply IH.
Qed.

Lemma scraped_remaining (h : heap)
    (providerCatalogs : list (string * list loc)) :
  scraped h providerCatalogs → plainIds h providerCatalogs →
  Forall (λ l, l < length (objects h) ∧ is_Some (objects h !! l)
               ∧ plainPrefix h l)
    (concat (snd <$> providerCatalogs)).
Proof.
  unfold scraped, plainIds. intros Hs Hp. apply Forall_concat, Forall_fmap.
  rewrite Forall_forall. intros pc Hpc. simpl.
  rewrite Forall_forall in Hs, Hp.
  specialize (Hs pc Hpc). specialize (Hp pc Hpc). simpl in Hs.
  rewrite Forall_forall in Hs, Hp |- *. intros l Hl.
  split; [by apply lookup_lt_is_Some_1, Hs|]. split; [by apply Hs|by apply Hp].
Qed.

(** X25.  The aggregation of catalogs of scraped records of a well-formed
    heap returns, and every record of the catalog it returns is an object
    that the aggregation has made, none of the scraped ones, with a stored
    metadata score, a provider list, slugs, a rating breakdown, and a
    rating that is a number of the rating scale: provided that no
    breakdown of the heap has a key inherited from [Object.prototype] and
    no id of a scraped record begins with [constructor-], the logarithm
    being non-negative from [1] on. *)
Theorem aggregateCatalogs_records (log10 : Q -> Q) (getTime : string -> num)
    (localeCompare : string -> string -> Z)
    (providerCatalogs : list (string * list loc)) (h : heap) :
  (∀ x, (1 <= x)%Q → (0 <= log10 x)%Q) →
  wellFormed h → scraped h providerCatalogs →
  plainBreakdowns h → plainIds h providerCatalogs →
  ∃ out h',
    aggregateCatalogs log10 getTime localeCompare providerCatalogs h
    = Some (out, h')
    ∧ accumulated (length (objects h)) h' out.
Proof.
  intros Hpos Hwf Hs Hplain Hids.
  destruct (step_addCatalogs log10 getTime (length (objects h))
              providerCatalogs h [] Hpos Hwf Hplain)
    as (agg & h1 & Hrun & [Hwf1 _] & _ & Hacc);
    [by constructor|by apply scraped_remaining|done|].
  assert (Hv : Forall (λ l, is_Some (objects h1 !! l)) agg).
  { eapply Forall_impl; [exact Hacc|]. intros l (_ & s & Hl & _). by eexists. }
  destruct (returns_sortKeys h1 agg (Hwf1 Hwf) Hv)
    as (keyed & h2 & Hk & _ & ->).
  eexists _, h1. split.
  - unfold aggregateCatalogs, sortAggregated.
    erewrite run_bind by exact Hrun. erewrite run_bind by exact Hk.
    reflexivity.
  - apply keyed_Some in Hk as (_ & Hfst & _).
    assert (Hacc' : accumulated (length (objects h)) h1 agg).
    { eapply Forall_impl; [exact Hacc|].
      intros l (Hl & s & Hs' & Hc & _). split; [exact Hl|]. by exists s. }
    unfold accumulated. rewrite <- Hfst in Hacc'.
    eapply Permutation_Forall; [|exact Hacc'].
    symmetry. apply fmap_Permutation, stableSort_perm.
Qed.

Lemma sortHeap_scraped : scraped sortHeap [("hmm", [0; 1]); ("hse", [2])].
Proof.
  repeat (apply Forall_cons; split); try apply Forall_nil; simpl; eauto.
Qed.

Lemma sortHeap_plainIds : plainIds sortHeap [("hmm", [0; 1]); ("hse", [2])].
Proof.
  repeat (apply Forall_cons; split); try apply Forall_nil;
    first [exact I | by intros s [= <-]].
Qed.

Lemma aggregateCatalogs_records_witness :
  (∀ x, (1 <= x)%Q → (0 <= log10_sample x)%Q)
  ∧ wellFormed sortHeap
  ∧ scraped sortHeap [("hmm", [0; 1]); ("hse", [2])]
  ∧ plainBreakdowns sortHeap
  ∧ plainIds sortHeap [("hmm", [0; 1]); ("hse", [2])]
  ∧ ∃ out h',
      aggregateCatalogs log10_sample getTime_sample localeCompare_sample
        [("hmm", [0; 1]); ("hse", [2])] sortHeap = Some (out, h')
      ∧ accumulated 3 h' out.
Proof.
  assert (Hwf : wellFormed sortHeap) by (repeat constructor).
  assert (Hplain : plainBreakdowns sortHeap) by apply plainBreakdowns_none.
  split; [exact log10_sample_nonneg|]. split; [exact Hwf|].
  split; [exact sortHeap_scraped|]. split; [exact Hplain|].
  split; [exact sortHeap_plainIds|].
  exact (aggregateCatalogs_records log10_sample getTime_sample
           localeCompare_sample _ sortHeap log10_sample_nonneg Hwf
           sortHeap_scraped Hplain sortHeap_plainIds).
Defined.

Lemma addSeries_length (log10 : Q -> Q) (getTime : string -> num)
    (aggregated : list loc) (series : loc) (h : heap) (agg' : list loc)
    (h' : heap) :
  addSeries log10 getTime aggregated series h = Some (agg', h') →
  length aggregated <= length agg' ∧ length agg' <= S (length aggregated)
  ∧ 0 < length agg'.
Proof.
  unfold addSeries. intros H.
  apply bind_Some in H as (sr & ? & [Hsr ->]%getSeries_Some & H).
  apply bind_Some in H as (r & h1 & Hf & H).
  apply findIndex_Some in Hf as [-> Hf].
  destruct r as [i|].
  - destruct Hf as (ex & s & _ & Hex & _). rewrite Nat.sub_0_r in Hex.
    rewrite Hex in H.
    apply bind_Some in H as (m & h2 & _ & [E _]%ret_Some). subst agg'.
    rewrite length_insert. apply lookup_lt_Some in Hex. lia.
  - apply bind_Some in H as (n & h2 & _ & [E _]%ret_Some). subst agg'.
    rewrite length_app. simpl. lia.
Qed.

Lemma addCatalog_length (log10 : Q -> Q) (getTime : string -> num)
    (catalog : list loc) (aggregated : list loc) (h : heap)
    (agg' : list loc) (h' : heap) :
  addCatalog log10 getTime aggregated catalog h = Some (agg', h') →
  length aggregated <= length agg'
  ∧ length agg' <= length aggregated + length catalog
  ∧ (0 < length catalog → 0 < length agg').
Proof.
  revert aggregated h. induction catalog as [|series rest IH];
    intros aggregated h H; simpl in H.
  - apply ret_Some in H as [E _]. subst agg'. simpl. lia.
  - apply bind_Some in H as (agg1 & h1 & H1 & H).
    apply addSeries_length in H1. apply IH in H. simpl. lia.
Qed.

Lemma addCatalogs_length (log10 : Q -> Q) (getTime : string -> num)
    (providerCatalogs : list (string * list loc)) (aggregated : list loc)
    (h : heap) (agg' : list loc) (h' : heap) :
  addCatalogs log10 getTime aggregated providerCatalogs h = Some (agg', h') →
  length aggregated <= length agg'
  ∧ length agg'
    <= length aggregated + length (concat (snd <$> providerCatalogs))
  ∧ (0 < length (concat (snd <$> providerCatalogs)) → 0 < length agg').
Proof.
  revert aggregated h.
  induction providerCatalogs as [|[provider catalog] rest IH];
    intros aggregated h H; cbn [addCatalogs] in H.
  - apply ret_Some in H as [E _]. subst agg'. simpl. lia.
  - apply bind_Some in H as (agg1 & h1 & H1 & H).
    apply addCatalog_length in H1. apply IH in H.
    rewrite fmap_cons. cbn [concat snd]. rewrite length_app. lia.
Qed.

(** X26.  The aggregation of catalogs of scraped records of a well-formed
    heap returns a catalog with at most as many records as the catalogs
    hold together, and with one record at least when they hold one:
    every scraped record is merged into a record or added as one. *)
Theorem aggregateCatalogs_length (log10 : Q -> Q) (getTime : string -> num)
    (localeCompare : string -> string -> Z)
    (providerCatalogs : list (string * list loc)) (h : heap) :
  wellFormed h → scraped h providerCatalogs →
  ∃ out h',
    aggregateCatalogs log10 getTime localeCompare providerCatalogs h
    = Some (out, h')
    ∧ length out <= length (concat (snd <$> providerCatalogs))
    ∧ (0 < length (concat (snd <$> providerCatalogs)) → 0 < length out).
Proof.
  intros Hwf Hs.
  destruct (returns_aggregateCatalogs log10 getTime localeCompare
              providerCatalogs h Hwf Hs) as (out & h' & Hrun).
  exists out, h'. split; [exact Hrun|].
  unfold aggregateCatalogs in Hrun.
  apply bind_Some in Hrun as (agg & h1 & Hagg & Hsort).
  apply sortAggregated_Some in Hsort as [_ Hperm].
  apply addCatalogs_length in Hagg. rewrite (Permutation_length Hperm).
  simpl in Hagg. lia.
Qed.

Lemma aggregateCatalogs_length_witness :
  wellFormed sortHeap
  ∧ scraped sortHeap [("hmm", [0; 1]); ("hse", [2])]
  ∧ ∃ out h',
      aggregateCatalogs log10_sample getTime_sample localeCompare_sample
        [("hmm", [0; 1]); ("hse", [2])] sortHeap = Some (out, h')
      ∧ length out <= 3 ∧ (0 < 3 → 0 < length out).
Proof.
  assert (Hwf : wellFormed sortHeap) by (repeat constructor).
  split; [exact Hwf|]. split; [exact sortHeap_scraped|].
  exact (aggregateCatalogs_length log10_sample getTime_sample
           localeCompare_sample _ sortHeap Hwf sortHeap_scraped).
Defined.

(** ** The aggregator: scores, seeds and names *)

(** X27.  The metadata score of a record is at most [14]: five for the
    description, five for the genres, two for the poster, one for the
    year and one for the rating; a record with all of them reaches it. *)
Theorem calculateMetadataScore_bound (series : Series) :
  calculateMetadataScore series <= 14
  ∧ calculateMetadataScore fullSeries = 14.
Proof.
  split; [|by vm_compute].
  unfold calculateMetadataScore. cbv zeta.
  destruct (truthy (description series) && (20 <? strlen (description series)));
    destruct (100 <? strlen (description series));
    destruct (200 <? strlen (description series));
    destruct (genres series) as [g|];
    destruct (truthy (poster series) && (10 <? strlen (poster series)));
    destruct (truthyNum (year series));
    destruct (truthyNum (rating series)
              && num_ltb (Fin 0) (default NaN (rating series))); lia.
Qed.

Lemma toLowerCase_chars (s : string) : chars (toLowerCase s) = lower <$> chars s.
Proof. unfold toLowerCase. apply chars_str. Qed.

Lemma toLowerCase_empty (s : string) : toLowerCase s = "" → s = "".
Proof. by destruct s. Qed.

(** X29.  [isDuplicate] ignores the letter case of the names: two records
    whose names are equal up to letter case are duplicates. *)
Theorem isDuplicate_ignores_case (x y : Series) (n1 n2 : string) :
  name x = Some n1 → name y = Some n2 →
  toLowerCase n1 = toLowerCase n2 →
  normalizeName (name x) = normalizeName (name y)
  ∧ isDuplicate x y = true.
Proof.
  intros Hx Hy E.
  assert (En : normalizeName (name x) = normalizeName (name y)).
  { rewrite Hx, Hy. unfold normalizeName.
    rewrite <- !toLowerCase_chars, E.
    destruct (String.eqb_spec n1 "") as [->|H1],
             (String.eqb_spec n2 "") as [->|H2]; try done.
    symmetry in E. by apply toLowerCase_empty in E. }
  split; [exact En|]. unfold isDuplicate. by rewrite En, String.eqb_refl.
Qed.

Lemma isDuplicate_ignores_case_witness :
  toLowerCase "Alpha" = toLowerCase "alpha"
  ∧ isDuplicate (bareSeries "hmm-alpha" "Alpha" (Some ["Drama"]))
      (bareSeries "hse-alpha" "alpha" None) = true.
Proof.
  split; [reflexivity|].
  exact (proj2 (isDuplicate_ignores_case
                  (bareSeries "hmm-alpha" "Alpha" (Some ["Drama"]))
                  (bareSeries "hse-alpha" "alpha" None) "Alpha" "alpha"
                  eq_refl eq_refl eq_refl)).
Defined.

(** ** The aggregator: the providers of a merged record *)

#[local] Instance providersGrow_preorder : PreOrder providersGrow.
Proof.
  split.
  - intros h. split; [|eauto]. intros l A HA. by exists A.
  - intros h1 h2 h3 [Ha12 Ho12] [Ha23 Ho23]. split.
    + intros l A HA. destruct (Ha12 l A HA) as (A2 & HA2 & Hsub).
      destruct (Ha23 l A2 HA2) as (A3 & HA3 & Hsub'). exists A3.
      split; [done|]. by etrans.
    + intros l s la Hs Hla.
      destruct (Ho12 l s la Hs Hla) as (s2 & Hs2 & Hla2). eauto.
Qed.

Lemma providersGrow_objects (h : heap) (obj : loc) (s : Series)
    (f : Series -> Series) (arrays' : list (list string))
    (slugs' : list (gmap string string))
    (breakdowns' : list (gmap string bdval)) :
  objects h !! obj = Some s →
  (∀ la, providers s = Some la → providers (f s) = Some la) →
  (∀ l A, arrays h !! l = Some A → ∃ A', arrays' !! l = Some A' ∧ A ⊆ A') →
  providersGrow h
    (mkHeap (<[obj := f s]> (objects h)) arrays' slugs' breakdowns').
Proof.
  intros Hobj Hf Hm. split; [done|]. intros l s0 la Hs0 Hla. simpl.
  destruct (lookup_modified _ _ _ f _ _ Hobj Hs0)
    as (s' & Hs' & [(-> & -> & ->)|[_ ->]]); eauto.
Qed.

Lemma providersGrow_stores (h : heap) (arrays' : list (list string))
    (slugs' : list (gmap string string))
    (breakdowns' : list (gmap string bdval)) :
  (∀ l A, arrays h !! l = Some A → ∃ A', arrays' !! l = Some A' ∧ A ⊆ A') →
  providersGrow h (mkHeap (objects h) arrays' slugs' breakdowns').
Proof. intros Hm. split; [done|]. simpl. eauto. Qed.

Lemma grow_same (arr : list (list string)) (l : loc) (A : list string) :
  arr !! l = Some A → ∃ A', arr !! l = Some A' ∧ A ⊆ A'.
Proof. intros H. by exists A. Qed.

Lemma grow_app (arr more : list (list string)) (l : loc) (A : list string) :
  arr !! l = Some A → ∃ A', (arr ++ more)%list !! l = Some A' ∧ A ⊆ A'.
Proof. intros H. exists A. split; [by apply lookup_app_l_Some|done]. Qed.

Lemma grow_insert (arr : list (list string)) (lp : loc) (cur : list string)
    (p : string) (l : loc) (A : list string) :
  arr !! lp = Some cur → arr !! l = Some A →
  ∃ A', <[lp := (cur ++ [p])%list]> arr !! l = Some A' ∧ A ⊆ A'.
Proof.
  intros Hlp Hl. destruct (decide (l = lp)) as [->|Hne].
  - exists (cur ++ [p])%list. split.
    + apply list_lookup_insert_eq. by eapply lookup_lt_Some.
    + assert (A = cur) as -> by congruence. set_solver.
  - exists A. split; [|done]. by rewrite list_lookup_insert_ne.
Qed.

Ltac grow_close :=
  first
    [ reflexivity
    | apply providersGrow_objects;
        [eassumption | cbn; congruence
        | first [ exact (grow_same _) | intros ? ?; apply grow_app ] ]
    | apply providersGrow_stores;
        first [ exact (grow_same _) | intros ? ?; apply grow_app
              | intros ? ?; eapply grow_insert; eassumption ] ].

Ltac grow_unit lem :=
  let H := fresh "H" in
  intros ? ? ? H; apply lem in H; destruct_and?; destruct_or?;
  repeat match goal with H : ∃ _, _ |- _ => destruct H end;
  destruct_and?; destruct_or?; destruct_and?; subst; grow_close.

Ltac grow_prim :=
  idtac;
  lazymatch goal with
  | |- preserves _ (ensureProviders _ _) => grow_unit ensureProviders_Some
  | |- preserves _ (ensureSlugs _ _) => grow_unit ensureSlugs_Some
  | |- preserves _ (ensureBreakdown _) => grow_unit ensureBreakdown_Some
  | |- preserves _ (pushProvider _ _) => grow_unit pushProvider_Some
  | |- preserves _ (assignSlugs _ _) => grow_unit assignSlugs_Some
  | |- preserves _ (putSlug _ _ _) => grow_unit putSlug_Some
  | |- preserves _ (assignBreakdown _ _) => grow_unit assignBreakdown_Some
  | |- preserves _ (putEntry _ _ _) => grow_unit putEntry_Some
  | |- preserves _ (newObject _) =>
      intros ? ? ? [_ ->]%newObject_Some; split;
        [exact (grow_same _)
        |intros ? ? ? ? ?; eexists; split; [by apply lookup_app_l_Some|done]]
  | |- preserves _ (modSeries _ _) =>
      apply stable_modSeries; intros ? ? ?; grow_close
  end.

Lemma providersGrow_mergeSeries (log10 : Q -> Q) (getTime : string -> num)
    (existing newSeries : loc) :
  preserves providersGrow (mergeSeries log10 getTime existing newSeries).
Proof. unfold_phases. preserves_with grow_prim. Qed.

Lemma hasProvider_grow (l : loc) (x : string) (h h' : heap) :
  providersGrow h h' → hasProvider l x h → hasProvider l x h'.
Proof.
  intros [Ha Ho] (s & la & A & Hs & Hla & HA & Hx).
  destruct (Ho l s la Hs Hla) as (s' & Hs' & Hla').
  destruct (Ha la A HA) as (A' & HA' & Hsub).
  exists s', la, A'. repeat split; try done. by apply Hsub.
Qed.

Section ProvidersOfPhases.
Context (log10 : Q -> Q) (getTime : string -> num).
Context (primary other : loc) (prefix : string).

Lemma providersGrow_choosePrimary :
  preserves providersGrow (choosePrimary primary other).
Proof. unfold_phases. preserves_with grow_prim. Qed.

Lemma providersGrow_initPrimary :
  preserves providersGrow (initPrimary primary prefix).
Proof. unfold_phases. preserves_with grow_prim. Qed.

Lemma providersGrow_copyProviders :
  preserves providersGrow (copyProviders other primary).
Proof. unfold_phases. preserves_with grow_prim. Qed.

Lemma providersGrow_copySlugs :
  preserves providersGrow (copySlugs other primary).
Proof. unfold_phases. preserves_with grow_prim. Qed.

Lemma providersGrow_copyBreakdown :
  preserves providersGrow (copyBreakdown other primary).
Proof. unfold_phases. preserves_with grow_prim. Qed.

Lemma providersGrow_addPrimaryRatings :
  preserves providersGrow (addPrimaryRatings primary prefix).
Proof. unfold_phases. preserves_with grow_prim. Qed.

Lemma providersGrow_addSecondaryRatings :
  preserves providersGrow (addSecondaryRatings primary prefix).
Proof. unfold_phases. preserves_with grow_prim. Qed.

Lemma providersGrow_mergeProviderData :
  preserves providersGrow (mergeProviderData primary other prefix).
Proof. unfold_phases. preserves_with grow_prim. Qed.

Lemma providersGrow_mergeMetadata :
  preserves providersGrow (mergeMetadata log10 getTime primary other).
Proof. unfold mergeMetadata. unfold_phases. preserves_with grow_prim. Qed.

Lemma providersGrow_forEach (ps : list string) :
  preserves providersGrow (forEach ps (pushProvider primary)).
Proof. preserves_with grow_prim. Qed.

End ProvidersOfPhases.

Lemma pushProvider_has (primary : loc) (x : string) (h h' : heap) :
  pushProvider primary x h = Some (tt, h') → hasProvider primary x h'.
Proof.
  intros (s & lp & cur & Hs & Hlp & Hcur & [[Hin ->]|[_ ->]])%pushProvider_Some.
  - by exists s, lp, cur.
  - exists s, lp, (cur ++ [x])%list. simpl. split; [done|]. split; [done|].
    split; [|set_solver].
    apply list_lookup_insert_eq. by eapply lookup_lt_Some.
Qed.

Lemma forEach_pushProvider_has (primary : loc) (ps : list string)
    (h h' : heap) (x : string) :
  forEach ps (pushProvider primary) h = Some (tt, h') →
  x ∈ ps → hasProvider primary x h'.
Proof.
  revert h. induction ps as [|y ps IH]; intros h H Hx; simpl in H.
  { by apply elem_of_nil in Hx. }
  apply bind_Some in H as ([] & h1 & Hpush & H).
  apply elem_of_cons in Hx as [->|Hx]; [|exact (IH _ H Hx)].
  eapply hasProvider_grow; [exact (providersGrow_forEach primary ps _ _ _ H)|].
  exact (pushProvider_has _ _ _ _ Hpush).
Qed.

Lemma copyProviders_has (primary other : loc) (h h' : heap) (e : Series)
    (le : loc) (Ae : list string) (x : string) :
  copyProviders other primary h = Some (tt, h') →
  objects h !! other = Some e → providers e = Some le →
  arrays h !! le = Some Ae → x ∈ Ae → hasProvider primary x h'.
Proof.
  unfold copyProviders. intros H He Hle HA Hx.
  apply bind_Some in H as (e' & ? & [He' ->]%getSeries_Some & H).
  assert (e' = e) as -> by congruence. rewrite Hle in H.
  apply bind_Some in H as (ps & ? & [Hps ->]%getArray_Some & H).
  assert (ps = Ae) as -> by congruence.
  by eapply forEach_pushProvider_has.
Qed.

Lemma initPrimary_has (primary : loc) (prefix : string) (h h' : heap)
    (p : Series) :
  initPrimary primary prefix h = Some (tt, h') →
  objects h !! primary = Some p → providers p = None →
  hasProvider primary prefix h'.
Proof.
  unfold initPrimary. intros H Hp Hnone.
  apply bind_Some in H as ([] & h1 & H1 & H).
  assert (Hhas : hasProvider primary prefix h1).
  { apply ensureProviders_Some in H1 as (s & Hs & [[Hsome _]|[_ ->]]).
    - assert (s = p) as -> by congruence. rewrite Hnone in Hsome.
      by destruct Hsome.
    - eexists _, (length (arrays h)), [prefix]. simpl.
      split; [apply list_lookup_insert_eq; by eapply lookup_lt_Some|].
      split; [done|]. split; [|set_solver].
      rewrite lookup_app_r by done. by rewrite Nat.sub_diag. }
  eapply hasProvider_grow; [|exact Hhas].
  match type of H with
  | ?rest h1 = _ =>
      assert (Hg : preserves providersGrow rest)
        by (unfold_phases; preserves_with grow_prim);
      exact (Hg _ _ _ H)
  end.
Qed.


(** The providers of the record that a merge leaves. *)
Lemma providers_of_run (log10 : Q -> Q) (getTime : string -> num)
    (existing newSeries : loc) (h : heap) (m : loc) (h' : heap) (e n : Series) :
  mergeSeries log10 getTime existing newSeries h = Some (m, h') →
  objects h !! existing = Some e → objects h !! newSeries = Some n →
  hasProvider m (getPrefixFromId (id (secondaryOf e n))) h'
  ∧ (∀ le Ae x, providers e = Some le → arrays h !! le = Some Ae → x ∈ Ae →
                hasProvider m x h')
  ∧ (providers (primaryOf e n) = None →
     hasProvider m (getPrefixFromId (id (primaryOf e n))) h').
Proof.
  intros Hrun He Hn.
  apply mergeSeries_phases in Hrun
    as (secondary & p & s & h1 & h2 & h3 & h4 & h5 & h6 & h7 & h8 & h9
        & Hc & Hp1 & Hs1 & H2 & H3 & H4 & H5 & H6 & H7 & H8 & H9 & H10).
  destruct (choosePrimary_records _ _ _ _ _ _ _ _ Hc He Hn)
    as (Hp & Hs & _ & _ & _ & _ & _).
  assert (p = primaryOf e n) as -> by (unfold primaryOf; congruence).
  assert (s = secondaryOf e n) as -> by (unfold secondaryOf; congruence).
  pose proof (providersGrow_choosePrimary existing newSeries _ _ _ Hc) as G1.
  pose proof (providersGrow_initPrimary m _ _ _ _ H2) as G2.
  pose proof (providersGrow_copyProviders m existing _ _ _ H3) as G3.
  pose proof (providersGrow_copySlugs m existing _ _ _ H4) as G4.
  pose proof (providersGrow_copyBreakdown m existing _ _ _ H5) as G5.
  pose proof (providersGrow_addPrimaryRatings m _ _ _ _ H6) as G6.
  pose proof (providersGrow_addSecondaryRatings secondary _ _ _ _ H7) as G7.
  pose proof (providersGrow_copyBreakdown m secondary _ _ _ H8) as G8.
  pose proof (providersGrow_mergeProviderData m secondary _ _ _ _ H9) as G9.
  pose proof (providersGrow_mergeMetadata log10 getTime m secondary _ _ _ H10)
    as G10.
  split; [|split].
  - eapply hasProvider_grow; [exact G10|].
    unfold mergeProviderData in H9.
    apply bind_Some in H9 as ([] & h8a & Hpush & H9).
    eapply hasProvider_grow; [|eapply pushProvider_has; exact Hpush].
    match type of H9 with
    | ?rest h8a = _ =>
        assert (Hg : preserves providersGrow rest)
          by (unfold_phases; preserves_with grow_prim);
        exact (Hg _ _ _ H9)
    end.
  - intros le Ae x Hle HA Hx.
    assert (G12 : providersGrow h h2) by (by etrans).
    destruct G12 as [Ga Go].
    destruct (Go existing e le He Hle) as (e2 & He2 & Hle2).
    destruct (Ga le Ae HA) as (Ae2 & HA2 & Hsub).
    assert (Hhas : hasProvider m x h3)
      by (eapply copyProviders_has; eauto).
    eapply hasProvider_grow; [|exact Hhas].
    repeat (etrans; [eassumption|]). done.
  - intros Hnone.
    assert (Hhas : hasProvider m (getPrefixFromId (id (primaryOf e n))) h2)
      by (by eapply initPrimary_has).
    eapply hasProvider_grow; [|exact Hhas].
    repeat (etrans; [eassumption|]). done.
Qed.

(** X30.  A merge of two objects of a well-formed heap loses no provider:
    the provider list of the record it returns holds the prefix of the
    record taken as secondary and every provider that the existing record
    had; and it holds the prefix of the primary where the primary came
    without a provider list. *)
Theorem mergeSeries_providers (log10 : Q -> Q) (getTime : string -> num)
    (existing newSeries : loc) (h : heap) (e n : Series) :
  wellFormed h →
  objects h !! existing = Some e → objects h !! newSeries = Some n →
  ∃ m h',
    mergeSeries log10 getTime existing newSeries h = Some (m, h')
    ∧ hasProvider m (getPrefixFromId (id (secondaryOf e n))) h'
    ∧ (∀ le Ae x, providers e = Some le → arrays h !! le = Some Ae → x ∈ Ae →
                  hasProvider m x h')
    ∧ (providers (primaryOf e n) = None →
       hasProvider m (getPrefixFromId (id (primaryOf e n))) h').
Proof.
  intros Hwf He Hn.
  destruct (returns_mergeSeries log10 getTime h existing newSeries Hwf)
    as (m & h' & Hrun & _ & _); [eauto..|].
  exists m, h'. split; [exact Hrun|].
  by eapply providers_of_run.
Qed.

Lemma mergeSeries_providers_witness :
  wellFormed unratedHeap
  ∧ ∃ m h',
      mergeSeries log10_sample getTime_sample 0 1 unratedHeap = Some (m, h')
      ∧ hasProvider m "hse" h' ∧ hasProvider m "hmm" h'.
Proof.
  assert (Hwf : wellFormed unratedHeap) by (repeat constructor).
  split; [exact Hwf|].
  destruct (mergeSeries_providers log10_sample getTime_sample 0 1 unratedHeap
              unratedQux viewedQux Hwf eq_refl eq_refl)
    as (m & h' & Hrun & Hsec & _ & Hprim).
  exists m, h'. split; [exact Hrun|]. split; [exact Hsec|]. by apply Hprim.
Defined.

(** ** The aggregator: records whose name normalises to the empty string *)

#[local] Instance scrapedKept_preorder (l : loc) : PreOrder (scrapedKept l).
Proof.
  split.
  - intros h s Hs. by exists s.
  - intros h1 h2 h3 H12 H23 s Hs.
    destruct (H12 s Hs) as (s2 & Hs2 & I2 & N2 & P2).
    destruct (H23 s2 Hs2) as (s3 & Hs3 & I3 & N3 & P3).
    exists s3. split; [exact Hs3|]. split; [|split]; congruence.
Qed.

Lemma scrapedKept_same (l : loc) (h h' : heap) :
  objects h' = objects h → scrapedKept l h h'.
Proof. intros E s Hs. exists s. by rewrite E. Qed.

Lemma scrapedKept_app (l : loc) (h h' : heap) (x : Series) :
  objects h' = (objects h ++ [x])%list → scrapedKept l h h'.
Proof.
  intros E s Hs. exists s. rewrite E. split; [by apply lookup_app_l_Some|done].
Qed.

Lemma scrapedKept_other (l obj : loc) (h : heap) (s' : Series)
    (a : list (list string)) (sl : list (gmap string string))
    (b : list (gmap string bdval)) :
  obj ≠ l → scrapedKept l h (mkHeap (<[obj := s']> (objects h)) a sl b).
Proof.
  intros Hne s Hs. exists s. simpl. by rewrite list_lookup_insert_ne.
Qed.

Lemma scrapedKept_written (l obj : loc) (h : heap) (s s' : Series)
    (a : list (list string)) (sl : list (gmap string string))
    (b : list (gmap string bdval)) :
  objects h !! obj = Some s →
  id s' = id s → name s' = name s → providers s' = providers s →
  scrapedKept l h (mkHeap (<[obj := s']> (objects h)) a sl b).
Proof.
  intros Hobj Ei En Ep s0 Hs0. simpl. destruct (decide (obj = l)) as [->|Hne].
  - exists s'. rewrite list_lookup_insert_eq by (by eapply lookup_lt_Some).
    assert (s0 = s) as -> by congruence. done.
  - exists s0. by rewrite list_lookup_insert_ne.
Qed.

Ltac scraped_unit lem :=
  let H := fresh "H" in
  intros ? ? ? H; apply lem in H;
  repeat match goal with
         | H : ∃ _, _ |- _ => destruct H
         | H : _ ∧ _ |- _ => destruct H
         | H : _ ∨ _ |- _ => destruct H
         end;
  subst;
  first [ reflexivity | by apply scrapedKept_same | by eapply scrapedKept_app
        | by eapply scrapedKept_written | by apply scrapedKept_other ].

Section ScrapedKept.
Context (log10 : Q -> Q) (getTime : string -> num).
Context (primary l : loc) (Hne : primary ≠ l).

Lemma scrapedKept_ensureProviders (prefix : string) :
  preserves (scrapedKept l) (ensureProviders primary prefix).
Proof. scraped_unit ensureProviders_Some. Qed.

Lemma scrapedKept_modSeries (f : Series -> Series) :
  preserves (scrapedKept l) (modSeries primary f).
Proof. scraped_unit modSeries_Some. Qed.

Ltac scraped_prim :=
  idtac;
  lazymatch goal with
  | |- preserves _ (ensureProviders _ _) => apply scrapedKept_ensureProviders
  | |- preserves _ (modSeries _ _) => apply scrapedKept_modSeries
  | |- preserves _ (ensureSlugs _ _) => scraped_unit ensureSlugs_Some
  | |- preserves _ (ensureBreakdown _) => scraped_unit ensureBreakdown_Some
  | |- preserves _ (pushProvider _ _) => scraped_unit pushProvider_Some
  | |- preserves _ (assignSlugs _ _) => scraped_unit assignSlugs_Some
  | |- preserves _ (putSlug _ _ _) => scraped_unit putSlug_Some
  | |- preserves _ (assignBreakdown _ _) => scraped_unit assignBreakdown_Some
  | |- preserves _ (putEntry _ _ _) => scraped_unit putEntry_Some
  | |- preserves _ (newObject _) => scraped_unit newObject_Some
  end.

Lemma scrapedKept_choosePrimary (existing newSeries : loc) :
  preserves (scrapedKept l) (choosePrimary existing newSeries).
Proof. unfold_phases. preserves_with scraped_prim. Qed.

Lemma scrapedKept_initPrimary (prefix : string) :
  preserves (scrapedKept l) (initPrimary primary prefix).
Proof. unfold_phases. preserves_with scraped_prim. Qed.

Lemma scrapedKept_copyProviders (existing : loc) :
  preserves (scrapedKept l) (copyProviders existing primary).
Proof. unfold_phases. preserves_with scraped_prim. Qed.

Lemma scrapedKept_copySlugs (existing : loc) :
  preserves (scrapedKept l) (copySlugs existing primary).
Proof. unfold_phases. preserves_with scraped_prim. Qed.

Lemma scrapedKept_copyBreakdown (src : loc) :
  preserves (scrapedKept l) (copyBreakdown src primary).
Proof. unfold_phases. preserves_with scraped_prim. Qed.

Lemma scrapedKept_addPrimaryRatings (prefix : string) :
  preserves (scrapedKept l) (addPrimaryRatings primary prefix).
Proof. unfold_phases. preserves_with scraped_prim. Qed.

Lemma scrapedKept_addSecondaryRatings (secondary : loc) (prefix : string) :
  preserves (scrapedKept l) (addSecondaryRatings secondary prefix).
Proof. unfold_phases. preserves_with scraped_prim. Qed.

Lemma scrapedKept_mergeProviderData (secondary : loc) (prefix : string) :
  preserves (scrapedKept l) (mergeProviderData primary secondary prefix).
Proof. unfold_phases. preserves_with scraped_prim. Qed.

Lemma scrapedKept_mergeMetadata (secondary : loc) :
  preserves (scrapedKept l) (mergeMetadata log10 getTime primary secondary).
Proof. unfold mergeMetadata. unfold_phases. preserves_with scraped_prim. Qed.

End ScrapedKept.

(** A merge leaves to every record but the one it returns its id, its
    name and its provider list. *)
Lemma scrapedKept_mergeSeries (log10 : Q -> Q) (getTime : string -> num)
    (existing newSeries : loc) (h : heap) (m : loc) (h' : heap) (l : loc) :
  mergeSeries log10 getTime existing newSeries h = Some (m, h') →
  m ≠ l → scrapedKept l h h'.
Proof.
  intros Hrun Hml.
  apply mergeSeries_phases in Hrun
    as (secondary & p & s & h1 & h2 & h3 & h4 & h5 & h6 & h7 & h8 & h9
        & Hc & Hp1 & Hs1 & H2 & H3 & H4 & H5 & H6 & H7 & H8 & H9 & H10).
  transitivity h1; [exact (scrapedKept_choosePrimary l _ _ _ _ _ Hc)|].
  transitivity h2; [exact (scrapedKept_initPrimary m l Hml _ _ _ _ H2)|].
  transitivity h3; [exact (scrapedKept_copyProviders m l _ _ _ _ H3)|].
  transitivity h4; [exact (scrapedKept_copySlugs m l _ _ _ _ H4)|].
  transitivity h5; [exact (scrapedKept_copyBreakdown m l _ _ _ _ H5)|].
  transitivity h6; [exact (scrapedKept_addPrimaryRatings m l _ _ _ _ H6)|].
  transitivity h7; [exact (scrapedKept_addSecondaryRatings l _ _ _ _ _ H7)|].
  transitivity h8; [exact (scrapedKept_copyBreakdown m l _ _ _ _ H8)|].
  transitivity h9; [exact (scrapedKept_mergeProviderData m l _ _ _ _ _ H9)|].
  exact (scrapedKept_mergeMetadata log10 getTime m l Hml _ _ _ _ H10).
Qed.

(** What every step of the loop keeps holds at its end: [P h aggregated
    rest] speaks of the heap, the accumulated records and the records
    still to come. *)
Section LoopInvariant.
Context (log10 : Q -> Q) (getTime : string -> num).
Context (P : heap -> list loc -> list loc -> Prop).
Context (Hstep : ∀ h aggregated series rest aggregated' h',
  P h aggregated (series :: rest) →
  addSeries log10 getTime aggregated series h = Some (aggregated', h') →
  P h' aggregated' rest).

Lemma addCatalog_invariant (catalog rest : list loc) (h : heap)
    (aggregated aggregated' : list loc) (h' : heap) :
  P h aggregated (catalog ++ rest)%list →
  addCatalog log10 getTime aggregated catalog h = Some (aggregated', h') →
  P h' aggregated' rest.
Proof.
  revert h aggregated. induction catalog as [|series more IH];
    intros h aggregated HP H; simpl in H.
  - by apply ret_Some in H as [-> ->].
  - apply bind_Some in H as (agg1 & h1 & H1 & H).
    eapply IH; [|exact H]. by eapply Hstep.
Qed.

Lemma addCatalogs_invariant (providerCatalogs : list (string * list loc))
    (h : heap) (aggregated aggregated' : list loc) (h' : heap) :
  P h aggregated (concat (snd <$> providerCatalogs)) →
  addCatalogs log10 getTime aggregated providerCatalogs h
  = Some (aggregated', h') →
  P h' aggregated' [].
Proof.
  revert h aggregated.
  induction providerCatalogs as [|[provider catalog] more IH];
    intros h aggregated HP H; cbn [addCatalogs] in H.
  - by apply ret_Some in H as [-> ->].
  - apply bind_Some in H as (agg1 & h1 & H1 & H).
    rewrite fmap_cons in HP. cbn [concat snd] in HP.
    eapply IH; [|exact H]. by eapply addCatalog_invariant.
Qed.

End LoopInvariant.

Lemma countEmpty_cons (h : heap) (l : loc) (t : list loc) :
  countEmpty h (l :: t)
  = (if emptyName h l then 1 else 0) + countEmpty h t.
Proof.
  unfold countEmpty. rewrite filter_cons.
  destruct (emptyName h l); by case_decide.
Qed.

Lemma countEmpty_elem (h : heap) (aggregated : list loc) (m : loc) :
  m ∈ aggregated → emptyName h m = true → 0 < countEmpty h aggregated.
Proof.
  induction aggregated as [|l t IH]; intros Hm He.
  - by apply elem_of_nil in Hm.
  - rewrite countEmpty_cons. apply elem_of_cons in Hm as [<-|Hm].
    + rewrite He. lia.
    + specialize (IH Hm He). lia.
Qed.

Lemma countEmpty_positive (h : heap) (aggregated : list loc) :
  0 < countEmpty h aggregated → ∃ m, m ∈ aggregated ∧ emptyName h m = true.
Proof.
  induction aggregated as [|l t IH]; [unfold countEmpty; simpl; lia|].
  rewrite countEmpty_cons. destruct (emptyName h l) eqn:El.
  - intros _. exists l. split; [apply list_elem_of_here|done].
  - intros Hc. destruct IH as (m & Hm & He); [lia|].
    exists m. split; [by apply list_elem_of_further|done].
Qed.

(** Two places of the accumulator with such a name count twice. *)
Lemma countEmpty_two (h : heap) (aggregated : list loc) (i j : nat)
    (a b : loc) :
  i ≠ j → aggregated !! i = Some a → aggregated !! j = Some b →
  emptyName h a = true → emptyName h b = true →
  2 <= countEmpty h aggregated.
Proof.
  revert i j. induction aggregated as [|l t IH]; intros i j Hij Ha Hb Ea Eb.
  - by rewrite lookup_nil in Ha.
  - rewrite countEmpty_cons. destruct i as [|i], j as [|j]; [done| | |].
    + injection Ha as ->. rewrite Ea. simpl in Hb.
      assert (0 < countEmpty h t); [|lia].
      eapply countEmpty_elem; [by eapply list_elem_of_lookup_2|done].
    + injection Hb as ->. rewrite Eb. simpl in Ha.
      assert (0 < countEmpty h t); [|lia].
      eapply countEmpty_elem; [by eapply list_elem_of_lookup_2|done].
    + simpl in Ha, Hb. assert (i ≠ j) by lia.
      specialize (IH i j H Ha Hb Ea Eb). lia.
Qed.

Lemma providersGrow_seeded (log10 : Q -> Q) (sr : Series) (h : heap) :
  providersGrow h (seeded log10 sr h).
Proof.
  split.
  - intros l A HA. exists A. split; [|done]. unfold seeded. simpl.
    by apply lookup_app_l_Some.
  - intros l s la Hs Hla. exists s. split; [|done]. unfold seeded. simpl.
    by apply lookup_app_l_Some.
Qed.

Lemma emptyName_record (h : heap) (l : loc) (s : Series) :
  objects h !! l = Some s →
  emptyName h l = true ↔ normalizeName (name s) = "".
Proof.
  intros Hs. unfold emptyName. rewrite Hs. apply String.eqb_eq.
Qed.

(** One step of the loop keeps [collapsing]. *)
Lemma collapsing_addSeries (log10 : Q -> Q) (getTime : string -> num)
    (first : nat) (h0 h : heap) (aggregated seen : list loc) (series : loc)
    (aggregated' : list loc) (h' : heap) :
  collapsing first h0 h aggregated seen →
  series < first →
  (∃ s0, objects h0 !! series = Some s0 ∧ providers s0 = None) →
  addSeries log10 getTime aggregated series h = Some (aggregated', h') →
  collapsing first h0 h' aggregated' (seen ++ [series])%list.
Proof.
  intros (Hwf & Hfl & Hagg & Hcount & Hkept & Hseen & Hlisted) Hlt
    (sr0 & Hsr0 & Hnone) Hrun.
  destruct (Hkept series sr0 Hlt Hsr0) as (sr & Hsr & Eid & Ename & Eprov).
  assert (Hvalid : Forall (λ l, is_Some (objects h !! l)) aggregated).
  { eapply Forall_impl; [exact Hagg|]. by intros l [_ Hl]. }
  destruct (addSeries_countEmpty log10 getTime aggregated series h aggregated'
              h' Hrun Hvalid Hcount) as (Hid & Hvalid' & Hcnt).
  assert (Esr : emptyName h series = true ↔ normalizeName (name sr0) = "").
  { rewrite <- Ename. by apply emptyName_record. }
  assert (Hsafe : safeStep h h').
  { destruct (returns_addSeries log10 getTime h aggregated series Hwf Hvalid)
      as (a & hh & Hr & Hs & _); [by eexists|].
    rewrite Hrun in Hr. by injection Hr as <- <-. }
  destruct Hsafe as [Hwf' Hext].
  assert (Hfl' : first <= length (objects h'))
    by (destruct Hext as (E & _); lia).
  assert (Hcount' : countEmpty h' aggregated' <= 1).
  { rewrite Hcnt. by destruct (emptyName h series). }
  assert (Hseen' : ∀ l s, l ∈ (seen ++ [series])%list →
            objects h0 !! l = Some s → normalizeName (name s) = "" →
            0 < countEmpty h' aggregated').
  { intros l s Hl Hs Hse. rewrite Hcnt.
    destruct (emptyName h series) eqn:Ee; [lia|].
    apply elem_of_app in Hl as [Hl|Hl]; [by eapply Hseen|].
    apply list_elem_of_singleton in Hl as ->.
    assert (s = sr0) as -> by congruence.
    apply Esr in Hse. congruence. }
  assert (Hold : ∀ l s, l ∈ (seen ++ [series])%list →
            objects h0 !! l = Some s → normalizeName (name s) = "" →
            normalizeName (name sr) ≠ "" → l ∈ seen).
  { intros l s Hl Hs Hse Hne.
    apply elem_of_app in Hl as [Hl|Hl]; [done|].
    apply list_elem_of_singleton in Hl as ->.
    assert (s = sr0) as -> by congruence. by rewrite Ename in Hne. }
  unfold addSeries in Hrun.
  apply bind_Some in Hrun as (sr' & ? & [Hsr' ->]%getSeries_Some & Hrun).
  assert (sr' = sr) as -> by congruence.
  apply bind_Some in Hrun as (r & h1 & Hfind & Hrun).
  apply findIndex_Some in Hfind as [-> Hfind].
  destruct r as [i|].
  - (* the record is merged into the entry at [i] *)
    destruct Hfind as (ex & e & _ & Hex & He & Hdup).
    rewrite Nat.sub_0_r in Hex. rewrite Hex in Hrun.
    apply bind_Some in Hrun as (m & h2 & Hmerge & [Eagg Eh]%ret_Some).
    subst aggregated' h2.
    destruct (Forall_lookup_1 _ _ _ _ Hagg Hex) as [Hfe _].
    assert (Hi : i < length aggregated) by (by eapply lookup_lt_Some).
    assert (Hfm : first <= m).
    { pose proof Hmerge as Hph.
      apply mergeSeries_phases in Hph as (secondary & p & s & h1 & ? & ? & ? & ?
        & ? & ? & ? & ? & Hc & _).
      apply choosePrimary_Some in Hc
        as (? & ? & _ & _ & [(_ & -> & _)|(_ & -> & _)]); lia. }
    pose proof (providers_of_run log10 getTime ex series h m h' e sr Hmerge
                  He Hsr) as (P1 & P2 & P3).
    pose proof (providersGrow_mergeSeries log10 getTime ex series _ _ _ Hmerge)
      as Hgrow.
    pose proof Hmerge as Hnm. apply mergeSeries_name in Hnm
      as (_ & e' & n' & sm & He' & Hn' & Hsm & Hname).
    assert (e' = e) as -> by congruence. assert (n' = sr) as -> by congruence.
    pose proof (isDuplicate_empty_iff _ _ Hdup) as Hiff.
    split; [by apply Hwf'|]. split; [exact Hfl'|].
    split; [|split; [exact Hcount'|split; [|split; [exact Hseen'|]]]].
    + (* the accumulated records *)
      apply Forall_insert; [|split; [exact Hfm|by eexists]].
      rewrite Forall_forall in Hagg, Hvalid |- *. intros l Hl.
      split; [by apply Hagg|]. destruct (Hvalid l Hl) as [s Hs].
      destruct (Hid l s Hs) as (s' & Hs' & _). by eexists.
    + (* the records of the scrapers *)
      intros l s0 Hl Hs0. destruct (Hkept l s0 Hl Hs0) as (s & Hs & I & N & P).
      assert (Hml : m ≠ l) by lia.
      destruct (scrapedKept_mergeSeries log10 getTime ex series h m h' l
                  Hmerge Hml s Hs) as (s' & Hs' & I' & N' & P').
      exists s'. split; [exact Hs'|]. split; [|split]; congruence.
    + (* the providers of the entry with an empty name *)
      intros m' l s Hm' Hem' Hl Hs Hse.
      apply list_elem_of_lookup in Hm' as [j Hj].
      destruct (decide (j = i)) as [->|Hji].
      * rewrite list_lookup_insert_eq in Hj by done. injection Hj as <-.
        destruct (decide (normalizeName (name sr) = "")) as [Hsre|Hsrne].
        -- assert (Hee : emptyName h ex = true)
             by (apply (emptyName_record h ex e He); by apply Hiff).
           apply elem_of_app in Hl as [Hl|Hl].
           ++ destruct (Hlisted ex l s) as (se & la & A & Hse' & Hla & HA & Hx);
                [by eapply list_elem_of_lookup_2|done..|].
              assert (se = e) as -> by congruence.
              by eapply P2.
           ++ apply list_elem_of_singleton in Hl as ->.
              assert (s = sr0) as -> by congruence. rewrite <- Eid.
              unfold primaryOf, secondaryOf in P1, P3.
              destruct (calculateMetadataScore e <? calculateMetadataScore sr).
              ** apply P3. by rewrite Eprov.
              ** exact P1.
        -- exfalso. apply (emptyName_record h' m sm Hsm) in Hem'.
           destruct Hname as [E|E]; rewrite E in Hem'; [|done].
           by apply Hsrne, Hiff.
      * rewrite list_lookup_insert_ne in Hj by done.
        assert (Hv : is_Some (objects h !! m')).
        { rewrite Forall_forall in Hvalid. apply Hvalid.
          by eapply list_elem_of_lookup_2. }
        assert (Hem : emptyName h m' = true)
          by (by rewrite <- (emptyName_kept h h' m' Hid Hv)).
        destruct (decide (normalizeName (name sr) = "")) as [Hsre|Hsrne].
        -- exfalso.
           assert (Hee : emptyName h ex = true)
             by (apply (emptyName_record h ex e He); by apply Hiff).
           pose proof (countEmpty_two h aggregated j i m' ex Hji Hj Hex Hem Hee).
           lia.
        -- eapply hasProvider_grow; [exact Hgrow|].
           eapply Hlisted; [by eapply list_elem_of_lookup_2|done| |done|done].
           by eapply Hold.
  - (* the record becomes a new entry *)
    apply bind_Some in Hrun as (n & h2 & Hnew & [Eagg Eh]%ret_Some).
    subst aggregated' h2.
    rewrite (run_addNewSeries log10 series h sr Hsr) in Hnew.
    injection Hnew as <- <-.
    pose proof (providersGrow_seeded log10 sr h) as Hgrow.
    assert (Hnot : ∀ m', m' ∈ aggregated → emptyName h m' = true →
                         normalizeName (name sr) ≠ "").
    { intros m' Hm' Hem Hsre. rewrite Forall_forall in Hfind.
      destruct (Hfind m' Hm') as (s' & Hs' & Hd).
      apply (emptyName_record h m' s' Hs') in Hem.
      by rewrite (isDuplicate_empty s' sr Hem Hsre) in Hd. }
    split; [by apply Hwf'|]. split; [exact Hfl'|].
    split; [|split; [exact Hcount'|split; [|split; [exact Hseen'|]]]].
    + apply Forall_app. split.
      * rewrite Forall_forall in Hagg, Hvalid' |- *. intros l Hl.
        split; [by apply Hagg|]. apply Hvalid'. apply elem_of_app. by left.
      * apply Forall_singleton. split; [done|].
        rewrite Forall_forall in Hvalid'. apply Hvalid'.
        apply elem_of_app. right. by apply list_elem_of_singleton.
    + intros l s0 Hl Hs0. destruct (Hkept l s0 Hl Hs0) as (s & Hs & I & N & P).
      exists s. split; [|done]. unfold seeded. simpl.
      by apply lookup_app_l_Some.
    + intros m' l s Hm' Hem' Hl Hs Hse.
      apply elem_of_app in Hm' as [Hm'|Hm'].
      * assert (Hv : is_Some (objects h !! m')).
        { rewrite Forall_forall in Hvalid. by apply Hvalid. }
        assert (Hem : emptyName h m' = true)
          by (by rewrite <- (emptyName_kept h _ m' Hid Hv)).
        eapply hasProvider_grow; [exact Hgrow|].
        eapply Hlisted; [done|done| |done|done].
        eapply Hold; [done..|]. by eapply Hnot.
      * apply list_elem_of_singleton in Hm' as ->.
        assert (Hn : objects (seeded log10 sr h) !! length (objects h)
                     = Some (seedRecord log10 sr (length (arrays h))
                               (length (slugMaps h)) (length (breakdowns h)))).
        { unfold seeded. simpl. rewrite lookup_app_r by done.
          by rewrite Nat.sub_diag. }
        apply (emptyName_record _ _ _ Hn) in Hem'. simpl in Hem'.
        assert (Hl' : l = series).
        { apply elem_of_app in Hl as [Hl|Hl];
            [|by apply list_elem_of_singleton in Hl].
          exfalso. pose proof (Hseen l s Hl Hs Hse) as Hc.
          apply countEmpty_positive in Hc as (m0 & Hm0 & He0).
          by apply (Hnot m0 Hm0 He0). }
        subst l. assert (s = sr0) as -> by congruence. rewrite <- Eid.
        eexists _, (length (arrays h)), [getPrefixFromId (id sr)].
        split; [exact Hn|]. split; [reflexivity|].
        split; [|apply list_elem_of_here].
        unfold seeded. simpl. rewrite lookup_app_r by done.
        by rewrite Nat.sub_diag.
Qed.

Lemma trimStart_unspaced (l : list ascii) :
  Forall (λ c, is_space c = false) l → trimStart l = l.
Proof. destruct 1 as [|c t Hc _]; [done|]. simpl. by rewrite Hc. Qed.

Lemma trim_unspaced (l : list ascii) :
  Forall (λ c, is_space c = false) l → trim l = l.
Proof.
  intros H. unfold trim. rewrite (trimStart_unspaced l H).
  rewrite trimStart_unspaced by (by apply Forall_reverse).
  apply reverse_involutive.
Qed.

Lemma stripped_cases (c : ascii) :
  stripped c = true →
  is_space c = false ∧ lower c = c
  ∧ is_word c || is_space c || Ascii.eqb c "-" = false.
Proof.
  unfold stripped. intros [_ H]%andb_prop. apply negb_true_iff in H.
  split; [|split; [|exact H]].
  - apply orb_false_elim in H as [H _]. by apply orb_false_elim in H as [_ H].
  - apply orb_false_elim in H as [H _]. apply orb_false_elim in H as [H _].
    unfold is_word in H. apply orb_false_elim in H as [H _].
    apply orb_false_elim in H as [H _]. apply orb_false_elim in H as [H _].
    unfold lower. by rewrite H.
Qed.

Lemma lower_stripped (l : list ascii) :
  Forall (λ c, stripped c = true) l → lower <$> l = l.
Proof.
  induction 1 as [|c t Hc _ IH]; [done|]. rewrite fmap_cons, IH.
  by destruct (stripped_cases c Hc) as (_ & -> & _).
Qed.

Lemma filter_stripped (l : list ascii) :
  Forall (λ c, stripped c = true) l →
  filter (λ c, is_word c || is_space c || Ascii.eqb c "-") l = [].
Proof.
  induction 1 as [|c t Hc _ IH]; [done|].
  destruct (stripped_cases c Hc) as (_ & _ & Hk).
  rewrite filter_cons_False; [exact IH|].
  intros Hp. simpl in Hp. rewrite Hk in Hp. exact Hp.
Qed.

(** A missing name, an empty name and a name of stripped characters
    normalise to the empty string. *)
Lemma normalizeName_nameless (name : option string) :
  nameless name → normalizeName name = "".
Proof.
  destruct name as [n|]; [|done]. simpl. intros H.
  destruct (String.eqb n "") eqn:E; [done|].
  rewrite (lower_stripped _ H). rewrite trim_unspaced.
  - by rewrite (filter_stripped _ H).
  - eapply Forall_impl; [exact H|]. intros c Hc.
    by destruct (stripped_cases c Hc) as (? & _).
Qed.

Lemma elem_of_catalogs (providerCatalogs : list (string * list loc)) (l : loc) :
  l ∈ concat (snd <$> providerCatalogs) →
  ∃ pc, pc ∈ providerCatalogs ∧ l ∈ pc.2.
Proof.
  induction providerCatalogs as [|pc more IH]; simpl.
  - intros H. by apply elem_of_nil in H.
  - intros [H|H]%elem_of_app.
    + exists pc. split; [apply list_elem_of_here|done].
    + destruct (IH H) as (pc' & Hpc & Hl). exists pc'.
      split; [by apply list_elem_of_further|done].
Qed.

(** The loop of the aggregation keeps [collapsing]: at its end every
    record of the catalogs has been seen. *)
Lemma collapsing_addCatalogs (log10 : Q -> Q) (getTime : string -> num)
    (providerCatalogs : list (string * list loc)) (h : heap)
    (aggregated : list loc) (h' : heap) :
  wellFormed h →
  Forall (λ pc, Forall (λ l, is_Some (objects h !! l)) pc.2) providerCatalogs →
  unlisted h providerCatalogs →
  addCatalogs log10 getTime [] providerCatalogs h = Some (aggregated, h') →
  collapsing (length (objects h)) h h' aggregated
    (concat (snd <$> providerCatalogs)).
Proof.
  intros Hwf Hvalid Hun Hrun.
  set (all := concat (snd <$> providerCatalogs)).
  assert (Hall : ∀ l, l ∈ all →
            l < length (objects h)
            ∧ ∃ s0, objects h !! l = Some s0 ∧ providers s0 = None).
  { intros l Hl. apply elem_of_catalogs in Hl as (pc & Hpc & Hl).
    rewrite Forall_forall in Hvalid. unfold unlisted in Hun.
    rewrite Forall_forall in Hun.
    pose proof (Hvalid _ Hpc) as Hv. pose proof (Hun _ Hpc) as Hu.
    simpl in Hv, Hu. rewrite Forall_forall in Hv, Hu.
    destruct (Hv l Hl) as [s0 Hs0]. split; [exact (lookup_lt_Some _ _ _ Hs0)|].
    exists s0. split; [done|]. exact (Hu l Hl s0 Hs0). }
  pose (P := λ (h1 : heap) (agg rest : list loc),
          ∃ seen, all = (seen ++ rest)%list
                  ∧ collapsing (length (objects h)) h h1 agg seen).
  assert (HP : P h' aggregated []).
  { eapply (addCatalogs_invariant log10 getTime P); [| |exact Hrun].
    - intros h1 agg series rest agg' h2 (seen & Eall & Hc) Hstep.
      exists (seen ++ [series])%list. split.
      + by rewrite <- app_assoc.
      + destruct (Hall series) as [Hlt Hs0].
        { rewrite Eall. apply elem_of_app. right. apply list_elem_of_here. }
        by eapply collapsing_addSeries.
    - exists []. split; [done|].
      split; [exact Hwf|]. split; [done|]. split; [constructor|].
      split; [unfold countEmpty; simpl; lia|].
      split; [|split].
      + intros l s0 _ Hs0. by exists s0.
      + intros l s Hl. by apply elem_of_nil in Hl.
      + intros m l s Hm. by apply elem_of_nil in Hm. }
  destruct HP as (seen & Eall & Hc). rewrite app_nil_r in Eall.
  by rewrite Eall.
Qed.

(** C9, for the names that do normalise to the empty string.  A missing
    name, an empty name and a name made only of ASCII characters that the
    normalisation strips normalise to the empty string.  Two records
    whose names both normalise to the empty string are duplicates of each
    other (the two normalised names are equal; the similarity of two
    empty strings is [1.0]), so the aggregator collapses all such records
    of all providers into one merged entry: for catalogs of scraped
    records of a well-formed heap it returns, its result holds at most
    one record with such a name, holds one when a catalog has any, and
    that record lists the provider of every record of the catalogs whose
    name normalises to the empty string. *)
Theorem empty_names_are_duplicates (log10 : Q -> Q) (getTime : string -> num)
    (localeCompare : string -> string -> Z) (x y : Series)
    (providerCatalogs : list (string * list loc)) (h : heap) :
  normalizeName (name x) = "" → normalizeName (name y) = "" →
  wellFormed h →
  Forall (λ pc, Forall (λ l, is_Some (objects h !! l)) pc.2) providerCatalogs →
  unlisted h providerCatalogs →
  (∀ name, nameless name → normalizeName name = "")
  ∧ isDuplicate x y = true
  ∧ similarity "" "" = 1%Q
  ∧ ∃ out h',
      aggregateCatalogs log10 getTime localeCompare providerCatalogs h
      = Some (out, h')
      ∧ countEmpty h' out <= 1
      ∧ (Exists (λ pc, Exists (λ l, emptyName h l) pc.2) providerCatalogs →
         countEmpty h' out = 1)
      ∧ ∀ m l s, m ∈ out → emptyName h' m = true →
                 l ∈ concat (snd <$> providerCatalogs) →
                 objects h !! l = Some s → normalizeName (name s) = "" →
                 hasProvider m (getPrefixFromId (id s)) h'.
Proof.
  intros Hx Hy Hwf Hvalid Hun.
  split; [exact normalizeName_nameless|].
  destruct (returns_aggregateCatalogs log10 getTime localeCompare
              providerCatalogs h Hwf Hvalid) as (out & h' & Hrun).
  destruct (empty_names_of_run log10 getTime localeCompare x y
              providerCatalogs h out h' Hx Hy Hrun)
    as (Hdup & Hsim & Hcount & Hone).
  split; [exact Hdup|]. split; [exact Hsim|].
  exists out, h'. split; [exact Hrun|]. split; [exact Hcount|].
  split; [exact Hone|].
  unfold aggregateCatalogs in Hrun.
  apply bind_Some in Hrun as (aggregated & h1 & Hacc & Hsort).
  apply sortAggregated_Some in Hsort as [-> Hperm].
  destruct (collapsing_addCatalogs log10 getTime providerCatalogs h aggregated
              h1 Hwf Hvalid Hun Hacc) as (_ & _ & _ & _ & _ & _ & Hlisted).
  intros m l s Hm. rewrite Hperm in Hm. by apply Hlisted.
Qed.

Lemma empty_names_are_duplicates_witness :
  wellFormed namelessHeap
  ∧ nameless (Some "???")
  ∧ normalizeName (Some "???") = ""
  ∧ isDuplicate (bareSeries "hmm-x" "!!!" None)
      (mkSeries "htv-z" None None None None None None None None None
         None None None None None) = true
  ∧ similarity "" "" = 1%Q
  ∧ ∃ m h',
      aggregateCatalogs log10_sample getTime_sample localeCompare_sample
        [("hmm", [0]); ("hse", [1]); ("htv", [2])] namelessHeap
      = Some ([m], h')
      ∧ countEmpty h' [m] = 1
      ∧ hasProvider m "hmm" h' ∧ hasProvider m "hse" h'
      ∧ hasProvider m "htv" h'.
Proof.
  assert (Hwf : wellFormed namelessHeap) by (repeat constructor).
  assert (Hvalid : Forall (λ pc : string * list loc,
                             Forall (λ l, is_Some (objects namelessHeap !! l))
                               pc.2)
                     [("hmm", [0]); ("hse", [1]); ("htv", [2])]).
  { repeat (apply Forall_cons; split); try apply Forall_nil; simpl; eauto. }
  assert (Hun : unlisted namelessHeap
                  [("hmm", [0]); ("hse", [1]); ("htv", [2])]).
  { repeat (apply Forall_cons; split); try apply Forall_nil.
    all: first [exact I | by intros s [= <-]]. }
  split; [exact Hwf|].
  destruct (empty_names_are_duplicates log10_sample getTime_sample
              localeCompare_sample (bareSeries "hmm-x" "!!!" None)
              (mkSeries "htv-z" None None None None None None None None None
                 None None None None None)
              [("hmm", [0]); ("hse", [1]); ("htv", [2])] namelessHeap
              eq_refl eq_refl Hwf Hvalid Hun)
    as (Hnl & Hdup & Hsim & out & h' & Hrun & _ & Hone & Hprov).
  assert (Hn : nameless (Some "???"))
    by (unfold nameless; simpl; repeat constructor).
  split; [exact Hn|]. split; [exact (Hnl _ Hn)|].
  split; [exact Hdup|]. split; [exact Hsim|].
  assert (Hc : ∃ m hc,
    aggregateCatalogs log10_sample getTime_sample localeCompare_sample
      [("hmm", [0]); ("hse", [1]); ("htv", [2])] namelessHeap = Some ([m], hc)
    ∧ emptyName hc m = true).
  { eexists _, _. split; vm_compute; reflexivity. }
  destruct Hc as (m & hc & Rc & Em).
  assert (out = [m]) as -> by congruence.
  assert (hc = h') as -> by congruence.
  exists m, h'. split; [exact Rc|].
  split; [apply Hone; apply Exists_cons_hd, Exists_cons_hd; reflexivity|].
  assert (Hm : m ∈ [m]) by apply list_elem_of_here.
  split; [|split].
  - apply (Hprov m 0 (bareSeries "hmm-x" "!!!" None) Hm Em);
      [|reflexivity|reflexivity]. apply list_elem_of_here.
  - apply (Hprov m 1 (bareSeries "hse-y" "???" (Some ["Drama"])) Hm Em);
      [|reflexivity|reflexivity].
    apply list_elem_of_further, list_elem_of_here.
  - apply (Hprov m 2 (mkSeries "htv-z" None None None None None None None None
                        None None None None None None) Hm Em);
      [|reflexivity|reflexivity].
    do 2 apply list_elem_of_further. apply list_elem_of_here.
Defined.

(** C9, for the names of its list that do not normalise to the empty
    string.  A name that is a leading article only keeps it (the pattern
    asks for white space after the article), and a name that is an
    episode marker only keeps it (the pattern asks for white space before
    the marker): ["The"] normalises to ["the"] and ["Episode 1"] to
    ["episode 1"].  Two records with these names are not duplicates of
    each other, and the aggregator keeps them in two entries. *)
Lemma article_counterexample :
  normalizeName (Some "The") = "the"
  ∧ normalizeName (Some "Episode 1") = "episode 1"
  ∧ isDuplicate (bareSeries "hmm-a" "The" None)
      (bareSeries "hse-b" "Episode 1" None) = false
  ∧ ∃ out h',
      aggregateCatalogs log10_sample getTime_sample localeCompare_sample
        [("hmm", [0]); ("hse", [1])] articleHeap = Some (out, h')
      ∧ length out = 2 ∧ countEmpty h' out = 0.
Proof.
  split; [reflexivity|]. split; [reflexivity|]. split; [vm_compute; reflexivity|].
  eexists _, _. split; [vm_compute; reflexivity|].
  split; vm_compute; reflexivity.
Qed.

(** C6, at an input where the code departs from it.  A trending entry
    whose raw value is no number is no data: [normalizeRating] gives
    [null] for it, and [createRatingBreakdown] stores it with a [null]
    normalised value.  [calculateWeightedAverage] resolves such an entry
    itself by [Math.min(7.5, normalizeDirectRating(raw))] without the test
    of [normalizeRating]; [normalizeDirectRating] gives [null], which
    [Math.min] reads as [0].  The entry counts as a rating of [0] with the
    weight of its provider, and the result is [0], not the default [6.0]:
    so for [{hse: {raw: NaN, normalized: null, type: 'trending'}}] and for
    a raw value that is a string.  For [{}] and [{hse: null}] the result
    is [6.0]. *)
Theorem calculateWeightedAverage_trending_zero :
  let entry := BInfo (mkRatingInfo (VNum NaN) None (Some "trending")) in
  let text := BInfo (mkRatingInfo (VStr "9") None (Some "trending")) in
  normalizeRating log10_sample (VNum NaN) (VStr "trending") = None
  ∧ createRatingBreakdown log10_sample trendingRatings = {[ "hse" := entry ]}
  ∧ resolveNormalized log10_sample entry = Some (Fin 0)
  ∧ calculateWeightedAverage log10_sample (Some {[ "hse" := entry ]}) = Fin 0
  ∧ normalizeRating log10_sample (VStr "9") (VStr "trending") = None
  ∧ calculateWeightedAverage log10_sample (Some {[ "hse" := text ]}) = Fin 0
  ∧ calculateWeightedAverage log10_sample (Some ∅) = Fin 6
  ∧ calculateWeightedAverage log10_sample (Some {[ "hse" := BNull ]}) = Fin 6.
Proof. vm_compute. repeat split; reflexivity. Qed.
